(** * WaterSimulation: the SPH compute core

    A shallow embedding of the GPU smoothed-particle-hydrodynamics engine of
    the repository: the host class [SPHComputeSystem] (capacity, particle
    upload, fixed-step clock) and the compute shaders [sph_step1.cs] ..
    [sph_step6.cs] that integrate, counting-sort and evaluate the particles.

    Conventions.
    - [uint] / [uint32_t] values are integers in [Z] with the wrap-around
      modulo [2^32] written out ([wrap32]).
    - The [float] values of the shaders and of the particle records are
      idealised as real numbers ([R]); rounding, NaN and infinities of these
      are outside the model.
    - The time accumulator of the host, which decides how many substeps run,
      is kept as the IEEE 754 binary32 number it is ([F32], on the Standard
      Library's [SpecFloat], rounding to nearest even).
    - A parallel dispatch is modelled by the sequence in which its atomic
      operations take effect (a schedule); theorems quantify over schedules. *)

From Stdlib Require Import ZArith List Lia Reals Lra SpecFloat.
From stdpp Require Import gmap list.

(** ** Unsigned 32-bit arithmetic *)

Module U32.
Local Open Scope Z_scope.

Definition modulus : Z := 2 ^ 32.

Definition wrap32 (z : Z) : Z := z mod modulus.

Definition add (a b : Z) : Z := wrap32 (a + b).
Definition sub (a b : Z) : Z := wrap32 (a - b).
Definition mul (a b : Z) : Z := wrap32 (a * b).
Definition div (a b : Z) : Z := a / b.
Definition shl (a n : Z) : Z := wrap32 (Z.shiftl a n).
Definition shr (a n : Z) : Z := Z.shiftr a n.

Definition in_range (z : Z) : Prop := 0 <= z < modulus.

End U32.

(** ** Single-precision floats: IEEE 754 binary32, rounding to nearest even *)

Module F32.

Definition prec : Z := 24.
Definition emax : Z := 128.

Definition float : Type := spec_float.

Definition zero : float := S754_zero false.

Definition add (a b : float) : float := SFadd prec emax a b.
Definition sub (a b : float) : float := SFsub prec emax a b.

(** [a >= b]; false when one of them is a NaN. *)
Definition geb (a b : float) : bool := SFleb b a.

Definition is_finite (a : float) : bool :=
  match a with
  | S754_zero _ | S754_finite _ _ _ => true
  | S754_infinity _ | S754_nan => false
  end.

(** A float in the form binary32 stores: a mantissa of 24 digits, or fewer
    at the least exponent, and an exponent that fits. *)
Definition valid (a : float) : bool := valid_binary prec emax a.

(** The real number a finite float stands for. *)
Definition toR (a : float) : R :=
  match a with
  | S754_finite s m e => (IZR (cond_Zopp s (Z.pos m)) * powerRZ 2 e)%R
  | _ => 0%R
  end.

Arguments add : simpl never.
Arguments sub : simpl never.
Arguments geb : simpl never.

End F32.

(** ** Vectors *)

Record vec3 : Type := Vec3 { vx : R; vy : R; vz : R }.

Module V.
Local Open Scope R_scope.

Definition zero : vec3 := Vec3 0 0 0.
Definition splat (a : R) : vec3 := Vec3 a a a.
Definition add (a b : vec3) : vec3 := Vec3 (vx a + vx b) (vy a + vy b) (vz a + vz b).
Definition sub (a b : vec3) : vec3 := Vec3 (vx a - vx b) (vy a - vy b) (vz a - vz b).
Definition scale (a : vec3) (k : R) : vec3 := Vec3 (vx a * k) (vy a * k) (vz a * k).
Definition divs (a : vec3) (k : R) : vec3 := Vec3 (vx a / k) (vy a / k) (vz a / k).
Definition dot (a b : vec3) : R := vx a * vx b + vy a * vy b + vz a * vz b.

(** GLSL [length]. *)
Definition length (a : vec3) : R := sqrt (dot a a).

End V.

(** ** Particle records and the SPH constants (SPHComputeSystem.h) *)

Record SPHParticleCompute : Type := Particle {
  position : vec3;
  density  : R;
  velocity : vec3;
  pressure : R
}.

Module SPHConstants.
Local Open Scope R_scope.

Definition PARTICLE_RADIUS : R := 457 / 10000.
Definition KERNEL_RADIUS : R := PARTICLE_RADIUS * 4.
Definition CELL_SIZE : R := PARTICLE_RADIUS * 4.
Definition MASS : R := 2 / 100.
Definition REST_DENSITY : R := 99827 / 100.
Definition STIFFNESS : R := 250.
Definition REST_PRESSURE : R := 0.
Definition VIS_COEFF : R := 35 / 1000.
Definition DT : R := 12 / 10000.

(** [DT] as the [float] the host computes with: the literal [0.0012f] is
    the binary32 number 10307922 * 2^-33. *)
Definition DT_f32 : F32.float := S754_finite false 10307922 (-33).

End SPHConstants.

(** ** The host class SPHComputeSystem (SPHComputeSystem.cpp) *)

Module Host.
Local Open Scope Z_scope.

(** GL commands issued by [update]; what a dispatch does to device memory is
    given by the shader models further down. *)
Inductive GLCall : Type :=
  | ClearTexImage
  | RunSimulationPass (pass : Z).

(** The members of the class that the simulation logic reads or writes.
    [particleBuffers_] holds the contents of the two device buffers. *)
Record System : Type := MkSystem {
  numParticles_    : Z;
  maxParticles_    : Z;
  currentBuffer_   : Z;
  particleBuffers_ : list SPHParticleCompute * list SPHParticleCompute;
  boxMin_          : vec3;
  boxMax_          : vec3;
  spherePosition_  : vec3;
  sphereImpulse_   : vec3;
  sphereRadius_    : R;
  sphereActive_    : bool;
  accumulatedTime_ : F32.float;
  simStepProgram_  : Z -> Z;
  glCalls          : list GLCall
}.

Definition set_numParticles (n : Z) (s : System) : System :=
  MkSystem n (maxParticles_ s) (currentBuffer_ s) (particleBuffers_ s)
    (boxMin_ s) (boxMax_ s) (spherePosition_ s) (sphereImpulse_ s)
    (sphereRadius_ s) (sphereActive_ s) (accumulatedTime_ s)
    (simStepProgram_ s) (glCalls s).

Definition set_capacity (n : Z) (bmin bmax : vec3)
    (bufs : list SPHParticleCompute * list SPHParticleCompute) (s : System) : System :=
  MkSystem (numParticles_ s) n (currentBuffer_ s) bufs
    bmin bmax (spherePosition_ s) (sphereImpulse_ s)
    (sphereRadius_ s) (sphereActive_ s) (accumulatedTime_ s)
    (simStepProgram_ s) (glCalls s).

Definition set_buffers (bufs : list SPHParticleCompute * list SPHParticleCompute)
    (s : System) : System :=
  MkSystem (numParticles_ s) (maxParticles_ s) (currentBuffer_ s) bufs
    (boxMin_ s) (boxMax_ s) (spherePosition_ s) (sphereImpulse_ s)
    (sphereRadius_ s) (sphereActive_ s) (accumulatedTime_ s)
    (simStepProgram_ s) (glCalls s).

Definition set_currentBuffer (b : Z) (s : System) : System :=
  MkSystem (numParticles_ s) (maxParticles_ s) b (particleBuffers_ s)
    (boxMin_ s) (boxMax_ s) (spherePosition_ s) (sphereImpulse_ s)
    (sphereRadius_ s) (sphereActive_ s) (accumulatedTime_ s)
    (simStepProgram_ s) (glCalls s).

Definition set_sphere (p i : vec3) (r : R) (a : bool) (s : System) : System :=
  MkSystem (numParticles_ s) (maxParticles_ s) (currentBuffer_ s) (particleBuffers_ s)
    (boxMin_ s) (boxMax_ s) p i r a (accumulatedTime_ s)
    (simStepProgram_ s) (glCalls s).

Definition set_accumulatedTime (t : F32.float) (s : System) : System :=
  MkSystem (numParticles_ s) (maxParticles_ s) (currentBuffer_ s) (particleBuffers_ s)
    (boxMin_ s) (boxMax_ s) (spherePosition_ s) (sphereImpulse_ s)
    (sphereRadius_ s) (sphereActive_ s) t
    (simStepProgram_ s) (glCalls s).

Definition log_call (c : GLCall) (s : System) : System :=
  MkSystem (numParticles_ s) (maxParticles_ s) (currentBuffer_ s) (particleBuffers_ s)
    (boxMin_ s) (boxMax_ s) (spherePosition_ s) (sphereImpulse_ s)
    (sphereRadius_ s) (sphereActive_ s) (accumulatedTime_ s)
    (simStepProgram_ s) (glCalls s ++ [c]).

(** The buffer [particleBuffers_[currentBuffer_]]. *)
Definition currentParticles (s : System) : list SPHParticleCompute :=
  if currentBuffer_ s =? 0 then fst (particleBuffers_ s) else snd (particleBuffers_ s).

(** [glNamedBufferSubData] on a buffer of records: the range
    [offset, offset + |data|) is overwritten; a range that leaves the buffer
    is a GL error and writes nothing. *)
Definition bufferSubData (offset : Z) (data buf : list SPHParticleCompute)
    : list SPHParticleCompute :=
  if (0 <=? offset) && (offset + Z.of_nat (length data) <=? Z.of_nat (length buf)) then
    take (Z.to_nat offset) buf ++ data
      ++ drop (Z.to_nat offset + length data) buf
  else buf.

Definition uploadCurrent (offset : Z) (data : list SPHParticleCompute) (s : System) : System :=
  let '(b0, b1) := particleBuffers_ s in
  if currentBuffer_ s =? 0
  then set_buffers (bufferSubData offset data b0, b1) s
  else set_buffers (b0, bufferSubData offset data b1) s.

(** The record built for particle [i] in [addParticles]. *)
Definition newParticle (p v : vec3) : SPHParticleCompute :=
  Particle p SPHConstants.REST_DENSITY v 0%R.

(** [SPHComputeSystem::addParticles].  [std::vector::resize] is stdpp's
    [resize] with the value-initialised element. *)
Definition addParticles (positions velocities : list vec3) (s : System) : System :=
  if negb (Nat.eqb (length positions) (length velocities)) then s
  else
    let upload (finalPositions finalVelocities : list vec3) :=
      let particles := zip_with newParticle finalPositions finalVelocities in
      let s1 := uploadCurrent (numParticles_ s) particles s in
      set_numParticles
        (U32.add (numParticles_ s) (U32.wrap32 (Z.of_nat (length finalPositions)))) s1 in
    if numParticles_ s + Z.of_nat (length positions) >? maxParticles_ s then
      let maxToAdd := U32.sub (maxParticles_ s) (numParticles_ s) in
      if maxToAdd =? 0 then s
      else upload (resize (Z.to_nat maxToAdd) V.zero positions)
                  (resize (Z.to_nat maxToAdd) V.zero velocities)
    else upload positions velocities.

(** [SPHComputeSystem::reset].  [block] stands for the positions enumerated
    by the three nested dam-break loops (cut at [maxParticles_]); every
    velocity is zero. *)
Definition reset (block : list vec3) (s : System) : System :=
  addParticles block (map (fun _ => V.zero) block) (set_numParticles 0 s).

(** [SPHComputeSystem::initialize], restricted to the members above.
    [createBuffers] allocates two buffers of [maxParticles_] records whose
    contents GL leaves unspecified; [fill] is the record they happen to
    hold. *)
Definition initialize (numParticles : Z) (boxMin boxMax : vec3)
    (fill : SPHParticleCompute) (block : list vec3) (s : System) : System :=
  let minParticles := Z.max numParticles 50000 in
  let maxParticles := U32.mul (U32.div (U32.add minParticles 511) 512) 512 in
  let buf := replicate (Z.to_nat maxParticles) fill in
  reset block (set_capacity maxParticles boxMin boxMax (buf, buf) s).

(** [SPHComputeSystem::applyImpulse]. *)
Definition applyImpulse (p i : vec3) (radius : R) (s : System) : System :=
  set_sphere p i radius true s.

Definition swapBuffers (s : System) : System :=
  set_currentBuffer (1 - currentBuffer_ s) s.

(** [SPHComputeSystem::runSimulationPass]: the host-side effects of a pass.
    A pass whose program handle is zero is skipped. *)
Definition runSimulationPass (pass : Z) (s : System) : System :=
  let s := log_call (RunSimulationPass pass) s in
  if simStepProgram_ s pass =? 0 then s
  else if pass =? 1 then
    if sphereActive_ s
    then set_sphere (spherePosition_ s) V.zero (sphereRadius_ s) false s
    else s
  else if pass =? 3 then swapBuffers s
  else s.

(** The dispatch of passes 1 and 3: [(numParticles_ + 31) / 32] work groups
    of 32 invocations, listed in ascending order of [gl_GlobalInvocationID]. *)
Definition particleWorkGroups (s : System) : Z :=
  U32.div (U32.add (numParticles_ s) 31) 32.

Definition particleInvocations (s : System) : list nat :=
  seq 0 (Z.to_nat (32 * particleWorkGroups s)).

(** One iteration of the [while] loop of [update], without the decrement of
    the accumulator. *)
Definition substep (s : System) : System :=
  let s := log_call ClearTexImage s in
  let s := runSimulationPass 1 s in
  let s := runSimulationPass 2 s in
  let s := runSimulationPass 3 s in
  let s := runSimulationPass 4 s in
  let s := runSimulationPass 5 s in
  runSimulationPass 6 s.

(** The body of the [while] loop of [update]; [accumulatedTime_ -= DT] is
    a binary32 subtraction. *)
Definition loopBody (s : System) : System :=
  let s1 := substep s in
  set_accumulatedTime (F32.sub (accumulatedTime_ s1) SPHConstants.DT_f32) s1.

(** [while (accumulatedTime_ >= DT) { ...; accumulatedTime_ -= DT; }],
    one unit of fuel per iteration. *)
Fixpoint update_loop (fuel : nat) (s : System) : option System :=
  if F32.geb (accumulatedTime_ s) SPHConstants.DT_f32 then
    match fuel with
    | O => None
    | S fuel' => update_loop fuel' (loopBody s)
    end
  else Some s.

(** [SPHComputeSystem::update] (the debug printing reads only);
    [accumulatedTime_ += deltaTime] is a binary32 addition. *)
Definition update (fuel : nat) (deltaTime : F32.float) (s : System) : option System :=
  if numParticles_ s =? 0 then Some s
  else update_loop fuel (set_accumulatedTime (F32.add (accumulatedTime_ s) deltaTime) s).

(** The accumulator after [k] executions of [accumulatedTime_ -= DT]. *)
Definition drained (k : nat) (t : F32.float) : F32.float :=
  Nat.iter k (fun t => F32.sub t SPHConstants.DT_f32) t.

(** The GL commands of one substep. *)
Definition substepCalls : list GLCall :=
  [ClearTexImage; RunSimulationPass 1; RunSimulationPass 2; RunSimulationPass 3;
   RunSimulationPass 4; RunSimulationPass 5; RunSimulationPass 6].

(** A freshly constructed object (the constructor's initialiser list),
    with every program handle set to [prog]. *)
Definition constructed (prog : Z) : System :=
  MkSystem 0 0 0 ([], []) V.zero V.zero V.zero V.zero 0%R false F32.zero
    (fun _ => prog) [].

End Host.

(** ** The grid image: one [r32ui] texel per cell *)

Abbreviation ivec3 := (Z * Z * Z)%type.

Module Image.
Local Open Scope Z_scope.

(** A [uimage3D]: its size and its texels; a texel that was never written
    after the clear holds 0. *)
Record uimage3D : Type := MkImage {
  imageSize : ivec3;
  texels    : gmap ivec3 Z
}.

Definition inBounds (size c : ivec3) : bool :=
  let '(sx, sy, sz) := size in
  let '(x, y, z) := c in
  (0 <=? x) && (x <? sx) && (0 <=? y) && (y <? sy) && (0 <=? z) && (z <? sz).

(** [glClearTexImage] with value 0. *)
Definition cleared (size : ivec3) : uimage3D := MkImage size ∅.

(** Image access outside the image: loads return 0, stores and atomics are
    discarded. *)
Definition imageLoad (g : uimage3D) (c : ivec3) : Z :=
  if inBounds (imageSize g) c then default 0 (texels g !! c) else 0.

Definition imageStore (g : uimage3D) (c : ivec3) (v : Z) : uimage3D :=
  if inBounds (imageSize g) c then MkImage (imageSize g) (<[c := v]> (texels g)) else g.

(** Returns the new image and the value before the addition. *)
Definition imageAtomicAdd (g : uimage3D) (c : ivec3) (d : Z) : uimage3D * Z :=
  let old := imageLoad g c in
  (imageStore g c (U32.add old d), old).

(** The packed cell word: offset in the upper 24 bits, count in the lower 8. *)
Definition cellOffset (word : Z) : Z := U32.shr word 8.
Definition cellCount (word : Z) : Z := Z.land word 255.

End Image.

(** ** Uniforms shared by the simulation shaders *)

Record Uniforms : Type := MkUniforms {
  uDT             : R;
  uGravity        : vec3;
  uGridOrigin     : vec3;
  uGridSize       : vec3;
  uInvCellSize    : vec3;
  uGridRes        : ivec3;
  uSpherePosition : vec3;
  uSphereImpulse  : vec3;
  uSphereRadius   : R;
  uSphereActive   : Z
}.

Module Glsl.

(** Conversion of a [float] to [int]: truncation toward zero. *)
Definition truncate (x : R) : Z :=
  if Rle_dec 0 x then Int_part x else (- Int_part (- x))%Z.

(** [ivec3(uInvCellSize * (position - uGridOrigin))], as every pass computes
    the cell of a position. *)
Definition voxelOf (u : Uniforms) (pos : vec3) : ivec3 :=
  let d := V.sub pos (uGridOrigin u) in
  (truncate (vx (uInvCellSize u) * vx d),
   truncate (vy (uInvCellSize u) * vy d),
   truncate (vz (uInvCellSize u) * vz d)).

(** A read past the end of a storage buffer yields zeros. *)
Definition zeroParticle : SPHParticleCompute := Particle V.zero 0 V.zero 0.

Definition fetch (particles : list SPHParticleCompute) (i : nat) : SPHParticleCompute :=
  default zeroParticle (particles !! i).

End Glsl.

(** ** Pass 1: sph_step1.cs, integration and per-cell counting *)

Module Step1.
Local Open Scope R_scope.

Definition SAFE_BOUNDS : R := 5 / 10.
Definition wallDamping : R := 5 / 10.

(** The two assignments to [impulseStrength]: quadratic falloff. *)
Definition impulseStrength (u : Uniforms) (distToSphere : R) : R :=
  let impulseStrength := 1 - distToSphere / uSphereRadius u in
  impulseStrength * impulseStrength.

(** The impulse of the external interaction request on a particle at
    [pos]: the block [if (uSphereActive != 0) { ... }]. *)
Definition sphereImpulse (u : Uniforms) (pos newVelo : vec3) : vec3 :=
  if Z.eqb (uSphereActive u) 0 then newVelo
  else
    let toSphere := V.sub (uSpherePosition u) pos in
    let distToSphere := V.length toSphere in
    if Rle_dec distToSphere (uSphereRadius u) then
      if Rgt_dec distToSphere (1 / 1000) then
        V.add newVelo
          (V.scale (V.scale (uSphereImpulse u) (impulseStrength u distToSphere)) (uDT u))
      else newVelo
    else newVelo.

(** The two wall tests of one axis, in source order: first the low bound,
    then the high bound on the result. *)
Definition bounce (boundsL boundsH : R) (vp : R * R) : R * R :=
  let '(velo, pos) := vp in
  let '(velo, pos) :=
    if Rlt_dec pos boundsL then (velo * - wallDamping, boundsL) else (velo, pos) in
  if Rgt_dec pos boundsH then (velo * - wallDamping, boundsH) else (velo, pos).

(** [newVelo] and [newPos] as they stand before the wall tests, and the
    two bounds. *)
Definition preWallVelocity (u : Uniforms) (particle : SPHParticleCompute) : vec3 :=
  sphereImpulse u (position particle)
    (V.add (velocity particle) (V.scale (uGravity u) (uDT u))).

Definition preWallPosition (u : Uniforms) (particle : SPHParticleCompute) : vec3 :=
  V.add (position particle) (V.scale (preWallVelocity u particle) (uDT u)).

Definition boundsL (u : Uniforms) : vec3 := V.add (uGridOrigin u) (V.splat SAFE_BOUNDS).

Definition boundsH (u : Uniforms) : vec3 :=
  V.sub (V.add (uGridOrigin u) (uGridSize u)) (V.splat SAFE_BOUNDS).

(** The kinematic part of [main]: the record written back to
    [particles[particleId]]. *)
Definition integrate (u : Uniforms) (particle : SPHParticleCompute) : SPHParticleCompute :=
  let newVelo := preWallVelocity u particle in
  let newPos := preWallPosition u particle in
  let boundsL := boundsL u in
  let boundsH := boundsH u in
  let '(velx, posx) := bounce (vx boundsL) (vx boundsH) (vx newVelo, vx newPos) in
  let '(vely, posy) := bounce (vy boundsL) (vy boundsH) (vy newVelo, vy newPos) in
  let '(velz, posz) := bounce (vz boundsL) (vz boundsH) (vz newVelo, vz newPos) in
  Particle (Vec3 posx posy posz) (density particle) (Vec3 velx vely velz) (pressure particle).

(** One invocation of [main]. *)
Definition main (u : Uniforms) (particleId : nat)
    (st : list SPHParticleCompute * Image.uimage3D) : list SPHParticleCompute * Image.uimage3D :=
  let '(particles, grid) := st in
  match particles !! particleId with
  | None => st
  | Some particle =>
      let particle := integrate u particle in
      let particles := <[particleId := particle]> particles in
      let voxelCoord := Glsl.voxelOf u (position particle) in
      if Image.inBounds (Image.imageSize grid) voxelCoord
      then (particles, fst (Image.imageAtomicAdd grid voxelCoord 1))
      else (particles, grid)
  end.

(** A dispatch: the invocations in the order in which they take effect. *)
Definition dispatch (u : Uniforms) (schedule : list nat)
    (st : list SPHParticleCompute * Image.uimage3D) : list SPHParticleCompute * Image.uimage3D :=
  fold_left (fun st particleId => main u particleId st) schedule st.

End Step1.

(** ** Pass 2: sph_step2.cs, offset assignment *)

Module Step2.
Local Open Scope Z_scope.

(** First phase of a work group: each invocation loads its cell word and
    fetch-and-adds it to [localParticleCount].  [voxels] lists the
    invocations of the group in the order of their [atomicAdd]; the result
    pairs each cell with its [localParticleOffset]. *)
Fixpoint localOffsets (grid : Image.uimage3D) (voxels : list ivec3) (localParticleCount : Z)
    : list (ivec3 * Z) * Z :=
  match voxels with
  | [] => ([], localParticleCount)
  | voxelId :: rest =>
      let voxelParticleCount := Image.imageLoad grid voxelId in
      let localParticleOffset := localParticleCount in
      let '(offs, total) :=
        localOffsets grid rest (U32.add localParticleCount voxelParticleCount) in
      ((voxelId, localParticleOffset) :: offs, total)
  end.

(** Last phase: every invocation stores [globalParticleOffset << 8]. *)
Definition storeOffsets (globalParticleBaseOffset : Z) (offs : list (ivec3 * Z))
    (grid : Image.uimage3D) : Image.uimage3D :=
  fold_left
    (fun g '(voxelId, localParticleOffset) =>
       let globalParticleOffset := U32.add globalParticleBaseOffset localParticleOffset in
       Image.imageStore g voxelId (U32.shl globalParticleOffset 8))
    offs grid.

(** One work group; the state is [globalParticleCount] and the grid. *)
Definition workGroup (voxels : list ivec3) (st : Z * Image.uimage3D) : Z * Image.uimage3D :=
  let '(globalParticleCount, grid) := st in
  let '(offs, localParticleCount) := localOffsets grid voxels 0 in
  let globalParticleBaseOffset := globalParticleCount in
  (U32.add globalParticleCount localParticleCount,
   storeOffsets globalParticleBaseOffset offs grid).

(** A dispatch: the work groups in the order of their [atomicAdd] on
    [globalParticleCount], which the host cleared to 0. *)
Definition dispatch (schedule : list (list ivec3)) (grid : Image.uimage3D) : Z * Image.uimage3D :=
  fold_left (fun st voxels => workGroup voxels st) schedule (0, grid).

(** Every cell of the image is handled by exactly one invocation. *)
Definition validSchedule (size : ivec3) (schedule : list (list ivec3)) : Prop :=
  NoDup (concat schedule) /\
  forall c, Image.inBounds size c = true -> c ∈ concat schedule.

(** The integers [0, n). *)
Definition range (n : Z) : list Z := Z.of_nat <$> seq 0 (Z.to_nat n).

(** The 4 x 4 x 4 invocations of work group [wg], by ascending
    [gl_LocalInvocationIndex]. *)
Definition workGroupVoxels (wg : ivec3) : list ivec3 :=
  let '(wx, wy, wz) := wg in
  lz ← range 4; ly ← range 4; lx ← range 4;
  [(4 * wx + lx, 4 * wy + ly, 4 * wz + lz)].

(** The work groups of
    [glDispatchCompute((gridDim_.x + 3) / 4, (gridDim_.y + 3) / 4, (gridDim_.z + 3) / 4)]. *)
Definition workGroupIds (gridDim : ivec3) : list ivec3 :=
  let '(dx, dy, dz) := gridDim in
  wz ← range ((dz + 3) / 4); wy ← range ((dy + 3) / 4); wx ← range ((dx + 3) / 4);
  [(wx, wy, wz)].

(** The schedule in which groups and invocations take effect in ascending
    order of their ids; any other interleaving permutes it. *)
Definition ascendingSchedule (gridDim : ivec3) : list (list ivec3) :=
  workGroupVoxels <$> workGroupIds gridDim.

End Step2.

(** ** Pass 3: sph_step3.cs, scatter reorder *)

Module Step3.
Local Open Scope Z_scope.

(** One invocation of [main]; the state is the output buffer and the grid. *)
Definition main (u : Uniforms) (inParticles : list SPHParticleCompute) (inParticleId : nat)
    (st : list SPHParticleCompute * Image.uimage3D) : list SPHParticleCompute * Image.uimage3D :=
  let '(outParticles, grid) := st in
  match inParticles !! inParticleId with
  | None => st
  | Some particle =>
      let voxelCoord := Glsl.voxelOf u (position particle) in
      let '(grid, voxelValue) := Image.imageAtomicAdd grid voxelCoord 1 in
      let offset := Image.cellOffset voxelValue in
      let count := Image.cellCount voxelValue in
      let outParticleId := U32.add offset count in
      if outParticleId <? Z.of_nat (length outParticles)
      then (<[Z.to_nat outParticleId := particle]> outParticles, grid)
      else (outParticles, grid)
  end.

Definition dispatch (u : Uniforms) (inParticles : list SPHParticleCompute) (schedule : list nat)
    (st : list SPHParticleCompute * Image.uimage3D) : list SPHParticleCompute * Image.uimage3D :=
  fold_left (fun st inParticleId => main u inParticles inParticleId st) schedule st.

End Step3.

(** The grid-building part of one substep: clear, pass 1, pass 2, pass 3.
    The result is the integrated input buffer, the reordered output buffer
    and the grid. *)
Definition buildGrid (u : Uniforms) (size : ivec3)
    (schedule1 : list nat) (schedule2 : list (list ivec3)) (schedule3 : list nat)
    (particles outParticles : list SPHParticleCompute)
    : list SPHParticleCompute * list SPHParticleCompute * Image.uimage3D :=
  let '(particles1, grid1) := Step1.dispatch u schedule1 (particles, Image.cleared size) in
  let '(_, grid2) := Step2.dispatch schedule2 grid1 in
  let '(outParticles3, grid3) := Step3.dispatch u particles1 schedule3 (outParticles, grid2) in
  (particles1, outParticles3, grid3).

(** ** The 27-cell neighbour walk of sph_step5.cs and sph_step6.cs *)

Module Stencil.
Local Open Scope Z_scope.

Definition NEIGHBORHOOD_LUT : list ivec3 :=
  [ (-1, -1, -1); (0, -1, -1); (1, -1, -1);
    (-1, -1,  0); (0, -1,  0); (1, -1,  0);
    (-1, -1,  1); (0, -1,  1); (1, -1,  1);
    (-1,  0, -1); (0,  0, -1); (1,  0, -1);
    (-1,  0,  0); (0,  0,  0); (1,  0,  0);
    (-1,  0,  1); (0,  0,  1); (1,  0,  1);
    (-1,  1, -1); (0,  1, -1); (1,  1, -1);
    (-1,  1,  0); (0,  1,  0); (1,  1,  0);
    (-1,  1,  1); (0,  1,  1); (1,  1,  1) ].

Definition addv (a b : ivec3) : ivec3 :=
  let '(ax, ay, az) := a in
  let '(bx, b_y, bz) := b in
  (ax + bx, ay + b_y, az + bz).

(** [any(lessThan(v, ivec3(0))) || any(greaterThanEqual(v, uGridRes))] *)
Definition outside (res v : ivec3) : bool :=
  let '(rx, ry, rz) := res in
  let '(x, y, z) := v in
  ((x <? 0) || (y <? 0) || (z <? 0)) || ((rx <=? x) || (ry <=? y) || (rz <=? z)).

Section Walk.
Context {A : Type}.
(** The loop body after [otherParticleId] is known; a [continue] leaves the
    accumulator as it is. *)
Variable visit : Z -> A -> A.
Variable grid : Image.uimage3D.
Variable res : ivec3.
Variable voxelId : ivec3.

(** [while (voxelCount < 27 || voxelParticleCount > 0) { ... }]; one unit
    of fuel per iteration. *)
Fixpoint walk (fuel : nat) (voxelCount : nat) (voxelParticleCount voxelParticleOffset : Z)
    (acc : A) : option A :=
  if (Nat.ltb voxelCount 27) || (0 <? voxelParticleCount) then
    match fuel with
    | O => None
    | S fuel =>
        let body voxelCount voxelParticleCount voxelParticleOffset :=
          let voxelParticleCount := U32.sub voxelParticleCount 1 in
          let otherParticleId := U32.add voxelParticleOffset voxelParticleCount in
          walk fuel voxelCount voxelParticleCount voxelParticleOffset
            (visit otherParticleId acc) in
        if voxelParticleCount =? 0 then
          let newVoxelId := addv voxelId (nth voxelCount NEIGHBORHOOD_LUT (0, 0, 0)) in
          let voxelCount := S voxelCount in
          if outside res newVoxelId
          then walk fuel voxelCount voxelParticleCount voxelParticleOffset acc
          else
            let voxelValue := Image.imageLoad grid newVoxelId in
            let voxelParticleOffset := Image.cellOffset voxelValue in
            let voxelParticleCount := Image.cellCount voxelValue in
            if voxelParticleCount =? 0
            then walk fuel voxelCount voxelParticleCount voxelParticleOffset acc
            else body voxelCount voxelParticleCount voxelParticleOffset
        else body voxelCount voxelParticleCount voxelParticleOffset
    end
  else Some acc.

(** The particles of one cell in the order the loop meets them: from
    [offset + count - 1] down to [offset]. *)
Definition cellCandidates (voxelValue : Z) : list Z :=
  map (fun k => U32.add (Image.cellOffset voxelValue) (Z.of_nat k))
      (rev (seq 0 (Z.to_nat (Image.cellCount voxelValue)))).

(** All [otherParticleId] the loop meets over the stencil entries [lut], in
    order. *)
Definition candidatesFrom (lut : list ivec3) : list Z :=
  flat_map
    (fun d =>
       let newVoxelId := addv voxelId d in
       if outside res newVoxelId then []
       else cellCandidates (Image.imageLoad grid newVoxelId))
    lut.

Definition candidates : list Z := candidatesFrom NEIGHBORHOOD_LUT.

(** Fuel that always suffices: 27 cells of at most 255 particles. *)
Definition enoughFuel : nat := 27 * 256.

End Walk.
End Stencil.

(** ** Pass 5: sph_step5.cs, density and pressure *)

Module Step5.
Local Open Scope R_scope.

Definition MASS : R := 2 / 100.
Definition KERNEL_RADIUS : R := 1828 / 10000.
Definition PI_LITERAL : R := 314159265 / 100000000.
Definition POLY6_KERNEL_WEIGHT_CONST : R := 315 / (64 * PI_LITERAL * KERNEL_RADIUS ^ 9).
Definition STIFFNESS_K : R := 250.
Definition REST_DENSITY : R := 99827 / 100.
Definition REST_PRESSURE : R := 0.

(** The Poly6 weight at distance [rLen] (the source computes it inline). *)
Definition weight (rLen : R) : R :=
  (KERNEL_RADIUS * KERNEL_RADIUS - rLen * rLen) ^ 3 * POLY6_KERNEL_WEIGHT_CONST.

(** The loop body for one [otherParticleId]. *)
Definition accumulate (particles : list SPHParticleCompute) (particle : SPHParticleCompute)
    (otherParticleId : Z) (density : R) : R :=
  let otherParticlePos := position (Glsl.fetch particles (Z.to_nat otherParticleId)) in
  let r := V.sub (position particle) otherParticlePos in
  let rLen := V.length r in
  if Rge_dec rLen KERNEL_RADIUS then density
  else density + MASS * weight rLen.

(** One invocation of [main]: the buffer after the invocation, or [None]
    when the fuel does not suffice for the loop. *)
Definition main (fuel : nat) (u : Uniforms) (grid : Image.uimage3D)
    (particles : list SPHParticleCompute) (particleId : nat)
    : option (list SPHParticleCompute) :=
  match particles !! particleId with
  | None => Some particles
  | Some particle =>
      let voxelId := Glsl.voxelOf u (position particle) in
      match Stencil.walk (accumulate particles particle) grid (uGridRes u) voxelId
              fuel 0 0%Z 0%Z 0 with
      | None => None
      | Some density =>
          let pressure := REST_PRESSURE + STIFFNESS_K * (density - REST_DENSITY) in
          Some (<[particleId :=
                    Particle (position particle) density (velocity particle) pressure]>
                  particles)
      end
  end.

End Step5.

(** ** Pass 6: sph_step6.cs, forces *)

Module Step6.
Local Open Scope R_scope.

Definition MASS : R := 2 / 100.
Definition KERNEL_RADIUS : R := 1828 / 10000.
Definition VIS_COEFF : R := 35 / 1000.
Definition PI_LITERAL : R := 314159265 / 100000000.
Definition SPIKY_KERNEL_WEIGHT_CONST : R := 15 / (PI_LITERAL * KERNEL_RADIUS ^ 6).
Definition VIS_KERNEL_WEIGHT_CONST : R := 45 / (PI_LITERAL * KERNEL_RADIUS ^ 6).
Definition MIN_DISTANCE : R := 1 / 10000.

(** A division whose divisor is zero yields an infinity or a NaN in the
    shader; the model makes that outcome explicit as [None]. *)
Definition divide (a : vec3) (d : R) : option vec3 :=
  if Req_dec_T d 0 then None else Some (V.divs a d).

(** The accumulators [forcePressure] and [forceViscosity]. *)
Definition Forces : Type := (vec3 * vec3)%type.

(** The loop body for one [otherParticleId]; [None] once a division by zero
    has happened. *)
Definition accumulate (particles : list SPHParticleCompute) (particleId : Z)
    (particle : SPHParticleCompute) (otherParticleId : Z) (acc : option Forces)
    : option Forces :=
  match acc with
  | None => None
  | Some (forcePressure, forceViscosity) =>
      if Z.eqb otherParticleId particleId then acc
      else
        let otherParticle := Glsl.fetch particles (Z.to_nat otherParticleId) in
        let r := V.sub (position particle) (position otherParticle) in
        let rLen := V.length r in
        if Rge_dec rLen KERNEL_RADIUS then acc
        else if Rle_dec rLen MIN_DISTANCE then acc
        else
          match divide r rLen with
          | None => None
          | Some dir =>
              let weightPressure :=
                V.scale dir (SPIKY_KERNEL_WEIGHT_CONST * (KERNEL_RADIUS - rLen) ^ 2) in
              let pressure := pressure particle + pressure otherParticle in
              match divide (V.scale weightPressure (MASS * pressure))
                           (2 * density otherParticle) with
              | None => None
              | Some dP =>
                  let weightVis := VIS_KERNEL_WEIGHT_CONST * (KERNEL_RADIUS - rLen) in
                  let velocityDiff := V.sub (velocity otherParticle) (velocity particle) in
                  match divide (V.scale velocityDiff (MASS * weightVis))
                               (density otherParticle) with
                  | None => None
                  | Some dV => Some (V.sub forcePressure dP, V.add forceViscosity dV)
                  end
              end
          end
  end.

Definition maxVel : R := 50.

(** The tail of [main]: gravity, acceleration, Euler step and the velocity
    clamp. *)
Definition integrateForces (u : Uniforms) (particle : SPHParticleCompute) (f : Forces)
    : option SPHParticleCompute :=
  let '(forcePressure, forceViscosity) := f in
  let forceGravity := V.scale (uGravity u) (density particle) in
  let totalForce := V.add (V.add (V.scale forceViscosity VIS_COEFF) forcePressure) forceGravity in
  match divide totalForce (density particle) with
  | None => None
  | Some acceleration =>
      let velo := V.add (velocity particle) (V.scale acceleration (uDT u)) in
      let velo :=
        if Rgt_dec (V.length velo) maxVel
        then V.scale (V.divs velo (V.length velo)) maxVel
        else velo in
      Some (Particle (position particle) (density particle) velo (pressure particle))
  end.

(** The outcome of one invocation. *)
Inductive Outcome : Type :=
  | Written (particles : list SPHParticleCompute)
  | NotFinite
  | OutOfFuel.

(** One invocation of [main]. *)
Definition main (fuel : nat) (u : Uniforms) (grid : Image.uimage3D)
    (particles : list SPHParticleCompute) (particleId : nat) : Outcome :=
  match particles !! particleId with
  | None => Written particles
  | Some particle =>
      let voxelId := Glsl.voxelOf u (position particle) in
      match Stencil.walk (accumulate particles (Z.of_nat particleId) particle)
              grid (uGridRes u) voxelId fuel 0 0%Z 0%Z (Some (V.zero, V.zero)) with
      | None => OutOfFuel
      | Some None => NotFinite
      | Some (Some f) =>
          match integrateForces u particle f with
          | None => NotFinite
          | Some particle => Written (<[particleId := particle]> particles)
          end
      end
  end.

End Step6.

(** ** Vocabulary for the counting sort *)

Module Sort.
Local Open Scope Z_scope.

(** The cell of every particle a pass-1 schedule processes, after its
    integration, in schedule order.  Invocations past the end of the buffer
    process nothing. *)
Definition integratedCells (u : Uniforms) (particles : list SPHParticleCompute)
    (schedule : list nat) : list ivec3 :=
  omap (fun i => (fun p => Glsl.voxelOf u (position (Step1.integrate u p))) <$> particles !! i)
       schedule.

(** The cell of every particle a pass-3 schedule reads. *)
Definition cellsOf (u : Uniforms) (particles : list SPHParticleCompute)
    (schedule : list nat) : list ivec3 :=
  omap (fun i => (fun p => Glsl.voxelOf u (position p)) <$> particles !! i) schedule.

(** How many of the listed particles fall into cell [c]. *)
Definition population (cells : list ivec3) (c : ivec3) : Z :=
  Z.of_nat (length (filter (fun c' => c' = c) cells)).

(** The sum of [load] over the cells that precede [c] in [order]. *)
Fixpoint offsetOf (load : ivec3 -> Z) (order : list ivec3) (c : ivec3) : Z :=
  match order with
  | [] => 0
  | c' :: rest => if decide (c' = c) then 0 else load c' + offsetOf load rest c
  end.

(** The sum of [load] over [order]. *)
Definition total (load : ivec3 -> Z) (order : list ivec3) : Z :=
  foldr (fun c acc => load c + acc) 0 order.

(** Index [i] lies in the range [offset, offset + count) of a cell word. *)
Definition inRange (word i : Z) : Prop :=
  Image.cellOffset word <= i < Image.cellOffset word + Image.cellCount word.

End Sort.

(** ** Sample data used in the examples *)

(** Uniforms of a 10 x 10 x 10 domain at the origin: no gravity, and an
    interaction request at (5, 5, 5) with radius 1 and impulse (1, 0, 0). *)
Definition sampleUniforms (active : Z) : Uniforms :=
  MkUniforms SPHConstants.DT V.zero V.zero (Vec3 10 10 10) (Vec3 1 1 1) (10, 10, 10)%Z
    (Vec3 5 5 5) (Vec3 1 0 0) 1 active.

(** A grid of two cells along x holding the pass-1 counts 3 and 2, and a
    one-group schedule that reserves the second cell first. *)
Definition sampleCounts : Image.uimage3D :=
  Image.MkImage (2, 1, 1)%Z (<[(0, 0, 0)%Z := 3%Z]> (<[(1, 0, 0)%Z := 2%Z]> ∅)).

Definition sampleSchedule2 : list (list ivec3) := [[(1, 0, 0)%Z; (0, 0, 0)%Z]].

(** Frame times: the binary32 numbers nearest to 0.005, 0.0072, 1 and
    40000. *)
Definition f32_0_005 : F32.float := S754_finite false 10737418 (-31).
Definition f32_0_0072 : F32.float := S754_finite false 15461882 (-31).
Definition f32_1 : F32.float := S754_finite false 8388608 (-23).
Definition f32_40000 : F32.float := S754_finite false 10240000 (-8).

(** A particle at rest at [(x, y, z)]. *)
Definition restingParticle (x y z : R) : SPHParticleCompute :=
  Particle (Vec3 x y z) 0 V.zero 0.

(** The uniforms the host derives for the unit box [0, 1]^3: 6 cells per
    axis, [invCellSize = 6 * 0.999 / 1], default gravity, no request. *)
Definition unitBoxUniforms : Uniforms :=
  MkUniforms SPHConstants.DT (Vec3 0 (- (981 / 100)) 0) V.zero (Vec3 1 1 1)
    (Vec3 (5994 / 1000) (5994 / 1000) (5994 / 1000)) (6, 6, 6)%Z
    V.zero V.zero 0 0.

(** 256 particles in the unit box. *)
Definition crowd : list SPHParticleCompute :=
  replicate 256 (restingParticle (1 / 2) (1 / 2) (1 / 2)).

(** 256 particles at rest in the cell (5, 5, 5) of the sample domain: one
    at x = 5.1 and 255 at x = 5.9. *)
Definition crowdedCell : list SPHParticleCompute :=
  restingParticle (51 / 10) (11 / 2) (11 / 2)
  :: replicate 255 (restingParticle (59 / 10) (11 / 2) (11 / 2)).

(** Two particles resting in neighbouring cells. *)
Definition pair : list SPHParticleCompute :=
  [restingParticle (1 / 2) (1 / 2) (1 / 2); restingParticle (3 / 2) (1 / 2) (1 / 2)].

(** ** The grid the host derives from the box *)

Module HostGrid.
Local Open Scope R_scope.

(** [gridSize_ = boxMax - boxMin] and
    [gridRes_ = ivec3(gridSize_ / gridCellSize_ + 1.0f)] of [initialize]. *)
Definition gridSize (boxMin boxMax : vec3) : vec3 := V.sub boxMax boxMin.

Definition gridRes (boxMin boxMax : vec3) : ivec3 :=
  let g := gridSize boxMin boxMax in
  (Glsl.truncate (vx g / SPHConstants.CELL_SIZE + 1),
   Glsl.truncate (vy g / SPHConstants.CELL_SIZE + 1),
   Glsl.truncate (vz g / SPHConstants.CELL_SIZE + 1)).

(** [invCellSize = vec3(gridRes_) * (1.0f - 0.001f) / gridSize_] of
    [runSimulationPass]. *)
Definition invCellSize (boxMin boxMax : vec3) : vec3 :=
  let g := gridSize boxMin boxMax in
  let '(rx, ry, rz) := gridRes boxMin boxMax in
  Vec3 (IZR rx * (1 - 1 / 1000) / vx g)
       (IZR ry * (1 - 1 / 1000) / vy g)
       (IZR rz * (1 - 1 / 1000) / vz g).

(** The uniforms [runSimulationPass] uploads; [gravity] is the member
    [gravity_]. *)
Definition uniforms (gravity : vec3) (s : Host.System) : Uniforms :=
  let boxMin := Host.boxMin_ s in
  let boxMax := Host.boxMax_ s in
  MkUniforms SPHConstants.DT gravity boxMin (gridSize boxMin boxMax)
    (invCellSize boxMin boxMax) (gridRes boxMin boxMax)
    (Host.spherePosition_ s) (Host.sphereImpulse_ s) (Host.sphereRadius_ s)
    (if Host.sphereActive_ s then 1%Z else 0%Z).

End HostGrid.

(** ** The dispatches of passes 5 and 6 *)

Module Passes.

(** A dispatch of sph_step5.cs on the buffer bound to the pass: the
    invocations take effect one after the other, in the order of
    [schedule]. *)
Fixpoint dispatch5 (fuel : nat) (u : Uniforms) (grid : Image.uimage3D)
    (schedule : list nat) (particles : list SPHParticleCompute)
    : option (list SPHParticleCompute) :=
  match schedule with
  | [] => Some particles
  | particleId :: schedule =>
      match Step5.main fuel u grid particles particleId with
      | None => None
      | Some particles => dispatch5 fuel u grid schedule particles
      end
  end.


End Passes.

(** ** The dam-break block of [SPHComputeSystem::reset] *)

Module DamBreak.
Local Open Scope R_scope.

Definition spacing : R := SPHConstants.PARTICLE_RADIUS * 2.
Definition margin : R := SPHConstants.PARTICLE_RADIUS.

(** [glm::max] and [glm::min] on vectors. *)
Definition vmax (a b : vec3) : vec3 :=
  Vec3 (Rmax (vx a) (vx b)) (Rmax (vy a) (vy b)) (Rmax (vz a) (vz b)).
Definition vmin (a b : vec3) : vec3 :=
  Vec3 (Rmin (vx a) (vx b)) (Rmin (vy a) (vy b)) (Rmin (vz a) (vz b)).

(** The block: from 25% to 75% of the box in x and z, to 50% in y, kept a
    particle radius away from the walls.  [gridOrigin_] is [boxMin_] and
    [gridSize_] is [boxMax_ - boxMin_]. *)
Definition fluidMin (s : Host.System) : vec3 :=
  let gridOrigin := Host.boxMin_ s in
  let gridSize := HostGrid.gridSize (Host.boxMin_ s) (Host.boxMax_ s) in
  let fluidMin := V.add gridOrigin (V.scale gridSize (25 / 100)) in
  vmax fluidMin (V.add (Host.boxMin_ s) (V.splat margin)).

Definition fluidMax (s : Host.System) : vec3 :=
  let gridOrigin := Host.boxMin_ s in
  let gridSize := HostGrid.gridSize (Host.boxMin_ s) (Host.boxMax_ s) in
  let fluidMax := V.add gridOrigin (V.scale gridSize (75 / 100)) in
  let fluidMax := Vec3 (vx fluidMax) (vy gridOrigin + vy gridSize * (5 / 10)) (vz fluidMax) in
  vmin fluidMax (V.sub (Host.boxMax_ s) (V.splat margin)).

(** The loop state: the positions pushed so far, [particleCount], and
    whether [goto done_creating] has been taken. *)
Record State : Type := MkState {
  positions     : list vec3;
  particleCount : Z;
  done          : bool
}.

(** The body of the innermost loop; the counter is compared as an integer. *)
Definition push (maxParticles : Z) (x y z : R) (st : State) : State :=
  let particleCount := (particleCount st + 1)%Z in
  MkState (positions st ++ [Vec3 x y z]) particleCount (maxParticles <=? particleCount)%Z.

(** [for (float z = fluidMin.z; z <= fluidMax.z; z += spacing)], one unit
    of fuel per iteration; nothing runs once the [goto] has been taken. *)
Fixpoint loopZ (fuel : nat) (maxParticles : Z) (x y zMax : R) (z : R) (st : State)
    : option State :=
  if done st then Some st
  else if Rle_dec z zMax then
    match fuel with
    | O => None
    | S fuel => loopZ fuel maxParticles x y zMax (z + spacing) (push maxParticles x y z st)
    end
  else Some st.

Fixpoint loopY (fuel : nat) (inner : nat) (maxParticles : Z) (x yMax zMin zMax : R)
    (y : R) (st : State) : option State :=
  if done st then Some st
  else if Rle_dec y yMax then
    match fuel with
    | O => None
    | S fuel =>
        match loopZ inner maxParticles x y zMax zMin st with
        | None => None
        | Some st => loopY fuel inner maxParticles x yMax zMin zMax (y + spacing) st
        end
    end
  else Some st.

Fixpoint loopX (fuel : nat) (inner : nat) (maxParticles : Z)
    (xMax yMin yMax zMin zMax : R) (x : R) (st : State) : option State :=
  if done st then Some st
  else if Rle_dec x xMax then
    match fuel with
    | O => None
    | S fuel =>
        match loopY inner inner maxParticles x yMax zMin zMax yMin st with
        | None => None
        | Some st =>
            loopX fuel inner maxParticles xMax yMin yMax zMin zMax (x + spacing) st
        end
    end
  else Some st.

(** The three nested loops; [fuel] bounds the iterations of each loop. *)
Definition run (fuel : nat) (s : Host.System) : option State :=
  let lo := fluidMin s in
  let hi := fluidMax s in
  loopX fuel fuel (Host.maxParticles_ s) (vx hi) (vy lo) (vy hi) (vz lo) (vz hi) (vx lo)
    (MkState [] 0 false).

(** [SPHComputeSystem::reset]: the block, at rest, replaces the particles. *)
Definition reset (fuel : nat) (s : Host.System) : option Host.System :=
  match run fuel s with
  | None => None
  | Some st => Some (Host.reset (positions st) s)
  end.

End DamBreak.

(** ** The class SimulationManager (SimulationManager.cpp) *)

Module Manager.

Inductive SimulationType : Type := NONE | REGULAR_WATER | SPH_COMPUTE.

Definition SimulationType_eqb (a b : SimulationType) : bool :=
  match a, b with
  | NONE, NONE | REGULAR_WATER, REGULAR_WATER | SPH_COMPUTE, SPH_COMPUTE => true
  | _, _ => false
  end.

Section Manager.
(** The class WaterSurface is used through its interface only: the object
    [initializeRegularWater] builds and its [update]. *)
Variable WaterSurface : Type.
Variable regularWater : WaterSurface.
Variable waterUpdate : F32.float -> WaterSurface -> WaterSurface.
(** What [SPHComputeSystem::initialize] depends on besides its arguments:
    the contents of the fresh buffers, the dam-break block of [reset] and
    the handle of the loaded programs. *)
Variable fill : SPHParticleCompute.
Variable block : list vec3.
Variable prog : Z.

Record State : Type := MkState {
  currentType_      : SimulationType;
  waterSurface_     : option WaterSurface;
  sphComputeSystem_ : option Host.System;
  waterHeight_      : R;
  initialized_      : bool
}.

(** The constructor's initialiser list. *)
Definition constructed : State := MkState NONE None None 0%R false.

Definition cleanupRegularWater (m : State) : State :=
  MkState (currentType_ m) None (sphComputeSystem_ m) (waterHeight_ m) (initialized_ m).

Definition cleanupSPHCompute (m : State) : State :=
  MkState (currentType_ m) (waterSurface_ m) None (waterHeight_ m) (initialized_ m).

Definition cleanup (m : State) : State :=
  if negb (initialized_ m) then m
  else
    let m :=
      match currentType_ m with
      | REGULAR_WATER => cleanupRegularWater m
      | SPH_COMPUTE => cleanupSPHCompute m
      | NONE => m
      end in
    MkState (currentType_ m) (waterSurface_ m) (sphComputeSystem_ m) (waterHeight_ m) false.

Definition initializeRegularWater (m : State) : State :=
  MkState (currentType_ m) (Some regularWater) (sphComputeSystem_ m) (waterHeight_ m)
    (initialized_ m).

(** A box of 10 x 10 x 10 around the origin and a request for 100000
    particles. *)
Definition initializeSPHCompute (m : State) : State :=
  let boxMin := Vec3 (-5) (-5) (-5) in
  let boxMax := Vec3 5 5 5 in
  MkState (currentType_ m) (waterSurface_ m)
    (Some (Host.initialize 100000 boxMin boxMax fill block (Host.constructed prog)))
    (waterHeight_ m) (initialized_ m).

Definition initialize (m : State) : State :=
  let m := if initialized_ m then cleanup m else m in
  let m :=
    match currentType_ m with
    | REGULAR_WATER => initializeRegularWater m
    | SPH_COMPUTE => initializeSPHCompute m
    | NONE => m
    end in
  MkState (currentType_ m) (waterSurface_ m) (sphComputeSystem_ m) (waterHeight_ m) true.

Definition setSimulationType (type : SimulationType) (m : State) : State :=
  if SimulationType_eqb (currentType_ m) type then m
  else
    let m := cleanup m in
    let m :=
      MkState type (waterSurface_ m) (sphComputeSystem_ m) (waterHeight_ m)
        (initialized_ m) in
    if negb (SimulationType_eqb (currentType_ m) NONE) then initialize m else m.

(** [update]; the fuel is that of [SPHComputeSystem::update]. *)
Definition update (fuel : nat) (deltaTime : F32.float) (m : State) : option State :=
  if negb (initialized_ m) then Some m
  else
    match currentType_ m with
    | REGULAR_WATER =>
        Some (MkState (currentType_ m) (waterUpdate deltaTime <$> waterSurface_ m)
                (sphComputeSystem_ m) (waterHeight_ m) (initialized_ m))
    | SPH_COMPUTE =>
        match sphComputeSystem_ m with
        | Some sph =>
            match Host.update fuel deltaTime sph with
            | Some sph =>
                Some (MkState (currentType_ m) (waterSurface_ m) (Some sph)
                        (waterHeight_ m) (initialized_ m))
            | None => None
            end
        | None => Some m
        end
    | NONE => Some m
    end.

(** [addRipple], [createSplash], [addDirectionalRipple] and
    [addWaterFlowImpulse]: each forwards one call, here [call], to the water
    surface when the regular water is active. *)
Definition waterCall (call : WaterSurface -> WaterSurface) (m : State) : State :=
  if SimulationType_eqb (currentType_ m) REGULAR_WATER then
    MkState (currentType_ m) (call <$> waterSurface_ m) (sphComputeSystem_ m)
      (waterHeight_ m) (initialized_ m)
  else m.

(** [applyImpulse]: the body of its conditional holds a comment only. *)
Definition applyImpulse (position impulse : vec3) (radius : R) (m : State) : State :=
  match currentType_ m, sphComputeSystem_ m with
  | SPH_COMPUTE, Some _ => m
  | _, _ => m
  end.

Definition setWaterHeight (height : R) (m : State) : State :=
  MkState (currentType_ m) (waterSurface_ m) (sphComputeSystem_ m) height (initialized_ m).

(** One call of a public member function that changes the object. *)
Inductive step : State -> State -> Prop :=
  | step_setSimulationType type m : step m (setSimulationType type m)
  | step_initialize m : step m (initialize m)
  | step_cleanup m : step m (cleanup m)
  | step_update fuel deltaTime m m' : update fuel deltaTime m = Some m' -> step m m'
  | step_waterCall call m : step m (waterCall call m)
  | step_applyImpulse position impulse radius m :
      step m (applyImpulse position impulse radius m)
  | step_setWaterHeight height m : step m (setWaterHeight height m).

(** The states an object can be in after any number of calls. *)
Inductive reachable : State -> Prop :=
  | reachable_constructed : reachable constructed
  | reachable_step m m' : reachable m -> step m m' -> reachable m'.

End Manager.
End Manager.

(** ** The billboards: the index buffer of [createBuffers] and the two
       billboard vertex shaders *)

Module Billboard.
Local Open Scope Z_scope.

Definition billboardIndexCount : Z := 6.
Definition billboardVertexCount : Z := 4.
Definition billboardIndices : list Z := [0; 1; 2; 2; 1; 3].

(** The body of the loop of [createBuffers], in [uint32_t]. *)
Definition indexAt (i : Z) : Z :=
  let particleOffset := U32.div i billboardIndexCount in
  let particleIndexOffset := i mod billboardIndexCount in
  U32.add (nth (Z.to_nat particleIndexOffset) billboardIndices 0)
    (U32.mul particleOffset billboardVertexCount).

(** [indices]: a vector of [billboardIndexCount * maxParticles_] elements,
    the product taken in [uint32_t]. *)
Definition indices (maxParticles : Z) : list Z :=
  map (fun i => indexAt (Z.of_nat i))
    (seq 0 (Z.to_nat (U32.mul billboardIndexCount maxParticles))).

(** [gl_VertexID] is an [int]: the element of the index buffer as a signed
    number. *)
Definition toInt (v : Z) : Z := if v <? 2 ^ 31 then v else v - U32.modulus.

(** What [main] of the vertex shaders decides before it reads the particle:
    the vertex is clipped, or it is corner [lid] of particle [gid]. *)
Inductive Vertex : Type :=
  | Clipped
  | Corner (gid lid : Z).

Definition main (uParticleCount : Z) (gl_VertexID : Z) : Vertex :=
  let gid := U32.wrap32 (Z.quot gl_VertexID 4) in
  let lid := U32.wrap32 (Z.rem gl_VertexID 4) in
  if uParticleCount <=? gid then Clipped else Corner gid lid.

(** [glDrawElements(GL_TRIANGLES, indexCount, GL_UNSIGNED_INT, nullptr)]
    with [uint32_t indexCount = 6 * numParticles_] and
    [uParticleCount = numParticles_].  The parameter [count] of the call is
    a [GLsizei], a signed 32-bit integer, so the call receives
    [toInt indexCount]; a negative count is the error GL_INVALID_VALUE and
    draws nothing.  Otherwise the vertices come in the order of the
    elements, as far as the index buffer reaches. *)
Definition draw (maxParticles numParticles : Z) : list Vertex :=
  let indexCount := U32.mul 6 numParticles in
  let count := toInt indexCount in
  if count <? 0 then []
  else
    map (fun v => main numParticles (toInt v))
      (take (Z.to_nat count) (indices maxParticles)).

End Billboard.

(** * Properties *)

(** ** Unsigned arithmetic and vectors *)

Lemma wrap32_small z : U32.in_range z -> U32.wrap32 z = z.
Proof. unfold U32.in_range, U32.wrap32. intros H. apply Z.mod_small. exact H. Qed.

Lemma modulus_value : U32.modulus = 4294967296%Z.
Proof. reflexivity. Qed.

Lemma vsub_diag a : V.sub a a = V.zero.
Proof. unfold V.sub, V.zero. f_equal; ring. Qed.

Lemma vlength_zero : V.length V.zero = 0%R.
Proof.
  unfold V.length, V.dot, V.zero; simpl.
  replace (0 * 0 + 0 * 0 + 0 * 0)%R with 0%R by ring. apply sqrt_0.
Qed.

(** ** The host: capacity *)

Section HostFacts.
Import Host.
Local Open Scope Z_scope.

Lemma addParticles_maxParticles ps vs s :
  maxParticles_ (addParticles ps vs s) = maxParticles_ s.
Proof.
  unfold addParticles, uploadCurrent.
  repeat (match goal with
          | |- context [if ?b then _ else _] => destruct b
          | |- context [let '(_, _) := ?p in _] => destruct p
          end; simpl; try reflexivity).
Qed.

Lemma initialize_maxParticles n bmin bmax fill block s :
  maxParticles_ (initialize n bmin bmax fill block s)
  = U32.mul (U32.div (U32.add (Z.max n 50000) 511) 512) 512.
Proof.
  unfold initialize, reset. rewrite addParticles_maxParticles. reflexivity.
Qed.

End HostFacts.

(** C3, as stated, fails: a request for 1000 particles yields a capacity of
    50176, not 1024 = 512 * ceil(1000 / 512). *)
Lemma initialize_capacity_counterexample :
  Host.maxParticles_
    (Host.initialize 1000 V.zero V.zero Glsl.zeroParticle [] (Host.constructed 1))
  = 50176%Z
  /\ (512 * ((1000 + 511) / 512) = 1024)%Z.
Proof.
  split; [| reflexivity].
  rewrite initialize_maxParticles. reflexivity.
Qed.

(** C3 (amended): [initialize] first raises the request to at least 50000
    and then rounds up to a multiple of 512; as long as the 32-bit sum does
    not wrap, the capacity is 512 * ceil(max(n, 50000) / 512): the least
    multiple of 512 that is at least max(n, 50000). *)
Theorem initialize_capacity n bmin bmax fill block s :
  (0 <= n)%Z -> (Z.max n 50000 + 511 < U32.modulus)%Z ->
  let cap := Host.maxParticles_ (Host.initialize n bmin bmax fill block s) in
  (cap = 512 * ((Z.max n 50000 + 511) / 512)
   /\ cap mod 512 = 0
   /\ Z.max n 50000 <= cap < Z.max n 50000 + 512)%Z.
Proof.
  intros Hn Hfit cap. subst cap. rewrite initialize_maxParticles.
  rewrite modulus_value in Hfit.
  unfold U32.mul, U32.div, U32.add.
  rewrite (wrap32_small (Z.max n 50000 + 511))
    by (unfold U32.in_range; rewrite modulus_value; lia).
  set (m := Z.max n 50000) in *.
  assert (Hm : (50000 <= m)%Z) by (unfold m; lia).
  pose proof (Z.div_mod (m + 511) 512 ltac:(lia)) as Hdm.
  pose proof (Z.mod_pos_bound (m + 511) 512 ltac:(lia)) as Hb.
  rewrite wrap32_small by (unfold U32.in_range; rewrite modulus_value; lia).
  split; [lia |]. split.
  - apply Z.mod_mul. lia.
  - lia.
Qed.

Lemma initialize_capacity_witness :
  let cap := Host.maxParticles_
    (Host.initialize 60000 V.zero V.zero Glsl.zeroParticle [] (Host.constructed 1)) in
  (cap = 512 * ((Z.max 60000 50000 + 511) / 512)
   /\ cap mod 512 = 0
   /\ Z.max 60000 50000 <= cap < Z.max 60000 50000 + 512)%Z.
Proof.
  apply (initialize_capacity 60000 V.zero V.zero Glsl.zeroParticle [] (Host.constructed 1)).
  - lia.
  - rewrite modulus_value. lia.
Defined.

(** ** The host: adding particles *)

Section AddParticles.
Import Host.
Local Open Scope Z_scope.

Lemma currentParticles_uploadCurrent offset data s :
  currentParticles (uploadCurrent offset data s)
  = bufferSubData offset data (currentParticles s).
Proof.
  unfold uploadCurrent, currentParticles.
  destruct (particleBuffers_ s) as [b0 b1]; simpl.
  destruct (currentBuffer_ s =? 0) eqn:E; simpl; rewrite E; reflexivity.
Qed.

Lemma bufferSubData_tail (offset : Z) (data buf : list SPHParticleCompute) :
  0 <= offset ->
  offset + Z.of_nat (length data) = Z.of_nat (length buf) ->
  bufferSubData offset data buf = take (Z.to_nat offset) buf ++ data.
Proof.
  intros H0 Hlen. unfold bufferSubData.
  destruct (0 <=? offset) eqn:E1; [| lia].
  destruct (offset + Z.of_nat (length data) <=? Z.of_nat (length buf)) eqn:E2; [| lia].
  simpl. rewrite drop_ge by lia. rewrite app_nil_r. reflexivity.
Qed.

Lemma resize_prefix {A} (n : nat) (x : A) (l : list A) :
  (n <= length l)%nat -> resize n x l = take n l.
Proof. intros H. apply resize_le. exact H. Qed.

End AddParticles.

(** C7: when the request does not fit, [addParticles] still adds the first
    (capacity - count) entries of the arrays (none when the system is
    already full): behind the particles that were there, which it keeps,
    the buffer holds one record per entry of that prefix, in order, with
    the position and velocity of the entry, the rest density 998.27 and
    pressure 0; the particle count becomes the capacity. *)
Theorem addParticles_partial_fill (positions velocities : list vec3) (s : Host.System) :
  length positions = length velocities ->
  (0 <= Host.numParticles_ s <= Host.maxParticles_ s)%Z ->
  (Host.maxParticles_ s < U32.modulus)%Z ->
  Z.of_nat (length (Host.currentParticles s)) = Host.maxParticles_ s ->
  (Host.maxParticles_ s < Host.numParticles_ s + Z.of_nat (length positions))%Z ->
  let k := Z.to_nat (Host.maxParticles_ s - Host.numParticles_ s) in
  let s' := Host.addParticles positions velocities s in
  Host.numParticles_ s' = Host.maxParticles_ s
  /\ Host.maxParticles_ s' = Host.maxParticles_ s
  /\ Host.currentParticles s'
     = take (Z.to_nat (Host.numParticles_ s)) (Host.currentParticles s)
       ++ zip_with (fun p v => Particle p (99827 / 100) v 0)
            (take k positions) (take k velocities).
Proof.
  intros Hlen Hnum Hmax Hbuf Hover k s'.
  change (fun p v : vec3 => Particle p (99827 / 100) v 0) with Host.newParticle.
  assert (Hmod := modulus_value).
  split; [| split].
  2: { subst s'. apply addParticles_maxParticles. }
  - subst s'. unfold Host.addParticles.
    rewrite Hlen, Nat.eqb_refl. simpl. rewrite <- Hlen.
    destruct (Z.gtb_spec (Host.numParticles_ s + Z.of_nat (length positions))
                (Host.maxParticles_ s)) as [_ | Hc]; [| lia].
    unfold U32.sub. rewrite wrap32_small by (unfold U32.in_range; lia).
    destruct (Z.eqb_spec (Host.maxParticles_ s - Host.numParticles_ s) 0) as [E | E].
    + lia.
    + simpl. rewrite length_resize. unfold U32.add.
      rewrite Z2Nat.id by lia.
      rewrite (wrap32_small (Host.maxParticles_ s - Host.numParticles_ s))
        by (unfold U32.in_range; lia).
      rewrite wrap32_small by (unfold U32.in_range; lia). lia.
  - subst s'. unfold Host.addParticles.
    rewrite Hlen, Nat.eqb_refl. simpl. rewrite <- Hlen.
    destruct (Z.gtb_spec (Host.numParticles_ s + Z.of_nat (length positions))
                (Host.maxParticles_ s)) as [_ | Hc]; [| lia].
    unfold U32.sub. rewrite wrap32_small by (unfold U32.in_range; lia).
    fold k.
    destruct (Z.eqb_spec (Host.maxParticles_ s - Host.numParticles_ s) 0) as [E | E].
    + assert (k = 0%nat) as -> by (subst k; lia).
      simpl. rewrite app_nil_r. rewrite take_ge by lia. reflexivity.
    + assert (Hk : (k <= length positions)%nat) by (subst k; lia).
      rewrite !resize_prefix by lia.
      change (Host.currentParticles
                (Host.set_numParticles
                   (U32.add (Host.numParticles_ s)
                      (U32.wrap32 (Z.of_nat (length (take k positions)))))
                   (Host.uploadCurrent (Host.numParticles_ s)
                      (zip_with Host.newParticle (take k positions) (take k velocities)) s)))
        with (Host.currentParticles
                (Host.uploadCurrent (Host.numParticles_ s)
                   (zip_with Host.newParticle (take k positions) (take k velocities)) s)).
      rewrite currentParticles_uploadCurrent.
      apply bufferSubData_tail; [lia |].
      rewrite length_zip_with, !length_take. subst k. lia.
Qed.

Lemma addParticles_partial_fill_witness :
  let s := Host.MkSystem 1 2 0
             ([Glsl.zeroParticle; Glsl.zeroParticle], [Glsl.zeroParticle; Glsl.zeroParticle])
             V.zero V.zero V.zero V.zero 0%R false F32.zero (fun _ => 1%Z) [] in
  let positions := [Vec3 1 1 1; Vec3 2 2 2; Vec3 3 3 3] in
  let velocities := [V.zero; V.zero; V.zero] in
  let s' := Host.addParticles positions velocities s in
  Host.numParticles_ s' = 2%Z
  /\ Host.maxParticles_ s' = 2%Z
  /\ Host.currentParticles s'
     = [Glsl.zeroParticle; Particle (Vec3 1 1 1) (99827 / 100) V.zero 0].
Proof.
  intros s positions velocities s'.
  apply (addParticles_partial_fill positions velocities s).
  - reflexivity.
  - simpl. lia.
  - simpl. rewrite modulus_value. lia.
  - reflexivity.
  - simpl. lia.
Defined.

(** C10: arrays of different lengths are rejected as a whole; the system,
    with its particle count and both particle buffers, is left as it was. *)
Theorem addParticles_length_mismatch (positions velocities : list vec3) (s : Host.System) :
  length positions <> length velocities ->
  Host.addParticles positions velocities s = s.
Proof.
  intros Hne. unfold Host.addParticles.
  destruct (Nat.eqb_spec (length positions) (length velocities)) as [E | E].
  - contradiction.
  - reflexivity.
Qed.

Lemma addParticles_length_mismatch_witness :
  Host.addParticles [Vec3 1 2 3; V.zero] [V.zero] (Host.constructed 1) = Host.constructed 1.
Proof.
  apply (addParticles_length_mismatch [Vec3 1 2 3; V.zero] [V.zero] (Host.constructed 1)).
  simpl. lia.
Defined.

(** ** The host: the fixed-step clock *)

Section Clock.
Import Host.

Lemma runSimulationPass_facts pass s :
  accumulatedTime_ (runSimulationPass pass s) = accumulatedTime_ s
  /\ numParticles_ (runSimulationPass pass s) = numParticles_ s
  /\ glCalls (runSimulationPass pass s) = glCalls s ++ [RunSimulationPass pass].
Proof.
  unfold runSimulationPass.
  repeat (match goal with
          | |- context [if ?b then _ else _] => destruct b
          end; simpl); auto.
Qed.

Lemma substep_facts s :
  accumulatedTime_ (substep s) = accumulatedTime_ s
  /\ numParticles_ (substep s) = numParticles_ s
  /\ glCalls (substep s) = glCalls s ++ substepCalls.
Proof.
  unfold substep, substepCalls.
  repeat match goal with
         | |- context [runSimulationPass ?p ?t] =>
             let H := fresh "H" in
             destruct (runSimulationPass_facts p t) as (-> & -> & ->)
         end.
  simpl. rewrite <- !app_assoc. simpl. auto.
Qed.

Lemma loopBody_facts s :
  accumulatedTime_ (loopBody s) = F32.sub (accumulatedTime_ s) SPHConstants.DT_f32
  /\ numParticles_ (loopBody s) = numParticles_ s
  /\ glCalls (loopBody s) = glCalls s ++ substepCalls.
Proof.
  unfold loopBody. destruct (substep_facts s) as (Ha & Hn & Hg).
  revert Ha Hn Hg. generalize (substep s). intros s1 Ha Hn Hg.
  cbn [accumulatedTime_ numParticles_ glCalls set_accumulatedTime]. rewrite Ha. auto.
Qed.

Lemma concat_replicate_snoc {A} (k : nat) (l : list A) :
  concat (replicate k l) ++ l = concat (replicate (S k) l).
Proof.
  induction k as [| k IH].
  - simpl. rewrite app_nil_r. reflexivity.
  - change (concat (replicate (S k) l)) with (l ++ concat (replicate k l)).
    rewrite <- app_assoc, IH. reflexivity.
Qed.

Lemma drained_succ k t :
  drained (S k) t = F32.sub (drained k t) SPHConstants.DT_f32.
Proof. reflexivity. Qed.

Lemma drained_shift k t :
  drained k (F32.sub t SPHConstants.DT_f32) = drained (S k) t.
Proof.
  induction k as [| k IH]; [reflexivity |].
  rewrite drained_succ, IH. reflexivity.
Qed.

Lemma iter_loopBody_facts k s :
  accumulatedTime_ (Nat.iter k loopBody s) = drained k (accumulatedTime_ s)
  /\ numParticles_ (Nat.iter k loopBody s) = numParticles_ s
  /\ glCalls (Nat.iter k loopBody s) = glCalls s ++ concat (replicate k substepCalls).
Proof.
  induction k as [| k IH].
  - simpl. rewrite app_nil_r. repeat split.
  - destruct IH as (Ha & Hn & Hg).
    change (Nat.iter (S k) loopBody s) with (loopBody (Nat.iter k loopBody s)).
    destruct (loopBody_facts (Nat.iter k loopBody s)) as (Ha' & Hn' & Hg').
    rewrite Ha', Hn', Hg', Ha, Hn, Hg. repeat split.
    rewrite <- app_assoc. f_equal. apply concat_replicate_snoc.
Qed.

Lemma iter_loopBody_shift k s :
  Nat.iter k loopBody (loopBody s) = loopBody (Nat.iter k loopBody s).
Proof.
  induction k as [| k IH]; simpl; [reflexivity |]. rewrite IH. reflexivity.
Qed.

(** The loop runs [k] times when the accumulator passes the test before each
    of the first [k] subtractions and fails it after them, provided the fuel
    allows [k] iterations. *)
Lemma update_loop_runs k : forall fuel s,
  (k <= fuel)%nat ->
  (forall j, (j < k)%nat ->
     F32.geb (drained j (accumulatedTime_ s)) SPHConstants.DT_f32 = true) ->
  F32.geb (drained k (accumulatedTime_ s)) SPHConstants.DT_f32 = false ->
  update_loop fuel s = Some (Nat.iter k loopBody s).
Proof.
  induction k as [| k IH]; intros fuel s Hfuel Hgo Hstop.
  - change (drained 0 (accumulatedTime_ s)) with (accumulatedTime_ s) in Hstop.
    destruct fuel; cbn [update_loop]; rewrite Hstop; reflexivity.
  - destruct fuel as [| fuel]; [lia |]. cbn [update_loop].
    pose proof (Hgo 0%nat ltac:(lia)) as H0.
    change (drained 0 (accumulatedTime_ s)) with (accumulatedTime_ s) in H0.
    rewrite H0.
    destruct (loopBody_facts s) as (Ha & _ & _).
    rewrite (IH fuel (loopBody s)).
    + rewrite iter_loopBody_shift. reflexivity.
    + lia.
    + intros j Hj. rewrite Ha, drained_shift. apply Hgo. lia.
    + rewrite Ha, drained_shift. exact Hstop.
Qed.

(** When the subtraction is absorbed by the rounding, the loop never
    ends. *)
Lemma update_loop_absorbed : forall fuel s,
  F32.geb (accumulatedTime_ s) SPHConstants.DT_f32 = true ->
  F32.sub (accumulatedTime_ s) SPHConstants.DT_f32 = accumulatedTime_ s ->
  update_loop fuel s = None.
Proof.
  induction fuel as [| fuel IH]; intros s Hgo Hsame.
  - cbn [update_loop]. rewrite Hgo. reflexivity.
  - cbn [update_loop]. rewrite Hgo.
    destruct (loopBody_facts s) as (Ha & _ & _).
    apply IH; rewrite Ha, Hsame; assumption.
Qed.

End Clock.

(** ** Binary32: the subtraction of the step *)

Section Binary32Facts.
Import Host.
Local Open Scope Z_scope.

Lemma digits2_size p : digits2_pos p = Pos.size p.
Proof. induction p as [p IH | p IH |]; simpl; congruence. Qed.

(** A number below [2^n] has at most [n] binary digits. *)
Lemma digits2_bound (p : positive) (n : Z) :
  0 <= n -> Z.pos p < 2 ^ n -> Z.pos (digits2_pos p) <= n.
Proof.
  intros Hn Hp. rewrite digits2_size.
  pose proof (Pos.size_le p) as Hle.
  apply Pos2Z.pos_le_pos in Hle. rewrite Pos2Z.inj_pow in Hle.
  change (Z.pos p~0) with (2 * Z.pos p) in Hle.
  destruct (Z.le_gt_cases (Z.pos (Pos.size p)) n) as [H | H]; [exact H | exfalso].
  assert (Hpow : 2 ^ (n + 1) <= 2 ^ Z.pos (Pos.size p))
    by (apply Z.pow_le_mono_r; lia).
  rewrite Z.pow_add_r in Hpow by lia. change (2 ^ 1) with 2 in Hpow. lia.
Qed.

Lemma iter_xO (m d : positive) : Z.pos (Pos.iter xO m d) = Z.pos m * 2 ^ Z.pos d.
Proof.
  induction d as [| d IH] using Pos.peano_ind.
  - cbn [Pos.iter]. rewrite Pos2Z.inj_xO. change (2 ^ 1) with 2. ring.
  - rewrite Pos.iter_succ, Pos2Z.inj_succ, Z.pow_succ_r by lia.
    change (Z.pos (Pos.iter xO m d)~0) with (2 * Z.pos (Pos.iter xO m d)).
    rewrite IH. ring.
Qed.

Lemma shl_align_spec (mx : positive) (ex ex' : Z) :
  snd (shl_align mx ex ex') = Z.min ex ex'
  /\ Z.pos (fst (shl_align mx ex ex')) = Z.pos mx * 2 ^ (ex - Z.min ex ex').
Proof.
  unfold shl_align. destruct (ex' - ex) as [| d | d] eqn:E; cbn [fst snd].
  - replace (Z.min ex ex') with ex by lia. rewrite Z.sub_diag. split; lia.
  - replace (Z.min ex ex') with ex by lia. rewrite Z.sub_diag. split; lia.
  - replace (Z.min ex ex') with ex' by lia.
    replace (ex - ex') with (Z.pos d) by lia. split; [reflexivity | apply iter_xO].
Qed.

(** What [n] right shifts make of a mantissa [m0]: the quotient, and a
    round bit that is set only when the remainder is at least one half. *)
Let shifted (m0 n : Z) (r : shr_record) : Prop :=
  0 <= n /\ shr_m r = m0 / 2 ^ n
  /\ (shr_r r = true -> 1 <= n /\ 2 ^ (n - 1) <= m0 mod 2 ^ n).

Lemma shifted_shr_1 m0 n r : 0 <= m0 -> shifted m0 n r -> shifted m0 (n + 1) (shr_1 r).
Proof.
  intros Hm0 (Hn & Hm & _). unfold shifted.
  assert (Hp : 0 < 2 ^ n) by (apply Z.pow_pos_nonneg; lia).
  assert (Hq : 0 <= m0 / 2 ^ n) by (apply Z.div_pos; lia).
  assert (Hdiv : m0 / 2 ^ (n + 1) = m0 / 2 ^ n / 2).
  { rewrite Z.pow_add_r by lia. change (2 ^ 1) with 2. rewrite Z.div_div by lia. reflexivity. }
  assert (Hmod : m0 mod 2 ^ (n + 1) = m0 mod 2 ^ n + 2 ^ n * ((m0 / 2 ^ n) mod 2)).
  { rewrite Z.pow_add_r by lia. change (2 ^ 1) with 2. apply Z.rem_mul_r; lia. }
  assert (Hrem : 0 <= m0 mod 2 ^ n) by (apply Z.mod_pos_bound; lia).
  replace (n + 1 - 1) with n by lia.
  split; [lia |]. rewrite Hdiv, Hmod, <- Hm.
  destruct r as [m rb sb]. cbn [shr_m] in *. subst m.
  unfold shr_1.
  destruct (m0 / 2 ^ n) as [| [p | p |] | p] eqn:E; cbn [shr_m shr_r]; try lia.
  - split; [reflexivity | discriminate].
  - split; [rewrite Pos2Z.inj_xI; apply (Z.div_unique _ 2 _ 1); lia |].
    intros _. split; [lia |].
    replace (Z.pos p~1 mod 2) with 1; [lia |].
    rewrite Pos2Z.inj_xI. apply (Z.mod_unique _ 2 (Z.pos p) 1); lia.
  - split; [rewrite Pos2Z.inj_xO; apply (Z.div_unique _ 2 _ 0); lia |].
    discriminate.
  - split; [reflexivity |]. intros _. split; [lia |].
    change (1 mod 2) with 1. lia.
Qed.

Lemma shifted_iter_pos m0 p : forall n r,
  0 <= m0 -> shifted m0 n r ->
  shifted m0 (n + Z.pos p) (SpecFloat.iter_pos shr_1 p r).
Proof.
  induction p as [p IH | p IH |]; intros n r Hm0 H; cbn [SpecFloat.iter_pos].
  - replace (n + Z.pos p~1) with (n + 1 + Z.pos p + Z.pos p) by lia.
    apply IH; [exact Hm0 |]. apply IH; [exact Hm0 |]. apply shifted_shr_1; assumption.
  - replace (n + Z.pos p~0) with (n + Z.pos p + Z.pos p) by lia.
    apply IH; [exact Hm0 |]. apply IH; assumption.
  - apply shifted_shr_1; assumption.
Qed.

(** [shr_fexp] on an exact mantissa. *)
Lemma shr_fexp_exact (m0 ex : Z) :
  0 <= m0 ->
  let n := Z.max 0 (fexp F32.prec F32.emax (Zdigits2 m0 + ex) - ex) in
  shifted m0 n (fst (shr_fexp F32.prec F32.emax m0 ex loc_Exact))
  /\ snd (shr_fexp F32.prec F32.emax m0 ex loc_Exact) = ex + n.
Proof.
  intros Hm0 n. unfold shr_fexp, shr. cbn [shr_record_of_loc].
  subst n. destruct (fexp F32.prec F32.emax (Zdigits2 m0 + ex) - ex) as [| p | p];
    cbn [fst snd].
  - split; [| lia]. unfold shifted. cbn [shr_m shr_r]. rewrite Z.div_1_r.
    split; [lia |]. split; [reflexivity | discriminate].
  - replace (Z.max 0 (Z.pos p)) with (0 + Z.pos p) by lia. split; [| lia].
    apply shifted_iter_pos; [exact Hm0 |].
    unfold shifted. cbn [shr_m shr_r]. rewrite Z.div_1_r.
    split; [lia |]. split; [reflexivity | discriminate].
  - split; [| lia]. unfold shifted. cbn [shr_m shr_r]. rewrite Z.div_1_r.
    split; [lia |]. split; [reflexivity | discriminate].
Qed.

Lemma round_nearest_even_bound (r : shr_record) :
  shr_m r <= round_nearest_even (shr_m r) (loc_of_shr_record r)
  <= shr_m r + (if shr_r r then 1 else 0).
Proof.
  destruct r as [m [|] [|]]; cbn [shr_m shr_r loc_of_shr_record round_nearest_even];
    try destruct (Z.even m); lia.
Qed.

(** The rounding of a positive mantissa: the result in terms of the two
    shifts, with the rounded mantissa [m2] at most half a unit above the
    exact one. *)
Lemma binary_round_aux_bound (mx : positive) (ex : Z) :
  let k := fexp F32.prec F32.emax (Z.pos (digits2_pos mx) + ex) - ex in
  let n := Z.max 0 k in
  exists m2 : Z,
    0 <= m2 <= Z.pos mx + 1
    /\ m2 * 2 ^ n <= Z.pos mx + (if 0 <? k then 2 ^ (k - 1) else 0)
    /\ let n2 := Z.max 0 (fexp F32.prec F32.emax (Zdigits2 m2 + (ex + n)) - (ex + n)) in
       binary_round_aux F32.prec F32.emax false (Z.pos mx) ex loc_Exact
       = match m2 / 2 ^ n2 with
         | Z0 => S754_zero false
         | Z.pos m =>
             if ex + n + n2 <=? F32.emax - F32.prec
             then S754_finite false m (ex + n + n2) else S754_infinity false
         | Z.neg _ => S754_nan
         end.
Proof.
  intros k n.
  destruct (shr_fexp_exact (Z.pos mx) ex ltac:(lia)) as [(Hn & Hm1 & Hr1) He1].
  change (Zdigits2 (Z.pos mx)) with (Z.pos (digits2_pos mx)) in Hn, Hm1, Hr1, He1.
  fold k n in Hn, Hm1, Hr1, He1.
  unfold binary_round_aux.
  destruct (shr_fexp F32.prec F32.emax (Z.pos mx) ex loc_Exact) as [r1 e1].
  cbn [fst snd] in Hm1, Hr1, He1. subst e1.
  pose proof (round_nearest_even_bound r1) as Hround.
  set (m2 := round_nearest_even (shr_m r1) (loc_of_shr_record r1)) in *.
  assert (Hp : 0 < 2 ^ n) by (apply Z.pow_pos_nonneg; lia).
  assert (Hq : 0 <= Z.pos mx / 2 ^ n) by (apply Z.div_pos; lia).
  assert (Hfloor : Z.pos mx / 2 ^ n <= Z.pos mx).
  { apply Z.div_le_upper_bound; [lia |]. nia. }
  assert (Hm2 : 0 <= m2 <= Z.pos mx + 1) by (destruct (shr_r r1); lia).
  exists m2. split; [exact Hm2 |]. split.
  - pose proof (Z.div_mod (Z.pos mx) (2 ^ n) ltac:(lia)) as Hdm.
    pose proof (Z.mod_pos_bound (Z.pos mx) (2 ^ n) Hp) as Hrem.
    destruct (shr_r r1) eqn:Hrb.
    + destruct (Hr1 eq_refl) as [Hn1 Hhalf].
      assert (Hk : k = n) by lia. rewrite Hk.
      replace (0 <? n) with true by (symmetry; apply Z.ltb_lt; lia).
      assert (Hpow : 2 ^ n = 2 * 2 ^ (n - 1)).
      { replace n with (n - 1 + 1) at 1 by lia. rewrite Z.pow_add_r by lia.
        change (2 ^ 1) with 2. ring. }
      nia.
    + assert (Hle : m2 * 2 ^ n <= Z.pos mx) by nia.
      destruct (0 <? k); [| lia].
      assert (0 <= 2 ^ (k - 1)) by (apply Z.pow_nonneg; lia). lia.
  - cbv zeta.
    destruct (shr_fexp_exact m2 (ex + n) ltac:(lia)) as [(Hn2 & Hm3 & _) He2].
    destruct (shr_fexp F32.prec F32.emax m2 (ex + n) loc_Exact) as [r2 e2].
    cbn [fst snd] in Hm3, He2. subst e2. rewrite Hm3. reflexivity.
Qed.

(** A negative difference rounds to something the loop test rejects. *)
Lemma binary_round_negative (mx : positive) (ex : Z) :
  F32.geb (binary_round F32.prec F32.emax true mx ex) SPHConstants.DT_f32 = false.
Proof.
  unfold binary_round, binary_round_aux.
  destruct (shl_align mx ex _) as [mz ez].
  destruct (shr_fexp F32.prec F32.emax (Z.pos mz) ez loc_Exact) as [r1 e1].
  destruct (shr_fexp F32.prec F32.emax _ e1 loc_Exact) as [r2 e2].
  destruct (shr_m r2); [reflexivity | | reflexivity].
  destruct (e2 <=? F32.emax - F32.prec); reflexivity.
Qed.


Lemma geb_DT_cases (b : F32.float) :
  F32.geb b SPHConstants.DT_f32 = true ->
  b = S754_infinity false \/ exists m e, b = S754_finite false m e /\ -33 <= e.
Proof.
  unfold F32.geb, SFleb, SFcompare, SPHConstants.DT_f32.
  destruct b as [sb | sb | | sb m e]; try discriminate.
  - destruct sb; [discriminate | left; reflexivity].
  - destruct sb; [discriminate |].
    destruct (Z.compare_spec (-33) e) as [E | E | E]; intros H;
      try discriminate; right; exists m, e; split; (reflexivity || lia).
Qed.

Lemma geb_DT_low_exponent (m : positive) (e : Z) :
  e < -33 -> F32.geb (S754_finite false m e) SPHConstants.DT_f32 = false.
Proof.
  intros He. unfold F32.geb, SFleb, SFcompare, SPHConstants.DT_f32.
  destruct (Z.compare_spec (-33) e); (reflexivity || lia).
Qed.

(** One subtraction of the step from a positive accumulator below 2^15:
    either the result fails the loop test, or it is a positive float whose
    value, counted in units of 2^-33, is smaller than before. *)
Lemma sub_DT_decreases (m : positive) (e : Z) :
  -33 <= e -> Z.pos m * 2 ^ (e + 33) < 2 ^ 48 ->
  let b := F32.sub (S754_finite false m e) SPHConstants.DT_f32 in
  F32.geb b SPHConstants.DT_f32 = false
  \/ exists m' e',
       b = S754_finite false m' e' /\ -33 <= e'
       /\ Z.pos m' * 2 ^ (e' + 33) < Z.pos m * 2 ^ (e + 33).
Proof.
  intros He Hmu b. subst b. unfold F32.sub, SFsub, SPHConstants.DT_f32.
  replace (Z.min e (-33)) with (-33) by lia.
  destruct (shl_align_spec m e (-33)) as [_ Hm].
  replace (Z.min e (-33)) with (-33) in Hm by lia.
  replace (e - -33) with (e + 33) in Hm by lia.
  change (shl_align 10307922 (-33) (-33)) with (10307922%positive, -33).
  cbn [fst cond_Zopp]. rewrite Hm. clear Hm.
  set (mu := Z.pos m * 2 ^ (e + 33)) in *.
  unfold binary_normalize.
  destruct (mu - 10307922) as [| dp | dp] eqn:Ed.
  - left. reflexivity.
  - unfold binary_round.
    destruct (shl_align_spec dp (-33)
                (fexp F32.prec F32.emax (Z.pos (digits2_pos dp) + -33))) as [Hez Hmz].
    destruct (shl_align dp (-33) _) as [mz ez]. cbn [fst snd] in Hez, Hmz.
    rewrite <- Hez in Hmz.
    unfold fexp, emin, F32.prec, F32.emax in Hez.
    assert (Hezr : -56 <= ez <= -33) by lia. clear Hez.
    set (s := -33 - ez) in *.
    assert (Hs : 0 <= s <= 23) by (subst s; lia).
    assert (Hps : 0 < 2 ^ s) by (apply Z.pow_pos_nonneg; lia).
    assert (Hmzb : Z.pos mz < 2 ^ (48 + s)).
    { rewrite Hmz, Z.pow_add_r by lia. fold s. apply Zmult_lt_compat_r; lia. }
    pose proof (digits2_bound mz (48 + s) ltac:(lia) Hmzb) as Hdig.
    destruct (binary_round_aux_bound mz ez) as (m2 & Hm2 & Hbound & Heq).
    cbv zeta in Heq. rewrite Heq. clear Heq.
    set (k := fexp F32.prec F32.emax (Z.pos (digits2_pos mz) + ez) - ez) in *.
    assert (Hk : k <= s + 24).
    { subst k. unfold fexp, emin, F32.prec, F32.emax. lia. }
    set (n := Z.max 0 k) in *.
    assert (Hn : 0 <= n <= s + 24) by (subst n; lia).
    assert (Hhalf : (if 0 <? k then 2 ^ (k - 1) else 0) <= 2 ^ (s + 23)).
    { destruct (Z.ltb_spec 0 k).
      - apply Z.pow_le_mono_r; lia.
      - apply Z.pow_nonneg. lia. }
    assert (Hdig2 : Zdigits2 m2 <= 49 + s).
    { destruct m2 as [| p2 | p2]; cbn [Zdigits2]; [lia | | lia].
      apply digits2_bound; [lia |].
      assert (2 ^ (49 + s) = 2 * 2 ^ (48 + s)).
      { replace (49 + s) with (48 + s + 1) by lia. rewrite Z.pow_add_r by lia.
        change (2 ^ 1) with 2. ring. }
      lia. }
    set (n2 := Z.max 0 (fexp F32.prec F32.emax (Zdigits2 m2 + (ez + n)) - (ez + n))) in *.
    assert (Hn2 : 0 <= n2 <= s + 25).
    { subst n2. unfold fexp, emin, F32.prec, F32.emax. lia. }
    assert (Hpn2 : 0 < 2 ^ n2) by (apply Z.pow_pos_nonneg; lia).
    assert (Hpn : 0 < 2 ^ n) by (apply Z.pow_pos_nonneg; lia).
    destruct (m2 / 2 ^ n2) as [| m' | m'] eqn:Em.
    + left. reflexivity.
    + replace (ez + n + n2 <=? F32.emax - F32.prec) with true
        by (symmetry; apply Z.leb_le; unfold F32.emax, F32.prec; lia).
      destruct (Z.lt_ge_cases (ez + n + n2) (-33)) as [Hlow | Hhigh].
      * left. apply geb_DT_low_exponent. exact Hlow.
      * right. exists m', (ez + n + n2). split; [reflexivity |]. split; [lia |].
        assert (Hfloor : Z.pos m' * 2 ^ n2 <= m2).
        { rewrite <- Em. rewrite Z.mul_comm. apply Z.mul_div_le. lia. }
        assert (Hexp : 2 ^ (n2 + n) = 2 ^ (ez + n + n2 + 33) * 2 ^ s).
        { rewrite <- Z.pow_add_r by lia. f_equal. subst s. lia. }
        assert (Hchain : Z.pos m' * 2 ^ (n2 + n) <= Z.pos mz + 2 ^ (s + 23)).
        { rewrite Z.pow_add_r by lia. nia. }
        assert (Hstep : 2 ^ (s + 23) < 10307922 * 2 ^ s).
        { rewrite Z.pow_add_r by lia. change (2 ^ 23) with 8388608. lia. }
        assert (Hmz' : Z.pos mz = (mu - 10307922) * 2 ^ s) by (rewrite Ed; exact Hmz).
        rewrite Hexp in Hchain.
        apply (Zmult_lt_reg_r _ _ (2 ^ s)); [exact Hps |]. nia.
    + left. reflexivity.
  - left. apply binary_round_negative.
Qed.


(** The loop test fails after finitely many subtractions. *)
Lemma drain_ends (bound : nat) : forall (m : positive) (e : Z),
  -33 <= e -> Z.pos m * 2 ^ (e + 33) < 2 ^ 48 ->
  (Z.to_nat (Z.pos m * 2 ^ (e + 33)) <= bound)%nat ->
  exists n : nat,
    (forall j, (j < n)%nat ->
       F32.geb (drained j (S754_finite false m e)) SPHConstants.DT_f32 = true)
    /\ F32.geb (drained n (S754_finite false m e)) SPHConstants.DT_f32 = false.
Proof.
  induction bound as [| bound IH]; intros m e He Hmu Hbound.
  - assert (0 < 2 ^ (e + 33)) by (apply Z.pow_pos_nonneg; lia). nia.
  - destruct (F32.geb (S754_finite false m e) SPHConstants.DT_f32) eqn:Hgo.
    + destruct (sub_DT_decreases m e He Hmu) as [Hstop | (m' & e' & Hb & He' & Hlt)].
      * exists 1%nat. split; [| exact Hstop].
        intros j Hj. assert (j = 0%nat) as -> by lia. exact Hgo.
      * assert (0 < 2 ^ (e' + 33)) by (apply Z.pow_pos_nonneg; lia).
        destruct (IH m' e' He' ltac:(lia) ltac:(nia)) as (n & Hgo' & Hstop').
        exists (S n). split.
        -- intros [| j] Hj; [exact Hgo |].
           rewrite <- drained_shift, Hb. apply Hgo'. lia.
        -- rewrite <- drained_shift, Hb. exact Hstop'.
    + exists 0%nat. split; [lia | exact Hgo].
Qed.

Lemma powerRZ_2_IZR (z : Z) : 0 <= z -> powerRZ 2 z = IZR (2 ^ z).
Proof.
  intros Hz. rewrite <- (Z2Nat.id z Hz) at 1.
  rewrite <- pow_powerRZ, pow_IZR, Z2Nat.id by exact Hz. reflexivity.
Qed.

(** A value below 32768, counted in units of 2^-33. *)
Lemma toR_units (m : positive) (e : Z) :
  -33 <= e -> (F32.toR (S754_finite false m e) < 32768)%R ->
  Z.pos m * 2 ^ (e + 33) < 2 ^ 48.
Proof.
  intros He Hlt. cbn [F32.toR cond_Zopp] in Hlt.
  apply lt_IZR. rewrite mult_IZR, <- powerRZ_2_IZR by lia.
  rewrite powerRZ_add by lra. rewrite (powerRZ_2_IZR 33) by lia.
  change (2 ^ 48) with (32768 * 2 ^ 33). rewrite (mult_IZR 32768).
  assert (Hp : (0 < IZR (2 ^ 33))%R) by (apply IZR_lt; reflexivity).
  rewrite <- Rmult_assoc. apply Rmult_lt_compat_r; assumption.
Qed.

(** For every finite accumulator below 32768 the loop of [update] ends. *)
Lemma drain_terminates (t : F32.float) :
  F32.is_finite t = true -> (F32.toR t < 32768)%R ->
  exists n : nat,
    (forall j, (j < n)%nat -> F32.geb (drained j t) SPHConstants.DT_f32 = true)
    /\ F32.geb (drained n t) SPHConstants.DT_f32 = false.
Proof.
  intros Hfin Hlt.
  destruct (F32.geb t SPHConstants.DT_f32) eqn:Hgo.
  - destruct (geb_DT_cases t Hgo) as [-> | (m & e & -> & He)]; [discriminate |].
    apply (drain_ends (Z.to_nat (Z.pos m * 2 ^ (e + 33)))); [exact He | | lia].
    apply toR_units; assumption.
  - exists 0%nat. split; [lia | exact Hgo].
Qed.

(** The round and sticky bits after [n] right shifts of an exact mantissa:
    the round bit is bit [n - 1] of [m0], the sticky bit tells whether a
    lower bit is set. *)
Let exactBits (m0 n : Z) (r : shr_record) : Prop :=
  0 <= n /\ shr_m r = m0 / 2 ^ n
  /\ (shr_r r = true <-> 1 <= n /\ 2 ^ (n - 1) <= m0 mod 2 ^ n)
  /\ (shr_s r = true <-> 1 <= n /\ m0 mod 2 ^ (n - 1) <> 0).

Lemma exactBits_shr_1 m0 n r : 0 <= m0 -> exactBits m0 n r -> exactBits m0 (n + 1) (shr_1 r).
Proof.
  intros Hm0 (Hn & Hm & Hr & Hs). unfold exactBits.
  assert (Hp : 0 < 2 ^ n) by (apply Z.pow_pos_nonneg; lia).
  assert (Hq : 0 <= m0 / 2 ^ n) by (apply Z.div_pos; lia).
  assert (Hdiv : m0 / 2 ^ (n + 1) = m0 / 2 ^ n / 2).
  { rewrite Z.pow_add_r by lia. change (2 ^ 1) with 2. rewrite Z.div_div by lia. reflexivity. }
  assert (Hmod : m0 mod 2 ^ (n + 1) = m0 mod 2 ^ n + 2 ^ n * ((m0 / 2 ^ n) mod 2)).
  { rewrite Z.pow_add_r by lia. change (2 ^ 1) with 2. apply Z.rem_mul_r; lia. }
  assert (Hrem : 0 <= m0 mod 2 ^ n < 2 ^ n) by (apply Z.mod_pos_bound; lia).
  assert (Hbit : 0 <= (m0 / 2 ^ n) mod 2 < 2) by (apply Z.mod_pos_bound; lia).
  replace (n + 1 - 1) with n by lia.
  assert (Hsticky : (orb (shr_r r) (shr_s r) = true) <-> 1 <= n + 1 /\ m0 mod 2 ^ n <> 0).
  { rewrite orb_true_iff, Hr, Hs.
    destruct (Z.eq_dec n 0) as [-> | Hn0].
    - change (2 ^ 0) with 1. rewrite Z.mod_1_r. lia.
    - assert (Hlow : m0 mod 2 ^ n
                     = m0 mod 2 ^ (n - 1) + 2 ^ (n - 1) * ((m0 / 2 ^ (n - 1)) mod 2)).
      { replace n with (n - 1 + 1) at 1 by lia.
        rewrite Z.pow_add_r by lia. change (2 ^ 1) with 2. apply Z.rem_mul_r; [| lia].
        apply Z.pow_nonzero; lia. }
      assert (Hp1 : 0 < 2 ^ (n - 1)) by (apply Z.pow_pos_nonneg; lia).
      assert (Hl : 0 <= m0 mod 2 ^ (n - 1) < 2 ^ (n - 1)) by (apply Z.mod_pos_bound; lia).
      assert (Hb : (m0 / 2 ^ (n - 1)) mod 2 = 0 \/ (m0 / 2 ^ (n - 1)) mod 2 = 1).
      { pose proof (Z.mod_pos_bound (m0 / 2 ^ (n - 1)) 2 ltac:(lia)). lia. }
      destruct Hb as [Hb | Hb]; rewrite Hb in Hlow;
        rewrite ?Z.mul_0_r, ?Z.mul_1_r in Hlow; lia. }
  split; [lia |]. rewrite Hdiv, Hmod, <- Hm.
  destruct r as [m rb sb]. cbn [shr_m shr_r shr_s] in *. subst m.
  unfold shr_1.
  destruct (m0 / 2 ^ n) as [| [p | p |] | p] eqn:E; cbn [shr_m shr_r shr_s]; try lia.
  - split; [reflexivity |]. split; [| exact Hsticky].
    change (0 mod 2) with 0. split; [discriminate | lia].
  - split; [rewrite Pos2Z.inj_xI; apply (Z.div_unique _ 2 _ 1); lia |].
    split; [| exact Hsticky].
    replace (Z.pos p~1 mod 2) with 1
      by (rewrite Pos2Z.inj_xI; apply (Z.mod_unique _ 2 (Z.pos p) 1); lia).
    split; [lia | reflexivity].
  - split; [rewrite Pos2Z.inj_xO; apply (Z.div_unique _ 2 _ 0); lia |].
    split; [| exact Hsticky].
    replace (Z.pos p~0 mod 2) with 0
      by (rewrite Pos2Z.inj_xO; apply (Z.mod_unique _ 2 (Z.pos p) 0); lia).
    split; [discriminate | lia].
  - split; [reflexivity |]. split; [| exact Hsticky].
    change (1 mod 2) with 1. split; [lia | reflexivity].
Qed.

Lemma exactBits_iter_pos m0 p : forall n r,
  0 <= m0 -> exactBits m0 n r -> exactBits m0 (n + Z.pos p) (SpecFloat.iter_pos shr_1 p r).
Proof.
  induction p as [p IH | p IH |]; intros n r Hm0 H; cbn [SpecFloat.iter_pos].
  - replace (n + Z.pos p~1) with (n + 1 + Z.pos p + Z.pos p) by lia.
    apply IH; [exact Hm0 |]. apply IH; [exact Hm0 |]. apply exactBits_shr_1; assumption.
  - replace (n + Z.pos p~0) with (n + Z.pos p + Z.pos p) by lia.
    apply IH; [exact Hm0 |]. apply IH; assumption.
  - apply exactBits_shr_1; assumption.
Qed.

Lemma exactBits_start m0 : exactBits m0 0 (shr_record_of_loc m0 loc_Exact).
Proof.
  unfold exactBits. cbn [shr_record_of_loc shr_m shr_r shr_s]. rewrite Z.div_1_r.
  split; [lia |]. split; [reflexivity |]. split; split; (discriminate || lia).
Qed.

(** [shr_fexp] on an exact mantissa that needs [k > 0] shifts. *)
Lemma shr_fexp_shifts (m0 ex k : Z) :
  0 <= m0 -> 0 < k -> fexp F32.prec F32.emax (Zdigits2 m0 + ex) - ex = k ->
  exactBits m0 k (fst (shr_fexp F32.prec F32.emax m0 ex loc_Exact))
  /\ snd (shr_fexp F32.prec F32.emax m0 ex loc_Exact) = ex + k.
Proof.
  intros Hm0 Hk Hshift. unfold shr_fexp, shr. rewrite Hshift.
  destruct k as [| p | p]; try lia. cbn [fst snd]. split; [| reflexivity].
  apply (exactBits_iter_pos m0 p 0); [exact Hm0 | apply exactBits_start].
Qed.

(** [shr_fexp] on an exact mantissa that needs no shift. *)
Lemma shr_fexp_none (m0 ex : Z) :
  fexp F32.prec F32.emax (Zdigits2 m0 + ex) - ex <= 0 ->
  shr_fexp F32.prec F32.emax m0 ex loc_Exact = (shr_record_of_loc m0 loc_Exact, ex).
Proof.
  intros Hshift. unfold shr_fexp, shr.
  destruct (fexp F32.prec F32.emax (Zdigits2 m0 + ex) - ex); (reflexivity || lia).
Qed.

(** The number of binary digits of a positive number. *)
Lemma digits2_exact (p : positive) (n : Z) :
  2 ^ (n - 1) <= Z.pos p < 2 ^ n -> 1 <= n -> Z.pos (digits2_pos p) = n.
Proof.
  intros [Hlo Hhi] Hn.
  pose proof (digits2_bound p n ltac:(lia) Hhi) as Hle.
  rewrite digits2_size in *.
  pose proof (Pos.size_gt p) as Hgt.
  apply Pos2Z.pos_lt_pos in Hgt. rewrite Pos2Z.inj_pow in Hgt.
  destruct (Z.lt_ge_cases (Z.pos (Pos.size p)) n) as [Hlt | Hge]; [exfalso | lia].
  assert (Hpow : 2 ^ Z.pos (Pos.size p) <= 2 ^ (n - 1))
    by (apply Z.pow_le_mono_r; lia).
  lia.
Qed.


(** Rounding [d = q * 2^k + rem] with [rem] above one half of [2^k]: the
    first shift of [binary_round_aux] and the rounding give [q + 1]. *)
Lemma shr_fexp_round_up (d : positive) (ex k q : Z) :
  1 <= k -> fexp F32.prec F32.emax (Z.pos (digits2_pos d) + ex) - ex = k ->
  0 <= q -> 2 ^ (k - 1) < Z.pos d - q * 2 ^ k < 2 ^ k ->
  let '(r1, e1) := shr_fexp F32.prec F32.emax (Z.pos d) ex loc_Exact in
  round_nearest_even (shr_m r1) (loc_of_shr_record r1) = q + 1 /\ e1 = ex + k.
Proof.
  intros Hk Hshift Hq Hrem.
  destruct (shr_fexp_shifts (Z.pos d) ex k ltac:(lia) ltac:(lia) Hshift)
    as [(_ & Hm & Hr & Hs) He].
  destruct (shr_fexp F32.prec F32.emax (Z.pos d) ex loc_Exact) as [r1 e1].
  cbn [fst snd] in Hm, Hr, Hs, He. split; [| exact He].
  assert (Hp : 0 < 2 ^ (k - 1)) by (apply Z.pow_pos_nonneg; lia).
  assert (Hpow : 2 ^ k = 2 * 2 ^ (k - 1)).
  { replace k with (k - 1 + 1) at 1 by lia. rewrite Z.pow_add_r by lia.
    change (2 ^ 1) with 2. ring. }
  set (rem := Z.pos d - q * 2 ^ k) in *.
  assert (Hdiv : Z.pos d / 2 ^ k = q).
  { symmetry. apply (Z.div_unique _ _ q rem); [lia | subst rem; ring]. }
  assert (Hmod : Z.pos d mod 2 ^ k = rem).
  { symmetry. apply (Z.mod_unique _ _ q rem); [lia | subst rem; ring]. }
  assert (Hlow : Z.pos d mod 2 ^ (k - 1) = rem - 2 ^ (k - 1)).
  { symmetry. apply (Z.mod_unique _ _ (2 * q + 1) (rem - 2 ^ (k - 1))); [lia |].
    subst rem. rewrite Hpow. ring. }
  assert (Hrb : shr_r r1 = true) by (apply Hr; rewrite Hmod; lia).
  assert (Hsb : shr_s r1 = true) by (apply Hs; rewrite Hlow; lia).
  destruct r1 as [m1 rb sb]. cbn [shr_m shr_r shr_s] in *. subst rb sb m1.
  cbn [loc_of_shr_record round_nearest_even]. rewrite Hdiv. reflexivity.
Qed.

(** A normal number above 32768 with a mantissa above 2^23. *)
Lemma sub_DT_absorbed_normal (m : positive) (e : Z) :
  2 ^ 23 < Z.pos m < 2 ^ 24 -> -8 <= e <= 104 ->
  F32.sub (S754_finite false m e) SPHConstants.DT_f32 = S754_finite false m e.
Proof.
  intros Hm He. unfold F32.sub, SFsub, SPHConstants.DT_f32.
  replace (Z.min e (-33)) with (-33) by lia.
  destruct (shl_align_spec m e (-33)) as [_ Hmu].
  replace (Z.min e (-33)) with (-33) in Hmu by lia.
  replace (e - -33) with (e + 33) in Hmu by lia.
  change (shl_align 10307922 (-33) (-33)) with (10307922%positive, -33).
  cbn [fst cond_Zopp]. rewrite Hmu. clear Hmu.
  set (K := e + 33) in *.
  assert (HK : 25 <= K) by (subst K; lia).
  assert (HP : 2 ^ 25 <= 2 ^ K) by (apply Z.pow_le_mono_r; lia).
  change (2 ^ 25) with 33554432 in HP.
  change (2 ^ 23) with 8388608 in Hm. change (2 ^ 24) with 16777216 in Hm.
  set (P := 2 ^ K) in *.
  unfold binary_normalize.
  destruct (Z.pos m * P - 10307922) as [| d | d] eqn:Ed; [nia | | nia].
  assert (Hlo : 2 ^ (24 + K - 1) <= Z.pos d).
  { replace (24 + K - 1) with (23 + K) by lia. rewrite Z.pow_add_r by lia.
    fold P. change (2 ^ 23) with 8388608. nia. }
  assert (Hhi : Z.pos d < 2 ^ (24 + K)).
  { rewrite Z.pow_add_r by lia. fold P. change (2 ^ 24) with 16777216. nia. }
  pose proof (digits2_exact d (24 + K) (conj Hlo Hhi) ltac:(lia)) as Hdig.
  unfold binary_round. rewrite Hdig.
  destruct (shl_align_spec d (-33) (fexp F32.prec F32.emax (24 + K + -33))) as [Hez Hmz].
  destruct (shl_align d (-33) _) as [mz ez]. cbn [fst snd] in Hez, Hmz.
  assert (Hfexp : fexp F32.prec F32.emax (24 + K + -33) = e).
  { unfold fexp, emin, F32.prec, F32.emax. subst K. lia. }
  rewrite Hfexp in Hez, Hmz.
  replace (Z.min (-33) e) with (-33) in Hez, Hmz by lia.
  rewrite Z.sub_diag, Z.mul_1_r in Hmz. injection Hmz as ->. subst ez.
  unfold binary_round_aux.
  pose proof (shr_fexp_round_up d (-33) K (Z.pos m - 1)) as Hup.
  destruct (shr_fexp F32.prec F32.emax (Z.pos d) (-33) loc_Exact) as [r1 e1].
  destruct Hup as [Hround He1].
  - lia.
  - rewrite Hdig, Hfexp. subst K. lia.
  - lia.
  - fold P. change (2 ^ (K - 1)) with (2 ^ (K - 1)).
    assert (Hhalf : 2 ^ K = 2 * 2 ^ (K - 1)).
    { replace K with (K - 1 + 1) at 1 by lia. rewrite Z.pow_add_r by lia.
      change (2 ^ 1) with 2. ring. }
    fold P in Hhalf. nia.
  - rewrite Hround, He1. replace (Z.pos m - 1 + 1) with (Z.pos m) by lia.
    replace (-33 + K) with e by (subst K; lia).
    rewrite shr_fexp_none.
    + cbn [shr_record_of_loc shr_m].
      replace (e <=? F32.emax - F32.prec) with true
        by (symmetry; apply Z.leb_le; unfold F32.emax, F32.prec; lia).
      reflexivity.
    + cbn [Zdigits2].
      rewrite (digits2_exact m 24) by (change (2 ^ (24 - 1)) with 8388608;
                                        change (2 ^ 24) with 16777216; lia).
      unfold fexp, emin, F32.prec, F32.emax. lia.
Qed.


(** A power of two above 32768: the difference has one digit less, and the
    rounding brings it back. *)
Lemma sub_DT_absorbed_power (e : Z) :
  -7 <= e <= 104 ->
  F32.sub (S754_finite false 8388608 e) SPHConstants.DT_f32 = S754_finite false 8388608 e.
Proof.
  intros He. unfold F32.sub, SFsub, SPHConstants.DT_f32.
  replace (Z.min e (-33)) with (-33) by lia.
  destruct (shl_align_spec 8388608 e (-33)) as [_ Hmu].
  replace (Z.min e (-33)) with (-33) in Hmu by lia.
  replace (e - -33) with (e + 33) in Hmu by lia.
  change (shl_align 10307922 (-33) (-33)) with (10307922%positive, -33).
  cbn [fst cond_Zopp]. rewrite Hmu. clear Hmu.
  set (K := e + 33) in *.
  assert (HK : 26 <= K) by (subst K; lia).
  assert (HQ : 2 ^ 25 <= 2 ^ (K - 1)) by (apply Z.pow_le_mono_r; lia).
  change (2 ^ 25) with 33554432 in HQ.
  assert (HP : 2 ^ K = 2 * 2 ^ (K - 1)).
  { replace K with (K - 1 + 1) at 1 by lia. rewrite Z.pow_add_r by lia.
    change (2 ^ 1) with 2. ring. }
  assert (HH : 2 ^ (K - 1) = 2 * 2 ^ (K - 1 - 1)).
  { replace (K - 1) with (K - 1 - 1 + 1) at 1 by lia. rewrite Z.pow_add_r by lia.
    change (2 ^ 1) with 2. ring. }
  rewrite HP.
  set (Q := 2 ^ (K - 1)) in *.
  unfold binary_normalize.
  destruct (8388608 * (2 * Q) - 10307922) as [| d | d] eqn:Ed; [lia | | lia].
  assert (Hlo : 2 ^ (23 + K - 1) <= Z.pos d).
  { replace (23 + K - 1) with (23 + (K - 1)) by lia. rewrite Z.pow_add_r by lia.
    fold Q. change (2 ^ 23) with 8388608. lia. }
  assert (Hhi : Z.pos d < 2 ^ (23 + K)).
  { rewrite Z.pow_add_r, HP by lia. change (2 ^ 23) with 8388608. lia. }
  pose proof (digits2_exact d (23 + K) (conj Hlo Hhi) ltac:(lia)) as Hdig.
  unfold binary_round. rewrite Hdig.
  destruct (shl_align_spec d (-33) (fexp F32.prec F32.emax (23 + K + -33))) as [Hez Hmz].
  destruct (shl_align d (-33) _) as [mz ez]. cbn [fst snd] in Hez, Hmz.
  assert (Hfexp : fexp F32.prec F32.emax (23 + K + -33) = e - 1).
  { unfold fexp, emin, F32.prec, F32.emax. subst K. lia. }
  rewrite Hfexp in Hez, Hmz.
  replace (Z.min (-33) (e - 1)) with (-33) in Hez, Hmz by lia.
  rewrite Z.sub_diag, Z.mul_1_r in Hmz. injection Hmz as ->. subst ez.
  unfold binary_round_aux.
  pose proof (shr_fexp_round_up d (-33) (K - 1) 16777215) as Hup.
  destruct (shr_fexp F32.prec F32.emax (Z.pos d) (-33) loc_Exact) as [r1 e1].
  destruct Hup as [Hround He1].
  - lia.
  - rewrite Hdig, Hfexp. subst K. lia.
  - lia.
  - fold Q. lia.
  - rewrite Hround, He1. change (16777215 + 1) with 16777216.
    replace (-33 + (K - 1)) with (e - 1) by (subst K; lia).
    destruct (shr_fexp_shifts 16777216 (e - 1) 1 ltac:(lia) ltac:(lia))
      as [(_ & Hm2 & _) He2].
    { change (Zdigits2 16777216) with 25.
      unfold fexp, emin, F32.prec, F32.emax. lia. }
    destruct (shr_fexp F32.prec F32.emax 16777216 (e - 1) loc_Exact) as [r2 e2].
    cbn [fst snd] in Hm2, He2. rewrite Hm2, He2.
    change (16777216 / 2 ^ 1) with 8388608.
    replace (e - 1 + 1) with e by lia.
    replace (e <=? F32.emax - F32.prec) with true
      by (symmetry; apply Z.leb_le; unfold F32.emax, F32.prec; lia).
    reflexivity.
Qed.

Lemma powerRZ_2_nonpos (z : Z) : z <= 0 -> (0 < powerRZ 2 z <= 1)%R.
Proof.
  intros Hz. replace z with (- - z) by lia.
  rewrite powerRZ_neg', powerRZ_2_IZR by lia.
  assert (H1 : (1 <= IZR (2 ^ (- z)))%R).
  { apply IZR_le. assert (0 < 2 ^ (- z)) by (apply Z.pow_pos_nonneg; lia). lia. }
  split.
  - apply Rinv_0_lt_compat. lra.
  - rewrite <- Rinv_1. apply Rinv_le_contravar; lra.
Qed.

(** The mantissa and the exponent of a binary32 number above 32768. *)
Lemma valid_above_32768 (m : positive) (e : Z) :
  F32.valid (S754_finite false m e) = true ->
  (32768 < F32.toR (S754_finite false m e))%R ->
  2 ^ 23 <= Z.pos m < 2 ^ 24 /\ -8 <= e <= 104 /\ (e = -8 -> 2 ^ 23 < Z.pos m).
Proof.
  intros Hvalid Habove.
  unfold F32.valid in Hvalid. cbn [valid_binary] in Hvalid. unfold bounded, canonical_mantissa in Hvalid.
  apply andb_prop in Hvalid. destruct Hvalid as [Hcanon Hmax].
  apply Z.eqb_eq in Hcanon. apply Z.leb_le in Hmax.
  unfold F32.emax, F32.prec in Hmax.
  pose proof (Pos.size_gt m) as Hgt. pose proof (Pos.size_le m) as Hle.
  apply Pos2Z.pos_lt_pos in Hgt. rewrite Pos2Z.inj_pow in Hgt.
  apply Pos2Z.pos_le_pos in Hle. rewrite Pos2Z.inj_pow in Hle.
  change (Z.pos m~0) with (2 * Z.pos m) in Hle.
  rewrite digits2_size in Hcanon.
  set (D := Z.pos (Pos.size m)) in *.
  assert (HD : D <= 24) by (unfold fexp, emin, F32.prec, F32.emax in Hcanon; lia).
  assert (Hm24 : Z.pos m < 2 ^ 24).
  { apply Z.lt_le_trans with (1 := Hgt). apply Z.pow_le_mono_r; lia. }
  cbn [F32.toR cond_Zopp] in Habove.
  assert (Hm24R : (IZR (Z.pos m) < 16777216)%R) by (apply IZR_lt; exact Hm24).
  assert (Hm0R : (0 < IZR (Z.pos m))%R) by (apply IZR_lt; lia).
  assert (He : -8 <= e).
  { destruct (Z.le_gt_cases (-8) e) as [H | H]; [exact H | exfalso].
    replace e with (-9 + (e + 9)) in Habove by lia.
    rewrite powerRZ_add in Habove by lra.
    pose proof (powerRZ_2_nonpos (e + 9) ltac:(lia)) as Hpow.
    assert (Hp9 : powerRZ 2 (-9) = (/ 512)%R) by (simpl; lra).
    rewrite Hp9 in Habove. nra. }
  assert (HD24 : D = 24) by (unfold fexp, emin, F32.prec, F32.emax in Hcanon; lia).
  rewrite HD24 in Hle. change (2 ^ 24) with (2 * 2 ^ 23) in Hle.
  split; [lia |]. split; [lia |].
  intros ->. apply lt_IZR.
  assert (Hp8 : powerRZ 2 (-8) = (/ 256)%R) by (simpl; lra).
  rewrite Hp8 in Habove. change (2 ^ 23) with 8388608. lra.
Qed.

(** Every binary32 number above 32768, and +infinity, absorbs the
    subtraction of the step and passes the loop test. *)
Lemma absorbed_above_32768 (t : F32.float) :
  F32.valid t = true ->
  t = S754_infinity false \/ (32768 < F32.toR t)%R ->
  F32.geb t SPHConstants.DT_f32 = true /\ F32.sub t SPHConstants.DT_f32 = t.
Proof.
  intros Hvalid [-> | Habove]; [split; reflexivity |].
  destruct t as [sg | sg | | sg m e]; cbn [F32.toR] in Habove; try lra.
  destruct sg.
  { exfalso. cbn [cond_Zopp] in Habove.
    assert (Hneg : (IZR (- Z.pos m) < 0)%R) by (apply IZR_lt; lia).
    assert (Hpos : (0 < powerRZ 2 e)%R) by (apply powerRZ_lt; lra).
    nra. }
  destruct (valid_above_32768 m e Hvalid Habove) as (Hm & He & Hedge).
  split.
  - unfold F32.geb, SFleb, SFcompare, SPHConstants.DT_f32.
    destruct (Z.compare_spec (-33) e); (reflexivity || lia).
  - destruct (Z.eq_dec (Z.pos m) (2 ^ 23)) as [E | E].
    + change (2 ^ 23) with (Z.pos 8388608) in E. injection E as ->.
      apply sub_DT_absorbed_power.
      destruct (Z.eq_dec e (-8)) as [E8 | E8]; [| lia].
      specialize (Hedge E8). change (2 ^ 23) with 8388608 in Hedge. lia.
    + apply sub_DT_absorbed_normal; lia.
Qed.

End Binary32Facts.

Section Binary32Values.
Local Open Scope R_scope.

Lemma toR_finite (m k : positive) :
  F32.toR (S754_finite false m (Z.neg k)) = IZR (Z.pos m) / IZR (2 ^ Z.pos k).
Proof.
  cbn [F32.toR cond_Zopp]. unfold Rdiv. f_equal.
  change (Z.neg k) with (- Z.pos k)%Z.
  rewrite powerRZ_neg', powerRZ_2_IZR by lia. reflexivity.
Qed.

(** [DT_f32] is the binary32 number nearest to 0.0012: it lies within half
    a unit in the last place, 2^-34, of it. *)
Lemma DT_f32_nearest :
  12 / 10000 - / 2 ^ 34 < F32.toR SPHConstants.DT_f32 < 12 / 10000 + / 2 ^ 34.
Proof.
  unfold SPHConstants.DT_f32. rewrite toR_finite.
  change (2 ^ 33)%Z with 8589934592%Z.
  replace (2 ^ 34) with 17179869184 by (simpl; lra).
  lra.
Qed.

End Binary32Values.

Section ClockRuns.
Import Host.

(** [update] on a system with particles, when the loop test fails after
    [k] subtractions. *)
Lemma update_runs (deltaTime : F32.float) (s : System) (k fuel : nat) :
  numParticles_ s <> 0%Z -> (k <= fuel)%nat ->
  let total := F32.add (accumulatedTime_ s) deltaTime in
  (forall j, (j < k)%nat -> F32.geb (drained j total) SPHConstants.DT_f32 = true) ->
  F32.geb (drained k total) SPHConstants.DT_f32 = false ->
  let s' := Nat.iter k loopBody (set_accumulatedTime total s) in
  update fuel deltaTime s = Some s'
  /\ accumulatedTime_ s' = drained k total
  /\ glCalls s' = glCalls s ++ concat (replicate k substepCalls).
Proof.
  intros Hnum Hfuel total Hgo Hstop s'.
  destruct (iter_loopBody_facts k (set_accumulatedTime total s)) as (Ha & _ & Hg).
  fold s' in Ha, Hg.
  change (accumulatedTime_ (set_accumulatedTime total s)) with total in Ha.
  change (glCalls (set_accumulatedTime total s)) with (glCalls s) in Hg.
  split; [| split; assumption].
  unfold update.
  destruct (Z.eqb_spec (numParticles_ s) 0) as [E | _]; [contradiction |].
  apply update_loop_runs; assumption.
Qed.

End ClockRuns.

(** C4, as stated, fails in two ways.  On a system without particles
    [update] returns at once: with accumulator 0 and deltaTime 1 nothing
    changes, although floor((0 + 1) / DT) = 833.  On a system with
    particles the count is not the floor: with accumulator 0 and deltaTime
    0.0072f the quotient of the two floats is below 6, so the floor is 5, but
    the rounded subtractions let the loop run 6 substeps, and the
    accumulator ends as 0, not as the remainder. *)
Lemma update_fixed_steps_counterexample :
  (let s := Host.constructed 1 in
   Int_part (F32.toR (F32.add (Host.accumulatedTime_ s) f32_1)
             / F32.toR SPHConstants.DT_f32) = 833%Z
   /\ Host.update 1000 f32_1 s = Some s)
  /\ (let s := Host.set_numParticles 1 (Host.constructed 1) in
      Int_part (F32.toR (F32.add (Host.accumulatedTime_ s) f32_0_0072)
                / F32.toR SPHConstants.DT_f32) = 5%Z
      /\ exists s',
           Host.update 6 f32_0_0072 s = Some s'
           /\ Host.glCalls s' = concat (replicate 6 Host.substepCalls)
           /\ Host.accumulatedTime_ s' = F32.zero).
Proof.
  split.
  - intros s. split; [| reflexivity].
    change (F32.add (Host.accumulatedTime_ s) f32_1) with f32_1.
    unfold f32_1, SPHConstants.DT_f32. rewrite !toR_finite.
    change (2 ^ 33)%Z with 8589934592%Z. change (2 ^ 23)%Z with 8388608%Z.
    symmetry. apply Int_part_spec. lra.
  - intros s. split.
    + change (F32.add (Host.accumulatedTime_ s) f32_0_0072) with f32_0_0072.
      unfold f32_0_0072, SPHConstants.DT_f32. rewrite !toR_finite.
      change (2 ^ 33)%Z with 8589934592%Z. change (2 ^ 31)%Z with 2147483648%Z.
      symmetry. apply Int_part_spec. lra.
    + destruct (update_runs f32_0_0072 s 6 6) as (Hrun & Ha & Hg).
      * discriminate.
      * lia.
      * intros j Hj. do 6 (destruct j as [| j]; [vm_compute; reflexivity |]). lia.
      * vm_compute. reflexivity.
      * eexists. split; [exact Hrun |]. split; [exact Hg |].
        rewrite Ha. vm_compute. reflexivity.
Qed.

(** C4 (amended): on a system without particles [update] changes nothing.
    Otherwise it adds deltaTime to the accumulator and, while the
    accumulator is at least the step, issues the clear and the six passes
    and subtracts the step, both operations in binary32; there is no cap on
    the number of substeps.  Whenever the sum is finite and below 32768
    the loop ends: after some number n of subtractions the accumulator is
    below the step for the first time, and with any fuel of at least n
    [update] returns having run exactly those n loop bodies.  (n is the
    number of rounded subtractions, which need not be the floor of the
    quotient.) *)
Theorem update_fixed_steps (deltaTime : F32.float) (s : Host.System) :
  let total := F32.add (Host.accumulatedTime_ s) deltaTime in
  (Host.numParticles_ s = 0%Z -> forall fuel, Host.update fuel deltaTime s = Some s)
  /\ (Host.numParticles_ s <> 0%Z ->
      F32.is_finite total = true -> (F32.toR total < 32768)%R ->
      exists n : nat,
        (forall j, (j < n)%nat ->
           F32.geb (Host.drained j total) SPHConstants.DT_f32 = true)
        /\ F32.geb (Host.drained n total) SPHConstants.DT_f32 = false
        /\ forall fuel, (n <= fuel)%nat ->
             exists s',
               Host.update fuel deltaTime s = Some s'
               /\ s' = Nat.iter n Host.loopBody (Host.set_accumulatedTime total s)
               /\ Host.accumulatedTime_ s' = Host.drained n total
               /\ Host.glCalls s'
                  = Host.glCalls s ++ concat (replicate n Host.substepCalls)).
Proof.
  intros total. split.
  - intros Hz fuel. unfold Host.update. rewrite Hz. reflexivity.
  - intros Hnum Hfin Hlt.
    destruct (drain_terminates total Hfin Hlt) as (n & Hgo & Hstop).
    exists n. split; [exact Hgo |]. split; [exact Hstop |].
    intros fuel Hfuel.
    destruct (update_runs deltaTime s n fuel Hnum Hfuel Hgo Hstop) as (Hrun & Ha & Hg).
    exists (Nat.iter n Host.loopBody (Host.set_accumulatedTime total s)).
    split; [exact Hrun |]. split; [reflexivity |]. split; [exact Ha | exact Hg].
Qed.

Lemma update_fixed_steps_witness :
  let s := Host.set_numParticles 1 (Host.constructed 1) in
  let total := F32.add (Host.accumulatedTime_ s) f32_0_005 in
  exists n : nat,
    (forall j, (j < n)%nat ->
       F32.geb (Host.drained j total) SPHConstants.DT_f32 = true)
    /\ F32.geb (Host.drained n total) SPHConstants.DT_f32 = false
    /\ forall fuel, (n <= fuel)%nat ->
         exists s',
           Host.update fuel f32_0_005 s = Some s'
           /\ s' = Nat.iter n Host.loopBody (Host.set_accumulatedTime total s)
           /\ Host.accumulatedTime_ s' = Host.drained n total
           /\ Host.glCalls s'
              = Host.glCalls s ++ concat (replicate n Host.substepCalls).
Proof.
  intros s total.
  apply (proj2 (update_fixed_steps f32_0_005 s)).
  - discriminate.
  - reflexivity.
  - change (F32.toR f32_0_005 < 32768)%R. unfold f32_0_005. rewrite toR_finite.
    change (2 ^ 31)%Z with 2147483648%Z. lra.
Defined.

(** With 0.005f on an empty accumulator the clock runs four substeps. *)
Example update_four_substeps :
  (forall j, (j < 4)%nat ->
     F32.geb (Host.drained j f32_0_005) SPHConstants.DT_f32 = true)
  /\ F32.geb (Host.drained 4 f32_0_005) SPHConstants.DT_f32 = false.
Proof.
  split; [| vm_compute; reflexivity].
  intros j Hj. do 4 (destruct j as [| j]; [vm_compute; reflexivity |]). lia.
Qed.

(** ** Pass 1: walls and the interaction impulse *)

Section Step1Facts.
Import Step1.
Local Open Scope R_scope.

Lemma bounce_cases boundsL boundsH velo pos :
  boundsL <= boundsH ->
  (pos < boundsL -> bounce boundsL boundsH (velo, pos) = (velo * - wallDamping, boundsL))
  /\ (boundsH < pos -> bounce boundsL boundsH (velo, pos) = (velo * - wallDamping, boundsH))
  /\ (boundsL <= pos <= boundsH -> bounce boundsL boundsH (velo, pos) = (velo, pos)).
Proof.
  intros Hle. unfold bounce. repeat split; intros H.
  - destruct (Rlt_dec pos boundsL); [| lra].
    destruct (Rgt_dec boundsL boundsH); [lra | reflexivity].
  - destruct (Rlt_dec pos boundsL); [lra |].
    destruct (Rgt_dec pos boundsH); [reflexivity | lra].
  - destruct (Rlt_dec pos boundsL); [lra |].
    destruct (Rgt_dec pos boundsH); [lra | reflexivity].
Qed.

Lemma integrate_axes u p :
  forall axis : vec3 -> R, axis = vx \/ axis = vy \/ axis = vz ->
    (axis (velocity (integrate u p)), axis (position (integrate u p)))
    = bounce (axis (boundsL u)) (axis (boundsH u))
        (axis (preWallVelocity u p), axis (preWallPosition u p)).
Proof.
  intros axis Haxis. unfold integrate. cbv zeta.
  destruct Haxis as [-> | [-> | ->]];
    destruct (bounce (vx (boundsL u)) (vx (boundsH u))
                (vx (preWallVelocity u p), vx (preWallPosition u p))) as [velx posx];
    destruct (bounce (vy (boundsL u)) (vy (boundsH u))
                (vy (preWallVelocity u p), vy (preWallPosition u p))) as [vely posy];
    destruct (bounce (vz (boundsL u)) (vz (boundsH u))
                (vz (preWallVelocity u p), vz (preWallPosition u p))) as [velz posz];
    reflexivity.
Qed.

End Step1Facts.

(** C5, as stated, fails: in the domain [0, 10] a particle integrated to
    x = -1, beyond the wall x = 0, is put at x = 0.5, not on the wall. *)
Lemma wall_clamp_counterexample :
  let u := sampleUniforms 0 in
  let particle := Particle (Vec3 (-1) 5 5) 0 V.zero 0 in
  (vx (Step1.preWallPosition u particle) < vx (uGridOrigin u))%R
  /\ vx (position (Step1.integrate u particle)) = (5 / 10)%R
  /\ vx (position (Step1.integrate u particle)) <> vx (uGridOrigin u).
Proof.
  intros u particle.
  assert (Hpos : vx (Step1.preWallPosition u particle) = (-1)%R).
  { unfold Step1.preWallPosition, Step1.preWallVelocity, Step1.sphereImpulse; simpl. ring. }
  assert (Hx : vx (position (Step1.integrate u particle)) = (5 / 10)%R).
  { pose proof (integrate_axes u particle vx (or_introl eq_refl)) as H.
    destruct (bounce_cases (vx (Step1.boundsL u)) (vx (Step1.boundsH u))
                (vx (Step1.preWallVelocity u particle)) (vx (Step1.preWallPosition u particle)))
      as (Hlow & _ & _).
    { unfold Step1.boundsL, Step1.boundsH, Step1.SAFE_BOUNDS; simpl. lra. }
    rewrite Hlow in H.
    - injection H as _ H. rewrite H.
      unfold Step1.boundsL, Step1.SAFE_BOUNDS; simpl. lra.
    - rewrite Hpos. unfold Step1.boundsL, Step1.SAFE_BOUNDS; simpl. lra. }
  split; [rewrite Hpos; simpl; lra |].
  split; [exact Hx |]. rewrite Hx. simpl. lra.
Qed.

(** C5 (amended): the walls tested in pass 1 are the safe bounds, the
    domain box shrunk by 0.5 on every side.  On an axis whose safe bounds
    are ordered, a new position below the low bound is set to the low bound
    and one above the high bound to the high bound, and that axis of the
    velocity is multiplied by -0.5; a position between the bounds is left as
    integrated. *)
Theorem integrate_safe_bounds (u : Uniforms) (particle : SPHParticleCompute)
    (axis : vec3 -> R) :
  axis = vx \/ axis = vy \/ axis = vz ->
  (axis (Step1.boundsL u) <= axis (Step1.boundsH u))%R ->
  let q := Step1.integrate u particle in
  let velo := axis (Step1.preWallVelocity u particle) in
  let pos := axis (Step1.preWallPosition u particle) in
  axis (Step1.boundsL u) = (axis (uGridOrigin u) + 5 / 10)%R
  /\ axis (Step1.boundsH u) = (axis (uGridOrigin u) + axis (uGridSize u) - 5 / 10)%R
  /\ ((pos < axis (Step1.boundsL u))%R ->
      axis (position q) = axis (Step1.boundsL u)
      /\ axis (velocity q) = (velo * - (5 / 10))%R)
  /\ ((axis (Step1.boundsH u) < pos)%R ->
      axis (position q) = axis (Step1.boundsH u)
      /\ axis (velocity q) = (velo * - (5 / 10))%R)
  /\ ((axis (Step1.boundsL u) <= pos <= axis (Step1.boundsH u))%R ->
      axis (position q) = pos /\ axis (velocity q) = velo).
Proof.
  intros Haxis Hle q velo pos.
  pose proof (integrate_axes u particle axis Haxis) as H. fold q velo pos in H.
  destruct (bounce_cases _ _ velo pos Hle) as (Hlow & Hhigh & Hmid).
  split; [| split].
  - destruct Haxis as [-> | [-> | ->]]; reflexivity.
  - destruct Haxis as [-> | [-> | ->]]; reflexivity.
  - split; [| split]; intros Hc.
    + rewrite (Hlow Hc) in H. injection H as Hv Hp. split; [exact Hp | exact Hv].
    + rewrite (Hhigh Hc) in H. injection H as Hv Hp. split; [exact Hp | exact Hv].
    + rewrite (Hmid Hc) in H. injection H as Hv Hp. split; [exact Hp | exact Hv].
Qed.

Lemma integrate_safe_bounds_witness :
  let u := sampleUniforms 0 in
  let particle := Particle (Vec3 (-1) 5 5) 0 (Vec3 2 0 0) 0 in
  let q := Step1.integrate u particle in
  let velo := vx (Step1.preWallVelocity u particle) in
  let pos := vx (Step1.preWallPosition u particle) in
  vx (Step1.boundsL u) = (vx (uGridOrigin u) + 5 / 10)%R
  /\ vx (Step1.boundsH u) = (vx (uGridOrigin u) + vx (uGridSize u) - 5 / 10)%R
  /\ ((pos < vx (Step1.boundsL u))%R ->
      vx (position q) = vx (Step1.boundsL u)
      /\ vx (velocity q) = (velo * - (5 / 10))%R)
  /\ ((vx (Step1.boundsH u) < pos)%R ->
      vx (position q) = vx (Step1.boundsH u)
      /\ vx (velocity q) = (velo * - (5 / 10))%R)
  /\ ((vx (Step1.boundsL u) <= pos <= vx (Step1.boundsH u))%R ->
      vx (position q) = pos /\ vx (velocity q) = velo).
Proof.
  apply (integrate_safe_bounds (sampleUniforms 0)
           (Particle (Vec3 (-1) 5 5) 0 (Vec3 2 0 0) 0) vx).
  - left. reflexivity.
  - unfold Step1.boundsL, Step1.boundsH, Step1.SAFE_BOUNDS. simpl. lra.
Defined.

Section ImpulseFacts.
Import Step1.
Local Open Scope R_scope.






End ImpulseFacts.




(** ** The neighbour walk *)

Section WalkFacts.
Import Stencil.
Local Open Scope Z_scope.
Context {A : Type}.
Variable visit : Z -> A -> A.
Variable grid : Image.uimage3D.
Variable res : ivec3.
Variable voxelId : ivec3.

Let step (acc : A) (j : Z) : A := visit j acc.

(** The particles [offset + n - 1, ..., offset] of a cell. *)
Let countdown (offset : Z) (n : nat) : list Z :=
  map (fun k => U32.add offset (Z.of_nat k)) (rev (seq 0 n)).

Lemma countdown_S offset n :
  countdown offset (S n) = U32.add offset (Z.of_nat n) :: countdown offset n.
Proof.
  unfold countdown. rewrite seq_S, rev_app_distr. reflexivity.
Qed.

Lemma cellCount_range w : 0 <= Image.cellCount w <= 255.
Proof.
  unfold Image.cellCount.
  replace (Z.land w 255) with (w mod 256).
  - pose proof (Z.mod_pos_bound w 256 ltac:(lia)). lia.
  - change 255 with (Z.ones 8). rewrite Z.land_ones by lia. reflexivity.
Qed.

Lemma walk_unfold fuel voxelCount vpc vpo acc :
  walk visit grid res voxelId (S fuel) voxelCount vpc vpo acc
  = if (Nat.ltb voxelCount 27) || (0 <? vpc) then
      if vpc =? 0 then
        let newVoxelId := addv voxelId (nth voxelCount NEIGHBORHOOD_LUT (0, 0, 0)) in
        if outside res newVoxelId
        then walk visit grid res voxelId fuel (S voxelCount) vpc vpo acc
        else
          let voxelValue := Image.imageLoad grid newVoxelId in
          if Image.cellCount voxelValue =? 0
          then walk visit grid res voxelId fuel (S voxelCount)
                 (Image.cellCount voxelValue) (Image.cellOffset voxelValue) acc
          else walk visit grid res voxelId fuel (S voxelCount)
                 (U32.sub (Image.cellCount voxelValue) 1) (Image.cellOffset voxelValue)
                 (visit (U32.add (Image.cellOffset voxelValue)
                           (U32.sub (Image.cellCount voxelValue) 1)) acc)
      else walk visit grid res voxelId fuel voxelCount (U32.sub vpc 1) vpo
             (visit (U32.add vpo (U32.sub vpc 1)) acc)
    else Some acc.
Proof. reflexivity. Qed.

Lemma u32_pred n : Z.of_nat (S n) < U32.modulus -> U32.sub (Z.of_nat (S n)) 1 = Z.of_nat n.
Proof.
  intros H. unfold U32.sub.
  replace (Z.of_nat (S n) - 1) with (Z.of_nat n) by lia.
  apply wrap32_small. unfold U32.in_range. lia.
Qed.

(** Draining the particles of the current cell. *)
Lemma walk_drain n : forall fuel voxelCount vpo acc,
  (n <= fuel)%nat -> Z.of_nat n < U32.modulus ->
  walk visit grid res voxelId fuel voxelCount (Z.of_nat n) vpo acc
  = walk visit grid res voxelId (fuel - n) voxelCount 0 vpo
      (fold_left step (countdown vpo n) acc).
Proof.
  induction n as [| n IH]; intros fuel voxelCount vpo acc Hfuel Hn.
  - rewrite Nat.sub_0_r. reflexivity.
  - destruct fuel as [| fuel]; [lia |].
    rewrite walk_unfold.
    replace (0 <? Z.of_nat (S n)) with true by (symmetry; apply Z.ltb_lt; lia).
    rewrite orb_true_r.
    replace (Z.of_nat (S n) =? 0) with false by (symmetry; apply Z.eqb_neq; lia).
    rewrite u32_pred by exact Hn.
    rewrite IH by lia. rewrite countdown_S. reflexivity.
Qed.

Lemma candidatesFrom_cons d lut :
  candidatesFrom grid res voxelId (d :: lut)
  = (if outside res (addv voxelId d) then []
     else cellCandidates (Image.imageLoad grid (addv voxelId d)))
    ++ candidatesFrom grid res voxelId lut.
Proof. reflexivity. Qed.

Lemma cellCandidates_countdown w :
  cellCandidates w = countdown (Image.cellOffset w) (Z.to_nat (Image.cellCount w)).
Proof. reflexivity. Qed.

(** From the start of stencil entry [voxelCount] the loop meets exactly the
    candidates of the remaining entries. *)
Lemma walk_from k : forall voxelCount fuel vpo acc,
  (voxelCount + k = 27)%nat -> (k * 256 <= fuel)%nat ->
  walk visit grid res voxelId fuel voxelCount 0 vpo acc
  = Some (fold_left step
            (candidatesFrom grid res voxelId (drop voxelCount NEIGHBORHOOD_LUT)) acc).
Proof.
  induction k as [| k IH]; intros voxelCount fuel vpo acc Hvc Hfuel.
  - assert (voxelCount = 27%nat) as -> by lia.
    destruct fuel; reflexivity.
  - destruct fuel as [| fuel]; [lia |].
    rewrite walk_unfold.
    replace (Nat.ltb voxelCount 27) with true by (symmetry; apply Nat.ltb_lt; lia).
    simpl orb. rewrite Z.eqb_refl.
    assert (Hdrop : drop voxelCount NEIGHBORHOOD_LUT
                    = nth voxelCount NEIGHBORHOOD_LUT (0, 0, 0)
                      :: drop (S voxelCount) NEIGHBORHOOD_LUT).
    { assert (Hlt : (voxelCount < length NEIGHBORHOOD_LUT)%nat) by (simpl; lia).
      destruct (lookup_lt_is_Some_2 _ _ Hlt) as [d Hd].
      rewrite (drop_S _ _ _ Hd). f_equal.
      apply nth_lookup_Some with (d := (0, 0, 0)) in Hd. symmetry. exact Hd. }
    rewrite Hdrop, candidatesFrom_cons. cbv zeta.
    set (newVoxelId := addv voxelId (nth voxelCount NEIGHBORHOOD_LUT (0, 0, 0))).
    destruct (outside res newVoxelId).
    + rewrite (IH (S voxelCount)) by lia. reflexivity.
    + set (w := Image.imageLoad grid newVoxelId).
      pose proof (cellCount_range w) as Hc.
      rewrite fold_left_app, cellCandidates_countdown.
      destruct (Z.eqb_spec (Image.cellCount w) 0) as [E | E].
      * rewrite E. rewrite (IH (S voxelCount)) by lia. reflexivity.
      * destruct (Z.to_nat (Image.cellCount w)) as [| n] eqn:En; [lia |].
        assert (Ew : Image.cellCount w = Z.of_nat (S n)) by lia.
        rewrite Ew, u32_pred by (rewrite modulus_value; lia).
        rewrite walk_drain by (try rewrite modulus_value; lia).
        rewrite countdown_S. simpl fold_left at 2.
        rewrite (IH (S voxelCount)) by lia. reflexivity.
Qed.

(** The loop terminates within [enoughFuel] iterations and folds the body
    over the candidates. *)
Lemma walk_candidates fuel acc :
  (enoughFuel <= fuel)%nat ->
  walk visit grid res voxelId fuel 0 0 0 acc
  = Some (fold_left step (candidates grid res voxelId) acc).
Proof.
  intros Hfuel. apply (walk_from 27); [reflexivity | exact Hfuel].
Qed.

End WalkFacts.

(** ** Pass 5: density and pressure *)

Section Step5Facts.
Import Step5.
Local Open Scope R_scope.

Lemma KERNEL_RADIUS_pos : 0 < KERNEL_RADIUS.
Proof. unfold KERNEL_RADIUS. lra. Qed.

(** The particle's own entry adds its zero-distance weight. *)
Lemma accumulate_self particles (i : nat) p density :
  particles !! i = Some p ->
  accumulate particles p (Z.of_nat i) density = density + MASS * weight 0.
Proof.
  intros Hp. unfold accumulate, Glsl.fetch.
  rewrite Nat2Z.id, Hp. simpl default.
  rewrite vsub_diag, vlength_zero.
  pose proof KERNEL_RADIUS_pos.
  destruct (Rge_dec 0 KERNEL_RADIUS); [lra | reflexivity].
Qed.

(** A candidate at or beyond the kernel radius adds nothing. *)
Lemma accumulate_far particles p j density :
  KERNEL_RADIUS
    <= V.length (V.sub (position p) (position (Glsl.fetch particles (Z.to_nat j)))) ->
  accumulate particles p j density = density.
Proof.
  intros Hfar. unfold accumulate.
  destruct (Rge_dec _ KERNEL_RADIUS); [reflexivity | lra].
Qed.

Lemma fold_accumulate_isolated particles (i : nat) p (cands : list Z) : forall density,
  particles !! i = Some p ->
  (forall j, j ∈ cands -> j <> Z.of_nat i ->
     KERNEL_RADIUS
       <= V.length (V.sub (position p) (position (Glsl.fetch particles (Z.to_nat j))))) ->
  fold_left (fun acc j => accumulate particles p j acc) cands density
  = density + INR (count_occ Z.eq_dec cands (Z.of_nat i)) * (MASS * weight 0).
Proof.
  induction cands as [| j cands IH]; intros density Hp Hfar.
  - simpl. ring.
  - cbn [fold_left count_occ].
    destruct (Z.eq_dec j (Z.of_nat i)) as [-> | Hne].
    + rewrite IH; [| exact Hp |].
      * rewrite accumulate_self by exact Hp. rewrite S_INR. ring.
      * intros k Hk. apply Hfar. right. exact Hk.
    + rewrite IH; [| exact Hp |].
      * rewrite accumulate_far; [reflexivity |].
        apply Hfar; [left | exact Hne].
      * intros k Hk. apply Hfar. right. exact Hk.
Qed.

(** The density of an isolated particle in closed form. *)
Lemma isolated_density_value :
  MASS * weight 0 = 2 / 100 * (315 / (64 * PI_LITERAL * KERNEL_RADIUS ^ 3)).
Proof.
  unfold weight, POLY6_KERNEL_WEIGHT_CONST, MASS, PI_LITERAL, KERNEL_RADIUS. field.
Qed.

Lemma isolated_density_bounds : 5 < MASS * weight 0 < 6.
Proof.
  rewrite isolated_density_value.
  unfold PI_LITERAL, KERNEL_RADIUS.
  split.
  - apply (Rmult_lt_reg_r (64 * (314159265 / 100000000) * (1828 / 10000) ^ 3)); [nra |].
    field_simplify; lra.
  - apply (Rmult_lt_reg_r (64 * (314159265 / 100000000) * (1828 / 10000) ^ 3)); [nra |].
    field_simplify; lra.
Qed.

End Step5Facts.

Section TruncateFacts.
Local Open Scope R_scope.

Lemma truncate_between (x : R) (z : Z) :
  (0 <= z)%Z -> IZR z <= x < IZR z + 1 -> Glsl.truncate x = z.
Proof.
  intros Hz [Hlo Hhi]. unfold Glsl.truncate.
  assert (0 <= IZR z) by (apply IZR_le; exact Hz).
  destruct (Rle_dec 0 x); [| lra].
  symmetry. apply Int_part_spec. lra.
Qed.

End TruncateFacts.

(** C8: a particle that the stencil walk meets exactly once (its own entry)
    and whose other candidates all lie at or beyond the kernel radius ends
    the density pass with density MASS * Poly6(h, 0), for MASS = 0.02 and
    h = 0.1828, and pressure 250 * (density - 998.27); the pressure is not
    clamped and is negative here. *)
Theorem isolated_particle_density (u : Uniforms) (grid : Image.uimage3D)
    (particles : list SPHParticleCompute) (i : nat) (p : SPHParticleCompute) (fuel : nat) :
  particles !! i = Some p ->
  let cands := Stencil.candidates grid (uGridRes u) (Glsl.voxelOf u (position p)) in
  count_occ Z.eq_dec cands (Z.of_nat i) = 1%nat ->
  (forall j, j ∈ cands -> j <> Z.of_nat i ->
     (Step5.KERNEL_RADIUS
      <= V.length (V.sub (position p) (position (Glsl.fetch particles (Z.to_nat j)))))%R) ->
  (Stencil.enoughFuel <= fuel)%nat ->
  let density := (Step5.MASS * Step5.weight 0)%R in
  let pressure := (Step5.STIFFNESS_K * (density - Step5.REST_DENSITY))%R in
  Step5.main fuel u grid particles i
  = Some (<[i := Particle (position p) density (velocity p) pressure]> particles)
  /\ density
     = (2 / 100 * ((1828 / 10000 * (1828 / 10000) - 0 * 0) ^ 3
                   * (315 / (64 * (314159265 / 100000000) * (1828 / 10000) ^ 9))))%R
  /\ pressure = (250 * (density - 99827 / 100))%R
  /\ (pressure < 0)%R.
Proof.
  intros Hp cands Hself Hfar Hfuel density pressure.
  split; [| split; [reflexivity | split; [reflexivity |]]].
  - unfold Step5.main. rewrite Hp.
    rewrite walk_candidates by exact Hfuel. fold cands.
    rewrite (fold_accumulate_isolated particles i p cands 0%R Hp Hfar).
    rewrite Hself. simpl INR. unfold Step5.REST_PRESSURE.
    f_equal. f_equal. fold density.
    replace (0 + 1 * density)%R with density by ring.
    f_equal. subst pressure. ring.
  - pose proof isolated_density_bounds as Hb. fold density in Hb.
    subst pressure. unfold Step5.STIFFNESS_K, Step5.REST_DENSITY. lra.
Qed.

(** Two particles one unit apart in neighbouring cells of the sample grid. *)
Lemma isolated_particle_density_witness :
  let u := sampleUniforms 0 in
  let p0 := Particle (Vec3 (11 / 2) (11 / 2) (11 / 2)) 0 V.zero 0 in
  let p1 := Particle (Vec3 (13 / 2) (11 / 2) (11 / 2)) 0 V.zero 0 in
  let grid := Image.MkImage (10, 10, 10)%Z
                (<[(5, 5, 5)%Z := 1%Z]> (<[(6, 5, 5)%Z := 257%Z]> ∅)) in
  let density := (Step5.MASS * Step5.weight 0)%R in
  let pressure := (Step5.STIFFNESS_K * (density - Step5.REST_DENSITY))%R in
  Step5.main Stencil.enoughFuel u grid [p0; p1] 0
  = Some [Particle (position p0) density (velocity p0) pressure; p1]
  /\ density
     = (2 / 100 * ((1828 / 10000 * (1828 / 10000) - 0 * 0) ^ 3
                   * (315 / (64 * (314159265 / 100000000) * (1828 / 10000) ^ 9))))%R
  /\ pressure = (250 * (density - 99827 / 100))%R
  /\ (pressure < 0)%R.
Proof.
  intros u p0 p1 grid.
  assert (Hvoxel : Glsl.voxelOf u (position p0) = (5, 5, 5)%Z).
  { unfold Glsl.voxelOf. simpl.
    repeat f_equal; apply truncate_between; try lia; simpl; lra. }
  assert (Hcands : Stencil.candidates grid (uGridRes u) (Glsl.voxelOf u (position p0))
                   = [0%Z; 1%Z]).
  { rewrite Hvoxel. vm_compute. reflexivity. }
  apply (isolated_particle_density u grid [p0; p1] 0 p0 Stencil.enoughFuel).
  - reflexivity.
  - rewrite Hcands. reflexivity.
  - rewrite Hcands. intros j Hj Hne.
    assert (j = 1%Z) as ->.
    { apply elem_of_cons in Hj as [-> | Hj]; [contradiction |].
      apply elem_of_cons in Hj as [-> | Hj]; [reflexivity |].
      apply elem_of_nil in Hj. contradiction. }
    replace (V.length (V.sub (position p0) (position (Glsl.fetch [p0; p1] (Z.to_nat 1)))))
      with 1%R.
    + unfold Step5.KERNEL_RADIUS. lra.
    + unfold V.length, V.dot, V.sub. simpl.
      replace ((11 / 2 - 13 / 2) * (11 / 2 - 13 / 2)
               + (11 / 2 - 11 / 2) * (11 / 2 - 11 / 2)
               + (11 / 2 - 11 / 2) * (11 / 2 - 11 / 2))%R with 1%R by field.
      symmetry. apply sqrt_1.
  - lia.
Defined.

(** ** Pass 6: the minimum-distance guard *)

Section Step6Facts.
Import Step6.
Local Open Scope R_scope.

Lemma divide_nonzero a d : d <> 0 -> divide a d = Some (V.divs a d).
Proof.
  intros Hd. unfold divide. destruct (Req_dec_T d 0); [contradiction | reflexivity].
Qed.

Lemma divide_None a d : divide a d = None -> d = 0.
Proof.
  unfold divide. destruct (Req_dec_T d 0); [auto | discriminate].
Qed.

Lemma accumulate_skip_self particles particleId p acc :
  accumulate particles particleId p particleId acc = acc.
Proof.
  unfold accumulate. destruct acc as [[fp fv] |]; [| reflexivity].
  rewrite Z.eqb_refl. reflexivity.
Qed.

Lemma accumulate_skip_close particles particleId p otherParticleId acc :
  V.length (V.sub (position p)
              (position (Glsl.fetch particles (Z.to_nat otherParticleId)))) <= MIN_DISTANCE ->
  accumulate particles particleId p otherParticleId acc = acc.
Proof.
  intros Hclose. unfold accumulate. destruct acc as [[fp fv] |]; [| reflexivity].
  destruct (Z.eqb otherParticleId particleId); [reflexivity |]. cbv zeta.
  destruct (Rge_dec _ KERNEL_RADIUS); [reflexivity |].
  destruct (Rle_dec _ MIN_DISTANCE); [reflexivity | contradiction].
Qed.

Lemma accumulate_None particles particleId p otherParticleId forces :
  accumulate particles particleId p otherParticleId (Some forces) = None ->
  density (Glsl.fetch particles (Z.to_nat otherParticleId)) = 0.
Proof.
  unfold accumulate. destruct forces as [fp fv].
  destruct (Z.eqb otherParticleId particleId); [discriminate |]. cbv zeta.
  set (other := Glsl.fetch particles (Z.to_nat otherParticleId)).
  set (r := V.sub (position p) (position other)).
  destruct (Rge_dec (V.length r) KERNEL_RADIUS); [discriminate |].
  destruct (Rle_dec (V.length r) MIN_DISTANCE) as [| Hfar]; [discriminate |].
  rewrite divide_nonzero by (unfold MIN_DISTANCE in Hfar; lra).
  destruct (divide _ (2 * density other)) eqn:E1.
  - destruct (divide _ (density other)) eqn:E2; [discriminate |].
    intros _. apply divide_None in E2. exact E2.
  - intros _. apply divide_None in E1. lra.
Qed.

End Step6Facts.

(** C9: in the force pass the particle's own entry and every neighbour no
    farther than the minimum distance 0.0001 leave both force accumulators
    as they were, so two particles at the same position add nothing to each
    other; the division by the distance is reached only with a distance
    above 0.0001, hence a division by zero in the loop body can only come
    from a neighbour of density zero, never from the distance. *)
Theorem coincident_particles_no_force (particles : list SPHParticleCompute)
    (i j : nat) (p q : SPHParticleCompute) (acc : option Step6.Forces) :
  (Step6.accumulate particles (Z.of_nat i) p (Z.of_nat i) acc = acc)
  /\ (forall other,
        (V.length (V.sub (position p)
                     (position (Glsl.fetch particles (Z.to_nat other))))
         <= Step6.MIN_DISTANCE)%R ->
        Step6.accumulate particles (Z.of_nat i) p other acc = acc)
  /\ (particles !! i = Some p -> particles !! j = Some q -> position p = position q ->
        Step6.accumulate particles (Z.of_nat i) p (Z.of_nat j) acc = acc
        /\ Step6.accumulate particles (Z.of_nat j) q (Z.of_nat i) acc = acc)
  /\ (forall other forces,
        Step6.accumulate particles (Z.of_nat i) p other (Some forces) = None ->
        density (Glsl.fetch particles (Z.to_nat other)) = 0%R)
  /\ (forall r d, (Step6.MIN_DISTANCE < d)%R -> Step6.divide r d = Some (V.divs r d)).
Proof.
  split; [| split; [| split; [| split]]].
  - apply accumulate_skip_self.
  - intros other Hclose. apply accumulate_skip_close. exact Hclose.
  - intros Hp Hq Hpos.
    assert (Hzero : (0 <= Step6.MIN_DISTANCE)%R) by (unfold Step6.MIN_DISTANCE; lra).
    split; apply accumulate_skip_close; unfold Glsl.fetch; rewrite Nat2Z.id.
    + rewrite Hq. simpl default. rewrite Hpos, vsub_diag, vlength_zero. exact Hzero.
    + rewrite Hp. simpl default. rewrite Hpos, vsub_diag, vlength_zero. exact Hzero.
  - intros other forces. apply accumulate_None.
  - intros r d Hd. apply divide_nonzero. unfold Step6.MIN_DISTANCE in Hd. lra.
Qed.

(** ** The grid image *)

Section ImageFacts.
Import Image.
Local Open Scope Z_scope.

Lemma imageSize_store g c v : imageSize (imageStore g c v) = imageSize g.
Proof. unfold imageStore. destruct (inBounds (imageSize g) c); reflexivity. Qed.

Lemma imageLoad_outside g c : inBounds (imageSize g) c = false -> imageLoad g c = 0.
Proof. intros H. unfold imageLoad. rewrite H. reflexivity. Qed.

Lemma imageLoad_cleared size c : imageLoad (cleared size) c = 0.
Proof.
  unfold imageLoad, cleared. simpl. rewrite lookup_empty.
  destruct (inBounds size c); reflexivity.
Qed.

Lemma imageLoad_store_eq g c v :
  inBounds (imageSize g) c = true -> imageLoad (imageStore g c v) c = v.
Proof.
  intros H. unfold imageLoad, imageStore. rewrite H. simpl. rewrite H.
  rewrite lookup_insert_eq. reflexivity.
Qed.

Lemma imageLoad_store_ne g c c' v :
  c <> c' -> imageLoad (imageStore g c v) c' = imageLoad g c'.
Proof.
  intros Hne. unfold imageLoad, imageStore.
  destruct (inBounds (imageSize g) c); [| reflexivity]. simpl.
  rewrite lookup_insert_ne by exact Hne. reflexivity.
Qed.

Lemma imageLoad_store g c c' v :
  inBounds (imageSize g) c' = true ->
  imageLoad (imageStore g c v) c' = if decide (c = c') then v else imageLoad g c'.
Proof.
  intros H. destruct (decide (c = c')) as [-> | Hne].
  - apply imageLoad_store_eq. exact H.
  - apply imageLoad_store_ne. exact Hne.
Qed.

End ImageFacts.

(** ** Counting: population, offsets and totals *)

Section SortFacts.
Import Sort.
Local Open Scope Z_scope.

Lemma population_nil c : population [] c = 0.
Proof. reflexivity. Qed.

Lemma population_cons x cells c :
  population (x :: cells) c = (if decide (x = c) then 1 else 0) + population cells c.
Proof.
  unfold population. rewrite filter_cons.
  destruct (decide (x = c)); simpl length; lia.
Qed.

Lemma population_nonneg cells c : 0 <= population cells c.
Proof. unfold population. lia. Qed.

Lemma population_le_length cells c : population cells c <= Z.of_nat (length cells).
Proof.
  unfold population. pose proof (length_filter (fun c' => c' = c) cells). lia.
Qed.

Lemma population_Permutation cells cells' c :
  cells ≡ₚ cells' -> population cells c = population cells' c.
Proof. intros H. unfold population. rewrite H. reflexivity. Qed.

Lemma population_absent cells c : c ∉ cells -> population cells c = 0.
Proof.
  induction cells as [| x cells IH]; intros Hc; [reflexivity |].
  rewrite population_cons. apply not_elem_of_cons in Hc as [Hne Hc].
  destruct (decide (x = c)); [congruence |]. rewrite IH by exact Hc. lia.
Qed.

Lemma total_cons load x order : total load (x :: order) = load x + total load order.
Proof. reflexivity. Qed.

Lemma total_app load l1 l2 : total load (l1 ++ l2) = total load l1 + total load l2.
Proof.
  induction l1 as [| x l1 IH]; [reflexivity |].
  rewrite <- app_comm_cons, !total_cons, IH. lia.
Qed.

Lemma total_nonneg load order :
  (forall c, c ∈ order -> 0 <= load c) -> 0 <= total load order.
Proof.
  induction order as [| x order IH]; intros H; [reflexivity |].
  rewrite total_cons.
  assert (0 <= load x) by (apply H; left).
  assert (0 <= total load order) by (apply IH; intros c Hc; apply H; right; exact Hc).
  lia.
Qed.

Lemma total_ext load load' order :
  (forall c, c ∈ order -> load c = load' c) -> total load order = total load' order.
Proof.
  induction order as [| x order IH]; intros H; [reflexivity |].
  rewrite !total_cons, (H x) by left. rewrite IH; [reflexivity |].
  intros c Hc. apply H. right. exact Hc.
Qed.

Lemma offsetOf_cons load x order c :
  offsetOf load (x :: order) c
  = if decide (x = c) then 0 else load x + offsetOf load order c.
Proof. reflexivity. Qed.

Lemma offsetOf_ext load load' order c :
  (forall c', c' ∈ order -> load c' = load' c') ->
  offsetOf load order c = offsetOf load' order c.
Proof.
  induction order as [| x order IH]; intros H; [reflexivity |].
  rewrite !offsetOf_cons.
  destruct (decide (x = c)); [reflexivity |].
  rewrite (H x) by left. rewrite IH; [reflexivity |].
  intros c' Hc'. apply H. right. exact Hc'.
Qed.

Lemma offsetOf_app load l1 l2 c :
  offsetOf load (l1 ++ l2) c
  = if decide (c ∈ l1) then offsetOf load l1 c else total load l1 + offsetOf load l2 c.
Proof.
  induction l1 as [| x l1 IH].
  - destruct (decide (c ∈ [])) as [H | _]; [apply elem_of_nil in H; contradiction |].
    reflexivity.
  - rewrite <- app_comm_cons, !offsetOf_cons, total_cons.
    destruct (decide (x = c)) as [-> | Hne].
    + destruct (decide (c ∈ c :: l1)) as [_ | H]; [reflexivity |].
      exfalso. apply H. left.
    + rewrite IH. destruct (decide (c ∈ l1)) as [Hin | Hnin].
      * destruct (decide (c ∈ x :: l1)) as [_ | H]; [reflexivity |].
        exfalso. apply H. right. exact Hin.
      * destruct (decide (c ∈ x :: l1)) as [H | _].
        -- apply elem_of_cons in H as [-> | H]; contradiction.
        -- lia.
Qed.

Lemma offsetOf_bounds load order c :
  (forall c', c' ∈ order -> 0 <= load c') ->
  0 <= offsetOf load order c
  /\ (c ∈ order -> offsetOf load order c + load c <= total load order).
Proof.
  induction order as [| x order IH]; intros Hpos.
  - split; [reflexivity |]. intros H. apply elem_of_nil in H. contradiction.
  - rewrite offsetOf_cons, total_cons.
    assert (Hx : 0 <= load x) by (apply Hpos; left).
    assert (Hrest : forall c', c' ∈ order -> 0 <= load c')
      by (intros c' Hc'; apply Hpos; right; exact Hc').
    destruct (IH Hrest) as [H0 Hin].
    pose proof (total_nonneg load order Hrest) as Ht.
    destruct (decide (x = c)) as [-> | Hne].
    + split; [lia |]. intros _. lia.
    + split; [lia |]. intros Hc. apply elem_of_cons in Hc as [-> | Hc]; [congruence |].
      specialize (Hin Hc). lia.
Qed.

(** Every index below the total lies in the range of some listed cell. *)
Lemma offsetOf_cover load order : forall i,
  NoDup order ->
  (forall c, c ∈ order -> 0 <= load c) ->
  0 <= i < total load order ->
  exists c, c ∈ order /\ offsetOf load order c <= i < offsetOf load order c + load c.
Proof.
  induction order as [| x order IH]; intros i Hnd Hpos Hi.
  - unfold total in Hi. simpl in Hi. lia.
  - rewrite total_cons in Hi. apply NoDup_cons in Hnd as [Hx Hnd].
    assert (Hrest : forall c', c' ∈ order -> 0 <= load c')
      by (intros c' Hc'; apply Hpos; right; exact Hc').
    destruct (Z_lt_le_dec i (load x)) as [Hlt | Hge].
    + exists x. split; [left |]. rewrite offsetOf_cons.
      destruct (decide (x = x)); [lia | congruence].
    + destruct (IH (i - load x) Hnd Hrest ltac:(lia)) as (c & Hc & Hr).
      destruct (decide (x = c)) as [-> | Hne].
      * contradiction.
      * exists c. split; [right; exact Hc |]. rewrite offsetOf_cons.
        destruct (decide (x = c)); [congruence | lia].
Qed.

(** Without repetitions the ranges are pairwise disjoint. *)
Lemma offsetOf_disjoint load order c c' : forall i,
  NoDup order ->
  (forall c, c ∈ order -> 0 <= load c) ->
  c ∈ order -> c' ∈ order ->
  offsetOf load order c <= i < offsetOf load order c + load c ->
  offsetOf load order c' <= i < offsetOf load order c' + load c' ->
  c = c'.
Proof.
  induction order as [| x order IH]; intros i Hnd Hpos Hc Hc' Hr Hr'.
  - apply elem_of_nil in Hc. contradiction.
  - apply NoDup_cons in Hnd as [Hx Hnd].
    assert (Hrest : forall c', c' ∈ order -> 0 <= load c')
      by (intros d Hd; apply Hpos; right; exact Hd).
    rewrite offsetOf_cons in Hr, Hr'.
    destruct (decide (x = c)) as [E | Hne]; destruct (decide (x = c')) as [E' | Hne'].
    + congruence.
    + subst. apply elem_of_cons in Hc' as [E | Hc']; [congruence |].
      pose proof (proj1 (offsetOf_bounds load order c' Hrest)). lia.
    + subst. apply elem_of_cons in Hc as [E | Hc]; [congruence |].
      pose proof (proj1 (offsetOf_bounds load order c Hrest)). lia.
    + apply elem_of_cons in Hc as [E | Hc]; [congruence |].
      apply elem_of_cons in Hc' as [E | Hc']; [congruence |].
      apply (IH (i - load x)); auto; lia.
Qed.

Lemma total_zero order : total (fun _ => 0) order = 0.
Proof.
  induction order as [| c order IH]; [reflexivity |]. rewrite total_cons, IH. reflexivity.
Qed.

(** Each listed particle is counted in exactly one cell of an order that
    contains its cell once. *)
Lemma total_population cells order :
  NoDup order -> (forall c, c ∈ cells -> c ∈ order) ->
  total (population cells) order = Z.of_nat (length cells).
Proof.
  intros Hnd. induction cells as [| x cells IH]; intros Hin.
  - rewrite (total_ext _ (fun _ => 0)) by (intros; apply population_nil).
    apply total_zero.
  - assert (Hx : x ∈ order) by (apply Hin; left).
    rewrite length_cons, Nat2Z.inj_succ, <- IH
      by (intros c Hc; apply Hin; right; exact Hc).
    clear IH Hin. induction order as [| c order IH]; [apply elem_of_nil in Hx; contradiction |].
    apply NoDup_cons in Hnd as [Hc Hnd].
    rewrite !total_cons, population_cons.
    destruct (decide (x = c)) as [-> | Hne].
    + rewrite (total_ext (population (c :: cells)) (population cells)); [lia |].
      intros d Hd. rewrite population_cons.
      destruct (decide (c = d)) as [-> | _]; [contradiction | lia].
    + apply elem_of_cons in Hx as [E | Hx]; [congruence |].
      rewrite (IH Hnd Hx). lia.
Qed.

End SortFacts.

(** ** Pass 1 and pass 3: what the atomic increments leave in the grid *)

Section CountingFacts.
Import Image Sort.
Local Open Scope Z_scope.
Variable u : Uniforms.

Lemma omap_cons {A B} (f : A -> option B) x (l : list A) :
  omap f (x :: l) = match f x with Some y => y :: omap f l | None => omap f l end.
Proof. reflexivity. Qed.

Lemma omap_ext_in {A B} (f g : A -> option B) (l : list A) :
  (forall x, x ∈ l -> f x = g x) -> omap f l = omap g l.
Proof.
  induction l as [| x l IH]; intros H; [reflexivity |].
  rewrite !omap_cons, (H x) by left. rewrite IH; [reflexivity |].
  intros y Hy. apply H. right. exact Hy.
Qed.

Lemma u32_incr x : 0 <= x -> x + 1 < U32.modulus -> U32.add x 1 = x + 1.
Proof. intros H0 H1. unfold U32.add. apply wrap32_small. unfold U32.in_range. lia. Qed.

(** One invocation of pass 1. *)
Lemma step1_main_spec i ps g :
  let r := Step1.main u i (ps, g) in
  let cell := (fun p => Glsl.voxelOf u (position (Step1.integrate u p))) <$> ps !! i in
  imageSize (snd r) = imageSize g
  /\ (forall j, fst r !! j
               = if decide (j = i) then Step1.integrate u <$> ps !! j else ps !! j)
  /\ (forall c, inBounds (imageSize g) c = true ->
        imageLoad (snd r) c
        = if decide (cell = Some c) then U32.add (imageLoad g c) 1 else imageLoad g c).
Proof.
  unfold Step1.main. destruct (ps !! i) as [p |] eqn:Hp; simpl.
  - set (q := Step1.integrate u p). set (v := Glsl.voxelOf u (position q)).
    assert (Hlook : forall j, <[i := q]> ps !! j
                       = if decide (j = i) then Step1.integrate u <$> ps !! j else ps !! j).
    { intros j. destruct (decide (j = i)) as [-> | Hne].
      - rewrite Hp. simpl. apply list_lookup_insert_eq.
        apply lookup_lt_Some in Hp. exact Hp.
      - apply list_lookup_insert_ne. congruence. }
    destruct (inBounds (imageSize g) v) eqn:Hv; simpl.
    + split; [apply imageSize_store |]. split; [exact Hlook |].
      intros c Hc. rewrite (imageLoad_store g v c _ Hc).
      destruct (decide (v = c)) as [-> | Hne].
      * destruct (decide (Some c = Some c)); [reflexivity | congruence].
      * destruct (decide (Some v = Some c)); [congruence | reflexivity].
    + split; [reflexivity |]. split; [exact Hlook |].
      intros c Hc. destruct (decide (Some v = Some c)) as [E | _]; [| reflexivity].
      congruence.
  - split; [reflexivity |]. split.
    + intros j. destruct (decide (j = i)) as [-> | _]; [rewrite Hp |]; reflexivity.
    + intros c Hc. destruct (decide (None = Some c)); [congruence | reflexivity].
Qed.

Lemma integratedCells_ext ps ps' schedule :
  (forall j, j ∈ schedule -> ps' !! j = ps !! j) ->
  integratedCells u ps' schedule = integratedCells u ps schedule.
Proof.
  intros H. unfold integratedCells. apply omap_ext_in.
  intros j Hj. rewrite (H j Hj). reflexivity.
Qed.

Lemma population_omap_cons {A} (f : A -> option ivec3) x (l : list A) c :
  population (omap f (x :: l)) c
  = (if decide (f x = Some c) then 1 else 0) + population (omap f l) c.
Proof.
  rewrite omap_cons. destruct (f x) as [y |] eqn:E.
  - rewrite population_cons.
    destruct (decide (y = c)) as [-> | Hne].
    + destruct (decide (Some c = Some c)); [reflexivity | congruence].
    + destruct (decide (Some y = Some c)); [congruence | reflexivity].
  - destruct (decide (None = Some c)); [congruence | lia].
Qed.

(** A pass-1 dispatch: the buffer holds the integrated records, and every
    cell word has grown by the number of particles that fell into it. *)
Lemma step1_dispatch_spec schedule : forall ps g,
  NoDup schedule ->
  (forall c, inBounds (imageSize g) c = true ->
     0 <= imageLoad g c
     /\ imageLoad g c + population (integratedCells u ps schedule) c < U32.modulus) ->
  let r := Step1.dispatch u schedule (ps, g) in
  imageSize (snd r) = imageSize g
  /\ (forall j, fst r !! j
               = if decide (j ∈ schedule) then Step1.integrate u <$> ps !! j else ps !! j)
  /\ (forall c, inBounds (imageSize g) c = true ->
        imageLoad (snd r) c = imageLoad g c + population (integratedCells u ps schedule) c).
Proof.
  induction schedule as [| i schedule IH]; intros ps g Hnd Hfit.
  - simpl. split; [reflexivity |]. split.
    + intros j. destruct (decide (j ∈ [])) as [H | _]; [| reflexivity].
      apply elem_of_nil in H. contradiction.
    + intros c Hc. unfold integratedCells. simpl. rewrite population_nil. lia.
  - apply NoDup_cons in Hnd as [Hi Hnd].
    unfold Step1.dispatch. cbn [fold_left].
    destruct (step1_main_spec i ps g) as (Hsize & Hbuf & Hgrid).
    destruct (Step1.main u i (ps, g)) as [ps' g'] eqn:Hmain.
    simpl in Hsize, Hbuf, Hgrid.
    assert (Hext : integratedCells u ps' schedule = integratedCells u ps schedule).
    { apply integratedCells_ext. intros j Hj. rewrite Hbuf.
      destruct (decide (j = i)) as [-> | _]; [contradiction | reflexivity]. }
    assert (Hpop : forall c, population (integratedCells u ps (i :: schedule)) c
              = (if decide ((fun p => Glsl.voxelOf u (position (Step1.integrate u p)))
                              <$> ps !! i = Some c) then 1 else 0)
                + population (integratedCells u ps schedule) c).
    { intros c.
      exact (population_omap_cons
               (fun k => (fun p => Glsl.voxelOf u (position (Step1.integrate u p)))
                           <$> ps !! k) i schedule c). }
    assert (Hfit' : forall c, inBounds (imageSize g') c = true ->
              0 <= imageLoad g' c
              /\ imageLoad g' c + population (integratedCells u ps' schedule) c
                 < U32.modulus).
    { intros c Hc. rewrite Hsize in Hc. rewrite (Hgrid c Hc), Hext.
      destruct (Hfit c Hc) as [H0 H1]. rewrite Hpop in H1.
      pose proof (population_nonneg (integratedCells u ps schedule) c).
      destruct (decide _); [rewrite u32_incr by lia |]; lia. }
    destruct (IH ps' g' Hnd Hfit') as (Hsize2 & Hbuf2 & Hgrid2).
    fold (Step1.dispatch u schedule (ps', g')).
    split; [congruence |]. split.
    + intros j. rewrite Hbuf2, Hbuf.
      destruct (decide (j = i)) as [-> | Hne].
      * destruct (decide (i ∈ schedule)); [contradiction |].
        destruct (decide (i ∈ i :: schedule)) as [_ | H]; [reflexivity |].
        exfalso. apply H. left.
      * destruct (decide (j ∈ schedule)) as [Hj | Hj].
        -- destruct (decide (j ∈ i :: schedule)) as [_ | H]; [reflexivity |].
           exfalso. apply H. right. exact Hj.
        -- destruct (decide (j ∈ i :: schedule)) as [H | _]; [| reflexivity].
           apply elem_of_cons in H as [-> | H]; contradiction.
    + intros c Hc. rewrite Hgrid2 by (rewrite Hsize; exact Hc). rewrite (Hgrid c Hc).
      rewrite Hext, Hpop.
      destruct (Hfit c Hc) as [H0 H1]. rewrite Hpop in H1.
      pose proof (population_nonneg (integratedCells u ps schedule) c).
      destruct (decide _); [rewrite u32_incr by lia |]; lia.
Qed.

(** One invocation of pass 3. *)
Lemma step3_main_spec ps i out g :
  let r := Step3.main u ps i (out, g) in
  let cell := (fun p => Glsl.voxelOf u (position p)) <$> ps !! i in
  imageSize (snd r) = imageSize g
  /\ length (fst r) = length out
  /\ (forall c, inBounds (imageSize g) c = true ->
        imageLoad (snd r) c
        = if decide (cell = Some c) then U32.add (imageLoad g c) 1 else imageLoad g c).
Proof.
  unfold Step3.main. destruct (ps !! i) as [p |] eqn:Hp; simpl.
  - set (v := Glsl.voxelOf u (position p)).
    destruct (U32.add _ _ <? _); simpl.
    + split; [apply imageSize_store |]. split; [apply length_insert |].
      intros c Hc. rewrite (imageLoad_store g v c _ Hc).
      destruct (decide (v = c)) as [-> | Hne].
      * destruct (decide (Some c = Some c)); [reflexivity | congruence].
      * destruct (decide (Some v = Some c)); [congruence | reflexivity].
    + split; [apply imageSize_store |]. split; [reflexivity |].
      intros c Hc. rewrite (imageLoad_store g v c _ Hc).
      destruct (decide (v = c)) as [-> | Hne].
      * destruct (decide (Some c = Some c)); [reflexivity | congruence].
      * destruct (decide (Some v = Some c)); [congruence | reflexivity].
  - split; [reflexivity |]. split; [reflexivity |].
    intros c Hc. destruct (decide (None = Some c)); [congruence | reflexivity].
Qed.

(** A pass-3 dispatch leaves in every cell word its value before the pass
    plus the number of particles of the cell. *)
Lemma step3_dispatch_spec ps schedule : forall out g,
  (forall c, inBounds (imageSize g) c = true ->
     0 <= imageLoad g c
     /\ imageLoad g c + population (cellsOf u ps schedule) c < U32.modulus) ->
  let r := Step3.dispatch u ps schedule (out, g) in
  imageSize (snd r) = imageSize g
  /\ length (fst r) = length out
  /\ (forall c, inBounds (imageSize g) c = true ->
        imageLoad (snd r) c = imageLoad g c + population (cellsOf u ps schedule) c).
Proof.
  induction schedule as [| i schedule IH]; intros out g Hfit.
  - simpl. split; [reflexivity |]. split; [reflexivity |].
    intros c Hc. unfold cellsOf. simpl. rewrite population_nil. lia.
  - unfold Step3.dispatch. cbn [fold_left].
    destruct (step3_main_spec ps i out g) as (Hsize & Hlen & Hgrid).
    destruct (Step3.main u ps i (out, g)) as [out' g'] eqn:Hmain.
    simpl in Hsize, Hlen, Hgrid.
    assert (Hpop : forall c, population (cellsOf u ps (i :: schedule)) c
              = (if decide ((fun p => Glsl.voxelOf u (position p)) <$> ps !! i = Some c)
                 then 1 else 0)
                + population (cellsOf u ps schedule) c).
    { intros c.
      exact (population_omap_cons
               (fun k => (fun p => Glsl.voxelOf u (position p)) <$> ps !! k) i schedule c). }
    assert (Hfit' : forall c, inBounds (imageSize g') c = true ->
              0 <= imageLoad g' c
              /\ imageLoad g' c + population (cellsOf u ps schedule) c < U32.modulus).
    { intros c Hc. rewrite Hsize in Hc. rewrite (Hgrid c Hc).
      destruct (Hfit c Hc) as [H0 H1]. rewrite Hpop in H1.
      pose proof (population_nonneg (cellsOf u ps schedule) c).
      destruct (decide _); [rewrite u32_incr by lia |]; lia. }
    destruct (IH out' g' Hfit') as (Hsize2 & Hlen2 & Hgrid2).
    fold (Step3.dispatch u ps schedule (out', g')).
    split; [congruence |]. split; [congruence |].
    intros c Hc. rewrite Hgrid2 by (rewrite Hsize; exact Hc). rewrite (Hgrid c Hc).
    rewrite Hpop.
    destruct (Hfit c Hc) as [H0 H1]. rewrite Hpop in H1.
    pose proof (population_nonneg (cellsOf u ps schedule) c).
    destruct (decide _); [rewrite u32_incr by lia |]; lia.
Qed.

End CountingFacts.

(** ** Pass 2: the two-level reservation *)

Section Step2Facts.
Import Image Sort.
Local Open Scope Z_scope.

Lemma u32_add_small a b : 0 <= a -> 0 <= b -> a + b < U32.modulus -> U32.add a b = a + b.
Proof.
  intros Ha Hb Hab. unfold U32.add. apply wrap32_small. unfold U32.in_range. lia.
Qed.

(** The local phase of a work group hands every cell the running sum of the
    counts loaded before it. *)
Lemma localOffsets_spec grid voxels : forall localParticleCount,
  NoDup voxels ->
  (forall v, v ∈ voxels -> 0 <= imageLoad grid v) ->
  0 <= localParticleCount ->
  localParticleCount + total (imageLoad grid) voxels < U32.modulus ->
  Step2.localOffsets grid voxels localParticleCount
  = (map (fun v => (v, localParticleCount + offsetOf (imageLoad grid) voxels v)) voxels,
     localParticleCount + total (imageLoad grid) voxels).
Proof.
  induction voxels as [| v voxels IH]; intros lc Hnd Hpos Hlc Hfit.
  - simpl. unfold total. simpl. rewrite Z.add_0_r. reflexivity.
  - apply NoDup_cons in Hnd as [Hv Hnd]. rewrite total_cons in Hfit.
    assert (Hv0 : 0 <= imageLoad grid v) by (apply Hpos; left).
    assert (Hrest : forall v', v' ∈ voxels -> 0 <= imageLoad grid v')
      by (intros v' Hv'; apply Hpos; right; exact Hv').
    pose proof (total_nonneg (imageLoad grid) voxels Hrest) as Ht.
    cbn [Step2.localOffsets].
    rewrite u32_add_small by lia.
    rewrite IH by (try assumption; lia).
    rewrite total_cons. f_equal; [| lia].
    cbn [map]. f_equal.
    + rewrite offsetOf_cons. destruct (decide (v = v)); [| congruence].
      rewrite Z.add_0_r. reflexivity.
    + apply map_ext_in. intros v' Hv'. apply list_elem_of_In in Hv'.
      rewrite offsetOf_cons. destruct (decide (v = v')) as [-> | _]; [contradiction |].
      f_equal. lia.
Qed.

(** The store phase writes [offset << 8] into every cell of the group. *)
Lemma storeOffsets_spec base (f : ivec3 -> Z) voxels : forall grid,
  NoDup voxels ->
  let grid' := Step2.storeOffsets base (map (fun v => (v, f v)) voxels) grid in
  imageSize grid' = imageSize grid
  /\ (forall c, inBounds (imageSize grid) c = true ->
        imageLoad grid' c
        = if decide (c ∈ voxels) then U32.shl (U32.add base (f c)) 8 else imageLoad grid c).
Proof.
  induction voxels as [| v voxels IH]; intros grid Hnd.
  - simpl. split; [reflexivity |]. intros c Hc.
    destruct (decide (c ∈ [])) as [H | _]; [| reflexivity].
    apply elem_of_nil in H. contradiction.
  - apply NoDup_cons in Hnd as [Hv Hnd].
    unfold Step2.storeOffsets. cbn [map fold_left].
    set (grid1 := imageStore grid v (U32.shl (U32.add base (f v)) 8)).
    fold (Step2.storeOffsets base (map (fun v => (v, f v)) voxels) grid1).
    destruct (IH grid1 Hnd) as [Hsize Hload].
    assert (Hsize1 : imageSize grid1 = imageSize grid) by apply imageSize_store.
    split; [congruence |].
    intros c Hc. rewrite Hload by (rewrite Hsize1; exact Hc).
    destruct (decide (c ∈ voxels)) as [Hin | Hnin].
    + destruct (decide (c ∈ v :: voxels)) as [_ | H]; [reflexivity |].
      exfalso. apply H. right. exact Hin.
    + unfold grid1. rewrite imageLoad_store by exact Hc.
      destruct (decide (v = c)) as [-> | Hne].
      * destruct (decide (c ∈ c :: voxels)) as [_ | H]; [reflexivity |].
        exfalso. apply H. left.
      * destruct (decide (c ∈ v :: voxels)) as [H | _]; [| reflexivity].
        apply elem_of_cons in H as [-> | H]; contradiction.
Qed.

Lemma workGroup_spec voxels globalParticleCount grid :
  NoDup voxels ->
  (forall v, v ∈ voxels -> 0 <= imageLoad grid v) ->
  0 <= globalParticleCount ->
  globalParticleCount + total (imageLoad grid) voxels < U32.modulus ->
  let r := Step2.workGroup voxels (globalParticleCount, grid) in
  fst r = globalParticleCount + total (imageLoad grid) voxels
  /\ imageSize (snd r) = imageSize grid
  /\ (forall c, inBounds (imageSize grid) c = true ->
        imageLoad (snd r) c
        = if decide (c ∈ voxels)
          then U32.shl (globalParticleCount + offsetOf (imageLoad grid) voxels c) 8
          else imageLoad grid c).
Proof.
  intros Hnd Hpos Hgc Hfit.
  pose proof (total_nonneg (imageLoad grid) voxels Hpos) as Ht.
  unfold Step2.workGroup.
  rewrite localOffsets_spec by (try assumption; lia).
  destruct (storeOffsets_spec globalParticleCount
              (fun v => 0 + offsetOf (imageLoad grid) voxels v) voxels grid Hnd)
    as [Hsize Hload].
  cbn [fst snd]. split; [apply u32_add_small; lia |]. split; [exact Hsize |].
  intros c Hc. rewrite (Hload c Hc).
  destruct (decide (c ∈ voxels)) as [Hin | _]; [| reflexivity].
  destruct (offsetOf_bounds (imageLoad grid) voxels c Hpos) as [H0 H1].
  specialize (H1 Hin). specialize (Hpos c Hin).
  rewrite Z.add_0_l. rewrite u32_add_small by lia. reflexivity.
Qed.

Lemma imageLoad_same_outside g g' c :
  imageSize g' = imageSize g -> inBounds (imageSize g) c = false ->
  imageLoad g' c = imageLoad g c.
Proof.
  intros Hsize Hc. rewrite !imageLoad_outside; [reflexivity | exact Hc |].
  rewrite Hsize. exact Hc.
Qed.

(** A whole dispatch: every cell of the schedule ends with the sum of the
    counts of the cells reserved before it, shifted left by 8. *)
Lemma step2_dispatch_from schedule : forall globalParticleCount grid,
  NoDup (concat schedule) ->
  (forall c, c ∈ concat schedule -> 0 <= imageLoad grid c) ->
  0 <= globalParticleCount ->
  globalParticleCount + total (imageLoad grid) (concat schedule) < U32.modulus ->
  let r := fold_left (fun st voxels => Step2.workGroup voxels st) schedule
             (globalParticleCount, grid) in
  fst r = globalParticleCount + total (imageLoad grid) (concat schedule)
  /\ imageSize (snd r) = imageSize grid
  /\ (forall c, inBounds (imageSize grid) c = true ->
        imageLoad (snd r) c
        = if decide (c ∈ concat schedule)
          then U32.shl (globalParticleCount
                        + offsetOf (imageLoad grid) (concat schedule) c) 8
          else imageLoad grid c).
Proof.
  induction schedule as [| voxels schedule IH]; intros gc grid Hnd Hpos Hgc Hfit.
  - simpl. unfold total. simpl. split; [lia |]. split; [reflexivity |].
    intros c Hc. destruct (decide (c ∈ [])) as [H | _]; [| reflexivity].
    apply elem_of_nil in H. contradiction.
  - cbn [concat] in *. apply NoDup_app in Hnd as (Hnd1 & Hdisj & Hnd2).
    rewrite total_app in Hfit.
    assert (Hpos1 : forall v, v ∈ voxels -> 0 <= imageLoad grid v)
      by (intros v Hv; apply Hpos, elem_of_app; left; exact Hv).
    assert (Hpos2 : forall v, v ∈ concat schedule -> 0 <= imageLoad grid v)
      by (intros v Hv; apply Hpos, elem_of_app; right; exact Hv).
    pose proof (total_nonneg _ _ Hpos1) as Ht1.
    pose proof (total_nonneg _ _ Hpos2) as Ht2.
    cbn [fold_left].
    destruct (workGroup_spec voxels gc grid Hnd1 Hpos1 Hgc ltac:(lia))
      as (Hgc1 & Hsize1 & Hload1).
    destruct (Step2.workGroup voxels (gc, grid)) as [gc1 grid1].
    cbn [fst snd] in Hgc1, Hsize1, Hload1.
    assert (Hsame : forall c, c ∈ concat schedule -> imageLoad grid1 c = imageLoad grid c).
    { intros c Hc. destruct (inBounds (imageSize grid) c) eqn:Hb.
      - rewrite (Hload1 c Hb). destruct (decide (c ∈ voxels)) as [Hin | _]; [| reflexivity].
        exfalso. exact (Hdisj c Hin Hc).
      - apply imageLoad_same_outside; assumption. }
    rewrite <- (total_ext _ _ _ Hsame) in Hfit.
    destruct (IH gc1 grid1 Hnd2) as (Hgc2 & Hsize2 & Hload2).
    { intros c Hc. rewrite (Hsame c Hc). apply Hpos2. exact Hc. }
    { lia. }
    { lia. }
    rewrite (total_ext _ _ _ Hsame) in Hgc2.
    split; [rewrite Hgc2, total_app; lia |]. split; [congruence |].
    intros c Hc. rewrite Hload2 by (rewrite Hsize1; exact Hc).
    rewrite offsetOf_app.
    destruct (decide (c ∈ concat schedule)) as [Hin2 | Hnin2].
    + destruct (decide (c ∈ voxels)) as [Hin1 | _]; [exfalso; exact (Hdisj c Hin1 Hin2) |].
      destruct (decide (c ∈ voxels ++ concat schedule)) as [_ | H].
      * rewrite (offsetOf_ext _ _ _ c Hsame). f_equal. lia.
      * exfalso. apply H, elem_of_app. right. exact Hin2.
    + rewrite (Hload1 c Hc).
      destruct (decide (c ∈ voxels)) as [Hin1 | Hnin1].
      * destruct (decide (c ∈ voxels ++ concat schedule)) as [_ | H]; [reflexivity |].
        exfalso. apply H, elem_of_app. left. exact Hin1.
      * destruct (decide (c ∈ voxels ++ concat schedule)) as [H | _]; [| reflexivity].
        apply elem_of_app in H as [H | H]; contradiction.
Qed.

(** Shifting and unpacking a cell word. *)
Lemma shl8_small x : 0 <= x < 2 ^ 24 -> U32.shl x 8 = x * 256.
Proof.
  intros Hx. unfold U32.shl. rewrite Z.shiftl_mul_pow2 by lia.
  change (2 ^ 8) with 256. apply wrap32_small.
  unfold U32.in_range. rewrite modulus_value. change (2 ^ 24) with 16777216 in Hx. lia.
Qed.

Lemma cellOffset_pack x k : 0 <= k < 256 -> cellOffset (x * 256 + k) = x.
Proof.
  intros Hk. unfold cellOffset, U32.shr. rewrite Z.shiftr_div_pow2 by lia.
  change (2 ^ 8) with 256. rewrite Z.div_add_l by lia. rewrite Z.div_small by lia. lia.
Qed.

Lemma cellCount_pack x k : 0 <= k < 256 -> cellCount (x * 256 + k) = k.
Proof.
  intros Hk. unfold cellCount. change 255 with (Z.ones 8).
  rewrite Z.land_ones by lia. change (2 ^ 8) with 256.
  rewrite Z.add_comm, Z.mod_add by lia. apply Z.mod_small. exact Hk.
Qed.

End Step2Facts.

(** ** The dispatch of pass 2 *)

Section AscendingSchedule.
Import Step2.
Local Open Scope Z_scope.

Lemma elem_of_range n x : x ∈ range n <-> 0 <= x < n.
Proof.
  unfold range. rewrite list_elem_of_fmap. split.
  - intros (k & -> & Hk). apply elem_of_seq in Hk. lia.
  - intros H. exists (Z.to_nat x). split; [lia |]. apply elem_of_seq. lia.
Qed.

Lemma NoDup_range n : NoDup (range n).
Proof.
  unfold range. apply NoDup_fmap_2; [| apply NoDup_seq].
  intros a b H. lia.
Qed.

Lemma concat_fmap_bind {A B} (f : A -> list B) (l : list A) : concat (f <$> l) = l ≫= f.
Proof. induction l as [| x l IH]; [reflexivity |]. cbn. rewrite IH. reflexivity. Qed.

Lemma elem_of_workGroupVoxels wg c :
  c ∈ workGroupVoxels wg <->
  exists lx ly lz, 0 <= lx < 4 /\ 0 <= ly < 4 /\ 0 <= lz < 4
    /\ c = (4 * wg.1.1 + lx, 4 * wg.1.2 + ly, 4 * wg.2 + lz).
Proof.
  destruct wg as [[wx wy] wz]. unfold workGroupVoxels. cbn [fst snd]. split.
  - intros H.
    apply list_elem_of_bind in H as (lz & H & Hz%elem_of_range).
    apply list_elem_of_bind in H as (ly & H & Hy%elem_of_range).
    apply list_elem_of_bind in H as (lx & H & Hx%elem_of_range).
    apply list_elem_of_singleton in H. exists lx, ly, lz. auto.
  - intros (lx & ly & lz & Hx & Hy & Hz & ->).
    apply list_elem_of_bind. exists lz. split; [| apply elem_of_range; exact Hz].
    apply list_elem_of_bind. exists ly. split; [| apply elem_of_range; exact Hy].
    apply list_elem_of_bind. exists lx. split; [| apply elem_of_range; exact Hx].
    apply list_elem_of_singleton. reflexivity.
Qed.

Lemma NoDup_workGroupVoxels wg : NoDup (workGroupVoxels wg).
Proof.
  destruct wg as [[wx wy] wz]. unfold workGroupVoxels.
  apply NoDup_bind; [| | apply NoDup_range].
  - intros z1 z2 c _ _ H1 H2.
    apply list_elem_of_bind in H1 as (y1 & H1 & _). apply list_elem_of_bind in H1 as (x1 & H1 & _).
    apply list_elem_of_bind in H2 as (y2 & H2 & _). apply list_elem_of_bind in H2 as (x2 & H2 & _).
    apply list_elem_of_singleton in H1, H2. subst c. injection H2. intros. lia.
  - intros lz _. apply NoDup_bind; [| | apply NoDup_range].
    + intros y1 y2 c _ _ H1 H2.
      apply list_elem_of_bind in H1 as (x1 & H1 & _). apply list_elem_of_bind in H2 as (x2 & H2 & _).
      apply list_elem_of_singleton in H1, H2. subst c. injection H2. intros. lia.
    + intros ly _. apply NoDup_bind; [| | apply NoDup_range].
      * intros x1 x2 c _ _ H1 H2. apply list_elem_of_singleton in H1, H2. subst c.
        injection H2. intros. lia.
      * intros lx _. apply NoDup_singleton.
Qed.

Lemma elem_of_workGroupIds gridDim wg :
  wg ∈ workGroupIds gridDim <->
  0 <= wg.1.1 < (gridDim.1.1 + 3) / 4 /\ 0 <= wg.1.2 < (gridDim.1.2 + 3) / 4
  /\ 0 <= wg.2 < (gridDim.2 + 3) / 4.
Proof.
  destruct gridDim as [[dx dy] dz]. destruct wg as [[wx wy] wz].
  unfold workGroupIds. cbn [fst snd]. split.
  - intros H.
    apply list_elem_of_bind in H as (z & H & Hz%elem_of_range).
    apply list_elem_of_bind in H as (y & H & Hy%elem_of_range).
    apply list_elem_of_bind in H as (x & H & Hx%elem_of_range).
    apply list_elem_of_singleton in H. injection H as -> -> ->. auto.
  - intros (Hx & Hy & Hz).
    apply list_elem_of_bind. exists wz. split; [| apply elem_of_range; exact Hz].
    apply list_elem_of_bind. exists wy. split; [| apply elem_of_range; exact Hy].
    apply list_elem_of_bind. exists wx. split; [| apply elem_of_range; exact Hx].
    apply list_elem_of_singleton. reflexivity.
Qed.

Lemma NoDup_workGroupIds gridDim : NoDup (workGroupIds gridDim).
Proof.
  destruct gridDim as [[dx dy] dz]. unfold workGroupIds.
  apply NoDup_bind; [| | apply NoDup_range].
  - intros z1 z2 c _ _ H1 H2.
    apply list_elem_of_bind in H1 as (y1 & H1 & _). apply list_elem_of_bind in H1 as (x1 & H1 & _).
    apply list_elem_of_bind in H2 as (y2 & H2 & _). apply list_elem_of_bind in H2 as (x2 & H2 & _).
    apply list_elem_of_singleton in H1, H2. subst c. injection H2. intros. lia.
  - intros lz _. apply NoDup_bind; [| | apply NoDup_range].
    + intros y1 y2 c _ _ H1 H2.
      apply list_elem_of_bind in H1 as (x1 & H1 & _). apply list_elem_of_bind in H2 as (x2 & H2 & _).
      apply list_elem_of_singleton in H1, H2. subst c. injection H2. intros. lia.
    + intros ly _. apply NoDup_bind; [| | apply NoDup_range].
      * intros x1 x2 c _ _ H1 H2. apply list_elem_of_singleton in H1, H2. subst c.
        injection H2. intros. lia.
      * intros lx _. apply NoDup_singleton.
Qed.

Lemma ascendingSchedule_valid gridDim : validSchedule gridDim (ascendingSchedule gridDim).
Proof.
  unfold validSchedule, ascendingSchedule. rewrite concat_fmap_bind. split.
  - apply NoDup_bind; [| intros; apply NoDup_workGroupVoxels | apply NoDup_workGroupIds].
    intros [[ax ay] az] [[bx b_y] bz] c _ _ H1 H2.
    apply elem_of_workGroupVoxels in H1 as (lx1 & ly1 & lz1 & ? & ? & ? & ->).
    apply elem_of_workGroupVoxels in H2 as (lx2 & ly2 & lz2 & ? & ? & ? & E).
    cbn [fst snd] in *. injection E as Ex Ey Ez. f_equal; [f_equal |]; lia.
  - intros [[x y] z] Hc. unfold Image.inBounds in Hc. destruct gridDim as [[dx dy] dz].
    repeat (apply andb_prop in Hc as [Hc ?]).
    apply list_elem_of_bind. exists (x / 4, y / 4, z / 4). split.
    + apply elem_of_workGroupVoxels. exists (x mod 4), (y mod 4), (z mod 4). cbn [fst snd].
      pose proof (Z.mod_pos_bound x 4 ltac:(lia)).
      pose proof (Z.mod_pos_bound y 4 ltac:(lia)).
      pose proof (Z.mod_pos_bound z 4 ltac:(lia)).
      repeat split; try lia.
      f_equal; [f_equal |]; apply Z.div_mod; lia.
    + apply elem_of_workGroupIds. cbn [fst snd].
      repeat split; try (apply Z.div_pos; lia); apply Z.div_lt_upper_bound; try lia.
      all: pose proof (Z.div_mod (dx + 3) 4 ltac:(lia));
           pose proof (Z.mod_pos_bound (dx + 3) 4 ltac:(lia));
           pose proof (Z.div_mod (dy + 3) 4 ltac:(lia));
           pose proof (Z.mod_pos_bound (dy + 3) 4 ltac:(lia));
           pose proof (Z.div_mod (dz + 3) 4 ltac:(lia));
           pose proof (Z.mod_pos_bound (dz + 3) 4 ltac:(lia)); lia.
Qed.

End AscendingSchedule.

(** C2, as stated, fails: pass 2 does not keep the count.  A cell that
    pass 1 counted 3 particles into holds offset 2 and count 0 afterwards. *)
Lemma step2_count_counterexample :
  let after := snd (Step2.dispatch sampleSchedule2 sampleCounts) in
  Image.imageLoad sampleCounts (0, 0, 0)%Z = 3%Z
  /\ Image.imageLoad after (0, 0, 0)%Z = 512%Z
  /\ Image.cellOffset (Image.imageLoad after (0, 0, 0)%Z) = 2%Z
  /\ Image.cellCount (Image.imageLoad after (0, 0, 0)%Z) = 0%Z
  /\ Image.cellCount (Image.imageLoad after (0, 0, 0)%Z)
     <> Image.imageLoad sampleCounts (0, 0, 0)%Z.
Proof. vm_compute. repeat split; congruence. Qed.

(** C2 (amended): pass 2 replaces each cell's word by [offset << 8], where
    offset is the cell's reserved base index: the base of its work group
    plus the counts of the cells of the group reserved before it, that is
    the sum of the pass-1 counts of all cells reserved earlier.  The count
    field is reset to 0 (pass 3 counts it up again), and the global counter
    ends as the sum of all counts.  Stated for totals below 2^24, the range
    of the offset field. *)
Theorem step2_writes_offsets (size : ivec3) (schedule : list (list ivec3))
    (grid : Image.uimage3D) :
  Image.imageSize grid = size ->
  Step2.validSchedule size schedule ->
  (forall c, c ∈ concat schedule -> (0 <= Image.imageLoad grid c)%Z) ->
  (Sort.total (Image.imageLoad grid) (concat schedule) < 2 ^ 24)%Z ->
  let r := Step2.dispatch schedule grid in
  let offset c := Sort.offsetOf (Image.imageLoad grid) (concat schedule) c in
  fst r = Sort.total (Image.imageLoad grid) (concat schedule)
  /\ forall c, Image.inBounds size c = true ->
       Image.imageLoad (snd r) c = U32.shl (offset c) 8
       /\ Image.cellOffset (Image.imageLoad (snd r) c) = offset c
       /\ Image.cellCount (Image.imageLoad (snd r) c) = 0%Z.
Proof.
  intros Hsize [Hnd Hcover] Hpos Htotal r offset.
  change (2 ^ 24)%Z with 16777216%Z in Htotal.
  destruct (step2_dispatch_from schedule 0%Z grid Hnd Hpos ltac:(lia)
              ltac:(rewrite modulus_value; lia)) as (Hgc & _ & Hload).
  fold (Step2.dispatch schedule grid) in Hgc, Hload. fold r in Hgc, Hload.
  split; [rewrite Hgc; lia |].
  intros c Hc. rewrite <- Hsize in Hc. rewrite (Hload c Hc).
  rewrite Hsize in Hc. specialize (Hcover c Hc).
  destruct (decide (c ∈ concat schedule)) as [_ | H]; [| contradiction].
  rewrite Z.add_0_l. fold (offset c).
  destruct (offsetOf_bounds (Image.imageLoad grid) (concat schedule) c Hpos) as [H0 H1].
  specialize (H1 Hcover). specialize (Hpos c Hcover). fold (offset c) in H0, H1.
  split; [reflexivity |].
  rewrite shl8_small by (change (2 ^ 24)%Z with 16777216%Z; lia).
  replace (offset c * 256)%Z with (offset c * 256 + 0)%Z by lia.
  split; [apply cellOffset_pack | apply cellCount_pack]; lia.
Qed.

Lemma inBounds_two_cells c :
  Image.inBounds (2, 1, 1)%Z c = true -> c = (0, 0, 0)%Z \/ c = (1, 0, 0)%Z.
Proof.
  destruct c as [[x y] z]. unfold Image.inBounds. intros H.
  repeat (apply andb_prop in H as [H ?]).
  assert (x = 0 \/ x = 1)%Z as [-> | ->] by lia;
    assert (y = 0)%Z as -> by lia; assert (z = 0)%Z as -> by lia; auto.
Qed.

Lemma sampleSchedule2_valid : Step2.validSchedule (2, 1, 1)%Z sampleSchedule2.
Proof.
  split.
  - simpl. apply NoDup_cons. split.
    + intros H. apply elem_of_cons in H as [H | H]; [discriminate |].
      apply elem_of_nil in H. exact H.
    + apply NoDup_singleton.
  - intros c Hc. simpl.
    destruct (inBounds_two_cells c Hc) as [-> | ->].
    + right. left.
    + left.
Qed.

Lemma step2_writes_offsets_witness :
  let r := Step2.dispatch sampleSchedule2 sampleCounts in
  let offset c := Sort.offsetOf (Image.imageLoad sampleCounts) (concat sampleSchedule2) c in
  fst r = Sort.total (Image.imageLoad sampleCounts) (concat sampleSchedule2)
  /\ forall c, Image.inBounds (2, 1, 1)%Z c = true ->
       Image.imageLoad (snd r) c = U32.shl (offset c) 8
       /\ Image.cellOffset (Image.imageLoad (snd r) c) = offset c
       /\ Image.cellCount (Image.imageLoad (snd r) c) = 0%Z.
Proof.
  apply (step2_writes_offsets (2, 1, 1)%Z sampleSchedule2 sampleCounts).
  - reflexivity.
  - exact sampleSchedule2_valid.
  - intros c Hc. simpl in Hc.
    apply elem_of_cons in Hc as [-> | Hc]; [vm_compute; discriminate |].
    apply elem_of_cons in Hc as [-> | Hc]; [vm_compute; discriminate |].
    apply elem_of_nil in Hc. contradiction.
  - vm_compute. reflexivity.
Defined.

(** ** The three grid passes together *)

Section BuildGridFacts.
Import Image Sort.
Local Open Scope Z_scope.

Lemma population_positive_elem cells c : 0 < population cells c -> c ∈ cells.
Proof.
  intros H. destruct (decide (c ∈ cells)) as [Hin | Hnin]; [exact Hin |].
  rewrite population_absent in H by exact Hnin. lia.
Qed.

(** The cell words after pass 3, for any schedules: the offset reserved in
    pass 2 times 256, plus the number of particles of the cell.  When that
    number exceeds 255 it carries into the offset field. *)
Lemma buildGrid_words (u : Uniforms) (size : ivec3)
    (schedule1 : list nat) (schedule2 : list (list ivec3)) (schedule3 : list nat)
    (particles outParticles : list SPHParticleCompute) :
  NoDup schedule1 -> schedule3 ≡ₚ schedule1 -> Step2.validSchedule size schedule2 ->
  let cells := integratedCells u particles schedule1 in
  (forall c, c ∈ cells -> inBounds size c = true) ->
  Z.of_nat (length cells) < 2 ^ 24 ->
  let grid3 :=
    snd (buildGrid u size schedule1 schedule2 schedule3 particles outParticles) in
  forall c, inBounds size c = true ->
    imageLoad grid3 c
    = offsetOf (population cells) (concat schedule2) c * 256 + population cells c.
Proof.
  intros Hnd1 Hperm [Hnd2 Hcover] cells Hin HN grid3 c Hc.
  change (2 ^ 24) with 16777216 in HN.
  assert (Hmod := modulus_value).
  assert (Hpop : forall d, 0 <= population cells d <= Z.of_nat (length cells)).
  { intros d. split; [apply population_nonneg | apply population_le_length]. }
  subst grid3. unfold buildGrid.
  (* pass 1 *)
  destruct (step1_dispatch_spec u schedule1 particles (cleared size) Hnd1)
    as (Hsize1 & Hbuf1 & Hload1).
  { intros d Hd. rewrite imageLoad_cleared. fold cells. specialize (Hpop d). lia. }
  destruct (Step1.dispatch u schedule1 (particles, cleared size)) as [particles1 grid1].
  cbn [fst snd] in Hsize1, Hbuf1, Hload1. fold cells in Hload1.
  change (imageSize (cleared size)) with size in Hsize1, Hload1.
  assert (Hall1 : forall d, imageLoad grid1 d = population cells d).
  { intros d. destruct (inBounds size d) eqn:Hd.
    - rewrite (Hload1 d Hd), imageLoad_cleared. lia.
    - rewrite imageLoad_outside by (rewrite Hsize1; exact Hd).
      symmetry. apply population_absent. intros Hd'. apply Hin in Hd'. congruence. }
  (* pass 2 *)
  assert (Htotal : total (imageLoad grid1) (concat schedule2) = Z.of_nat (length cells)).
  { rewrite (total_ext _ (population cells)) by (intros; apply Hall1).
    apply total_population; [exact Hnd2 |].
    intros d Hd. apply Hcover, Hin, Hd. }
  destruct (step2_dispatch_from schedule2 0 grid1 Hnd2) as (_ & Hsize2 & Hload2).
  { intros d _. rewrite Hall1. apply population_nonneg. }
  { lia. }
  { lia. }
  fold (Step2.dispatch schedule2 grid1) in Hsize2, Hload2.
  destruct (Step2.dispatch schedule2 grid1) as [globalParticleCount grid2].
  cbn [fst snd] in Hsize2, Hload2. rewrite Hsize1 in Hsize2, Hload2.
  assert (Hoff : forall d, d ∈ concat schedule2 ->
            0 <= offsetOf (population cells) (concat schedule2) d
            /\ offsetOf (population cells) (concat schedule2) d + population cells d
               <= Z.of_nat (length cells)).
  { intros d Hd.
    destruct (offsetOf_bounds (population cells) (concat schedule2) d) as [H0 H1].
    { intros; apply population_nonneg. }
    specialize (H1 Hd). rewrite <- Htotal.
    rewrite (total_ext _ (population cells)) by (intros; apply Hall1). lia. }
  assert (Hword2 : forall d, inBounds size d = true ->
            imageLoad grid2 d = offsetOf (population cells) (concat schedule2) d * 256).
  { intros d Hd. rewrite (Hload2 d Hd).
    destruct (decide (d ∈ concat schedule2)) as [Hd2 | H]; [| exfalso; auto].
    rewrite Z.add_0_l.
    rewrite (offsetOf_ext _ (population cells)) by (intros; apply Hall1).
    destruct (Hoff d Hd2) as [H0 H1]. specialize (Hpop d).
    apply shl8_small. change (2 ^ 24) with 16777216. lia. }
  (* pass 3 *)
  assert (Hcells3 : forall d,
            population (cellsOf u particles1 schedule3) d = population cells d).
  { intros d. apply population_Permutation.
    unfold cellsOf. rewrite Hperm. fold (cellsOf u particles1 schedule1).
    unfold cellsOf, cells, integratedCells.
    rewrite (omap_ext_in _
               (fun i => (fun p => Glsl.voxelOf u (position (Step1.integrate u p)))
                           <$> particles !! i)); [reflexivity |].
    intros j Hj. rewrite Hbuf1.
    destruct (decide (j ∈ schedule1)) as [_ | H]; [| contradiction].
    destruct (particles !! j); reflexivity. }
  destruct (step3_dispatch_spec u particles1 schedule3 outParticles grid2)
    as (_ & _ & Hload3).
  { intros d Hd. rewrite Hsize2 in Hd. rewrite (Hword2 d Hd), Hcells3.
    destruct (Hoff d (Hcover d Hd)) as [H0 H1]. specialize (Hpop d). lia. }
  destruct (Step3.dispatch u particles1 schedule3 (outParticles, grid2))
    as [outParticles3 grid3].
  cbn [fst snd] in Hload3 |- *. rewrite Hsize2 in Hload3.
  rewrite (Hload3 c Hc), (Hword2 c Hc), Hcells3. reflexivity.
Qed.

End BuildGridFacts.

(** ** The sample particles *)

Section SampleFacts.
Local Open Scope R_scope.

Lemma resting_axis (axis : vec3 -> R) x y z :
  axis = vx \/ axis = vy \/ axis = vz ->
  5 / 10 <= axis (Vec3 x y z) <= 95 / 10 ->
  axis (position (Step1.integrate (sampleUniforms 0) (restingParticle x y z)))
  = axis (Vec3 x y z).
Proof.
  intros Haxis Hin.
  pose proof (integrate_axes (sampleUniforms 0) (restingParticle x y z) axis Haxis) as H.
  assert (Hv : Step1.preWallVelocity (sampleUniforms 0) (restingParticle x y z) = V.zero).
  { unfold Step1.preWallVelocity, Step1.sphereImpulse. simpl.
    unfold V.add, V.scale, V.zero. simpl. f_equal; ring. }
  assert (Hp : Step1.preWallPosition (sampleUniforms 0) (restingParticle x y z)
               = Vec3 x y z).
  { unfold Step1.preWallPosition. rewrite Hv.
    unfold V.add, V.scale, V.zero. simpl. f_equal; ring. }
  rewrite Hv, Hp in H.
  destruct (bounce_cases (axis (Step1.boundsL (sampleUniforms 0)))
              (axis (Step1.boundsH (sampleUniforms 0))) (axis V.zero) (axis (Vec3 x y z)))
    as (_ & _ & Hmid).
  { destruct Haxis as [-> | [-> | ->]];
      unfold Step1.boundsL, Step1.boundsH, Step1.SAFE_BOUNDS; simpl; lra. }
  rewrite Hmid in H.
  - injection H as _ H. exact H.
  - destruct Haxis as [-> | [-> | ->]];
      unfold Step1.boundsL, Step1.boundsH, Step1.SAFE_BOUNDS; simpl; simpl in Hin; lra.
Qed.

(** A resting particle inside the safe bounds stays in its cell. *)
Lemma resting_voxel x y z (cx cy cz : Z) :
  5 / 10 <= x <= 95 / 10 -> 5 / 10 <= y <= 95 / 10 -> 5 / 10 <= z <= 95 / 10 ->
  (0 <= cx)%Z -> (0 <= cy)%Z -> (0 <= cz)%Z ->
  IZR cx <= x < IZR cx + 1 -> IZR cy <= y < IZR cy + 1 -> IZR cz <= z < IZR cz + 1 ->
  Glsl.voxelOf (sampleUniforms 0)
    (position (Step1.integrate (sampleUniforms 0) (restingParticle x y z)))
  = (cx, cy, cz).
Proof.
  intros Hx Hy Hz Hcx Hcy Hcz Hix Hiy Hiz.
  pose proof (resting_axis vx x y z (or_introl eq_refl) Hx) as Ex.
  pose proof (resting_axis vy x y z (or_intror (or_introl eq_refl)) Hy) as Ey.
  pose proof (resting_axis vz x y z (or_intror (or_intror eq_refl)) Hz) as Ez.
  unfold Glsl.voxelOf, V.sub. cbn [vx vy vz uInvCellSize uGridOrigin sampleUniforms V.zero].
  rewrite Ex, Ey, Ez. cbn [vx vy vz].
  repeat f_equal; apply truncate_between; try assumption; lra.
Qed.

Lemma omap_constant {A B} (f : A -> option B) (y : B) (l : list A) :
  (forall x, x ∈ l -> f x = Some y) -> omap f l = replicate (length l) y.
Proof.
  induction l as [| x l IH]; intros H; [reflexivity |].
  rewrite omap_cons, (H x) by left. simpl. f_equal.
  apply IH. intros x' Hx'. apply H. right. exact Hx'.
Qed.

Lemma bounce_pinched bound velo pos : snd (Step1.bounce bound bound (velo, pos)) = bound.
Proof.
  unfold Step1.bounce.
  destruct (Rlt_dec pos bound).
  - destruct (Rgt_dec bound bound); reflexivity.
  - destruct (Rgt_dec pos bound); [reflexivity |]. simpl. lra.
Qed.

(** In the unit box both safe bounds are 0.5 on every axis: pass 1 puts
    every particle at the centre, in cell (2, 2, 2). *)
Lemma unitBox_collapse p :
  position (Step1.integrate unitBoxUniforms p) = Vec3 (1 / 2) (1 / 2) (1 / 2).
Proof.
  assert (Haxis : forall axis : vec3 -> R, axis = vx \/ axis = vy \/ axis = vz ->
            axis (position (Step1.integrate unitBoxUniforms p)) = 1 / 2).
  { intros axis Haxis.
    pose proof (integrate_axes unitBoxUniforms p axis Haxis) as H.
    apply (f_equal snd) in H.
    change (axis (position (Step1.integrate unitBoxUniforms p))
            = snd (Step1.bounce (axis (Step1.boundsL unitBoxUniforms))
                     (axis (Step1.boundsH unitBoxUniforms))
                     (axis (Step1.preWallVelocity unitBoxUniforms p),
                      axis (Step1.preWallPosition unitBoxUniforms p)))) in H.
    rewrite H.
    assert (Hlo : axis (Step1.boundsL unitBoxUniforms) = 1 / 2)
      by (destruct Haxis as [-> | [-> | ->]];
          unfold Step1.boundsL, Step1.SAFE_BOUNDS; simpl; lra).
    assert (Hhi : axis (Step1.boundsH unitBoxUniforms) = 1 / 2)
      by (destruct Haxis as [-> | [-> | ->]];
          unfold Step1.boundsH, Step1.SAFE_BOUNDS; simpl; lra).
    rewrite Hlo, Hhi. apply bounce_pinched. }
  pose proof (Haxis vx (or_introl eq_refl)) as Hx.
  pose proof (Haxis vy (or_intror (or_introl eq_refl))) as Hy.
  pose proof (Haxis vz (or_intror (or_intror eq_refl))) as Hz.
  destruct (position (Step1.integrate unitBoxUniforms p)) as [x y z].
  simpl in Hx, Hy, Hz. subst. reflexivity.
Qed.

Lemma unitBox_voxel p :
  Glsl.voxelOf unitBoxUniforms (position (Step1.integrate unitBoxUniforms p))
  = (2, 2, 2)%Z.
Proof.
  rewrite unitBox_collapse. unfold Glsl.voxelOf, V.sub. simpl.
  repeat f_equal; apply truncate_between; try lia; simpl; lra.
Qed.

Lemma crowd_cells :
  Sort.integratedCells unitBoxUniforms crowd (seq 0 256) = replicate 256 (2, 2, 2)%Z.
Proof.
  unfold Sort.integratedCells.
  rewrite (omap_constant _ (2, 2, 2)%Z).
  - rewrite length_seq. reflexivity.
  - intros i Hi. apply elem_of_seq in Hi.
    unfold crowd. rewrite lookup_replicate_2 by lia. simpl.
    f_equal. apply unitBox_voxel.
Qed.

Lemma population_replicate n (c0 c : ivec3) :
  Sort.population (replicate n c0) c = if decide (c0 = c) then Z.of_nat n else 0%Z.
Proof.
  induction n as [| n IH].
  - destruct (decide (c0 = c)); reflexivity.
  - cbn [replicate]. rewrite population_cons, IH.
    destruct (decide (c0 = c)); lia.
Qed.

Lemma offsetOf_zero_before load order c :
  (forall c', c' <> c -> load c' = 0%Z) -> Sort.offsetOf load order c = 0%Z.
Proof.
  intros Hz. induction order as [| x order IH]; [reflexivity |].
  rewrite offsetOf_cons. destruct (decide (x = c)) as [_ | Hne]; [reflexivity |].
  rewrite (Hz x Hne), IH. reflexivity.
Qed.

Lemma pair_cells :
  Sort.integratedCells (sampleUniforms 0) pair [0%nat; 1%nat]
  = [(0, 0, 0)%Z; (1, 0, 0)%Z].
Proof.
  unfold Sort.integratedCells, pair. rewrite !omap_cons. simpl.
  rewrite !resting_voxel with (cx := 0%Z) (cy := 0%Z) (cz := 0%Z) by (simpl; lra || lia).
  rewrite !resting_voxel with (cx := 1%Z) (cy := 0%Z) (cz := 0%Z) by (simpl; lra || lia).
  reflexivity.
Qed.

End SampleFacts.

(** C1, as stated, fails: in the unit box pass 1 puts all particles into
    cell (2, 2, 2); with 256 of them the 8-bit count carries into the offset.
    That cell then reads offset 1 and count 0, every range is empty, and
    particle index 0 lies in no range although indices 0 .. 255 are in use. *)
Lemma partition_overflow_counterexample :
  let grid3 :=
    snd (buildGrid unitBoxUniforms (6, 6, 6)%Z (seq 0 256)
           (Step2.ascendingSchedule (6, 6, 6)%Z) (seq 0 256) crowd crowd) in
  length (Sort.integratedCells unitBoxUniforms crowd (seq 0 256)) = 256%nat
  /\ Image.imageLoad grid3 (2, 2, 2)%Z = 256%Z
  /\ Image.cellOffset (Image.imageLoad grid3 (2, 2, 2)%Z) = 1%Z
  /\ Image.cellCount (Image.imageLoad grid3 (2, 2, 2)%Z) = 0%Z
  /\ forall c, Image.inBounds (6, 6, 6)%Z c = true ->
       ~ Sort.inRange (Image.imageLoad grid3 c) 0.
Proof.
  intros grid3.
  assert (Hwords : forall c, Image.inBounds (6, 6, 6)%Z c = true ->
            Image.imageLoad grid3 c
            = (Sort.offsetOf (Sort.population (replicate 256 (2, 2, 2)%Z))
                 (concat (Step2.ascendingSchedule (6, 6, 6)%Z)) c * 256
               + Sort.population (replicate 256 (2, 2, 2)%Z) c)%Z).
  { intros c Hc. subst grid3. rewrite <- crowd_cells.
    apply buildGrid_words.
    - apply NoDup_seq.
    - reflexivity.
    - apply ascendingSchedule_valid.
    - rewrite crowd_cells. intros d Hd. apply elem_of_replicate in Hd as [-> _]. reflexivity.
    - rewrite crowd_cells, length_replicate. vm_compute. reflexivity.
    - exact Hc. }
  assert (Hword : Image.imageLoad grid3 (2, 2, 2)%Z = 256%Z).
  { rewrite Hwords by reflexivity.
    rewrite offsetOf_zero_before, population_replicate.
    - destruct (decide ((2, 2, 2)%Z = (2, 2, 2)%Z)); [reflexivity | congruence].
    - intros c' Hne. rewrite population_replicate.
      destruct (decide ((2, 2, 2)%Z = c')); [congruence | reflexivity]. }
  split; [rewrite crowd_cells; apply length_replicate |].
  split; [exact Hword |]. rewrite Hword.
  split; [reflexivity |]. split; [reflexivity |].
  intros c Hc. rewrite (Hwords c Hc), population_replicate.
  set (off := Sort.offsetOf _ _ c).
  assert (Hcount : Image.cellCount
                     (off * 256 + (if decide ((2, 2, 2)%Z = c) then Z.of_nat 256 else 0))%Z
                   = 0%Z).
  { destruct (decide ((2, 2, 2)%Z = c)).
    - replace (off * 256 + Z.of_nat 256)%Z with ((off + 1) * 256 + 0)%Z by lia.
      apply cellCount_pack. lia.
    - apply cellCount_pack. lia. }
  unfold Sort.inRange. rewrite Hcount. lia.
Qed.

(** C1 (amended): let N be the number of particle records the dispatch
    processes and suppose every one of them falls into a cell of the grid,
    no cell receives more than 255 of them, and N < 2^24.  Then after
    pass 3, whatever the order of the atomic operations, every cell word
    holds the cell's particle count in its count field with
    offset + count <= N, every index in [0, N) lies in the range
    [offset, offset + count) of some cell, and no index lies in the ranges
    of two cells. *)
Theorem counting_sort_partition (u : Uniforms) (size : ivec3)
    (schedule1 : list nat) (schedule2 : list (list ivec3)) (schedule3 : list nat)
    (particles outParticles : list SPHParticleCompute) :
  NoDup schedule1 -> schedule3 ≡ₚ schedule1 -> Step2.validSchedule size schedule2 ->
  let cells := Sort.integratedCells u particles schedule1 in
  let N := Z.of_nat (length cells) in
  (forall c, c ∈ cells -> Image.inBounds size c = true) ->
  (forall c, (Sort.population cells c <= 255)%Z) ->
  (N < 2 ^ 24)%Z ->
  let grid3 :=
    snd (buildGrid u size schedule1 schedule2 schedule3 particles outParticles) in
  let word c := Image.imageLoad grid3 c in
  (forall c, Image.inBounds size c = true ->
     Image.cellCount (word c) = Sort.population cells c
     /\ (0 <= Image.cellOffset (word c))%Z
     /\ (Image.cellOffset (word c) + Image.cellCount (word c) <= N)%Z)
  /\ (forall i, (0 <= i < N)%Z ->
        exists c, Image.inBounds size c = true /\ Sort.inRange (word c) i)
  /\ (forall i c c',
        Image.inBounds size c = true -> Image.inBounds size c' = true ->
        Sort.inRange (word c) i -> Sort.inRange (word c') i -> c = c').
Proof.
  intros Hnd1 Hperm Hvalid cells N Hin Hcap HN grid3 word.
  pose proof (buildGrid_words u size schedule1 schedule2 schedule3 particles outParticles
                Hnd1 Hperm Hvalid Hin HN) as Hword.
  fold cells grid3 in Hword.
  destruct Hvalid as [Hnd2 Hcover].
  set (order := concat schedule2) in *.
  set (pop := Sort.population cells) in *.
  assert (Hpos : forall c, c ∈ order -> (0 <= pop c)%Z)
    by (intros; apply population_nonneg).
  assert (Htotal : Sort.total pop order = N).
  { apply total_population; [exact Hnd2 |]. intros c Hc. apply Hcover, Hin, Hc. }
  assert (Hfields : forall c, Image.inBounds size c = true ->
            Image.cellOffset (word c) = Sort.offsetOf pop order c
            /\ Image.cellCount (word c) = pop c).
  { intros c Hc. unfold word. rewrite (Hword c Hc).
    specialize (Hcap c). pose proof (population_nonneg cells c) as Hnn.
    change (Sort.population cells c) with (pop c) in Hnn.
    split; [apply cellOffset_pack | apply cellCount_pack]; lia. }
  split; [| split].
  - intros c Hc. destruct (Hfields c Hc) as [-> ->].
    destruct (offsetOf_bounds pop order c Hpos) as [H0 H1].
    specialize (H1 (Hcover c Hc)). repeat split; [exact H0 | lia].
  - intros i Hi. rewrite <- Htotal in Hi.
    destruct (offsetOf_cover pop order i Hnd2 Hpos Hi) as (c & Hc & Hr).
    assert (Hb : Image.inBounds size c = true).
    { apply Hin, population_positive_elem.
      change (Sort.population cells c) with (pop c). lia. }
    exists c. split; [exact Hb |].
    unfold Sort.inRange. destruct (Hfields c Hb) as [-> ->]. exact Hr.
  - intros i c c' Hc Hc' Hr Hr'. unfold Sort.inRange in Hr, Hr'.
    destruct (Hfields c Hc) as [E1 E2]. destruct (Hfields c' Hc') as [E1' E2'].
    rewrite E1, E2 in Hr. rewrite E1', E2' in Hr'.
    apply (offsetOf_disjoint pop order c c' i Hnd2 Hpos); auto.
Qed.

Lemma counting_sort_partition_witness :
  let cells := Sort.integratedCells (sampleUniforms 0) pair [0%nat; 1%nat] in
  let N := Z.of_nat (length cells) in
  let grid3 :=
    snd (buildGrid (sampleUniforms 0) (2, 1, 1)%Z [0%nat; 1%nat] sampleSchedule2
           [1%nat; 0%nat] pair pair) in
  let word c := Image.imageLoad grid3 c in
  (forall c, Image.inBounds (2, 1, 1)%Z c = true ->
     Image.cellCount (word c) = Sort.population cells c
     /\ (0 <= Image.cellOffset (word c))%Z
     /\ (Image.cellOffset (word c) + Image.cellCount (word c) <= N)%Z)
  /\ (forall i, (0 <= i < N)%Z ->
        exists c, Image.inBounds (2, 1, 1)%Z c = true /\ Sort.inRange (word c) i)
  /\ (forall i c c',
        Image.inBounds (2, 1, 1)%Z c = true -> Image.inBounds (2, 1, 1)%Z c' = true ->
        Sort.inRange (word c) i -> Sort.inRange (word c') i -> c = c').
Proof.
  apply (counting_sort_partition (sampleUniforms 0) (2, 1, 1)%Z [0%nat; 1%nat]
           sampleSchedule2 [1%nat; 0%nat] pair pair).
  - apply NoDup_cons. split.
    + intros H. apply elem_of_cons in H as [H | H]; [discriminate |].
      apply elem_of_nil in H. exact H.
    + apply NoDup_singleton.
  - apply perm_swap.
  - exact sampleSchedule2_valid.
  - rewrite pair_cells. intros c Hc.
    apply elem_of_cons in Hc as [-> | Hc]; [reflexivity |].
    apply elem_of_cons in Hc as [-> | Hc]; [reflexivity |].
    apply elem_of_nil in Hc. contradiction.
  - intros c. rewrite pair_cells.
    pose proof (population_le_length [(0, 0, 0)%Z; (1, 0, 0)%Z] c) as H.
    simpl in H. lia.
  - rewrite pair_cells. vm_compute. reflexivity.
Defined.

(** ** The walk over a sorted grid *)

Section SortedWalk.
Import Image Sort Stencil.
Local Open Scope Z_scope.
Variable grid : uimage3D.
Variable res : ivec3.
Variable voxelId : ivec3.
Variable i : Z.

Lemma count_occ_descending offset n :
  0 <= offset -> offset + Z.of_nat n <= U32.modulus ->
  (offset <= i < offset + Z.of_nat n ->
     count_occ Z.eq_dec
       (map (fun k => U32.add offset (Z.of_nat k)) (rev (seq 0 n))) i = 1%nat)
  /\ (~ offset <= i < offset + Z.of_nat n ->
        count_occ Z.eq_dec
          (map (fun k => U32.add offset (Z.of_nat k)) (rev (seq 0 n))) i = 0%nat).
Proof.
  intros H0. induction n as [| n IH]; intros Hfit.
  - simpl. split; [lia | reflexivity].
  - rewrite seq_S, rev_app_distr. cbn [rev app map Nat.add].
    rewrite u32_add_small by lia.
    destruct (IH ltac:(lia)) as [IH1 IH0].
    cbn [count_occ]. destruct (Z.eq_dec (offset + Z.of_nat n) i) as [E | E].
    + split; [| lia]. intros _. rewrite IH0 by lia. reflexivity.
    + split; intros Hr; [apply IH1 | apply IH0]; lia.
Qed.

Lemma cellWord_fits w :
  U32.in_range w ->
  0 <= cellOffset w /\ cellOffset w + Z.of_nat (Z.to_nat (cellCount w)) <= U32.modulus.
Proof.
  intros [Hlo Hhi]. rewrite modulus_value in *.
  pose proof (cellCount_range w) as Hc.
  unfold cellOffset, U32.shr. rewrite Z.shiftr_div_pow2 by lia. change (2 ^ 8) with 256.
  assert (0 <= w / 256 < 16777216).
  { split; [apply Z.div_pos; lia |]. apply Z.div_lt_upper_bound; lia. }
  lia.
Qed.

Lemma count_occ_cellCandidates w :
  U32.in_range w ->
  (inRange w i -> count_occ Z.eq_dec (cellCandidates w) i = 1%nat)
  /\ (~ inRange w i -> count_occ Z.eq_dec (cellCandidates w) i = 0%nat).
Proof.
  intros Hw. destruct (cellWord_fits w Hw) as [H0 Hfit].
  pose proof (cellCount_range w) as Hc.
  destruct (count_occ_descending (cellOffset w) (Z.to_nat (cellCount w)) H0 Hfit)
    as [H1 H2].
  unfold inRange, cellCandidates. rewrite Z2Nat.id in H1, H2 by lia. split; assumption.
Qed.

Lemma addv_zero : addv voxelId (0, 0, 0) = voxelId.
Proof. destruct voxelId as [[x y] z]. unfold addv. rewrite !Z.add_0_r. reflexivity. Qed.

Hypothesis own_inside : outside res voxelId = false.
Hypothesis own_range : inRange (imageLoad grid voxelId) i.
Hypothesis words_fit : forall d,
  d ∈ NEIGHBORHOOD_LUT -> outside res (addv voxelId d) = false ->
  U32.in_range (imageLoad grid (addv voxelId d)).
Hypothesis others_miss : forall d,
  d ∈ NEIGHBORHOOD_LUT -> d <> (0, 0, 0) -> outside res (addv voxelId d) = false ->
  ~ inRange (imageLoad grid (addv voxelId d)) i.

Lemma count_occ_candidatesFrom lut :
  NoDup lut -> (forall d, d ∈ lut -> d ∈ NEIGHBORHOOD_LUT) ->
  count_occ Z.eq_dec (candidatesFrom grid res voxelId lut) i
  = if decide ((0, 0, 0) ∈ lut) then 1%nat else 0%nat.
Proof.
  induction lut as [| d lut IH]; intros Hnd Hsub.
  - destruct (decide ((0, 0, 0) ∈ [])) as [H | _]; [| reflexivity].
    apply elem_of_nil in H. contradiction.
  - apply NoDup_cons in Hnd as [Hd Hnd].
    assert (Hd' : d ∈ NEIGHBORHOOD_LUT) by (apply Hsub; left).
    rewrite candidatesFrom_cons, (count_occ_app Z.eq_dec).
    rewrite IH by (try assumption; intros d' H'; apply Hsub; right; exact H').
    destruct (decide (d = (0, 0, 0))) as [-> | Hne].
    + rewrite addv_zero, own_inside.
      destruct (count_occ_cellCandidates (imageLoad grid voxelId)) as [H1 _].
      { rewrite <- addv_zero. apply words_fit; [exact Hd' |].
        rewrite addv_zero. exact own_inside. }
      rewrite (H1 own_range).
      destruct (decide ((0, 0, 0) ∈ lut)); [contradiction |].
      destruct (decide ((0, 0, 0) ∈ (0, 0, 0) :: lut)) as [_ | H]; [reflexivity |].
      exfalso. apply H. left.
    + assert (E : count_occ Z.eq_dec
                    (if outside res (addv voxelId d) then []
                     else cellCandidates (imageLoad grid (addv voxelId d))) i = 0%nat).
      { destruct (outside res (addv voxelId d)) eqn:Ho; [reflexivity |].
        destruct (count_occ_cellCandidates (imageLoad grid (addv voxelId d))) as [_ H2].
        { apply words_fit; assumption. }
        apply H2, others_miss; assumption. }
      rewrite E. simpl.
      destruct (decide ((0, 0, 0) ∈ lut)) as [Hin | Hnin].
      * destruct (decide ((0, 0, 0) ∈ d :: lut)) as [_ | H]; [reflexivity |].
        exfalso. apply H. right. exact Hin.
      * destruct (decide ((0, 0, 0) ∈ d :: lut)) as [H | _]; [| reflexivity].
        apply elem_of_cons in H as [H | H]; [congruence | contradiction].
Qed.

(** On a grid whose ranges are disjoint, a particle that lies in the range
    of its own cell is met exactly once by the walk. *)
Lemma sorted_grid_meets_self_once :
  count_occ Z.eq_dec (candidates grid res voxelId) i = 1%nat.
Proof.
  unfold candidates. rewrite count_occ_candidatesFrom.
  - destruct (decide ((0, 0, 0) ∈ NEIGHBORHOOD_LUT)) as [_ | H]; [reflexivity |].
    exfalso. apply H. vm_compute. do 13 right. left.
  - apply (bool_decide_unpack (NoDup NEIGHBORHOOD_LUT)). vm_compute. exact I.
  - auto.
Qed.

End SortedWalk.

(** ** How many records a particle dispatch processes *)

Section DispatchSize.
Local Open Scope Z_scope.

(** The shaders test the invocation id against the length of the whole
    buffer, so a dispatch processes the particle count rounded up to a
    multiple of 32. *)
Lemma particleInvocations_count (s : Host.System) :
  0 <= Host.numParticles_ s -> Host.numParticles_ s + 31 < U32.modulus ->
  let n := Z.of_nat (length (Host.particleInvocations s)) in
  n = 32 * ((Host.numParticles_ s + 31) / 32)
  /\ Host.numParticles_ s <= n < Host.numParticles_ s + 32.
Proof.
  intros H0 Hfit n. subst n. unfold Host.particleInvocations, Host.particleWorkGroups.
  rewrite length_seq. unfold U32.div.
  rewrite u32_add_small by lia.
  pose proof (Z.div_mod (Host.numParticles_ s + 31) 32 ltac:(lia)) as Hdm.
  pose proof (Z.mod_pos_bound (Host.numParticles_ s + 31) 32 ltac:(lia)) as Hb.
  assert (0 <= (Host.numParticles_ s + 31) / 32) by (apply Z.div_pos; lia).
  rewrite Z2Nat.id by lia. lia.
Qed.

Lemma integratedCells_length u (particles : list SPHParticleCompute) (schedule : list nat) :
  (forall i, i ∈ schedule -> (i < length particles)%nat) ->
  length (Sort.integratedCells u particles schedule) = length schedule.
Proof.
  unfold Sort.integratedCells.
  induction schedule as [| i schedule IH]; intros H; [reflexivity |].
  rewrite omap_cons.
  destruct (lookup_lt_is_Some_2 particles i (H i ltac:(left))) as [p Hp].
  rewrite Hp. simpl. f_equal. apply IH. intros j Hj. apply H. right. exact Hj.
Qed.

(** A system holding one particle dispatches 32 invocations. *)
Example one_particle_dispatch :
  length (Host.particleInvocations (Host.set_numParticles 1 (Host.constructed 1))) = 32%nat.
Proof. reflexivity. Qed.

End DispatchSize.

(** * Further properties of the code *)

(** ** Pass 1: containment *)

Section Containment.
Local Open Scope R_scope.

Lemma bounce_within boundsL boundsH velo pos :
  boundsL <= boundsH ->
  boundsL <= snd (Step1.bounce boundsL boundsH (velo, pos)) <= boundsH.
Proof.
  intros Hle. unfold Step1.bounce.
  destruct (Rlt_dec pos boundsL).
  - destruct (Rgt_dec boundsL boundsH); simpl; lra.
  - destruct (Rgt_dec pos boundsH); simpl; lra.
Qed.

Lemma integrate_axis_position u p (axis : vec3 -> R) :
  axis = vx \/ axis = vy \/ axis = vz ->
  axis (position (Step1.integrate u p))
  = snd (Step1.bounce (axis (Step1.boundsL u)) (axis (Step1.boundsH u))
           (axis (Step1.preWallVelocity u p), axis (Step1.preWallPosition u p))).
Proof.
  intros Haxis. pose proof (integrate_axes u p axis Haxis) as H.
  apply (f_equal snd) in H. exact H.
Qed.

End Containment.

(** X1: whatever the particle and the request, pass 1 leaves the position
    on every axis whose safe bounds are ordered between these bounds, that
    is inside the box shrunk by 0.5. *)
Theorem integrate_contained (u : Uniforms) (particle : SPHParticleCompute)
    (axis : vec3 -> R) :
  axis = vx \/ axis = vy \/ axis = vz ->
  (axis (Step1.boundsL u) <= axis (Step1.boundsH u))%R ->
  (axis (uGridOrigin u) + 5 / 10
   <= axis (position (Step1.integrate u particle))
   <= axis (uGridOrigin u) + axis (uGridSize u) - 5 / 10)%R.
Proof.
  intros Haxis Hle.
  rewrite (integrate_axis_position u particle axis Haxis).
  pose proof (bounce_within _ _ (axis (Step1.preWallVelocity u particle))
                (axis (Step1.preWallPosition u particle)) Hle) as H.
  assert (Hlo : axis (Step1.boundsL u) = (axis (uGridOrigin u) + 5 / 10)%R)
    by (destruct Haxis as [-> | [-> | ->]]; reflexivity).
  assert (Hhi : axis (Step1.boundsH u)
                = (axis (uGridOrigin u) + axis (uGridSize u) - 5 / 10)%R)
    by (destruct Haxis as [-> | [-> | ->]]; reflexivity).
  rewrite <- Hlo, <- Hhi. exact H.
Qed.

Lemma integrate_contained_witness :
  (vx (uGridOrigin (sampleUniforms 1)) + 5 / 10
   <= vx (position (Step1.integrate (sampleUniforms 1) (restingParticle 20 3 (-7))))
   <= vx (uGridOrigin (sampleUniforms 1)) + vx (uGridSize (sampleUniforms 1)) - 5 / 10)%R.
Proof.
  apply (integrate_contained (sampleUniforms 1) (restingParticle 20 3 (-7)) vx).
  - left. reflexivity.
  - unfold Step1.boundsL, Step1.boundsH, Step1.SAFE_BOUNDS. simpl. lra.
Defined.

(** ** The host grid holds every particle *)

Section HostGridFacts.
Local Open Scope R_scope.





End HostGridFacts.



(** ** Pass 1: conservation and independence of the order *)

Section Step1Conservation.
Import Image Sort.
Local Open Scope Z_scope.

Lemma omap_length_le {A B} (f : A -> option B) (l : list A) :
  (length (omap f l) <= length l)%nat.
Proof.
  induction l as [| x l IH]; [reflexivity |].
  rewrite omap_cons. destruct (f x); simpl; lia.
Qed.

Lemma population_filter_inside size cells c :
  inBounds size c = true ->
  population (List.filter (inBounds size) cells) c = population cells c.
Proof.
  intros Hc. induction cells as [| x cells IH]; [reflexivity |].
  cbn [List.filter]. destruct (inBounds size x) eqn:Hx.
  - rewrite !population_cons, IH. reflexivity.
  - rewrite population_cons, IH.
    destruct (decide (x = c)) as [-> | _]; [congruence | lia].
Qed.

Lemma population_filter_outside size cells c :
  inBounds size c = false -> population (List.filter (inBounds size) cells) c = 0.
Proof.
  intros Hc. apply population_absent. intros Hin.
  apply list_elem_of_In, List.filter_In in Hin as [_ Hin]. congruence.
Qed.

(** The cell words after a pass-1 dispatch on a cleared grid. *)
Lemma step1_counts u size schedule particles :
  NoDup schedule -> Z.of_nat (length schedule) < U32.modulus ->
  let r := Step1.dispatch u schedule (particles, cleared size) in
  (forall j, fst r !! j
             = if decide (j ∈ schedule) then Step1.integrate u <$> particles !! j
               else particles !! j)
  /\ forall c, imageLoad (snd r) c
               = population (List.filter (inBounds size)
                               (integratedCells u particles schedule)) c.
Proof.
  intros Hnd Hfit r.
  destruct (step1_dispatch_spec u schedule particles (cleared size) Hnd)
    as (Hsize & Hbuf & Hload).
  { intros c _. rewrite imageLoad_cleared.
    pose proof (population_nonneg (integratedCells u particles schedule) c).
    pose proof (population_le_length (integratedCells u particles schedule) c).
    pose proof (omap_length_le
                  (fun i => (fun p => Glsl.voxelOf u (position (Step1.integrate u p)))
                              <$> particles !! i) schedule) as Hlen.
    fold (integratedCells u particles schedule) in Hlen. lia. }
  fold r in Hsize, Hbuf, Hload. split; [exact Hbuf |].
  intros c. change (imageSize (cleared size)) with size in *.
  destruct (inBounds size c) eqn:Hc.
  - rewrite (Hload c Hc), imageLoad_cleared, population_filter_inside by exact Hc. lia.
  - rewrite imageLoad_outside by (rewrite Hsize; exact Hc).
    rewrite population_filter_outside by exact Hc. reflexivity.
Qed.

End Step1Conservation.

(** X3: after pass 1 on a cleared grid the counts of all cells add up to
    the number of processed particles whose cell lies inside the grid;
    particles outside the grid are integrated but not counted. *)
Theorem step1_counts_conserved (u : Uniforms) (size : ivec3) (schedule : list nat)
    (order : list ivec3) (particles : list SPHParticleCompute) :
  NoDup schedule -> (Z.of_nat (length schedule) < U32.modulus)%Z ->
  NoDup order -> (forall c, Image.inBounds size c = true -> c ∈ order) ->
  let grid1 := snd (Step1.dispatch u schedule (particles, Image.cleared size)) in
  let cells := Sort.integratedCells u particles schedule in
  Sort.total (Image.imageLoad grid1) order
  = Z.of_nat (length (List.filter (Image.inBounds size) cells))
  /\ ((forall c, c ∈ cells -> Image.inBounds size c = true) ->
      Sort.total (Image.imageLoad grid1) order = Z.of_nat (length cells)).
Proof.
  intros Hnd Hfit Hord Hcover grid1 cells.
  destruct (step1_counts u size schedule particles Hnd Hfit) as [_ Hload].
  fold grid1 cells in Hload.
  assert (Htotal : Sort.total (Image.imageLoad grid1) order
                   = Z.of_nat (length (List.filter (Image.inBounds size) cells))).
  { rewrite (total_ext _ (Sort.population (List.filter (Image.inBounds size) cells)))
      by (intros; apply Hload).
    apply total_population; [exact Hord |].
    intros c Hc. apply Hcover.
    apply list_elem_of_In, List.filter_In in Hc as [_ Hc]. exact Hc. }
  split; [exact Htotal |].
  intros Hin. rewrite Htotal. f_equal. f_equal.
  apply List.forallb_filter_id. apply List.forallb_forall.
  intros c Hc. apply Hin, list_elem_of_In, Hc.
Qed.

Lemma step1_counts_conserved_witness :
  let grid1 := snd (Step1.dispatch (sampleUniforms 0) [0%nat; 1%nat]
                      (pair, Image.cleared (2, 1, 1)%Z)) in
  let cells := Sort.integratedCells (sampleUniforms 0) pair [0%nat; 1%nat] in
  Sort.total (Image.imageLoad grid1) (concat sampleSchedule2)
  = Z.of_nat (length (List.filter (Image.inBounds (2, 1, 1)%Z) cells))
  /\ ((forall c, c ∈ cells -> Image.inBounds (2, 1, 1)%Z c = true) ->
      Sort.total (Image.imageLoad grid1) (concat sampleSchedule2) = Z.of_nat (length cells)).
Proof.
  apply (step1_counts_conserved (sampleUniforms 0) (2, 1, 1)%Z [0%nat; 1%nat]
           (concat sampleSchedule2) pair).
  - apply NoDup_cons. split.
    + intros H. apply elem_of_cons in H as [H | H]; [discriminate |].
      apply elem_of_nil in H. exact H.
    + apply NoDup_singleton.
  - rewrite modulus_value. simpl. lia.
  - apply sampleSchedule2_valid.
  - apply sampleSchedule2_valid.
Defined.

(** X4: pass 1 does not depend on the order in which its invocations take
    effect: two schedules with the same invocations leave the same particle
    buffer and the same word in every cell. *)
Theorem step1_order_irrelevant (u : Uniforms) (size : ivec3) (schedule schedule' : list nat)
    (particles : list SPHParticleCompute) :
  NoDup schedule -> schedule' ≡ₚ schedule ->
  (Z.of_nat (length schedule) < U32.modulus)%Z ->
  let r := Step1.dispatch u schedule (particles, Image.cleared size) in
  let r' := Step1.dispatch u schedule' (particles, Image.cleared size) in
  fst r' = fst r /\ forall c, Image.imageLoad (snd r') c = Image.imageLoad (snd r) c.
Proof.
  intros Hnd Hperm Hfit r r'.
  assert (Hnd' : NoDup schedule') by (rewrite Hperm; exact Hnd).
  assert (Hfit' : (Z.of_nat (length schedule') < U32.modulus)%Z) by (rewrite Hperm; exact Hfit).
  destruct (step1_counts u size schedule particles Hnd Hfit) as [Hbuf Hload].
  destruct (step1_counts u size schedule' particles Hnd' Hfit') as [Hbuf' Hload'].
  fold r in Hbuf, Hload. fold r' in Hbuf', Hload'. split.
  - apply list_eq. intros j. rewrite Hbuf, Hbuf'.
    destruct (decide (j ∈ schedule)) as [Hj | Hj];
      destruct (decide (j ∈ schedule')) as [Hj' | Hj']; try reflexivity.
    + exfalso. apply Hj'. rewrite Hperm. exact Hj.
    + exfalso. apply Hj. rewrite <- Hperm. exact Hj'.
  - intros c. rewrite Hload, Hload'.
    destruct (Image.inBounds size c) eqn:Hc.
    + rewrite !population_filter_inside by exact Hc.
      apply population_Permutation.
      unfold Sort.integratedCells. rewrite Hperm. reflexivity.
    + rewrite !population_filter_outside by exact Hc. reflexivity.
Qed.

Lemma step1_order_irrelevant_witness :
  let r := Step1.dispatch (sampleUniforms 0) [0%nat; 1%nat]
             (pair, Image.cleared (2, 1, 1)%Z) in
  let r' := Step1.dispatch (sampleUniforms 0) [1%nat; 0%nat]
              (pair, Image.cleared (2, 1, 1)%Z) in
  fst r' = fst r /\ forall c, Image.imageLoad (snd r') c = Image.imageLoad (snd r) c.
Proof.
  apply (step1_order_irrelevant (sampleUniforms 0) (2, 1, 1)%Z [0%nat; 1%nat] [1%nat; 0%nat]
           pair).
  - apply NoDup_cons. split.
    + intros H. apply elem_of_cons in H as [H | H]; [discriminate |].
      apply elem_of_nil in H. exact H.
    + apply NoDup_singleton.
  - apply perm_swap.
  - rewrite modulus_value. simpl. lia.
Defined.

(** ** The dispatches the host issues *)

(** X5: the pass-2 dispatch of [(gridDim + 3) / 4] groups of 4 x 4 x 4
    invocations per axis handles every cell of the grid exactly once,
    also when the grid size is no multiple of 4; the cell (x, y, z) belongs
    to group (x / 4, y / 4, z / 4), and every group has 64 invocations. *)
Theorem pass2_dispatch_covers_grid (gridDim : ivec3) :
  NoDup (concat (Step2.ascendingSchedule gridDim))
  /\ (forall c, Image.inBounds gridDim c = true ->
        c ∈ concat (Step2.ascendingSchedule gridDim)
        /\ (let '(x, y, z) := c in (x / 4, y / 4, z / 4)%Z) ∈ Step2.workGroupIds gridDim
        /\ c ∈ Step2.workGroupVoxels (let '(x, y, z) := c in (x / 4, y / 4, z / 4)%Z))
  /\ (forall voxels, voxels ∈ Step2.ascendingSchedule gridDim -> length voxels = 64%nat).
Proof.
  destruct (ascendingSchedule_valid gridDim) as [Hnd Hcover].
  split; [exact Hnd |]. split.
  - intros [[x y] z] Hc. split; [apply Hcover; exact Hc |].
    destruct gridDim as [[dx dy] dz]. unfold Image.inBounds in Hc.
    repeat (apply andb_prop in Hc as [Hc ?]).
    split.
    + apply elem_of_workGroupIds. cbn [fst snd].
      repeat split; try (apply Z.div_pos; lia); apply Z.div_lt_upper_bound; try lia.
      all: pose proof (Z.div_mod (dx + 3) 4 ltac:(lia));
           pose proof (Z.mod_pos_bound (dx + 3) 4 ltac:(lia));
           pose proof (Z.div_mod (dy + 3) 4 ltac:(lia));
           pose proof (Z.mod_pos_bound (dy + 3) 4 ltac:(lia));
           pose proof (Z.div_mod (dz + 3) 4 ltac:(lia));
           pose proof (Z.mod_pos_bound (dz + 3) 4 ltac:(lia)); lia.
    + apply elem_of_workGroupVoxels. exists (x mod 4)%Z, (y mod 4)%Z, (z mod 4)%Z.
      cbn [fst snd].
      pose proof (Z.mod_pos_bound x 4 ltac:(lia)).
      pose proof (Z.mod_pos_bound y 4 ltac:(lia)).
      pose proof (Z.mod_pos_bound z 4 ltac:(lia)).
      repeat split; try lia.
      f_equal; [f_equal |]; apply Z.div_mod; lia.
  - intros voxels Hv. unfold Step2.ascendingSchedule in Hv.
    apply list_elem_of_fmap in Hv as ([[wx wy] wz] & -> & _). reflexivity.
Qed.

(** X6: passes 1 and 3 are dispatched in groups of 32 and the shaders test
    the invocation id against the length of the whole buffer, so they
    process the particle count rounded up to a multiple of 32: up to 31
    records past the last added particle are integrated and sorted too. *)
Theorem particle_dispatch_padding (u : Uniforms) (s : Host.System) :
  (0 <= Host.numParticles_ s <= Host.maxParticles_ s)%Z ->
  (Host.maxParticles_ s < U32.modulus - 31)%Z ->
  (Host.maxParticles_ s mod 32 = 0)%Z ->
  Z.of_nat (length (Host.currentParticles s)) = Host.maxParticles_ s ->
  let processed :=
    Z.of_nat (length (Sort.integratedCells u (Host.currentParticles s)
                        (Host.particleInvocations s))) in
  (processed = 32 * ((Host.numParticles_ s + 31) / 32)
   /\ Host.numParticles_ s <= processed < Host.numParticles_ s + 32)%Z.
Proof.
  intros Hnum Hmax Hmod Hbuf processed.
  destruct (particleInvocations_count s) as [Hn Hrange]; [lia | lia |].
  cbv zeta in Hn, Hrange.
  assert (Hfit : (Z.of_nat (length (Host.particleInvocations s)) <= Host.maxParticles_ s)%Z).
  { rewrite Hn.
    pose proof (Z.div_mod (Host.maxParticles_ s) 32 ltac:(lia)) as Hdm.
    rewrite Hmod, Z.add_0_r in Hdm.
    pose proof (Z.div_mod (Host.numParticles_ s + 31) 32 ltac:(lia)).
    pose proof (Z.mod_pos_bound (Host.numParticles_ s + 31) 32 ltac:(lia)).
    lia. }
  subst processed. rewrite integratedCells_length.
  - split; [exact Hn | exact Hrange].
  - intros i Hi. unfold Host.particleInvocations in Hi, Hfit.
    apply elem_of_seq in Hi. rewrite length_seq in Hfit. lia.
Qed.

Lemma particle_dispatch_padding_witness :
  let s := Host.MkSystem 33 64 0
             (replicate 64 Glsl.zeroParticle, replicate 64 Glsl.zeroParticle)
             V.zero V.zero V.zero V.zero 0%R false F32.zero (fun _ => 1%Z) [] in
  let processed :=
    Z.of_nat (length (Sort.integratedCells (sampleUniforms 0) (Host.currentParticles s)
                        (Host.particleInvocations s))) in
  (processed = 32 * ((Host.numParticles_ s + 31) / 32)
   /\ Host.numParticles_ s <= processed < Host.numParticles_ s + 32)%Z.
Proof.
  intros s.
  apply (particle_dispatch_padding (sampleUniforms 0) s).
  - simpl. lia.
  - simpl. rewrite modulus_value. lia.
  - reflexivity.
  - reflexivity.
Defined.

(** ** Pass 3 places every particle in the range of its cell *)

Section ScatterFacts.
Import Image Sort.
Local Open Scope Z_scope.
Variable u : Uniforms.
Variable ps : list SPHParticleCompute.

(** One invocation of pass 3 on a word that holds [base] in the offset field
    and [cnt] in the count field: the particle goes to slot [base + cnt] and
    the count field grows by one. *)
Lemma step3_main_scatter i p out g (base cnt : Z) :
  ps !! i = Some p ->
  inBounds (imageSize g) (Glsl.voxelOf u (position p)) = true ->
  imageLoad g (Glsl.voxelOf u (position p)) = base * 256 + cnt ->
  0 <= base < 2 ^ 24 -> 0 <= cnt < 255 ->
  base + cnt < Z.of_nat (length out) ->
  Step3.main u ps i (out, g)
  = (<[Z.to_nat (base + cnt) := p]> out,
     imageStore g (Glsl.voxelOf u (position p)) (base * 256 + cnt + 1)).
Proof.
  intros Hp Hin Hw Hb Hc Hlen. unfold Step3.main. rewrite Hp.
  unfold imageAtomicAdd. rewrite Hw.
  change (2 ^ 24) with 16777216 in Hb. assert (Hmod := modulus_value).
  rewrite cellOffset_pack, cellCount_pack by lia.
  rewrite (u32_add_small base cnt) by lia.
  rewrite (u32_incr (base * 256 + cnt)) by lia.
  destruct (Z.ltb_spec (base + cnt) (Z.of_nat (length out))) as [_ | H]; [reflexivity | lia].
Qed.

(** A pass-3 dispatch started on words [base c * 256 + cnt c], whose target
    ranges [base c + cnt c, base c + cnt c + population c) fit the buffer
    and do not overlap. *)
Lemma step3_scatter_spec schedule : forall out g (base cnt : ivec3 -> Z),
  (forall c, inBounds (imageSize g) c = true -> imageLoad g c = base c * 256 + cnt c) ->
  (forall c, 0 <= base c < 2 ^ 24 /\ 0 <= cnt c) ->
  (forall c, cnt c + population (cellsOf u ps schedule) c <= 255) ->
  (forall c, c ∈ cellsOf u ps schedule -> inBounds (imageSize g) c = true) ->
  (forall c, c ∈ cellsOf u ps schedule ->
     base c + cnt c + population (cellsOf u ps schedule) c <= Z.of_nat (length out)) ->
  (forall c c' k,
     base c + cnt c <= k < base c + cnt c + population (cellsOf u ps schedule) c ->
     base c' + cnt c' <= k < base c' + cnt c' + population (cellsOf u ps schedule) c' ->
     c = c') ->
  let out' := fst (Step3.dispatch u ps schedule (out, g)) in
  (forall c k,
     base c + cnt c <= k < base c + cnt c + population (cellsOf u ps schedule) c ->
     exists i p, i ∈ schedule /\ ps !! i = Some p /\ Glsl.voxelOf u (position p) = c
                 /\ out' !! Z.to_nat k = Some p)
  /\ (forall i p, i ∈ schedule -> ps !! i = Some p ->
        let c := Glsl.voxelOf u (position p) in
        exists k,
          base c + cnt c <= k < base c + cnt c + population (cellsOf u ps schedule) c
          /\ out' !! Z.to_nat k = Some p)
  /\ (forall k, 0 <= k ->
        (forall c, ~ (base c + cnt c <= k
                      < base c + cnt c + population (cellsOf u ps schedule) c)) ->
        out' !! Z.to_nat k = out !! Z.to_nat k).
Proof.
  induction schedule as [| i schedule IH]; intros out g base cnt Hw Hnn Hcap Hin Hlen Hdisj.
  - cbn [Step3.dispatch fold_left fst]. unfold Step3.dispatch. cbn [fold_left fst].
    unfold cellsOf. cbn [omap list_omap]. split; [| split].
    + intros c k Hk. rewrite population_nil in Hk. lia.
    + intros j p Hj. apply elem_of_nil in Hj. contradiction.
    + reflexivity.
  - unfold Step3.dispatch. cbn [fold_left].
    fold (Step3.dispatch u ps schedule (Step3.main u ps i (out, g))).
    set (f := fun j => (fun p => Glsl.voxelOf u (position p)) <$> ps !! j).
    assert (Hpop : forall d, population (cellsOf u ps (i :: schedule)) d
                   = (if decide (f i = Some d) then 1 else 0)
                     + population (cellsOf u ps schedule) d).
    { intros d. exact (population_omap_cons f i schedule d). }
    assert (Hsub : forall d, d ∈ cellsOf u ps schedule -> d ∈ cellsOf u ps (i :: schedule)).
    { intros d Hd. change (cellsOf u ps (i :: schedule)) with (omap f (i :: schedule)).
      change (cellsOf u ps schedule) with (omap f schedule) in Hd.
      rewrite omap_cons. destruct (f i); [right |]; exact Hd. }
    assert (Hpn : forall d, 0 <= population (cellsOf u ps schedule) d)
      by (intros; apply population_nonneg).
    destruct (ps !! i) as [p |] eqn:Hp.
    + (* the invocation moves particle [p] *)
      set (c := Glsl.voxelOf u (position p)).
      assert (Hfi : f i = Some c) by (unfold f; rewrite Hp; reflexivity).
      assert (Hci : c ∈ cellsOf u ps (i :: schedule)).
      { change (cellsOf u ps (i :: schedule)) with (omap f (i :: schedule)).
        rewrite omap_cons, Hfi. left. }
      assert (Hpc := Hpop c). rewrite Hfi in Hpc.
      destruct (decide (Some c = Some c)) as [_ | H]; [| congruence].
      assert (Hcb := Hin c Hci). assert (Hcap_c := Hcap c). assert (Hlen_c := Hlen c Hci).
      destruct (Hnn c) as [Hb0 Hc0].
      rewrite (step3_main_scatter i p out g (base c) (cnt c) Hp Hcb (Hw c Hcb))
        by (try exact Hb0; specialize (Hpn c); lia).
      set (out1 := <[Z.to_nat (base c + cnt c) := p]> out).
      set (g1 := imageStore g c (base c * 256 + cnt c + 1)).
      set (cnt' := fun d => if decide (c = d) then cnt d + 1 else cnt d).
      assert (Hrange : forall d k,
                base d + cnt' d <= k
                < base d + cnt' d + population (cellsOf u ps schedule) d ->
                base d + cnt d <= k
                < base d + cnt d + population (cellsOf u ps (i :: schedule)) d).
      { intros d k. rewrite (Hpop d), Hfi. unfold cnt'.
        destruct (decide (c = d)) as [-> | Hne].
        - destruct (decide (Some d = Some d)); [lia | congruence].
        - destruct (decide (Some c = Some d)); [congruence | lia]. }
      destruct (IH out1 g1 base cnt') as (HA & HB & HC).
      { intros d Hd. unfold g1 in Hd |- *. rewrite imageSize_store in Hd.
        rewrite (imageLoad_store g c d _ Hd). unfold cnt'.
        destruct (decide (c = d)) as [-> | Hne]; [lia | apply Hw, Hd]. }
      { intros d. destruct (Hnn d). unfold cnt'. destruct (decide (c = d)); lia. }
      { intros d. specialize (Hcap d). rewrite (Hpop d), Hfi in Hcap. unfold cnt'.
        destruct (decide (c = d)) as [-> | Hne].
        - destruct (decide (Some d = Some d)); [lia | congruence].
        - destruct (decide (Some c = Some d)); [congruence | lia]. }
      { intros d Hd. unfold g1. rewrite imageSize_store. apply Hin, Hsub, Hd. }
      { intros d Hd. unfold out1. rewrite length_insert.
        specialize (Hlen d (Hsub d Hd)). rewrite (Hpop d), Hfi in Hlen. unfold cnt'.
        destruct (decide (c = d)) as [-> | Hne].
        - destruct (decide (Some d = Some d)); [lia | congruence].
        - destruct (decide (Some c = Some d)); [congruence | lia]. }
      { intros d d' k Hd Hd'. apply (Hdisj d d' k); apply Hrange; assumption. }
      assert (Hslot : fst (Step3.dispatch u ps schedule (out1, g1))
                        !! Z.to_nat (base c + cnt c) = Some p).
      { rewrite HC.
        - unfold out1. apply list_lookup_insert_eq. specialize (Hpn c). lia.
        - lia.
        - intros d Hd. destruct (decide (c = d)) as [<- | Hne].
          + unfold cnt' in Hd. destruct (decide (c = c)); [lia | congruence].
          + apply Hne. apply (Hdisj c d (base c + cnt c)).
            * specialize (Hpn c). lia.
            * apply Hrange, Hd. }
      split; [| split].
      * intros d k Hk.
        destruct (decide (d = c /\ k = base c + cnt c)) as [[-> ->] | Hother].
        -- exists i, p. split; [left |]. split; [exact Hp |]. split; [reflexivity |].
           exact Hslot.
        -- destruct (HA d k) as (j & q & Hj & Hq & Hcell & Hout).
           { rewrite (Hpop d), Hfi in Hk. unfold cnt'.
             destruct (decide (c = d)) as [<- | Hne].
             - destruct (decide (Some c = Some c)); [| congruence].
               assert (k <> base c + cnt c) by (intros ->; apply Hother; auto). lia.
             - destruct (decide (Some c = Some d)); [congruence | lia]. }
           exists j, q. split; [right; exact Hj |]. auto.
      * intros j q Hj Hq. cbn zeta.
        apply elem_of_cons in Hj as [-> | Hj].
        -- rewrite Hp in Hq. injection Hq as <-. exists (base c + cnt c).
           split; [fold c; specialize (Hpn c); lia | exact Hslot].
        -- destruct (HB j q Hj Hq) as (k & Hk & Hout). exists k.
           split; [apply Hrange, Hk | exact Hout].
      * intros k Hk0 Hk.
        rewrite HC; [| exact Hk0 | intros d Hd; apply (Hk d), Hrange, Hd].
        unfold out1. apply list_lookup_insert_ne.
        intros E. apply (Hk c). apply Z2Nat.inj in E; [| lia | exact Hk0].
        subst k. specialize (Hpn c). lia.
    + (* an invocation past the end of the buffer *)
      assert (Hmain : Step3.main u ps i (out, g) = (out, g)).
      { unfold Step3.main. rewrite Hp. reflexivity. }
      rewrite Hmain.
      assert (Hfi : f i = None) by (unfold f; rewrite Hp; reflexivity).
      assert (Hsame : forall d, population (cellsOf u ps (i :: schedule)) d
                      = population (cellsOf u ps schedule) d).
      { intros d. rewrite (Hpop d), Hfi.
        destruct (decide (None = Some d)); [congruence | lia]. }
      destruct (IH out g base cnt) as (HA & HB & HC).
      { exact Hw. }
      { exact Hnn. }
      { intros d. rewrite <- Hsame. apply Hcap. }
      { intros d Hd. apply Hin, Hsub, Hd. }
      { intros d Hd. rewrite <- Hsame. apply Hlen, Hsub, Hd. }
      { intros d d' k. rewrite <- !Hsame. apply Hdisj. }
      split; [| split].
      * intros d k Hk. rewrite Hsame in Hk.
        destruct (HA d k Hk) as (j & q & Hj & Hrest). exists j, q.
        split; [right; exact Hj | exact Hrest].
      * intros j q Hj Hq. cbn zeta.
        apply elem_of_cons in Hj as [-> | Hj]; [congruence |].
        destruct (HB j q Hj Hq) as (k & Hk & Hout). exists k. rewrite Hsame. auto.
      * intros k Hk0 Hk. apply HC; [exact Hk0 |].
        intros d. rewrite <- Hsame. apply Hk.
Qed.

End ScatterFacts.

Section ReorderFacts.
Import Image Sort.
Local Open Scope Z_scope.

Lemma offsetOf_le_total load order c :
  (forall c', c' ∈ order -> 0 <= load c') -> offsetOf load order c <= total load order.
Proof.
  induction order as [| x order IH]; intros Hpos; [reflexivity |].
  rewrite offsetOf_cons, total_cons.
  assert (Hx : 0 <= load x) by (apply Hpos; left).
  assert (Hrest : forall c', c' ∈ order -> 0 <= load c')
    by (intros c' Hc'; apply Hpos; right; exact Hc').
  pose proof (total_nonneg load order Hrest). specialize (IH Hrest).
  destruct (decide (x = c)); lia.
Qed.

Lemma population_elem_positive cells c : c ∈ cells -> 0 < population cells c.
Proof.
  induction cells as [| x cells IH]; intros Hc; [apply elem_of_nil in Hc; contradiction |].
  rewrite population_cons. pose proof (population_nonneg cells c).
  destruct (decide (x = c)) as [_ | Hne]; [lia |].
  apply elem_of_cons in Hc as [-> | Hc]; [congruence |]. specialize (IH Hc). lia.
Qed.

Lemma step3_dispatch_length u ps schedule : forall out g,
  length (fst (Step3.dispatch u ps schedule (out, g))) = length out.
Proof.
  induction schedule as [| i schedule IH]; intros out g; [reflexivity |].
  unfold Step3.dispatch. cbn [fold_left].
  fold (Step3.dispatch u ps schedule (Step3.main u ps i (out, g))).
  destruct (step3_main_spec u ps i out g) as (_ & Hlen & _).
  destruct (Step3.main u ps i (out, g)) as [out1 g1]. cbn [fst] in Hlen.
  rewrite IH. exact Hlen.
Qed.

(** What passes 1 and 2 leave for pass 3: the integrated buffer, and words
    that hold the reserved offset above an empty count field. *)
Lemma buildGrid_before_scatter (u : Uniforms) (size : ivec3)
    (schedule1 : list nat) (schedule2 : list (list ivec3)) (schedule3 : list nat)
    (particles outParticles : list SPHParticleCompute) :
  NoDup schedule1 -> Step2.validSchedule size schedule2 ->
  let cells := integratedCells u particles schedule1 in
  (forall c, c ∈ cells -> inBounds size c = true) ->
  Z.of_nat (length cells) < 2 ^ 24 ->
  exists particles1 grid2,
    buildGrid u size schedule1 schedule2 schedule3 particles outParticles
    = (particles1,
       fst (Step3.dispatch u particles1 schedule3 (outParticles, grid2)),
       snd (Step3.dispatch u particles1 schedule3 (outParticles, grid2)))
    /\ imageSize grid2 = size
    /\ (forall j, particles1 !! j
                  = if decide (j ∈ schedule1) then Step1.integrate u <$> particles !! j
                    else particles !! j)
    /\ (forall c, inBounds size c = true ->
          imageLoad grid2 c = offsetOf (population cells) (concat schedule2) c * 256).
Proof.
  intros Hnd1 [Hnd2 Hcover] cells Hin HN.
  change (2 ^ 24) with 16777216 in HN.
  assert (Hmod := modulus_value).
  assert (Hpop : forall d, 0 <= population cells d <= Z.of_nat (length cells)).
  { intros d. split; [apply population_nonneg | apply population_le_length]. }
  unfold buildGrid.
  destruct (step1_dispatch_spec u schedule1 particles (cleared size) Hnd1)
    as (Hsize1 & Hbuf1 & Hload1).
  { intros d Hd. rewrite imageLoad_cleared. fold cells. specialize (Hpop d). lia. }
  destruct (Step1.dispatch u schedule1 (particles, cleared size)) as [particles1 grid1].
  cbn [fst snd] in Hsize1, Hbuf1, Hload1. fold cells in Hload1.
  change (imageSize (cleared size)) with size in Hsize1, Hload1.
  assert (Hall1 : forall d, imageLoad grid1 d = population cells d).
  { intros d. destruct (inBounds size d) eqn:Hd.
    - rewrite (Hload1 d Hd), imageLoad_cleared. lia.
    - rewrite imageLoad_outside by (rewrite Hsize1; exact Hd).
      symmetry. apply population_absent. intros Hd'. apply Hin in Hd'. congruence. }
  assert (Htotal : total (imageLoad grid1) (concat schedule2) = Z.of_nat (length cells)).
  { rewrite (total_ext _ (population cells)) by (intros; apply Hall1).
    apply total_population; [exact Hnd2 |].
    intros d Hd. apply Hcover, Hin, Hd. }
  destruct (step2_dispatch_from schedule2 0 grid1 Hnd2) as (_ & Hsize2 & Hload2).
  { intros d _. rewrite Hall1. apply population_nonneg. }
  { lia. }
  { lia. }
  fold (Step2.dispatch schedule2 grid1) in Hsize2, Hload2.
  destruct (Step2.dispatch schedule2 grid1) as [globalParticleCount grid2].
  cbn [fst snd] in Hsize2, Hload2. rewrite Hsize1 in Hsize2, Hload2.
  exists particles1, grid2. split.
  { destruct (Step3.dispatch u particles1 schedule3 (outParticles, grid2)); reflexivity. }
  split; [exact Hsize2 |]. split; [exact Hbuf1 |].
  intros d Hd. rewrite (Hload2 d Hd).
  destruct (decide (d ∈ concat schedule2)) as [Hd2 | H]; [| exfalso; auto].
  rewrite Z.add_0_l.
  rewrite (offsetOf_ext _ (population cells)) by (intros; apply Hall1).
  pose proof (offsetOf_le_total (population cells) (concat schedule2) d
                ltac:(intros; apply population_nonneg)) as Hle.
  destruct (offsetOf_bounds (population cells) (concat schedule2) d
              ltac:(intros; apply population_nonneg)) as [H0 _].
  rewrite (total_ext _ (population cells)) in Htotal by (intros; apply Hall1).
  apply shl8_small. change (2 ^ 24) with 16777216. lia.
Qed.

End ReorderFacts.

(** Where pass 3 puts the particles: the slots of a cell's range hold the
    particles of the cell. *)
Lemma buildGrid_scatter (u : Uniforms) (size : ivec3)
    (schedule1 : list nat) (schedule2 : list (list ivec3)) (schedule3 : list nat)
    (particles outParticles : list SPHParticleCompute) :
  NoDup schedule1 -> schedule3 ≡ₚ schedule1 -> Step2.validSchedule size schedule2 ->
  let cells := Sort.integratedCells u particles schedule1 in
  let N := length cells in
  (forall c, c ∈ cells -> Image.inBounds size c = true) ->
  (forall c, (Sort.population cells c <= 255)%Z) ->
  (Z.of_nat N < 2 ^ 24)%Z ->
  (N <= length outParticles)%nat ->
  let r := buildGrid u size schedule1 schedule2 schedule3 particles outParticles in
  let particles1 := fst (fst r) in
  let outParticles3 := snd (fst r) in
  let word c := Image.imageLoad (snd r) c in
  (forall c k, Image.inBounds size c = true -> Sort.inRange (word c) k ->
     exists i p, i ∈ schedule1 /\ particles1 !! i = Some p
                 /\ Glsl.voxelOf u (position p) = c
                 /\ outParticles3 !! Z.to_nat k = Some p)
  /\ (forall i p, i ∈ schedule1 -> particles1 !! i = Some p ->
        exists k, Sort.inRange (word (Glsl.voxelOf u (position p))) k
                  /\ outParticles3 !! Z.to_nat k = Some p)
  /\ (forall k, (N <= k)%nat -> outParticles3 !! k = outParticles !! k)
  /\ length outParticles3 = length outParticles.
Proof.
  intros Hnd1 Hperm Hvalid cells N Hin Hcap HN Hroom r particles1 outParticles3 word.
  pose proof (buildGrid_words u size schedule1 schedule2 schedule3 particles outParticles
                Hnd1 Hperm Hvalid Hin HN) as Hword.
  destruct (buildGrid_before_scatter u size schedule1 schedule2 schedule3 particles
              outParticles Hnd1 Hvalid Hin HN)
    as (ps1 & grid2 & Hr & Hsize2 & Hbuf1 & Hword2).
  fold cells in Hword, Hword2.
  destruct Hvalid as [Hnd2 Hcover].
  set (order := concat schedule2) in *.
  set (pop := Sort.population cells) in *.
  assert (Hpos : forall c, c ∈ order -> (0 <= pop c)%Z)
    by (intros; apply population_nonneg).
  assert (Hpn : forall c, (0 <= pop c)%Z) by (intros; apply population_nonneg).
  assert (Htotal : Sort.total pop order = Z.of_nat N).
  { apply total_population; [exact Hnd2 |]. intros c Hc. apply Hcover, Hin, Hc. }
  assert (Hcells3 : forall d, Sort.population (Sort.cellsOf u ps1 schedule3) d = pop d).
  { intros d. apply population_Permutation.
    unfold Sort.cellsOf. rewrite Hperm. unfold cells, Sort.integratedCells.
    rewrite (omap_ext_in _
               (fun i => (fun p => Glsl.voxelOf u (position (Step1.integrate u p)))
                           <$> particles !! i)); [reflexivity |].
    intros j Hj. rewrite Hbuf1.
    destruct (decide (j ∈ schedule1)) as [_ | H]; [| contradiction].
    destruct (particles !! j); reflexivity. }
  assert (Hmember : forall d, (0 < pop d)%Z -> d ∈ order /\ Image.inBounds size d = true).
  { intros d Hd. assert (Hb : Image.inBounds size d = true)
      by (apply Hin, population_positive_elem; exact Hd).
    split; [apply Hcover, Hb | exact Hb]. }
  assert (Hfields : forall c, Image.inBounds size c = true ->
            Image.cellOffset (word c) = Sort.offsetOf pop order c
            /\ Image.cellCount (word c) = pop c).
  { intros c Hc. unfold word, r. rewrite (Hword c Hc).
    specialize (Hcap c). specialize (Hpn c).
    split; [apply cellOffset_pack | apply cellCount_pack]; lia. }
  assert (Hr1 : particles1 = ps1) by (unfold particles1, r; rewrite Hr; reflexivity).
  assert (Hr3 : outParticles3
                = fst (Step3.dispatch u ps1 schedule3 (outParticles, grid2)))
    by (unfold outParticles3, r; rewrite Hr; reflexivity).
  destruct (step3_scatter_spec u ps1 schedule3 outParticles grid2
              (Sort.offsetOf pop order) (fun _ => 0%Z)) as (HA & HB & HC).
  { intros c Hc. rewrite Hsize2 in Hc. rewrite (Hword2 c Hc). lia. }
  { intros c. pose proof (offsetOf_le_total pop order c Hpos).
    destruct (offsetOf_bounds pop order c Hpos) as [H0 _]. lia. }
  { intros c. rewrite Hcells3. specialize (Hcap c). lia. }
  { intros c Hc. rewrite Hsize2. apply Hmember.
    rewrite <- Hcells3. apply population_elem_positive, Hc. }
  { intros c Hc. rewrite Hcells3.
    assert (Hc' : (0 < pop c)%Z) by (rewrite <- Hcells3; apply population_elem_positive, Hc).
    destruct (offsetOf_bounds pop order c Hpos) as [_ H1].
    specialize (H1 (proj1 (Hmember c Hc'))). lia. }
  { intros c c' k. rewrite !Hcells3. intros Hk Hk'.
    apply (offsetOf_disjoint pop order c c' k Hnd2 Hpos);
      [apply Hmember; lia | apply Hmember; lia | lia | lia]. }
  rewrite Hr1, Hr3. split; [| split; [| split]].
  - intros c k Hc Hk. unfold Sort.inRange in Hk.
    destruct (Hfields c Hc) as [E1 E2]. rewrite E1, E2 in Hk.
    destruct (HA c k) as (i & p & Hi & Hrest); [rewrite Hcells3; lia |].
    exists i, p. split; [rewrite <- Hperm; exact Hi | exact Hrest].
  - intros i p Hi Hp. rewrite <- Hperm in Hi.
    destruct (HB i p Hi Hp) as (k & Hk & Hout). cbn zeta in Hk.
    rewrite Hcells3 in Hk. exists k. split; [| exact Hout].
    assert (Hb : Image.inBounds size (Glsl.voxelOf u (position p)) = true)
      by (apply Hmember; lia).
    unfold Sort.inRange. destruct (Hfields _ Hb) as [-> ->]. lia.
  - intros k Hk. rewrite <- (Nat2Z.id k). apply HC; [lia |].
    intros c Hc. rewrite Hcells3 in Hc.
    destruct (offsetOf_bounds pop order c Hpos) as [_ H1].
    specialize (H1 (proj1 (Hmember c ltac:(lia)))). lia.
  - apply step3_dispatch_length.
Qed.



(** ** Pass 5 for arbitrary grids and buffers *)

Section DensityBounds.
Import Step5.
Local Open Scope R_scope.

Lemma vlength_nonneg v : 0 <= V.length v.
Proof. unfold V.length. apply sqrt_pos. Qed.







End DensityBounds.



(** ** Pass 6 for arbitrary grids and buffers *)

Section ForceFacts.
Import Step6.
Local Open Scope R_scope.

Lemma dot_nonneg v : 0 <= V.dot v v.
Proof. unfold V.dot. nra. Qed.




Lemma fold_accumulate_stuck particles particleId p (cands : list Z) :
  fold_left (fun acc j => accumulate particles particleId p j acc) cands None = None.
Proof. induction cands as [| j cands IH]; [reflexivity | exact IH]. Qed.


(** Candidates that are the particle itself, out of the kernel radius or
    within the minimum distance leave the accumulators alone. *)
Lemma fold_accumulate_idle particles particleId p (cands : list Z) acc :
  (forall j, j ∈ cands -> j <> particleId ->
     let rLen := V.length (V.sub (position p)
                             (position (Glsl.fetch particles (Z.to_nat j)))) in
     KERNEL_RADIUS <= rLen \/ rLen <= MIN_DISTANCE) ->
  fold_left (fun acc j => accumulate particles particleId p j acc) cands acc = acc.
Proof.
  induction cands as [| j cands IH]; intros Hidle; [reflexivity |].
  cbn [fold_left].
  assert (E : accumulate particles particleId p j acc = acc).
  { destruct (Z.eq_dec j particleId) as [-> | Hne]; [apply accumulate_skip_self |].
    destruct (Hidle j ltac:(left) Hne) as [Hfar | Hclose].
    - unfold accumulate. destruct acc as [[fp fv] |]; [| reflexivity].
      destruct (Z.eqb j particleId); [reflexivity |]. cbv zeta.
      destruct (Rge_dec _ KERNEL_RADIUS); [reflexivity | lra].
    - apply accumulate_skip_close. exact Hclose. }
  rewrite E. apply IH. intros k Hk. apply Hidle. right. exact Hk.
Qed.

End ForceFacts.



Section FreeFall.
Import Step6.
Local Open Scope R_scope.

(** With both accumulators at zero the acceleration is the gravity vector:
    the density cancels. *)
Lemma gravity_only_acceleration (g : vec3) (rho : R) :
  rho <> 0 ->
  V.divs (V.add (V.add (V.scale V.zero VIS_COEFF) V.zero) (V.scale g rho)) rho = g.
Proof.
  intros Hrho. destruct g as [gx gy gz].
  unfold V.divs, V.add, V.scale, V.zero. cbn [vx vy vz].
  f_equal; field; exact Hrho.
Qed.

End FreeFall.

(** X10 (sph_step6.cs [main]): a particle of non-zero density whose other
    candidates all lie at or beyond the kernel radius, or within the
    minimum distance 0.0001, feels gravity only: whatever its density, its
    velocity becomes v + g * dt, rescaled to length 50 when longer. *)
Theorem isolated_particle_free_fall (u : Uniforms) (grid : Image.uimage3D)
    (particles : list SPHParticleCompute) (i : nat) (p : SPHParticleCompute) (fuel : nat) :
  particles !! i = Some p ->
  density p <> 0%R ->
  (forall j, j ∈ Stencil.candidates grid (uGridRes u) (Glsl.voxelOf u (position p)) ->
     j <> Z.of_nat i ->
     let rLen := V.length (V.sub (position p)
                             (position (Glsl.fetch particles (Z.to_nat j)))) in
     (Step6.KERNEL_RADIUS <= rLen \/ rLen <= Step6.MIN_DISTANCE)%R) ->
  (Stencil.enoughFuel <= fuel)%nat ->
  let velo := V.add (velocity p) (V.scale (uGravity u) (uDT u)) in
  Step6.main fuel u grid particles i
  = Step6.Written
      (<[i := Particle (position p) (density p)
                (if Rgt_dec (V.length velo) 50
                 then V.scale (V.divs velo (V.length velo)) 50 else velo)
                (pressure p)]> particles).
Proof.
  intros Hp Hrho Hidle Hfuel velo. unfold Step6.main. rewrite Hp.
  rewrite walk_candidates by exact Hfuel.
  rewrite (fold_accumulate_idle particles (Z.of_nat i) p _ (Some (V.zero, V.zero)) Hidle).
  unfold Step6.integrateForces.
  rewrite divide_nonzero by exact Hrho.
  rewrite gravity_only_acceleration by exact Hrho.
  reflexivity.
Qed.

Lemma isolated_particle_free_fall_witness :
  let p := Particle (Vec3 (1 / 2) (1 / 2) (1 / 2)) 1 V.zero 0 in
  let velo := V.add (velocity p) (V.scale (uGravity unitBoxUniforms) (uDT unitBoxUniforms)) in
  Step6.main Stencil.enoughFuel unitBoxUniforms (Image.cleared (6, 6, 6)%Z) [p] 0
  = Step6.Written
      (<[0%nat := Particle (position p) (density p)
                    (if Rgt_dec (V.length velo) 50
                     then V.scale (V.divs velo (V.length velo)) 50 else velo)
                    (pressure p)]> [p]).
Proof.
  apply (isolated_particle_free_fall unitBoxUniforms (Image.cleared (6, 6, 6)%Z)
           [Particle (Vec3 (1 / 2) (1 / 2) (1 / 2)) 1 V.zero 0] 0
           (Particle (Vec3 (1 / 2) (1 / 2) (1 / 2)) 1 V.zero 0) Stencil.enoughFuel).
  - reflexivity.
  - simpl. lra.
  - intros j Hj. exfalso. revert Hj.
    unfold Stencil.candidates, Stencil.candidatesFrom.
    assert (Hnone : forall w, Stencil.cellCandidates (Image.imageLoad (Image.cleared (6, 6, 6)%Z) w)
                              = []).
    { intros w. rewrite imageLoad_cleared. reflexivity. }
    intros Hj. apply list_elem_of_In, in_flat_map in Hj as (d & _ & Hd).
    destruct (Stencil.outside _ _); [exact Hd |]. rewrite Hnone in Hd. exact Hd.
  - lia.
Defined.

(** ** The dispatches of passes 5 and 6 *)

Section DensityDispatch.
Import Passes.
Variable fuel : nat.
Variable u : Uniforms.
Variable grid : Image.uimage3D.
Hypothesis Hfuel : (Stencil.enoughFuel <= fuel)%nat.

(** Two buffers that hold the same positions and velocities. *)
Let sameMotion (ps qs : list SPHParticleCompute) : Prop :=
  forall j, (fun q => (position q, velocity q)) <$> ps !! j
            = (fun q => (position q, velocity q)) <$> qs !! j.

(** The record the density pass writes for [p] on the buffer [ps]. *)
Let densityRecord (ps : list SPHParticleCompute) (p : SPHParticleCompute)
    : SPHParticleCompute :=
  let density :=
    fold_left (fun acc j => Step5.accumulate ps p j acc)
      (Stencil.candidates grid (uGridRes u) (Glsl.voxelOf u (position p))) 0%R in
  Particle (position p) density (velocity p)
    (Step5.REST_PRESSURE + Step5.STIFFNESS_K * (density - Step5.REST_DENSITY))%R.

Lemma step5_main_value ps i :
  Step5.main fuel u grid ps i
  = Some (match ps !! i with
          | Some p => <[i := densityRecord ps p]> ps
          | None => ps
          end).
Proof.
  unfold Step5.main. destruct (ps !! i) as [p |]; [| reflexivity].
  rewrite walk_candidates by exact Hfuel. reflexivity.
Qed.

Lemma sameMotion_fetch ps qs j :
  sameMotion ps qs -> position (Glsl.fetch ps j) = position (Glsl.fetch qs j).
Proof.
  intros H. specialize (H j). unfold Glsl.fetch.
  destruct (ps !! j) as [a |], (qs !! j) as [b |]; simpl in H |- *;
    try discriminate; [| reflexivity].
  injection H as Hpos _. exact Hpos.
Qed.

Lemma accumulate_sameMotion ps qs p q j density :
  sameMotion ps qs -> position p = position q ->
  Step5.accumulate ps p j density = Step5.accumulate qs q j density.
Proof.
  intros H Hpq. unfold Step5.accumulate.
  rewrite (sameMotion_fetch ps qs (Z.to_nat j) H), Hpq. reflexivity.
Qed.

Lemma densityRecord_sameMotion ps qs p q :
  sameMotion ps qs -> position p = position q -> velocity p = velocity q ->
  densityRecord ps p = densityRecord qs q.
Proof.
  intros H Hpos Hvel. unfold densityRecord. rewrite Hpos, Hvel.
  assert (E : forall cands d,
            fold_left (fun acc j => Step5.accumulate ps p j acc) cands d
            = fold_left (fun acc j => Step5.accumulate qs q j acc) cands d).
  { induction cands as [| j cands IH]; intros d; [reflexivity |].
    cbn [fold_left]. rewrite (accumulate_sameMotion ps qs p q j d H Hpos). apply IH. }
  rewrite E. reflexivity.
Qed.

(** What one record holds after its invocation alone has run on [ps]. *)
Lemma step5_main_own ps i :
  Step5.main fuel u grid ps i ≫= (fun ps' => ps' !! i) = densityRecord ps <$> ps !! i.
Proof.
  rewrite step5_main_value. cbn [mbind option_bind].
  destruct (ps !! i) as [p |] eqn:Hp; [| rewrite Hp; reflexivity].
  cbn [fmap option_fmap option_map].
  apply list_lookup_insert_eq. apply lookup_lt_Some in Hp. exact Hp.
Qed.

Lemma dispatch5_spec orig schedule : forall ps,
  sameMotion ps orig ->
  exists ps',
    dispatch5 fuel u grid schedule ps = Some ps'
    /\ length ps' = length ps
    /\ forall j, ps' !! j
                 = if decide (j ∈ schedule)
                   then Step5.main fuel u grid orig j ≫= (fun qs => qs !! j)
                   else ps !! j.
Proof.
  induction schedule as [| i schedule IH]; intros ps Hsame.
  - exists ps. split; [reflexivity |]. split; [reflexivity |].
    intros j. destruct (decide (j ∈ [])) as [H | _]; [| reflexivity].
    apply elem_of_nil in H. contradiction.
  - cbn [dispatch5]. rewrite step5_main_value.
    set (ps1 := match ps !! i with
                | Some p => <[i := densityRecord ps p]> ps
                | None => ps
                end).
    assert (Hlen1 : length ps1 = length ps).
    { unfold ps1. destruct (ps !! i); [apply length_insert | reflexivity]. }
    assert (Hown : ps1 !! i = Step5.main fuel u grid orig i ≫= (fun qs => qs !! i)).
    { rewrite step5_main_own. unfold ps1.
      pose proof (Hsame i) as Hi.
      destruct (ps !! i) as [p |] eqn:Hp, (orig !! i) as [q |] eqn:Hq;
        simpl in Hi; try discriminate.
      - injection Hi as Hpos Hvel.
        rewrite list_lookup_insert_eq by (apply lookup_lt_Some in Hp; exact Hp).
        cbn [fmap option_fmap option_map].
        rewrite (densityRecord_sameMotion ps orig p q Hsame Hpos Hvel). reflexivity.
      - rewrite Hp. reflexivity. }
    assert (Hother : forall j, j <> i -> ps1 !! j = ps !! j).
    { intros j Hj. unfold ps1. destruct (ps !! i); [| reflexivity].
      apply list_lookup_insert_ne. congruence. }
    assert (Hsame1 : sameMotion ps1 orig).
    { intros j. destruct (decide (j = i)) as [-> | Hj].
      - rewrite Hown, step5_main_own.
        destruct (orig !! i); reflexivity.
      - rewrite (Hother j Hj). apply Hsame. }
    destruct (IH ps1 Hsame1) as (ps' & Hrun & Hlen & Hlook).
    exists ps'. split; [exact Hrun |]. split; [congruence |].
    intros j. rewrite Hlook.
    destruct (decide (j ∈ schedule)) as [Hin | Hnin].
    + destruct (decide (j ∈ i :: schedule)) as [_ | H]; [reflexivity |].
      exfalso. apply H. right. exact Hin.
    + destruct (decide (j = i)) as [-> | Hj].
      * destruct (decide (i ∈ i :: schedule)) as [_ | H]; [exact Hown |].
        exfalso. apply H. left.
      * destruct (decide (j ∈ i :: schedule)) as [H | _]; [| apply Hother, Hj].
        apply elem_of_cons in H as [H | H]; contradiction.
Qed.

End DensityDispatch.

(** X11 (sph_step5.cs [main], dispatched by [runSimulationPass] case 5):
    the density pass is free of races between invocations.  In whatever
    order the invocations of a dispatch take effect, and however often a
    record is processed, the dispatch terminates, keeps the length of the
    buffer, and leaves in every processed record exactly what its
    invocation alone would have written on the initial buffer; the other
    records are untouched. *)
Theorem density_pass_order_irrelevant (fuel : nat) (u : Uniforms) (grid : Image.uimage3D)
    (schedule schedule' : list nat) (particles : list SPHParticleCompute) :
  (Stencil.enoughFuel <= fuel)%nat ->
  schedule ≡ₚ schedule' ->
  exists particles',
    Passes.dispatch5 fuel u grid schedule particles = Some particles'
    /\ Passes.dispatch5 fuel u grid schedule' particles = Some particles'
    /\ length particles' = length particles
    /\ forall j, particles' !! j
                 = if decide (j ∈ schedule)
                   then Step5.main fuel u grid particles j ≫= (fun qs => qs !! j)
                   else particles !! j.
Proof.
  intros Hfuel Hperm.
  destruct (dispatch5_spec fuel u grid Hfuel particles schedule particles)
    as (ps1 & Hrun1 & Hlen1 & Hlook1); [reflexivity |].
  destruct (dispatch5_spec fuel u grid Hfuel particles schedule' particles)
    as (ps2 & Hrun2 & Hlen2 & Hlook2); [reflexivity |].
  exists ps1. split; [exact Hrun1 |]. split; [| split; [exact Hlen1 | exact Hlook1]].
  rewrite Hrun2. f_equal. apply list_eq. intros j.
  rewrite Hlook1, Hlook2.
  destruct (decide (j ∈ schedule)) as [Hin | Hnin];
    destruct (decide (j ∈ schedule')) as [Hin' | Hnin']; try reflexivity.
  - exfalso. apply Hnin'. rewrite <- Hperm. exact Hin.
  - exfalso. apply Hnin. rewrite Hperm. exact Hin'.
Qed.

Lemma density_pass_order_irrelevant_witness :
  exists particles',
    Passes.dispatch5 Stencil.enoughFuel (sampleUniforms 0) (Image.cleared (10, 10, 10)%Z)
      [0%nat; 1%nat] pair = Some particles'
    /\ Passes.dispatch5 Stencil.enoughFuel (sampleUniforms 0) (Image.cleared (10, 10, 10)%Z)
         [1%nat; 0%nat] pair = Some particles'
    /\ length particles' = length pair
    /\ forall j, particles' !! j
                 = if decide (j ∈ [0%nat; 1%nat])
                   then Step5.main Stencil.enoughFuel (sampleUniforms 0)
                          (Image.cleared (10, 10, 10)%Z) pair j ≫= (fun qs => qs !! j)
                   else pair !! j.
Proof.
  apply (density_pass_order_irrelevant Stencil.enoughFuel (sampleUniforms 0)
           (Image.cleared (10, 10, 10)%Z) [0%nat; 1%nat] [1%nat; 0%nat] pair).
  - lia.
  - apply perm_swap.
Defined.

Section ForceDispatch.
Import Passes.
Local Open Scope R_scope.
Variable fuel : nat.
Variable u : Uniforms.
Variable grid : Image.uimage3D.
Hypothesis Hfuel : (Stencil.enoughFuel <= fuel)%nat.





End ForceDispatch.



(** ** The stencil and the kernel radius *)

Section StencilCoverage.
Local Open Scope R_scope.

Lemma component_le_length (axis : vec3 -> R) v :
  axis = vx \/ axis = vy \/ axis = vz -> Rabs (axis v) <= V.length v.
Proof.
  intros Haxis. pose proof (vlength_nonneg v) as HL.
  assert (HLL : V.length v * V.length v = V.dot v v).
  { unfold V.length. apply sqrt_sqrt, dot_nonneg. }
  assert (Hsq : axis v * axis v <= V.dot v v).
  { unfold V.dot. destruct Haxis as [-> | [-> | ->]]; nra. }
  revert HL HLL Hsq. generalize (V.length v), (V.dot v v), (axis v). intros L D x HL HLL Hsq.
  unfold Rabs. destruct (Rcase_abs x); nra.
Qed.

(** Two non-negative reals less than 1 apart truncate to integers at most 1
    apart. *)
Lemma truncate_adjacent a b :
  0 <= a -> 0 <= b -> Rabs (a - b) < 1 ->
  (-1 <= Glsl.truncate b - Glsl.truncate a <= 1)%Z.
Proof.
  intros Ha Hb Hab. unfold Glsl.truncate.
  destruct (Rle_dec 0 a); [| lra]. destruct (Rle_dec 0 b); [| lra].
  destruct (base_Int_part a) as [A1 A2]. destruct (base_Int_part b) as [B1 B2].
  assert (Hd : -1 < a - b < 1) by (unfold Rabs in Hab; destruct (Rcase_abs (a - b)); lra).
  split.
  - assert (H : -2 < IZR (Int_part b - Int_part a)) by (rewrite minus_IZR; lra).
    apply lt_IZR in H. lia.
  - assert (H : IZR (Int_part b - Int_part a) < 2) by (rewrite minus_IZR; lra).
    apply lt_IZR in H. lia.
Qed.

Lemma stencil_has_offsets (dx dy dz : Z) :
  (-1 <= dx <= 1)%Z -> (-1 <= dy <= 1)%Z -> (-1 <= dz <= 1)%Z ->
  (dx, dy, dz) ∈ Stencil.NEIGHBORHOOD_LUT.
Proof.
  intros Hx Hy Hz.
  assert (Ex : dx = (-1)%Z \/ dx = 0%Z \/ dx = 1%Z) by lia.
  assert (Ey : dy = (-1)%Z \/ dy = 0%Z \/ dy = 1%Z) by lia.
  assert (Ez : dz = (-1)%Z \/ dz = 0%Z \/ dz = 1%Z) by lia.
  apply list_elem_of_In. unfold Stencil.NEIGHBORHOOD_LUT.
  destruct Ex as [-> | [-> | ->]], Ey as [-> | [-> | ->]], Ez as [-> | [-> | ->]];
    cbn [In]; repeat (first [left; reflexivity | right]).
Qed.

(** Positions closer than the kernel radius fall into neighbouring cells
    as soon as no cell is narrower than the kernel radius. *)
Lemma cells_adjacent (u : Uniforms) (p q : vec3) (axis : vec3 -> R) :
  axis = vx \/ axis = vy \/ axis = vz ->
  0 <= axis (uInvCellSize u) -> axis (uInvCellSize u) * Step5.KERNEL_RADIUS <= 1 ->
  axis (uGridOrigin u) <= axis p -> axis (uGridOrigin u) <= axis q ->
  V.length (V.sub p q) < Step5.KERNEL_RADIUS ->
  (-1 <= Glsl.truncate (axis (uInvCellSize u) * axis (V.sub q (uGridOrigin u)))
         - Glsl.truncate (axis (uInvCellSize u) * axis (V.sub p (uGridOrigin u))) <= 1)%Z.
Proof.
  intros Haxis Hinv Hwide Hp Hq Hnear.
  pose proof (component_le_length axis (V.sub p q) Haxis) as Hc.
  assert (Hsub : forall a b, axis (V.sub a b) = axis a - axis b)
    by (intros; destruct Haxis as [-> | [-> | ->]]; reflexivity).
  rewrite Hsub in Hc. rewrite !Hsub.
  revert Hinv Hwide Hp Hq Hc.
  generalize (axis (uInvCellSize u)), (axis (uGridOrigin u)), (axis p), (axis q).
  intros inv o a b Hinv Hwide Hp Hq Hc.
  pose proof KERNEL_RADIUS_pos as Hh.
  apply truncate_adjacent; [nra | nra |].
  assert (Hd : - Step5.KERNEL_RADIUS < a - b < Step5.KERNEL_RADIUS)
    by (unfold Rabs in Hc; destruct (Rcase_abs (a - b)); lra).
  assert (Hscaled : -1 < inv * (a - b) < 1).
  { destruct (Req_dec_T inv 0) as [-> | Hne]; [lra |].
    assert (Hpos : 0 < inv) by lra.
    pose proof (Rmult_lt_compat_l inv (a - b) Step5.KERNEL_RADIUS Hpos ltac:(lra)).
    pose proof (Rmult_lt_compat_l inv (- Step5.KERNEL_RADIUS) (a - b) Hpos ltac:(lra)).
    lra. }
  unfold Rabs. destruct (Rcase_abs (inv * (a - o) - inv * (b - o))); lra.
Qed.

End StencilCoverage.

(** X13 (the neighbour loop of sph_step5.cs and sph_step6.cs): when no
    cell is narrower than the kernel radius (uInvCellSize * 0.1828 <= 1 on
    every axis), two positions at or above the grid origin that are closer
    than the kernel radius lie in cells one of which is in the 27-cell
    stencil of the other; hence a particle stored in the range of its cell
    word is among the candidates the loop of any particle within the kernel
    radius meets. *)
Theorem neighbour_search_complete (u : Uniforms) (p q : vec3) :
  (forall axis : vec3 -> R, axis = vx \/ axis = vy \/ axis = vz ->
     (0 <= axis (uInvCellSize u))%R
     /\ (axis (uInvCellSize u) * Step5.KERNEL_RADIUS <= 1)%R
     /\ (axis (uGridOrigin u) <= axis p)%R /\ (axis (uGridOrigin u) <= axis q)%R) ->
  (V.length (V.sub p q) < Step5.KERNEL_RADIUS)%R ->
  (exists d, d ∈ Stencil.NEIGHBORHOOD_LUT
             /\ Glsl.voxelOf u q = Stencil.addv (Glsl.voxelOf u p) d)
  /\ (forall grid k,
        Stencil.outside (uGridRes u) (Glsl.voxelOf u q) = false ->
        U32.in_range (Image.imageLoad grid (Glsl.voxelOf u q)) ->
        Sort.inRange (Image.imageLoad grid (Glsl.voxelOf u q)) k ->
        k ∈ Stencil.candidates grid (uGridRes u) (Glsl.voxelOf u p)).
Proof.
  intros Haxes Hnear.
  assert (Hadj : exists d, d ∈ Stencil.NEIGHBORHOOD_LUT
                           /\ Glsl.voxelOf u q = Stencil.addv (Glsl.voxelOf u p) d).
  { destruct (Haxes vx (or_introl eq_refl)) as (X1 & X2 & X3 & X4).
    destruct (Haxes vy (or_intror (or_introl eq_refl))) as (Y1 & Y2 & Y3 & Y4).
    destruct (Haxes vz (or_intror (or_intror eq_refl))) as (Z1 & Z2 & Z3 & Z4).
    pose proof (cells_adjacent u p q vx (or_introl eq_refl) X1 X2 X3 X4 Hnear) as Dx.
    pose proof (cells_adjacent u p q vy (or_intror (or_introl eq_refl)) Y1 Y2 Y3 Y4 Hnear)
      as Dy.
    pose proof (cells_adjacent u p q vz (or_intror (or_intror eq_refl)) Z1 Z2 Z3 Z4 Hnear)
      as Dz.
    unfold Glsl.voxelOf.
    set (px := Glsl.truncate (vx (uInvCellSize u) * vx (V.sub p (uGridOrigin u)))) in *.
    set (py := Glsl.truncate (vy (uInvCellSize u) * vy (V.sub p (uGridOrigin u)))) in *.
    set (pz := Glsl.truncate (vz (uInvCellSize u) * vz (V.sub p (uGridOrigin u)))) in *.
    set (qx := Glsl.truncate (vx (uInvCellSize u) * vx (V.sub q (uGridOrigin u)))) in *.
    set (qy := Glsl.truncate (vy (uInvCellSize u) * vy (V.sub q (uGridOrigin u)))) in *.
    set (qz := Glsl.truncate (vz (uInvCellSize u) * vz (V.sub q (uGridOrigin u)))) in *.
    exists ((qx - px)%Z, (qy - py)%Z, (qz - pz)%Z).
    split; [apply stencil_has_offsets; assumption |].
    unfold Stencil.addv. f_equal; [f_equal |]; lia. }
  split; [exact Hadj |].
  intros grid k Hinside Hword Hk. destruct Hadj as (d & Hd & Hcell).
  unfold Stencil.candidates, Stencil.candidatesFrom.
  apply list_elem_of_In, in_flat_map. exists d.
  split; [apply list_elem_of_In; exact Hd |].
  rewrite <- Hcell, Hinside.
  destruct (count_occ_cellCandidates k (Image.imageLoad grid (Glsl.voxelOf u q)) Hword)
    as [Hone _].
  apply (count_occ_In Z.eq_dec). rewrite (Hone Hk). lia.
Qed.

Lemma neighbour_search_complete_witness :
  let u := sampleUniforms 0 in
  let p := Vec3 (1 / 2) (1 / 2) (1 / 2) in
  let q := Vec3 (6 / 10) (1 / 2) (1 / 2) in
  (exists d, d ∈ Stencil.NEIGHBORHOOD_LUT
             /\ Glsl.voxelOf u q = Stencil.addv (Glsl.voxelOf u p) d)
  /\ (forall grid k,
        Stencil.outside (uGridRes u) (Glsl.voxelOf u q) = false ->
        U32.in_range (Image.imageLoad grid (Glsl.voxelOf u q)) ->
        Sort.inRange (Image.imageLoad grid (Glsl.voxelOf u q)) k ->
        k ∈ Stencil.candidates grid (uGridRes u) (Glsl.voxelOf u p)).
Proof.
  apply (neighbour_search_complete (sampleUniforms 0)
           (Vec3 (1 / 2) (1 / 2) (1 / 2)) (Vec3 (6 / 10) (1 / 2) (1 / 2))).
  - intros axis [-> | [-> | ->]]; unfold Step5.KERNEL_RADIUS; simpl; lra.
  - unfold V.length, V.dot, V.sub, Step5.KERNEL_RADIUS. simpl.
    replace ((1 / 2 - 6 / 10) * (1 / 2 - 6 / 10)
             + (1 / 2 - 1 / 2) * (1 / 2 - 1 / 2)
             + (1 / 2 - 1 / 2) * (1 / 2 - 1 / 2))%R
      with (Rsqr (1 / 10)) by (unfold Rsqr; field).
    rewrite sqrt_Rsqr by lra. lra.
Defined.

Section NarrowCells.
Local Open Scope R_scope.

Lemma vlength_along_x (d y z : R) :
  V.length (V.sub (Vec3 (d + 0) y z) (Vec3 0 y z)) = Rabs d.
Proof.
  unfold V.length, V.dot, V.sub. cbn [vx vy vz].
  replace ((d + 0 - 0) * (d + 0 - 0) + (y - y) * (y - y) + (z - z) * (z - z))
    with (Rsqr d) by (unfold Rsqr; ring).
  apply sqrt_Rsqr_abs.
Qed.

Lemma stencil_lacks_two : (2, 0, 0)%Z ∉ Stencil.NEIGHBORHOOD_LUT.
Proof.
  intros H. apply list_elem_of_In in H. unfold Stencil.NEIGHBORHOOD_LUT in H.
  cbn [In] in H. repeat (destruct H as [H | H]; [discriminate |]). exact H.
Qed.

(** A margin that keeps two scaled coordinates one cell and a bit apart. *)
Lemma narrow_margin (e : R) : 0 < e -> exists eps, 0 < eps < 1 / 4 /\ 2 * eps < e.
Proof.
  intros He. destruct (Rle_dec (1 / 2) e).
  - exists (1 / 8). lra.
  - exists (e / 4). lra.
Qed.

End NarrowCells.

(** X14 (the neighbour loop of sph_step5.cs and sph_step6.cs, with
    [invCellSize] of [runSimulationPass]): the condition of X13 is needed.
    When a cell is narrower than the kernel radius along x
    (uInvCellSize.x * 0.1828 > 1), then next to every cell column n there
    are two positions closer than the kernel radius, equal in y and z, whose
    cells lie two apart along x, so that the stencil of one does not
    contain the cell of the other. *)
Theorem narrow_cells_miss_neighbours (u : Uniforms) (n : Z) (y z : R) :
  (0 < vx (uInvCellSize u))%R ->
  (1 < vx (uInvCellSize u) * Step5.KERNEL_RADIUS)%R ->
  (0 <= n)%Z ->
  exists px qx : R,
    let p := Vec3 px y z in
    let q := Vec3 qx y z in
    (V.length (V.sub q p) < Step5.KERNEL_RADIUS)%R
    /\ fst (fst (Glsl.voxelOf u p)) = n
    /\ Glsl.voxelOf u q = Stencil.addv (Glsl.voxelOf u p) (2, 0, 0)%Z
    /\ forall d, d ∈ Stencil.NEIGHBORHOOD_LUT ->
         Stencil.addv (Glsl.voxelOf u p) d <> Glsl.voxelOf u q.
Proof.
  intros Hinv Hnarrow Hn.
  set (inv := vx (uInvCellSize u)) in *. set (o := vx (uGridOrigin u)).
  destruct (narrow_margin (inv * Step5.KERNEL_RADIUS - 1) ltac:(lra)) as (eps & Heps & Hsmall).
  set (px := (o + (IZR n + 1 - eps) / inv)%R).
  set (qx := (o + (IZR n + 2 + eps) / inv)%R).
  exists px, qx. cbv zeta.
  assert (Hn0 : (0 <= IZR n)%R) by (apply IZR_le; exact Hn).
  assert (Hp : Glsl.truncate (inv * (px - o)) = n).
  { apply truncate_between; [exact Hn |].
    replace (inv * (px - o))%R with (IZR n + 1 - eps)%R by (unfold px; field; lra). lra. }
  assert (Hq : Glsl.truncate (inv * (qx - o)) = (n + 2)%Z).
  { apply truncate_between; [lia |]. rewrite plus_IZR.
    replace (inv * (qx - o))%R with (IZR n + 2 + eps)%R by (unfold qx; field; lra). lra. }
  assert (Hcell : Glsl.voxelOf u (Vec3 qx y z)
                  = Stencil.addv (Glsl.voxelOf u (Vec3 px y z)) (2, 0, 0)%Z).
  { unfold Glsl.voxelOf, Stencil.addv, V.sub. cbn [vx vy vz]. fold inv o.
    rewrite Hp, Hq, !Z.add_0_r. reflexivity. }
  split; [| split; [| split]].
  - replace (V.sub (Vec3 qx y z) (Vec3 px y z))
      with (V.sub (Vec3 ((qx - px) + 0) y z) (Vec3 0 y z))
      by (unfold V.sub; cbn [vx vy vz]; f_equal; ring).
    rewrite vlength_along_x.
    replace (qx - px)%R with ((1 + 2 * eps) / inv)%R by (unfold px, qx; field; lra).
    assert (Hpos : (0 < (1 + 2 * eps) / inv)%R).
    { apply Rdiv_lt_0_compat; lra. }
    rewrite Rabs_pos_eq by lra.
    apply (Rmult_lt_reg_r inv); [exact Hinv |].
    unfold Rdiv. rewrite Rmult_assoc, Rinv_l by lra. lra.
  - unfold Glsl.voxelOf, V.sub. cbn [vx vy vz fst]. fold inv o. exact Hp.
  - exact Hcell.
  - intros d Hd E. rewrite Hcell in E.
    destruct (Glsl.voxelOf u (Vec3 px y z)) as [[cx cy] cz].
    destruct d as [[dx dy] dz]. unfold Stencil.addv in E.
    injection E as Ex Ey Ez.
    assert (dx = 2%Z /\ dy = 0%Z /\ dz = 0%Z) as (-> & -> & ->) by lia.
    exact (stencil_lacks_two Hd).
Qed.

Section DefaultBox.
Local Open Scope R_scope.

(** The box of [SimulationManager::initializeSPHCompute]: 55 cells per
    axis, each 10 / (55 * 0.999) wide. *)
Lemma default_box_resolution :
  Glsl.truncate ((5 - -5) / SPHConstants.CELL_SIZE + 1) = 55%Z.
Proof.
  apply truncate_between; [lia |].
  unfold SPHConstants.CELL_SIZE, SPHConstants.PARTICLE_RADIUS.
  replace ((5 - -5) / (457 / 10000 * 4) + 1) with (25457 / 457) by field.
  split.
  - apply (Rmult_le_reg_r 457); [lra |]. unfold Rdiv. rewrite Rmult_assoc, Rinv_l by lra. lra.
  - apply (Rmult_lt_reg_r 457); [lra |]. unfold Rdiv. rewrite Rmult_assoc, Rinv_l by lra. lra.
Qed.

Lemma default_box_invCellSize gravity s :
  Host.boxMin_ s = Vec3 (-5) (-5) (-5) -> Host.boxMax_ s = Vec3 5 5 5 ->
  vx (uInvCellSize (HostGrid.uniforms gravity s)) = 55 * (1 - 1 / 1000) / (5 - -5).
Proof.
  intros Hmin Hmax.
  unfold HostGrid.uniforms, HostGrid.invCellSize, HostGrid.gridRes, HostGrid.gridSize.
  rewrite Hmin, Hmax. unfold V.sub. cbn [uInvCellSize vx vy vz].
  rewrite default_box_resolution. reflexivity.
Qed.

End DefaultBox.

Lemma narrow_cells_miss_neighbours_witness :
  let s := Host.initialize 100000 (Vec3 (-5) (-5) (-5)) (Vec3 5 5 5) Glsl.zeroParticle []
             (Host.constructed 1) in
  let u := HostGrid.uniforms (Vec3 0 (- (981 / 100)) 0) s in
  exists px qx : R,
    let p := Vec3 px 0 0 in
    let q := Vec3 qx 0 0 in
    (V.length (V.sub q p) < Step5.KERNEL_RADIUS)%R
    /\ fst (fst (Glsl.voxelOf u p)) = 27%Z
    /\ Glsl.voxelOf u q = Stencil.addv (Glsl.voxelOf u p) (2, 0, 0)%Z
    /\ forall d, d ∈ Stencil.NEIGHBORHOOD_LUT ->
         Stencil.addv (Glsl.voxelOf u p) d <> Glsl.voxelOf u q.
Proof.
  apply (narrow_cells_miss_neighbours
           (HostGrid.uniforms (Vec3 0 (- (981 / 100)) 0)
              (Host.initialize 100000 (Vec3 (-5) (-5) (-5)) (Vec3 5 5 5) Glsl.zeroParticle []
                 (Host.constructed 1)))
           27 0 0).
  - rewrite default_box_invCellSize by reflexivity. lra.
  - rewrite default_box_invCellSize by reflexivity. unfold Step5.KERNEL_RADIUS. lra.
  - lia.
Defined.

(** ** The host: adding particles *)

Section HostUploads.
Import Host.
Local Open Scope Z_scope.

Lemma bufferSubData_inside (offset : Z) (data buf : list SPHParticleCompute) :
  0 <= offset -> offset + Z.of_nat (length data) <= Z.of_nat (length buf) ->
  bufferSubData offset data buf
  = take (Z.to_nat offset) buf ++ data ++ drop (Z.to_nat offset + length data) buf.
Proof.
  intros H0 Hfit. unfold bufferSubData.
  destruct (0 <=? offset) eqn:E1; [| lia].
  destruct (offset + Z.of_nat (length data) <=? Z.of_nat (length buf)) eqn:E2; [| lia].
  reflexivity.
Qed.


(** The common tail of [addParticles]: the upload of [k] records that fit
    behind the [numParticles_] records in use. *)
Lemma upload_spec (fp fv : list vec3) s :
  length fp = length fv ->
  0 <= numParticles_ s ->
  numParticles_ s + Z.of_nat (length fp) <= maxParticles_ s ->
  maxParticles_ s < U32.modulus ->
  Z.of_nat (length (currentParticles s)) = maxParticles_ s ->
  let s' :=
    set_numParticles (U32.add (numParticles_ s) (U32.wrap32 (Z.of_nat (length fp))))
      (uploadCurrent (numParticles_ s) (zip_with newParticle fp fv) s) in
  numParticles_ s' = numParticles_ s + Z.of_nat (length fp)
  /\ currentParticles s'
     = take (Z.to_nat (numParticles_ s)) (currentParticles s)
       ++ zip_with newParticle fp fv
       ++ drop (Z.to_nat (numParticles_ s) + length fp) (currentParticles s).
Proof.
  intros Hlen H0 Hfit Hmax Hbuf s'. split.
  - subst s'. cbn [numParticles_ set_numParticles]. unfold U32.add.
    rewrite (wrap32_small (Z.of_nat (length fp))) by (unfold U32.in_range; lia).
    apply wrap32_small. unfold U32.in_range. lia.
  - subst s'.
    change (currentParticles (set_numParticles ?n ?x)) with (currentParticles x).
    rewrite currentParticles_uploadCurrent.
    rewrite bufferSubData_inside; rewrite ?length_zip_with_l_eq by exact Hlen;
      [reflexivity | exact H0 | lia].
Qed.

End HostUploads.

(** X15 ([SPHComputeSystem::addParticles], the request fits): the new
    records are written behind the particles in use, in the order of the
    arrays, each with the rest density 998.27 and pressure 0; the count
    grows by the length of the arrays, and the particles in use and the
    records behind the new ones are untouched. *)
Theorem addParticles_appends (positions velocities : list vec3) (s : Host.System) :
  length positions = length velocities ->
  (0 <= Host.numParticles_ s)%Z ->
  (Host.numParticles_ s + Z.of_nat (length positions) <= Host.maxParticles_ s)%Z ->
  (Host.maxParticles_ s < U32.modulus)%Z ->
  Z.of_nat (length (Host.currentParticles s)) = Host.maxParticles_ s ->
  let n := Z.to_nat (Host.numParticles_ s) in
  let s' := Host.addParticles positions velocities s in
  Host.numParticles_ s' = (Host.numParticles_ s + Z.of_nat (length positions))%Z
  /\ Host.currentParticles s'
     = take n (Host.currentParticles s)
       ++ zip_with Host.newParticle positions velocities
       ++ drop (n + length positions) (Host.currentParticles s)
  /\ (forall i p v, positions !! i = Some p -> velocities !! i = Some v ->
        Host.currentParticles s' !! (n + i)%nat
        = Some (Particle p (99827 / 100) v 0))
  /\ (forall j, (j < n)%nat ->
        Host.currentParticles s' !! j = Host.currentParticles s !! j).
Proof.
  intros Hlen H0 Hfit Hmax Hbuf n s'.
  destruct (upload_spec positions velocities s Hlen H0 Hfit Hmax Hbuf) as [Hnum Hcur].
  assert (Hs' : s' = Host.set_numParticles
                       (U32.add (Host.numParticles_ s)
                          (U32.wrap32 (Z.of_nat (length positions))))
                       (Host.uploadCurrent (Host.numParticles_ s)
                          (zip_with Host.newParticle positions velocities) s)).
  { subst s'. unfold Host.addParticles.
    rewrite Hlen, Nat.eqb_refl. cbn [negb]. rewrite <- Hlen.
    destruct (Z.gtb_spec (Host.numParticles_ s + Z.of_nat (length positions))
                (Host.maxParticles_ s)) as [Hc | _]; [lia | reflexivity]. }
  rewrite Hs'. fold n in Hcur.
  assert (Hn : length (take n (Host.currentParticles s)) = n).
  { rewrite length_take. lia. }
  split; [exact Hnum |]. split; [exact Hcur |]. split.
  - intros i p v Hp Hv. rewrite Hcur.
    rewrite lookup_app_r by lia. rewrite Hn.
    replace (n + i - n)%nat with i by lia.
    rewrite lookup_app_l.
    + rewrite lookup_zip_with, Hp, Hv. reflexivity.
    + rewrite length_zip_with_l_eq by exact Hlen. apply lookup_lt_Some in Hp. exact Hp.
  - intros j Hj. rewrite Hcur. rewrite lookup_app_l by lia.
    apply lookup_take_lt. exact Hj.
Qed.

Lemma addParticles_appends_witness :
  let s := Host.initialize 1000 V.zero V.zero Glsl.zeroParticle [] (Host.constructed 1) in
  let positions := [Vec3 1 2 3; Vec3 4 5 6] in
  let velocities := [V.zero; Vec3 0 1 0] in
  let n := Z.to_nat (Host.numParticles_ s) in
  let s' := Host.addParticles positions velocities s in
  Host.numParticles_ s' = (Host.numParticles_ s + Z.of_nat (length positions))%Z
  /\ Host.currentParticles s'
     = take n (Host.currentParticles s)
       ++ zip_with Host.newParticle positions velocities
       ++ drop (n + length positions) (Host.currentParticles s)
  /\ (forall i p v, positions !! i = Some p -> velocities !! i = Some v ->
        Host.currentParticles s' !! (n + i)%nat
        = Some (Particle p (99827 / 100) v 0))
  /\ (forall j, (j < n)%nat ->
        Host.currentParticles s' !! j = Host.currentParticles s !! j).
Proof.
  apply (addParticles_appends [Vec3 1 2 3; Vec3 4 5 6] [V.zero; Vec3 0 1 0]
           (Host.initialize 1000 V.zero V.zero Glsl.zeroParticle [] (Host.constructed 1))).
  - reflexivity.
  - vm_compute. discriminate.
  - vm_compute. discriminate.
  - vm_compute. reflexivity.
  - vm_compute. reflexivity.
Defined.



(** ** The host: what a substep does to the members *)

Section SubstepMembers.
Import Host.
Local Open Scope Z_scope.

(** The members a pass can change, apart from the log of GL calls. *)
Let control (s : System) :=
  (simStepProgram_ s, currentBuffer_ s, sphereActive_ s, sphereImpulse_ s,
   spherePosition_ s, sphereRadius_ s).

Lemma control_log_call c s : control (log_call c s) = control s.
Proof. reflexivity. Qed.

Lemma control_pass_other pass s :
  pass <> 1 -> pass <> 3 -> control (runSimulationPass pass s) = control s.
Proof.
  intros H1 H3. unfold runSimulationPass.
  destruct (simStepProgram_ (log_call (RunSimulationPass pass) s) pass =? 0);
    [reflexivity |].
  destruct (Z.eqb_spec pass 1); [contradiction |].
  destruct (Z.eqb_spec pass 3); [contradiction | reflexivity].
Qed.

Lemma control_pass1 s :
  control (runSimulationPass 1 s)
  = (simStepProgram_ s, currentBuffer_ s,
     (if simStepProgram_ s 1 =? 0 then sphereActive_ s else false),
     (if simStepProgram_ s 1 =? 0 then sphereImpulse_ s
      else if sphereActive_ s then V.zero else sphereImpulse_ s),
     spherePosition_ s, sphereRadius_ s).
Proof.
  unfold runSimulationPass. cbn [simStepProgram_ log_call].
  destruct (simStepProgram_ s 1 =? 0); [reflexivity |].
  cbn [Z.eqb Pos.eqb].
  change (sphereActive_ (log_call (RunSimulationPass 1) s)) with (sphereActive_ s).
  destruct (sphereActive_ s) eqn:E.
  - reflexivity.
  - unfold control. cbn. rewrite E. reflexivity.
Qed.

Lemma control_pass3 s :
  control (runSimulationPass 3 s)
  = (simStepProgram_ s,
     (if simStepProgram_ s 3 =? 0 then currentBuffer_ s else 1 - currentBuffer_ s),
     sphereActive_ s, sphereImpulse_ s, spherePosition_ s, sphereRadius_ s).
Proof.
  unfold runSimulationPass. cbn [simStepProgram_ log_call].
  destruct (simStepProgram_ s 3 =? 0); reflexivity.
Qed.

Lemma control_substep s :
  control (substep s)
  = (simStepProgram_ s,
     (if simStepProgram_ s 3 =? 0 then currentBuffer_ s else 1 - currentBuffer_ s),
     (if simStepProgram_ s 1 =? 0 then sphereActive_ s else false),
     (if simStepProgram_ s 1 =? 0 then sphereImpulse_ s
      else if sphereActive_ s then V.zero else sphereImpulse_ s),
     spherePosition_ s, sphereRadius_ s).
Proof.
  unfold substep. cbv zeta.
  rewrite !control_pass_other by lia.
  rewrite control_pass3.
  pose proof (control_pass_other 2 (runSimulationPass 1 (log_call ClearTexImage s))
                ltac:(lia) ltac:(lia)) as H2.
  pose proof (control_pass1 (log_call ClearTexImage s)) as H1.
  revert H2 H1. generalize (runSimulationPass 1 (log_call ClearTexImage s)). intros t1.
  generalize (runSimulationPass 2 t1). intros t2 H2 H1.
  unfold control in H2, H1. cbn [simStepProgram_ currentBuffer_ sphereActive_
    sphereImpulse_ spherePosition_ sphereRadius_ log_call] in H1.
  injection H2 as -> -> -> -> -> ->. injection H1 as -> -> -> -> -> ->.
  reflexivity.
Qed.

Lemma loopBody_unfold s :
  loopBody s
  = set_accumulatedTime (F32.sub (accumulatedTime_ (substep s)) SPHConstants.DT_f32) (substep s).
Proof. reflexivity. Qed.

Lemma control_loopBody s : control (loopBody s) = control (substep s).
Proof.
  pose proof (loopBody_unfold s) as H. revert H.
  generalize (loopBody s), (substep s). intros l t ->. reflexivity.
Qed.

(** The components of [control_substep] for a loop body. *)
Lemma loopBody_members s :
  simStepProgram_ (loopBody s) = simStepProgram_ s
  /\ currentBuffer_ (loopBody s)
     = (if simStepProgram_ s 3 =? 0 then currentBuffer_ s else 1 - currentBuffer_ s)
  /\ sphereActive_ (loopBody s)
     = (if simStepProgram_ s 1 =? 0 then sphereActive_ s else false)
  /\ sphereImpulse_ (loopBody s)
     = (if simStepProgram_ s 1 =? 0 then sphereImpulse_ s
        else if sphereActive_ s then V.zero else sphereImpulse_ s)
  /\ spherePosition_ (loopBody s) = spherePosition_ s
  /\ sphereRadius_ (loopBody s) = sphereRadius_ s.
Proof.
  pose proof (control_substep s) as H. pose proof (control_loopBody s) as H'.
  revert H H'. generalize (loopBody s), (substep s). intros l t H H'.
  rewrite H in H'. unfold control in H'. injection H' as H1 H2 H3 H4 H5 H6.
  repeat split; assumption.
Qed.

End SubstepMembers.

Section SubstepIteration.
Import Host.
Local Open Scope Z_scope.

Lemma iter_loopBody_members k s :
  simStepProgram_ (Nat.iter k loopBody s) = simStepProgram_ s
  /\ spherePosition_ (Nat.iter k loopBody s) = spherePosition_ s
  /\ sphereRadius_ (Nat.iter k loopBody s) = sphereRadius_ s.
Proof.
  induction k as [| k IH]; [auto |].
  change (Nat.iter (S k) loopBody s) with (loopBody (Nat.iter k loopBody s)).
  destruct (loopBody_members (Nat.iter k loopBody s)) as (-> & _ & _ & _ & -> & ->).
  exact IH.
Qed.

(** Once the first pass of a substep has run, no request is pending. *)
Lemma iter_loopBody_sphere k s :
  simStepProgram_ s 1 <> 0 ->
  sphereActive_ (Nat.iter (S k) loopBody s) = false
  /\ sphereImpulse_ (Nat.iter (S k) loopBody s)
     = (if sphereActive_ s then V.zero else sphereImpulse_ s).
Proof.
  intros Hprog. induction k as [| k IH].
  - change (Nat.iter 1 loopBody s) with (loopBody s).
    destruct (loopBody_members s) as (_ & _ & -> & -> & _ & _).
    destruct (Z.eqb_spec (simStepProgram_ s 1) 0); [contradiction | auto].
  - change (Nat.iter (S (S k)) loopBody s) with (loopBody (Nat.iter (S k) loopBody s)).
    destruct (loopBody_members (Nat.iter (S k) loopBody s)) as (_ & _ & -> & -> & _ & _).
    destruct (iter_loopBody_members (S k) s) as (-> & _ & _).
    destruct IH as [-> ->].
    destruct (Z.eqb_spec (simStepProgram_ s 1) 0); [contradiction | auto].
Qed.

Lemma iter_loopBody_buffer k s :
  simStepProgram_ s 3 <> 0 ->
  currentBuffer_ (Nat.iter k loopBody s)
  = if Nat.even k then currentBuffer_ s else 1 - currentBuffer_ s.
Proof.
  intros Hprog. induction k as [| k IH]; [reflexivity |].
  change (Nat.iter (S k) loopBody s) with (loopBody (Nat.iter k loopBody s)).
  destruct (loopBody_members (Nat.iter k loopBody s)) as (_ & -> & _).
  destruct (iter_loopBody_members k s) as (-> & _ & _).
  destruct (Z.eqb_spec (simStepProgram_ s 3) 0); [contradiction |].
  rewrite IH, Nat.even_succ, <- Nat.negb_even.
  destruct (Nat.even k); cbn [negb]; lia.
Qed.

End SubstepIteration.

(** X17 ([SPHComputeSystem::applyImpulse] and case 1 of
    [runSimulationPass]): an impulse request is applied by one substep
    only.  With the step-1 program loaded, the uniforms of the first
    substep after [applyImpulse] carry the request (uSphereActive = 1 and
    the impulse), and the uniforms of every later substep carry
    uSphereActive = 0 and a zero impulse, with the position and radius of
    the request still in place. *)
Theorem impulse_is_one_shot (gravity p i : vec3) (r : R) (s : Host.System) (k : nat) :
  Host.simStepProgram_ s 1 <> 0%Z ->
  let u := HostGrid.uniforms gravity (Nat.iter k Host.loopBody (Host.applyImpulse p i r s)) in
  uSphereActive u = (if Nat.eqb k 0 then 1 else 0)%Z
  /\ uSphereImpulse u = (if Nat.eqb k 0 then i else V.zero)
  /\ uSpherePosition u = p
  /\ uSphereRadius u = r.
Proof.
  intros Hprog u. subst u. unfold HostGrid.uniforms.
  cbn [uSphereActive uSphereImpulse uSpherePosition uSphereRadius].
  destruct (iter_loopBody_members k (Host.applyImpulse p i r s)) as (_ & -> & ->).
  destruct k as [| k].
  - cbn. auto.
  - destruct (iter_loopBody_sphere k (Host.applyImpulse p i r s) Hprog) as [-> ->].
    cbn. auto.
Qed.

Lemma impulse_is_one_shot_witness :
  let u := HostGrid.uniforms V.zero
             (Nat.iter 2 Host.loopBody
                (Host.applyImpulse (Vec3 1 2 3) (Vec3 0 5 0) 1 (Host.constructed 1))) in
  uSphereActive u = (if Nat.eqb 2 0 then 1 else 0)%Z
  /\ uSphereImpulse u = (if Nat.eqb 2 0 then Vec3 0 5 0 else V.zero)
  /\ uSpherePosition u = Vec3 1 2 3
  /\ uSphereRadius u = 1%R.
Proof.
  apply (impulse_is_one_shot V.zero (Vec3 1 2 3) (Vec3 0 5 0) 1 (Host.constructed 1) 2).
  simpl. lia.
Defined.

(** X18 (case 3 of [runSimulationPass] and [swapBuffers]): with the step-3
    program loaded every substep exchanges the roles of the two particle
    buffers, so after an even number of substeps the current buffer is the
    one it was, after an odd number the other one, and the index stays 0 or
    1. *)
Theorem substeps_alternate_buffers (s : Host.System) (k : nat) :
  Host.simStepProgram_ s 3 <> 0%Z ->
  Host.currentBuffer_ s = 0%Z \/ Host.currentBuffer_ s = 1%Z ->
  let s' := Nat.iter k Host.loopBody s in
  Host.currentBuffer_ s' = ((Host.currentBuffer_ s + Z.of_nat k) mod 2)%Z
  /\ (Host.currentBuffer_ s' = 0%Z \/ Host.currentBuffer_ s' = 1%Z)
  /\ (Host.currentBuffer_ s' = Host.currentBuffer_ s <-> Nat.even k = true).
Proof.
  intros Hprog Hcur s'. subst s'. rewrite (iter_loopBody_buffer k s Hprog).
  destruct (Nat.even k) eqn:Heven.
  - apply Nat.even_spec in Heven as [m ->].
    replace (Host.currentBuffer_ s + Z.of_nat (2 * m))%Z
      with (Host.currentBuffer_ s + Z.of_nat m * 2)%Z by lia.
    rewrite Z.mod_add by lia.
    split; [destruct Hcur as [-> | ->]; reflexivity |]. split; [exact Hcur |]. tauto.
  - assert (Hodd : Nat.odd k = true) by (rewrite <- Nat.negb_even, Heven; reflexivity).
    apply Nat.odd_spec in Hodd as [m ->].
    replace (Host.currentBuffer_ s + Z.of_nat (2 * m + 1))%Z
      with (Host.currentBuffer_ s + 1 + Z.of_nat m * 2)%Z by lia.
    rewrite Z.mod_add by lia.
    split; [destruct Hcur as [-> | ->]; reflexivity |].
    split; [lia |]. split; [lia | discriminate].
Qed.

Lemma substeps_alternate_buffers_witness :
  let s' := Nat.iter 3 Host.loopBody (Host.constructed 1) in
  Host.currentBuffer_ s' = ((Host.currentBuffer_ (Host.constructed 1) + Z.of_nat 3) mod 2)%Z
  /\ (Host.currentBuffer_ s' = 0%Z \/ Host.currentBuffer_ s' = 1%Z)
  /\ (Host.currentBuffer_ s' = Host.currentBuffer_ (Host.constructed 1)
      <-> Nat.even 3 = true).
Proof.
  apply (substeps_alternate_buffers (Host.constructed 1) 3).
  - simpl. lia.
  - left. reflexivity.
Defined.

(** ** The host: an absorbed step *)

(** X19 ([SPHComputeSystem::update]): when deltaTime brings the binary32
    accumulator above 32768, or to +infinity, [update] does not return on a
    system with particles.  The step 0.0012f is below half the spacing of
    the floats there, so the loop test passes, the subtraction of the step
    gives the accumulator back, and the loop is still running after any
    number of iterations. *)
Theorem update_absorbed_step_never_returns (deltaTime : F32.float) (s : Host.System) :
  Host.numParticles_ s <> 0%Z ->
  let total := F32.add (Host.accumulatedTime_ s) deltaTime in
  F32.valid total = true ->
  total = S754_infinity false \/ (32768 < F32.toR total)%R ->
  F32.geb total SPHConstants.DT_f32 = true
  /\ F32.sub total SPHConstants.DT_f32 = total
  /\ forall fuel, Host.update fuel deltaTime s = None.
Proof.
  intros Hnum total Hvalid Habove.
  destruct (absorbed_above_32768 total Hvalid Habove) as [Hgo Hsame].
  split; [exact Hgo |]. split; [exact Hsame |].
  intros fuel. unfold Host.update.
  destruct (Z.eqb_spec (Host.numParticles_ s) 0) as [E | _]; [contradiction |].
  apply update_loop_absorbed; assumption.
Qed.

Lemma update_absorbed_step_never_returns_witness :
  let s := Host.set_numParticles 1 (Host.constructed 1) in
  let total := F32.add (Host.accumulatedTime_ s) f32_40000 in
  F32.geb total SPHConstants.DT_f32 = true
  /\ F32.sub total SPHConstants.DT_f32 = total
  /\ forall fuel, Host.update fuel f32_40000 s = None.
Proof.
  intros s.
  apply (update_absorbed_step_never_returns f32_40000 s).
  - simpl. lia.
  - vm_compute. reflexivity.
  - right. change (32768 < F32.toR f32_40000)%R.
    unfold f32_40000. rewrite toR_finite. change (2 ^ 8)%Z with 256%Z. lra.
Defined.

(** ** The grid search against the search over all particles *)

Section CandidateFacts.
Import Image Sort Stencil.
Local Open Scope Z_scope.
Variable grid : uimage3D.
Variable res : ivec3.
Variable voxelId : ivec3.

Hypothesis words_fit : forall c,
  outside res c = false -> U32.in_range (imageLoad grid c).
Hypothesis ranges_disjoint : forall c c' i,
  outside res c = false -> outside res c' = false ->
  inRange (imageLoad grid c) i -> inRange (imageLoad grid c') i -> c = c'.

Lemma addv_inj d d' : addv voxelId d = addv voxelId d' -> d = d'.
Proof.
  destruct voxelId as [[x y] z], d as [[dx dy] dz], d' as [[ex ey] ez].
  unfold addv. intros E. injection E as Ex Ey Ez. f_equal; [f_equal |]; lia.
Qed.






End CandidateFacts.

Section BruteForce.
Import Step5.
Local Open Scope R_scope.
Variable particles : list SPHParticleCompute.
Variable p : SPHParticleCompute.









End BruteForce.

Section GridDensity.
Local Open Scope R_scope.



End GridDensity.


Section SortedPipeline.
Import Image Sort.
Local Open Scope Z_scope.

Lemma outside_inBounds res c : Stencil.outside res c = negb (inBounds res c).
Proof.
  destruct res as [[rx ry] rz], c as [[x y] z]. unfold Stencil.outside, inBounds.
  rewrite (Z.ltb_antisym 0 x), (Z.ltb_antisym 0 y), (Z.ltb_antisym 0 z).
  rewrite (Z.leb_antisym x rx), (Z.leb_antisym y ry), (Z.leb_antisym z rz).
  destruct (0 <=? x), (0 <=? y), (0 <=? z), (x <? rx), (y <? ry), (z <? rz); reflexivity.
Qed.

(** The grid and the output buffer after pass 3: the cell ranges are
    disjoint and lie below N, and every slot below N holds an integrated
    particle in the range of its own cell. *)
Lemma buildGrid_sorted (u : Uniforms) (size : ivec3)
    (schedule1 : list nat) (schedule2 : list (list ivec3)) (schedule3 : list nat)
    (particles outParticles : list SPHParticleCompute) :
  NoDup schedule1 -> schedule3 ≡ₚ schedule1 -> Step2.validSchedule size schedule2 ->
  let cells := integratedCells u particles schedule1 in
  let N := length cells in
  (forall c, c ∈ cells -> inBounds size c = true) ->
  (forall c, population cells c <= 255) ->
  Z.of_nat N < 2 ^ 24 ->
  (N <= length outParticles)%nat ->
  let r := buildGrid u size schedule1 schedule2 schedule3 particles outParticles in
  let sorted := snd (fst r) in
  let word c := imageLoad (snd r) c in
  (forall c, inBounds size c = true ->
     U32.in_range (word c)
     /\ forall k, inRange (word c) k -> 0 <= k < Z.of_nat N)
  /\ (forall c c' k, inBounds size c = true -> inBounds size c' = true ->
        inRange (word c) k -> inRange (word c') k -> c = c')
  /\ (forall k, (k < N)%nat ->
        exists c p0,
          inBounds size c = true /\ inRange (word c) (Z.of_nat k)
          /\ sorted !! k = Some (Step1.integrate u p0)
          /\ Glsl.voxelOf u (position (Step1.integrate u p0)) = c).
Proof.
  intros Hnd1 Hperm Hvalid cells N Hin Hcap HN Hroom r sorted word.
  pose proof (buildGrid_words u size schedule1 schedule2 schedule3 particles outParticles
                Hnd1 Hperm Hvalid Hin HN) as Hword.
  destruct (buildGrid_scatter u size schedule1 schedule2 schedule3 particles outParticles
              Hnd1 Hperm Hvalid Hin Hcap HN Hroom) as (Hslots & _).
  destruct (buildGrid_before_scatter u size schedule1 schedule2 schedule3 particles
              outParticles Hnd1 Hvalid Hin HN) as (ps1 & grid2 & Hr & _ & Hbuf1 & _).
  fold cells r in Hword, Hslots. fold r in Hr.
  destruct Hvalid as [Hnd2 Hcover].
  set (order := concat schedule2) in *.
  set (pop := population cells) in *.
  assert (Hmod := modulus_value). change (2 ^ 24) with 16777216 in HN.
  assert (Hpos : forall c, c ∈ order -> 0 <= pop c) by (intros; apply population_nonneg).
  assert (Hpn : forall c, 0 <= pop c) by (intros; apply population_nonneg).
  assert (Htotal : total pop order = Z.of_nat N).
  { apply total_population; [exact Hnd2 |]. intros c Hc. apply Hcover, Hin, Hc. }
  assert (Hoff : forall c, 0 <= offsetOf pop order c <= Z.of_nat N).
  { intros c. pose proof (offsetOf_le_total pop order c Hpos).
    destruct (offsetOf_bounds pop order c Hpos) as [H0 _]. lia. }
  assert (Hfields : forall c, inBounds size c = true ->
            cellOffset (word c) = offsetOf pop order c /\ cellCount (word c) = pop c).
  { intros c Hc. unfold word. rewrite (Hword c Hc).
    specialize (Hcap c). specialize (Hpn c).
    split; [apply cellOffset_pack | apply cellCount_pack]; lia. }
  split; [| split].
  - intros c Hc. split.
    + unfold word. rewrite (Hword c Hc). unfold U32.in_range.
      specialize (Hcap c). specialize (Hpn c). specialize (Hoff c).
      fold pop in Hcap. lia.
    + intros k Hk. unfold inRange in Hk. destruct (Hfields c Hc) as [E1 E2].
      rewrite E1, E2 in Hk.
      destruct (offsetOf_bounds pop order c Hpos) as [H0 H1].
      specialize (H1 (Hcover c Hc)). lia.
  - intros c c' k Hc Hc' Hk Hk'. unfold inRange in Hk, Hk'.
    destruct (Hfields c Hc) as [E1 E2]. destruct (Hfields c' Hc') as [E1' E2'].
    rewrite E1, E2 in Hk. rewrite E1', E2' in Hk'.
    apply (offsetOf_disjoint pop order c c' k Hnd2 Hpos); auto.
  - intros k Hk.
    destruct (offsetOf_cover pop order (Z.of_nat k) Hnd2 Hpos ltac:(lia))
      as (c & Hc & Hrange).
    assert (Hb : inBounds size c = true).
    { apply Hin, population_positive_elem. change (population cells c) with (pop c). lia. }
    assert (Hr' : inRange (word c) (Z.of_nat k)).
    { unfold inRange. destruct (Hfields c Hb) as [-> ->]. exact Hrange. }
    destruct (Hslots c (Z.of_nat k) Hb Hr') as (i & p & Hi & Hp & Hcell & Hout).
    rewrite Nat2Z.id in Hout.
    assert (Hps1 : fst (fst r) = ps1) by (rewrite Hr; reflexivity).
    rewrite Hps1, Hbuf1 in Hp.
    destruct (decide (i ∈ schedule1)) as [_ | Hn]; [| contradiction].
    destruct (particles !! i) as [p0 |]; [| discriminate].
    injection Hp as <-.
    exists c, p0. auto.
Qed.

(** After passes 1 to 3 with at most 255 records in every cell, the
    neighbour loop of every slot in use meets the record of that slot
    exactly once. *)
Lemma pipeline_meets_self_once (u : Uniforms)
    (schedule1 : list nat) (schedule2 : list (list ivec3)) (schedule3 : list nat)
    (particles outParticles : list SPHParticleCompute) :
  NoDup schedule1 -> schedule3 ≡ₚ schedule1 ->
  Step2.validSchedule (uGridRes u) schedule2 ->
  let cells := integratedCells u particles schedule1 in
  let N := length cells in
  (forall c, c ∈ cells -> inBounds (uGridRes u) c = true) ->
  (forall c, population cells c <= 255) ->
  Z.of_nat N < 2 ^ 24 ->
  (N <= length outParticles)%nat ->
  let r := buildGrid u (uGridRes u) schedule1 schedule2 schedule3 particles outParticles in
  forall i, (i < N)%nat ->
    exists p,
      snd (fst r) !! i = Some p
      /\ count_occ Z.eq_dec
           (Stencil.candidates (snd r) (uGridRes u) (Glsl.voxelOf u (position p)))
           (Z.of_nat i) = 1%nat.
Proof.
  intros Hnd1 Hperm Hvalid cells N Hin Hcap HN Hroom r i Hi.
  destruct (buildGrid_sorted u (uGridRes u) schedule1 schedule2 schedule3 particles
              outParticles Hnd1 Hperm Hvalid Hin Hcap HN Hroom) as (Hwords & Hdisj & Hslots).
  fold cells N r in Hwords, Hdisj, Hslots.
  revert Hwords Hdisj Hslots. generalize r. clear r. intros r Hwords Hdisj Hslots.
  assert (Hinside : forall c, Stencil.outside (uGridRes u) c = false ->
                      inBounds (uGridRes u) c = true).
  { intros c Hc. rewrite outside_inBounds in Hc.
    destruct (inBounds (uGridRes u) c); [reflexivity | discriminate]. }
  destruct (Hslots i Hi) as (c & p0 & Hc & Hr & Hp & Hcell).
  exists (Step1.integrate u p0). split; [exact Hp |]. rewrite Hcell.
  apply sorted_grid_meets_self_once.
  - rewrite outside_inBounds, Hc. reflexivity.
  - exact Hr.
  - intros d _ Ho. apply (Hwords _ (Hinside _ Ho)).
  - intros d _ Hne Ho Hr'. apply Hne.
    assert (E : Stencil.addv c d = c)
      by (apply (Hdisj _ _ (Z.of_nat i)); auto).
    apply (addv_inj c). rewrite E, addv_zero. reflexivity.
Qed.

End SortedPipeline.

(** ** The density pass on a cell of 256 records *)

Section OverflowedCell.
Import Image Sort.
Local Open Scope Z_scope.

(** Pass 3 on records that all lie in one cell whose word starts at 0, in
    ascending order: record k goes to slot k, also the 256th, after which
    the word is 256 and its count field reads 0. *)
Lemma step3_single_cell (u : Uniforms) (ps out : list SPHParticleCompute)
    (c : ivec3) (g : uimage3D) :
  (forall k p, ps !! k = Some p -> Glsl.voxelOf u (position p) = c) ->
  inBounds (imageSize g) c = true -> imageLoad g c = 0 ->
  forall n : nat, (n <= 256)%nat -> (n <= length ps)%nat -> (n <= length out)%nat ->
    let r := Step3.dispatch u ps (seq 0 n) (out, g) in
    fst r = take n ps ++ drop n out
    /\ imageLoad (snd r) c = Z.of_nat n
    /\ imageSize (snd r) = imageSize g.
Proof.
  intros Hcell Hin Hword. assert (Hmod := modulus_value).
  induction n as [| n IH]; intros H256 Hps Hout.
  - cbn. auto.
  - destruct (IH ltac:(lia) ltac:(lia) ltac:(lia)) as (Hbuf & Hload & Hsize).
    cbv zeta. unfold Step3.dispatch in *.
    rewrite seq_S, fold_left_app. cbn [fold_left Nat.add].
    destruct (fold_left (fun st inParticleId => Step3.main u ps inParticleId st)
                (seq 0 n) (out, g)) as [outn gn].
    cbn [fst snd] in Hbuf, Hload, Hsize.
    destruct (lookup_lt_is_Some_2 ps n ltac:(lia)) as [p Hp].
    destruct (lookup_lt_is_Some_2 out n ltac:(lia)) as [y Hy].
    unfold Step3.main. rewrite Hp, (Hcell n p Hp).
    unfold imageAtomicAdd. rewrite Hload.
    rewrite (cellOffset_pack 0 (Z.of_nat n) ltac:(lia) : cellOffset (Z.of_nat n) = 0).
    rewrite (cellCount_pack 0 (Z.of_nat n) ltac:(lia)
             : cellCount (Z.of_nat n) = Z.of_nat n).
    rewrite (u32_add_small 0 (Z.of_nat n)) by lia.
    rewrite (u32_incr (Z.of_nat n)) by lia.
    assert (Hlen : length outn = length out).
    { rewrite Hbuf, length_app, length_take, length_drop. lia. }
    rewrite !Z.add_0_l.
    destruct (Z.ltb_spec (Z.of_nat n) (Z.of_nat (length outn))) as [_ | H]; [| lia].
    cbn [fst snd]. rewrite Nat2Z.id. split; [| split].
    + rewrite Hbuf, insert_app_r_alt by (rewrite length_take; lia).
      rewrite length_take, (Nat.min_l n (length ps)) by lia. rewrite Nat.sub_diag.
      rewrite (drop_S out y n Hy). cbn [insert list_insert].
      rewrite (take_S_r ps n p Hp), <- app_assoc. reflexivity.
    + rewrite imageLoad_store_eq by (rewrite Hsize; exact Hin). lia.
    + rewrite imageSize_store. exact Hsize.
Qed.

(** On a grid whose count fields all read 0 the neighbour loop meets no
    record. *)
Lemma candidates_empty (g : uimage3D) (res v : ivec3) :
  (forall c, cellCount (imageLoad g c) = 0) -> Stencil.candidates g res v = [].
Proof.
  intros Hzero. unfold Stencil.candidates.
  induction Stencil.NEIGHBORHOOD_LUT as [| d lut IH]; [reflexivity |].
  rewrite candidatesFrom_cons, IH.
  destruct (Stencil.outside res (Stencil.addv v d)); [reflexivity |].
  unfold Stencil.cellCandidates. rewrite Hzero. reflexivity.
Qed.

End OverflowedCell.

Section CrowdedCell.
Local Open Scope R_scope.

Lemma integrate_keeps_state u p :
  density (Step1.integrate u p) = density p /\ pressure (Step1.integrate u p) = pressure p.
Proof.
  unfold Step1.integrate. cbv zeta.
  destruct (Step1.bounce (vx (Step1.boundsL u)) (vx (Step1.boundsH u)) _) as [velx posx].
  destruct (Step1.bounce (vy (Step1.boundsL u)) (vy (Step1.boundsH u)) _) as [vely posy].
  destruct (Step1.bounce (vz (Step1.boundsL u)) (vz (Step1.boundsH u)) _) as [velz posz].
  split; reflexivity.
Qed.

(** In the sample domain pass 1 leaves a particle at rest inside the safe
    bounds as it is. *)
Lemma resting_integrate x y z :
  5 / 10 <= x <= 95 / 10 -> 5 / 10 <= y <= 95 / 10 -> 5 / 10 <= z <= 95 / 10 ->
  Step1.integrate (sampleUniforms 0) (restingParticle x y z) = restingParticle x y z.
Proof.
  intros Hx Hy Hz.
  set (u := sampleUniforms 0). set (p := restingParticle x y z).
  assert (Hv : Step1.preWallVelocity u p = V.zero).
  { unfold Step1.preWallVelocity, Step1.sphereImpulse. simpl.
    unfold V.add, V.scale, V.zero. simpl. f_equal; ring. }
  assert (Hp : Step1.preWallPosition u p = Vec3 x y z).
  { unfold Step1.preWallPosition. rewrite Hv.
    unfold V.add, V.scale, V.zero. simpl. f_equal; ring. }
  assert (Haxis : forall axis : vec3 -> R, axis = vx \/ axis = vy \/ axis = vz ->
            5 / 10 <= axis (Vec3 x y z) <= 95 / 10 ->
            axis (velocity (Step1.integrate u p)) = 0
            /\ axis (position (Step1.integrate u p)) = axis (Vec3 x y z)).
  { intros axis Ha Hin.
    pose proof (integrate_axes u p axis Ha) as H. rewrite Hv, Hp in H.
    destruct (bounce_cases (axis (Step1.boundsL u)) (axis (Step1.boundsH u))
                (axis V.zero) (axis (Vec3 x y z))) as (_ & _ & Hmid).
    { destruct Ha as [-> | [-> | ->]];
        unfold Step1.boundsL, Step1.boundsH, Step1.SAFE_BOUNDS; simpl; lra. }
    rewrite Hmid in H.
    - injection H as H1 H2. split; [| exact H2].
      rewrite H1. destruct Ha as [-> | [-> | ->]]; reflexivity.
    - destruct Ha as [-> | [-> | ->]];
        unfold Step1.boundsL, Step1.boundsH, Step1.SAFE_BOUNDS; simpl; simpl in Hin; lra. }
  destruct (Haxis vx (or_introl eq_refl) Hx) as [Vx Px].
  destruct (Haxis vy (or_intror (or_introl eq_refl)) Hy) as [Vy Py].
  destruct (Haxis vz (or_intror (or_intror eq_refl)) Hz) as [Vz Pz].
  destruct (integrate_keeps_state u p) as [Hd Hpr].
  destruct (Step1.integrate u p) as [[px py pz] d [wx wy wz] pr].
  cbn [position velocity density pressure vx vy vz] in *.
  subst. reflexivity.
Qed.

Lemma crowdedCell_resting k p :
  crowdedCell !! k = Some p ->
  Step1.integrate (sampleUniforms 0) p = p
  /\ Glsl.voxelOf (sampleUniforms 0) (position p) = (5, 5, 5)%Z.
Proof.
  intros Hk.
  assert (Hcases : p = restingParticle (51 / 10) (11 / 2) (11 / 2)
                   \/ p = restingParticle (59 / 10) (11 / 2) (11 / 2)).
  { unfold crowdedCell in Hk. destruct k as [| k]; cbn [lookup list_lookup] in Hk.
    - left. congruence.
    - right. apply lookup_replicate in Hk as [-> _]. reflexivity. }
  destruct Hcases as [-> | ->].
  - assert (E : Step1.integrate (sampleUniforms 0)
                  (restingParticle (51 / 10) (11 / 2) (11 / 2))
                = restingParticle (51 / 10) (11 / 2) (11 / 2))
      by (apply resting_integrate; lra).
    split; [exact E |]. rewrite <- E at 1.
    apply resting_voxel; try lia; simpl; lra.
  - assert (E : Step1.integrate (sampleUniforms 0)
                  (restingParticle (59 / 10) (11 / 2) (11 / 2))
                = restingParticle (59 / 10) (11 / 2) (11 / 2))
      by (apply resting_integrate; lra).
    split; [exact E |]. rewrite <- E at 1.
    apply resting_voxel; try lia; simpl; lra.
Qed.

Lemma crowdedCell_cells :
  Sort.integratedCells (sampleUniforms 0) crowdedCell (seq 0 256)
  = replicate 256 (5, 5, 5)%Z.
Proof.
  unfold Sort.integratedCells.
  rewrite (omap_constant _ (5, 5, 5)%Z).
  - rewrite length_seq. reflexivity.
  - intros i Hi. apply elem_of_seq in Hi.
    destruct (lookup_lt_is_Some_2 crowdedCell i) as [p Hp];
      [unfold crowdedCell; cbn [length]; rewrite length_replicate; lia |].
    rewrite Hp. cbn [fmap option_fmap option_map].
    destruct (crowdedCell_resting i p Hp) as [-> ->]. reflexivity.
Qed.

End CrowdedCell.

Section CrowdedPipeline.
Import Image.
Local Open Scope Z_scope.

(** Passes 1 to 3 on the crowded cell, in ascending order. *)
Lemma crowdedCell_pipeline r :
  r = buildGrid (sampleUniforms 0) (10, 10, 10) (seq 0 256)
        (Step2.ascendingSchedule (10, 10, 10)) (seq 0 256) crowdedCell crowdedCell ->
  snd (fst r) = crowdedCell
  /\ imageLoad (snd r) (5, 5, 5) = 256
  /\ forall c, cellCount (imageLoad (snd r) c) = 0.
Proof.
  intros Hr0. set (u := sampleUniforms 0) in *.
  assert (Hnd : NoDup (seq 0 256)) by apply NoDup_seq.
  assert (Hvalid : Step2.validSchedule (10, 10, 10) (Step2.ascendingSchedule (10, 10, 10)))
    by apply ascendingSchedule_valid.
  assert (Hcells : Sort.integratedCells u crowdedCell (seq 0 256)
                   = replicate 256 (5, 5, 5)) by apply crowdedCell_cells.
  assert (Hin : forall c, c ∈ Sort.integratedCells u crowdedCell (seq 0 256) ->
                  inBounds (10, 10, 10) c = true).
  { rewrite Hcells. intros c Hc. apply elem_of_replicate in Hc as [-> _]. reflexivity. }
  assert (HN : Z.of_nat (length (Sort.integratedCells u crowdedCell (seq 0 256))) < 2 ^ 24).
  { rewrite Hcells, length_replicate. vm_compute. reflexivity. }
  assert (Hpop : forall c, Sort.population
                             (Sort.integratedCells u crowdedCell (seq 0 256)) c
                           = if decide ((5, 5, 5) = c) then 256 else 0).
  { intros c. rewrite Hcells, population_replicate. reflexivity. }
  pose proof (buildGrid_words u (10, 10, 10) (seq 0 256)
                (Step2.ascendingSchedule (10, 10, 10)) (seq 0 256)
                crowdedCell crowdedCell Hnd (Permutation_refl _) Hvalid Hin HN) as Hwords.
  cbv zeta in Hwords. rewrite <- Hr0 in Hwords.
  assert (Hoff : Sort.offsetOf
                   (Sort.population (Sort.integratedCells u crowdedCell (seq 0 256)))
                   (concat (Step2.ascendingSchedule (10, 10, 10))) (5, 5, 5) = 0).
  { apply offsetOf_zero_before. intros c' Hne. rewrite Hpop.
    destruct (decide ((5, 5, 5) = c')); [congruence | reflexivity]. }
  destruct (buildGrid_before_scatter u (10, 10, 10) (seq 0 256)
              (Step2.ascendingSchedule (10, 10, 10)) (seq 0 256)
              crowdedCell crowdedCell Hnd Hvalid Hin HN)
    as (ps1 & grid2 & Hr & Hsize2 & Hbuf1 & Hword2).
  rewrite <- Hr0 in Hr. clear Hr0.
  assert (Hps1 : ps1 = crowdedCell).
  { apply list_eq. intros j. rewrite Hbuf1.
    destruct (decide (j ∈ seq 0 256)) as [_ | _]; [| reflexivity].
    destruct (crowdedCell !! j) as [p |] eqn:Hp; [| reflexivity].
    cbn [fmap option_fmap option_map]. unfold u.
    destruct (crowdedCell_resting j p Hp) as [-> _]. reflexivity. }
  subst ps1.
  assert (Hlen : length crowdedCell = 256%nat)
    by (unfold crowdedCell; cbn [length]; rewrite length_replicate; reflexivity).
  pose proof (step3_single_cell u crowdedCell crowdedCell (5, 5, 5) grid2) as Hscatter.
  cbv zeta in Hscatter.
  destruct (Hscatter ltac:(intros k p Hp; apply (crowdedCell_resting k p Hp))
              ltac:(rewrite Hsize2; reflexivity)
              ltac:(rewrite Hword2 by reflexivity; rewrite Hoff; reflexivity)
              256%nat ltac:(lia) ltac:(lia) ltac:(lia))
    as (Hsorted & _ & Hsize3).
  clear Hscatter.
  revert Hsorted Hsize3 Hr.
  generalize (Step3.dispatch u crowdedCell (seq 0 256) (crowdedCell, grid2)).
  intros [out3 grid3] Hsorted Hsize3 ->. cbn [fst snd] in *.
  assert (Hword : imageLoad grid3 (5, 5, 5) = 256).
  { rewrite Hwords by reflexivity. rewrite Hoff, Hpop.
    destruct (decide ((5, 5, 5) = (5, 5, 5))); [reflexivity | congruence]. }
  split; [| split; [exact Hword |]].
  - rewrite Hsorted, take_ge, drop_ge by lia. apply app_nil_r.
  - intros c. destruct (inBounds (10, 10, 10) c) eqn:Hc.
    + rewrite (Hwords c Hc), Hpop.
      set (off := Sort.offsetOf _ _ c).
      destruct (decide ((5, 5, 5) = c)).
      * replace (off * 256 + 256) with ((off + 1) * 256 + 0) by lia.
        apply cellCount_pack. lia.
      * apply cellCount_pack. lia.
    + rewrite imageLoad_outside by (rewrite Hsize3, Hsize2; exact Hc). reflexivity.
Qed.

(** The density pass for the first particle of the crowded cell on a grid
    whose count fields all read 0. *)
Lemma crowdedCell_density (g : uimage3D) :
  (forall c, cellCount (imageLoad g c) = 0) ->
  Step5.main Stencil.enoughFuel (sampleUniforms 0) g crowdedCell 0
  = Some (<[0%nat := Particle (Vec3 (51 / 10) (11 / 2) (11 / 2)) 0 V.zero
                       (250 * (0 - 99827 / 100))]> crowdedCell).
Proof.
  intros Hcount. unfold Step5.main.
  change (crowdedCell !! 0%nat)
    with (Some (restingParticle (51 / 10) (11 / 2) (11 / 2))).
  cbv beta iota zeta.
  rewrite walk_candidates by apply Nat.le_refl.
  rewrite candidates_empty by exact Hcount.
  cbn [fold_left]. unfold Step5.REST_PRESSURE, Step5.STIFFNESS_K, Step5.REST_DENSITY.
  do 3 f_equal. ring.
Qed.

End CrowdedPipeline.

(** C8, as stated, fails: take 256 particles at rest in cell (5, 5, 5) of
    the sample grid, one at x = 5.1 and 255 at x = 5.9.  The first has no
    neighbour within the kernel radius: the others are 0.8 away.  Passes 1
    to 3 leave the buffer as it is and the word of the cell at 256, whose
    count field reads 0; the density pass then meets no record at all in
    the loop of the first particle, not even its own, and writes density 0
    and pressure 250 * (0 - 998.27) instead of mass * Poly6(h, 0). *)
Lemma isolated_density_counterexample :
  let u := sampleUniforms 0 in
  let own := restingParticle (51 / 10) (11 / 2) (11 / 2) in
  let r := buildGrid u (10, 10, 10)%Z (seq 0 256)
             (Step2.ascendingSchedule (10, 10, 10)%Z) (seq 0 256)
             crowdedCell crowdedCell in
  let sorted := snd (fst r) in
  let grid := snd r in
  sorted = crowdedCell
  /\ Image.imageLoad grid (5, 5, 5)%Z = 256%Z
  /\ (forall k q, k <> 0%nat -> sorted !! k = Some q ->
        (Step5.KERNEL_RADIUS <= V.length (V.sub (position own) (position q)))%R)
  /\ Step5.main Stencil.enoughFuel u grid sorted 0
     = Some (<[0%nat := Particle (position own) 0 (velocity own)
                          (250 * (0 - 99827 / 100))]> sorted)
  /\ (0 <> Step5.MASS * Step5.weight 0)%R.
Proof.
  intros u own r sorted grid. subst sorted grid.
  destruct (crowdedCell_pipeline r eq_refl) as (Hs & Hword & Hcount).
  clearbody r. subst u.
  split; [exact Hs |]. split; [exact Hword |]. rewrite Hs. split; [| split].
  - intros k q Hk Hq. destruct k as [| k]; [contradiction |].
    unfold crowdedCell in Hq. cbn [lookup list_lookup] in Hq.
    apply lookup_replicate in Hq as [-> _].
    unfold own, restingParticle, V.length, V.dot, V.sub. cbn [position vx vy vz].
    replace ((51 / 10 - 59 / 10) * (51 / 10 - 59 / 10)
             + (11 / 2 - 11 / 2) * (11 / 2 - 11 / 2)
             + (11 / 2 - 11 / 2) * (11 / 2 - 11 / 2))%R
      with (Rsqr (8 / 10)) by (unfold Rsqr; field).
    rewrite sqrt_Rsqr by lra. unfold Step5.KERNEL_RADIUS. lra.
  - apply crowdedCell_density. exact Hcount.
  - pose proof isolated_density_bounds as Hb. lra.
Qed.



(** ** The manager *)

Section HostGeometry.
Import Host.
Local Open Scope Z_scope.

(** The members no pass and no upload changes. *)
Let geometry (s : System) := (maxParticles_ s, boxMin_ s, boxMax_ s).

Lemma geometry_runSimulationPass pass s : geometry (runSimulationPass pass s) = geometry s.
Proof.
  unfold runSimulationPass.
  repeat (match goal with
          | |- context [if ?b then _ else _] => destruct b
          end; simpl); reflexivity.
Qed.

Lemma geometry_substep s : geometry (substep s) = geometry s.
Proof.
  unfold substep. cbv zeta. rewrite !geometry_runSimulationPass. reflexivity.
Qed.

Lemma geometry_loopBody s : geometry (loopBody s) = geometry s.
Proof.
  pose proof (loopBody_unfold s) as H. pose proof (geometry_substep s) as H'.
  revert H H'. generalize (loopBody s), (substep s). intros l t -> H'.
  rewrite <- H'. reflexivity.
Qed.

Lemma update_loop_invariant (P : System -> Prop) :
  (forall s, P s -> P (loopBody s)) ->
  forall fuel s s', update_loop fuel s = Some s' -> P s -> P s'.
Proof.
  intros Hbody fuel. induction fuel as [| fuel IH]; intros s s' Hrun Hs.
  - simpl in Hrun. destruct (F32.geb (accumulatedTime_ s) SPHConstants.DT_f32);
      [discriminate | congruence].
  - simpl in Hrun. destruct (F32.geb (accumulatedTime_ s) SPHConstants.DT_f32).
    + apply (IH (loopBody s) s' Hrun). apply Hbody, Hs.
    + congruence.
Qed.

(** [update] keeps the capacity and the box, and leaves no request pending
    that was not pending before. *)
Lemma update_keeps fuel deltaTime s s' :
  update fuel deltaTime s = Some s' ->
  sphereActive_ s = false ->
  maxParticles_ s' = maxParticles_ s /\ boxMin_ s' = boxMin_ s /\ boxMax_ s' = boxMax_ s
  /\ sphereActive_ s' = false.
Proof.
  intros Hrun Hidle. unfold update in Hrun.
  destruct (numParticles_ s =? 0); [injection Hrun as <-; auto |].
  apply (update_loop_invariant
           (fun t => geometry t = geometry s /\ sphereActive_ t = false)) in Hrun.
  - destruct Hrun as [Hg Ha]. unfold geometry in Hg. injection Hg as H1 H2 H3. auto.
  - intros t [Hg Ha]. split.
    + rewrite geometry_loopBody. exact Hg.
    + destruct (loopBody_members t) as (_ & _ & -> & _).
      rewrite Ha. destruct (simStepProgram_ t 1 =? 0); reflexivity.
  - split; [reflexivity | exact Hidle].
Qed.

Lemma addParticles_keeps ps vs s :
  boxMin_ (addParticles ps vs s) = boxMin_ s
  /\ boxMax_ (addParticles ps vs s) = boxMax_ s
  /\ sphereActive_ (addParticles ps vs s) = sphereActive_ s.
Proof.
  unfold addParticles, uploadCurrent.
  repeat (match goal with
          | |- context [if ?b then _ else _] => destruct b
          | |- context [let '(_, _) := ?p in _] => destruct p
          end; simpl; try (repeat split; reflexivity)).
Qed.

(** The system [SimulationManager::initializeSPHCompute] creates. *)
Lemma initialize_default fill block prog :
  let s := initialize 100000 (Vec3 (-5) (-5) (-5)) (Vec3 5 5 5) fill block (constructed prog) in
  maxParticles_ s = 100352 /\ boxMin_ s = Vec3 (-5) (-5) (-5) /\ boxMax_ s = Vec3 5 5 5
  /\ sphereActive_ s = false.
Proof.
  intros s. subst s. split; [rewrite initialize_maxParticles; reflexivity |].
  unfold initialize, reset.
  destruct (addParticles_keeps block (map (fun _ => V.zero) block)
              (set_numParticles 0
                 (set_capacity
                    (U32.mul (U32.div (U32.add (Z.max 100000 50000) 511) 512) 512)
                    (Vec3 (-5) (-5) (-5)) (Vec3 5 5 5)
                    (replicate
                       (Z.to_nat
                          (U32.mul (U32.div (U32.add (Z.max 100000 50000) 511) 512) 512))
                       fill,
                     replicate
                       (Z.to_nat
                          (U32.mul (U32.div (U32.add (Z.max 100000 50000) 511) 512) 512))
                       fill)
                    (constructed prog)))) as (H1 & H2 & H3).
  cbv zeta. rewrite H1, H2, H3. auto.
Qed.

End HostGeometry.

Section ManagerFacts.
Import Manager.
Variable WaterSurface : Type.
Variable regularWater : WaterSurface.
Variable waterUpdate : F32.float -> WaterSurface -> WaterSurface.
Variable fill : SPHParticleCompute.
Variable block : list vec3.
Variable prog : Z.

(** The SPH system as the manager creates it, with no request pending. *)
Let untouched (s : Host.System) : Prop :=
  Host.maxParticles_ s = 100352%Z
  /\ Host.boxMin_ s = Vec3 (-5) (-5) (-5) /\ Host.boxMax_ s = Vec3 5 5 5
  /\ Host.sphereActive_ s = false.

(** Exactly the object of the current type exists, and only on an
    initialised manager. *)
Let consistent (m : State WaterSurface) : Prop :=
  match initialized_ WaterSurface m, currentType_ WaterSurface m with
  | true, REGULAR_WATER =>
      is_Some (waterSurface_ WaterSurface m) /\ sphComputeSystem_ WaterSurface m = None
  | true, SPH_COMPUTE =>
      waterSurface_ WaterSurface m = None
      /\ exists s, sphComputeSystem_ WaterSurface m = Some s /\ untouched s
  | _, _ =>
      waterSurface_ WaterSurface m = None /\ sphComputeSystem_ WaterSurface m = None
  end.

Lemma consistent_cleanup m : consistent m -> consistent (cleanup WaterSurface m).
Proof.
  destruct m as [t w s h i]. unfold consistent, cleanup. cbn.
  destruct i, t; cbn; intros H; try exact H; try (destruct H as [H1 H2]; auto).
Qed.

Lemma consistent_initialize m :
  consistent m -> consistent (initialize WaterSurface regularWater fill block prog m).
Proof.
  intros H. apply consistent_cleanup in H. revert H.
  destruct m as [t w s h i]. unfold consistent, initialize, cleanup. cbn.
  destruct i, t; cbn; intros [H1 H2]; subst;
    try (split; [reflexivity | reflexivity]);
    try (split; [eexists; reflexivity | reflexivity]);
    (split; [reflexivity |]; eexists; split; [reflexivity |];
     apply (initialize_default fill block prog)).
Qed.

Lemma cleanup_clean m :
  consistent m ->
  initialized_ WaterSurface (cleanup WaterSurface m) = false
  /\ waterSurface_ WaterSurface (cleanup WaterSurface m) = None
  /\ sphComputeSystem_ WaterSurface (cleanup WaterSurface m) = None.
Proof.
  destruct m as [t w s h i]. unfold consistent, cleanup. cbn.
  destruct i, t; cbn; intros [H1 H2]; auto.
Qed.

Lemma consistent_step m m' :
  step WaterSurface regularWater waterUpdate fill block prog m m' ->
  consistent m -> consistent m'.
Proof.
  intros Hstep Hm. destruct Hstep as [t m | m | m | fuel dt m m' Hup | call m | p i r m | h m].
  - unfold setSimulationType.
    destruct (SimulationType_eqb (currentType_ WaterSurface m) t); [exact Hm |].
    destruct (cleanup_clean m Hm) as (Hi & Hw & Hs). revert Hi Hw Hs.
    generalize (cleanup WaterSurface m). intros [ct w s h i]. cbn. intros -> -> ->.
    destruct t; cbn [SimulationType_eqb negb currentType_].
    + unfold consistent. cbn. auto.
    + apply consistent_initialize. unfold consistent. cbn. auto.
    + apply consistent_initialize. unfold consistent. cbn. auto.
  - apply consistent_initialize, Hm.
  - apply consistent_cleanup, Hm.
  - revert Hup Hm. destruct m as [t w s h i]. unfold update, consistent. cbn.
    destruct i; cbn; [| intros Hup; injection Hup as <-; cbn; auto].
    destruct t; cbn.
    + intros Hup. injection Hup as <-. cbn. auto.
    + intros Hup. injection Hup as <-. cbn. intros [[x Hx] Hs]. subst w. cbn.
      split; [eexists; reflexivity | exact Hs].
    + destruct s as [sph |]; [| intros Hup; injection Hup as <-; cbn; auto].
      destruct (Host.update fuel dt sph) as [sph' |] eqn:Hrun; [| discriminate].
      intros Hup. injection Hup as <-. cbn.
      intros (Hw & s0 & Hs0 & Hmax & Hmin & Hbmax & Hidle). injection Hs0 as <-.
      split; [exact Hw |]. exists sph'. split; [reflexivity |].
      destruct (update_keeps fuel dt sph sph' Hrun Hidle) as (E1 & E2 & E3 & E4).
      unfold untouched. rewrite E1, E2, E3. auto.
  - revert Hm. destruct m as [t w s h i]. unfold waterCall, consistent. cbn.
    destruct t; cbn; try (intros H; exact H).
    destruct i; cbn; intros [Hw Hs]; [| subst w; cbn; auto].
    destruct Hw as [x ->]. cbn. split; [eexists; reflexivity | exact Hs].
  - unfold applyImpulse.
    destruct (currentType_ WaterSurface m); [exact Hm | exact Hm |].
    destruct (sphComputeSystem_ WaterSurface m); exact Hm.
  - revert Hm. destruct m as [t w s h0 i]. unfold setWaterHeight, consistent. cbn. auto.
Qed.

Lemma reachable_consistent m :
  reachable WaterSurface regularWater waterUpdate fill block prog m -> consistent m.
Proof.
  intros H. induction H as [| m m' _ IH Hstep].
  - unfold consistent. cbn. auto.
  - apply (consistent_step m m' Hstep IH).
Qed.

(** What [consistent] says member by member. *)
Lemma consistent_members m :
  consistent m ->
  (is_Some (waterSurface_ WaterSurface m)
   <-> initialized_ WaterSurface m = true /\ currentType_ WaterSurface m = REGULAR_WATER)
  /\ (is_Some (sphComputeSystem_ WaterSurface m)
      <-> initialized_ WaterSurface m = true /\ currentType_ WaterSurface m = SPH_COMPUTE)
  /\ (forall s, sphComputeSystem_ WaterSurface m = Some s ->
        Host.maxParticles_ s = 100352%Z
        /\ Host.boxMin_ s = Vec3 (-5) (-5) (-5) /\ Host.boxMax_ s = Vec3 5 5 5
        /\ Host.sphereActive_ s = false).
Proof.
  destruct m as [t w s h i]. unfold consistent, untouched. cbn.
  destruct i, t; cbn; intros Hm;
    repeat match goal with
           | H : _ /\ _ |- _ => destruct H
           | H : exists _, _ |- _ => destruct H
           end; subst;
    (split; [| split]);
    try (split; [intros [x Hx]; discriminate | intros [Ha Hb]; discriminate]);
    try (intros s0 Hs0; discriminate).
  - split; [auto | intros _; assumption].
  - split; [intros [y Hy]; discriminate | intros [_ Hb]; discriminate].
  - split; [auto | intros _; eexists; reflexivity].
  - intros s0 Hs0. injection Hs0 as <-. auto.
Qed.

End ManagerFacts.

(** X21 (SimulationManager.cpp): after any sequence of calls of
    [setSimulationType], [initialize], [cleanup], [update], the water
    interactions, [applyImpulse] and [setWaterHeight] on a constructed
    manager, the water surface exists exactly when the manager is
    initialised with type REGULAR_WATER and the SPH system exactly when it
    is initialised with type SPH_COMPUTE, so never both; the SPH system has
    capacity 100352 and the box from -5 to 5, and no impulse request is
    pending on it: [SimulationManager::applyImpulse] never reaches
    [SPHComputeSystem::applyImpulse]. *)
Theorem manager_invariant (WaterSurface : Type) (regularWater : WaterSurface)
    (waterUpdate : F32.float -> WaterSurface -> WaterSurface)
    (fill : SPHParticleCompute) (block : list vec3) (prog : Z)
    (m : Manager.State WaterSurface) :
  Manager.reachable WaterSurface regularWater waterUpdate fill block prog m ->
  (is_Some (Manager.waterSurface_ WaterSurface m)
   <-> Manager.initialized_ WaterSurface m = true
       /\ Manager.currentType_ WaterSurface m = Manager.REGULAR_WATER)
  /\ (is_Some (Manager.sphComputeSystem_ WaterSurface m)
      <-> Manager.initialized_ WaterSurface m = true
          /\ Manager.currentType_ WaterSurface m = Manager.SPH_COMPUTE)
  /\ (forall s, Manager.sphComputeSystem_ WaterSurface m = Some s ->
        Host.maxParticles_ s = 100352%Z
        /\ Host.boxMin_ s = Vec3 (-5) (-5) (-5) /\ Host.boxMax_ s = Vec3 5 5 5
        /\ Host.sphereActive_ s = false).
Proof.
  intros Hreach.
  apply (consistent_members WaterSurface m).
  apply (reachable_consistent WaterSurface regularWater waterUpdate fill block prog m Hreach).
Qed.

Lemma manager_invariant_witness :
  let m := Manager.applyImpulse unit (Vec3 0 0 0) (Vec3 0 5 0) 1
             (Manager.setSimulationType unit tt Glsl.zeroParticle [] 1 Manager.SPH_COMPUTE
                (Manager.constructed unit)) in
  (is_Some (Manager.waterSurface_ unit m)
   <-> Manager.initialized_ unit m = true
       /\ Manager.currentType_ unit m = Manager.REGULAR_WATER)
  /\ (is_Some (Manager.sphComputeSystem_ unit m)
      <-> Manager.initialized_ unit m = true
          /\ Manager.currentType_ unit m = Manager.SPH_COMPUTE)
  /\ (forall s, Manager.sphComputeSystem_ unit m = Some s ->
        Host.maxParticles_ s = 100352%Z
        /\ Host.boxMin_ s = Vec3 (-5) (-5) (-5) /\ Host.boxMax_ s = Vec3 5 5 5
        /\ Host.sphereActive_ s = false).
Proof.
  apply (manager_invariant unit tt (fun _ w => w) Glsl.zeroParticle [] 1).
  eapply Manager.reachable_step.
  - eapply Manager.reachable_step.
    + apply Manager.reachable_constructed.
    + apply (Manager.step_setSimulationType unit tt (fun _ w => w) Glsl.zeroParticle [] 1
               Manager.SPH_COMPUTE).
  - apply Manager.step_applyImpulse.
Defined.

(** ** The dam-break block *)

Section DamBreakFacts.
Import DamBreak.
Local Open Scope R_scope.
Variable maxParticles : Z.

Lemma spacing_pos : 0 < spacing.
Proof. unfold spacing, SPHConstants.PARTICLE_RADIUS. lra. Qed.

(** The loop invariant: every position pushed so far satisfies [Q], the
    counter is the number of positions, and it has not passed the capacity
    (or 1, as the first position is pushed before the test). *)
Let good (Q : vec3 -> Prop) (st : State) : Prop :=
  Forall Q (positions st)
  /\ particleCount st = Z.of_nat (length (positions st))
  /\ (particleCount st <= Z.max 1 maxParticles)%Z
  /\ (done st = false -> (particleCount st < Z.max 1 maxParticles)%Z).

Lemma push_good Q x y z st :
  good Q st -> done st = false -> Q (Vec3 x y z) -> good Q (push maxParticles x y z st).
Proof.
  intros (Hall & Hcount & Hle & Hlt) Hdone HQ. specialize (Hlt Hdone).
  unfold good, push. cbn [positions particleCount done].
  split; [apply Forall_app; split; [exact Hall | apply Forall_singleton; exact HQ] |].
  split; [rewrite length_app; cbn [length]; lia |].
  split; [lia |].
  intros Hnot. apply Z.leb_gt in Hnot. lia.
Qed.

Lemma loopZ_good Q x y zMax fuel : forall z st st',
  loopZ fuel maxParticles x y zMax z st = Some st' ->
  good Q st -> (forall z', z <= z' <= zMax -> Q (Vec3 x y z')) -> good Q st'.
Proof.
  pose proof spacing_pos as Hsp.
  induction fuel as [| fuel IH]; intros z st st' Hrun Hst HQ.
  - cbn [loopZ] in Hrun. destruct (done st); [congruence |].
    destruct (Rle_dec z zMax); [discriminate | congruence].
  - cbn [loopZ] in Hrun. destruct (done st) eqn:Hdone; [congruence |].
    destruct (Rle_dec z zMax) as [Hz | Hz]; [| congruence].
    apply (IH _ _ _ Hrun).
    + apply push_good; [exact Hst | exact Hdone | apply HQ; lra].
    + intros z' Hz'. apply HQ. lra.
Qed.

Lemma loopY_good Q inner x yMax zMin zMax fuel : forall y st st',
  loopY fuel inner maxParticles x yMax zMin zMax y st = Some st' ->
  good Q st ->
  (forall y' z', y <= y' <= yMax -> zMin <= z' <= zMax -> Q (Vec3 x y' z')) ->
  good Q st'.
Proof.
  pose proof spacing_pos as Hsp.
  induction fuel as [| fuel IH]; intros y st st' Hrun Hst HQ.
  - cbn [loopY] in Hrun. destruct (done st); [congruence |].
    destruct (Rle_dec y yMax); [discriminate | congruence].
  - cbn [loopY] in Hrun. destruct (done st) eqn:Hdone; [congruence |].
    destruct (Rle_dec y yMax) as [Hy | Hy]; [| congruence].
    destruct (loopZ inner maxParticles x y zMax zMin st) as [st1 |] eqn:Hz; [| discriminate].
    apply (IH _ _ _ Hrun).
    + apply (loopZ_good Q x y zMax inner zMin st st1 Hz Hst).
      intros z' Hz'. apply HQ; [lra | exact Hz'].
    + intros y' z' Hy' Hz'. apply HQ; [lra | exact Hz'].
Qed.

Lemma loopX_good Q inner xMax yMin yMax zMin zMax fuel : forall x st st',
  loopX fuel inner maxParticles xMax yMin yMax zMin zMax x st = Some st' ->
  good Q st ->
  (forall x' y' z', x <= x' <= xMax -> yMin <= y' <= yMax -> zMin <= z' <= zMax ->
     Q (Vec3 x' y' z')) ->
  good Q st'.
Proof.
  pose proof spacing_pos as Hsp.
  induction fuel as [| fuel IH]; intros x st st' Hrun Hst HQ.
  - cbn [loopX] in Hrun. destruct (done st); [congruence |].
    destruct (Rle_dec x xMax); [discriminate | congruence].
  - cbn [loopX] in Hrun. destruct (done st) eqn:Hdone; [congruence |].
    destruct (Rle_dec x xMax) as [Hx | Hx]; [| congruence].
    destruct (loopY inner inner maxParticles x yMax zMin zMax yMin st) as [st1 |] eqn:Hy;
      [| discriminate].
    apply (IH _ _ _ Hrun).
    + apply (loopY_good Q inner x yMax zMin zMax inner yMin st st1 Hy Hst).
      intros y' z' Hy' Hz'. apply HQ; [lra | exact Hy' | exact Hz'].
    + intros x' y' z' Hx' Hy' Hz'. apply HQ; [lra | exact Hy' | exact Hz'].
Qed.

(** A loop that runs [n] times below the capacity. *)
Lemma loopZ_count x y zMax n : forall z st fuel,
  done st = false -> (n <= fuel)%nat ->
  (particleCount st + Z.of_nat n < maxParticles)%Z ->
  zMax < z + INR n * spacing ->
  (n = 0%nat \/ z + (INR n - 1) * spacing <= zMax) ->
  exists st',
    loopZ fuel maxParticles x y zMax z st = Some st'
    /\ done st' = false
    /\ particleCount st' = (particleCount st + Z.of_nat n)%Z
    /\ length (positions st') = (length (positions st) + n)%nat.
Proof.
  pose proof spacing_pos as Hsp.
  induction n as [| n IH]; intros z st fuel Hdone Hfuel Hcap Hhi Hlo.
  - exists st. simpl in Hhi.
    assert (Hrun : loopZ fuel maxParticles x y zMax z st = Some st).
    { destruct fuel; cbn [loopZ]; rewrite Hdone;
        destruct (Rle_dec z zMax); try lra; reflexivity. }
    split; [exact Hrun |]. split; [exact Hdone |]. split; lia.
  - destruct fuel as [| fuel]; [lia |].
    rewrite S_INR in Hhi.
    assert (Hn : 0 <= INR n) by apply pos_INR.
    assert (Hz : z <= zMax).
    { destruct Hlo as [Hlo | Hlo]; [discriminate |]. rewrite S_INR in Hlo. nra. }
    cbn [loopZ]. rewrite Hdone.
    destruct (Rle_dec z zMax) as [_ | Hn']; [| contradiction].
    destruct (IH (z + spacing) (push maxParticles x y z st) fuel) as (st' & Hrun & Hd & Hc & Hl).
    + unfold push. cbn [done particleCount]. apply Z.leb_gt. lia.
    + lia.
    + unfold push. cbn [particleCount]. lia.
    + lra.
    + destruct n as [| n]; [left; reflexivity | right].
      destruct Hlo as [Hlo | Hlo]; [discriminate |].
      rewrite !S_INR in Hlo. rewrite S_INR. lra.
    + exists st'. split; [exact Hrun |]. split; [exact Hd |].
      unfold push in Hc, Hl. cbn [particleCount positions] in Hc, Hl.
      rewrite length_app in Hl. cbn [length] in Hl. split; lia.
Qed.

Lemma loopY_count inner x yMax zMin zMax nz n : forall y st fuel,
  done st = false -> (n <= fuel)%nat -> (nz <= inner)%nat ->
  (particleCount st + Z.of_nat (n * nz) < maxParticles)%Z ->
  zMax < zMin + INR nz * spacing ->
  (nz = 0%nat \/ zMin + (INR nz - 1) * spacing <= zMax) ->
  yMax < y + INR n * spacing ->
  (n = 0%nat \/ y + (INR n - 1) * spacing <= yMax) ->
  exists st',
    loopY fuel inner maxParticles x yMax zMin zMax y st = Some st'
    /\ done st' = false
    /\ particleCount st' = (particleCount st + Z.of_nat (n * nz))%Z
    /\ length (positions st') = (length (positions st) + n * nz)%nat.
Proof.
  pose proof spacing_pos as Hsp.
  induction n as [| n IH]; intros y st fuel Hdone Hfuel Hinner Hcap Hzhi Hzlo Hhi Hlo.
  - exists st. simpl in Hhi.
    assert (Hrun : loopY fuel inner maxParticles x yMax zMin zMax y st = Some st).
    { destruct fuel; cbn [loopY]; rewrite Hdone;
        destruct (Rle_dec y yMax); try lra; reflexivity. }
    split; [exact Hrun |]. split; [exact Hdone |]. split; simpl; lia.
  - destruct fuel as [| fuel]; [lia |].
    rewrite S_INR in Hhi.
    assert (Hn : 0 <= INR n) by apply pos_INR.
    assert (Hy : y <= yMax).
    { destruct Hlo as [Hlo | Hlo]; [discriminate |]. rewrite S_INR in Hlo. nra. }
    cbn [loopY]. rewrite Hdone.
    destruct (Rle_dec y yMax) as [_ | Hn']; [| contradiction].
    destruct (loopZ_count x y zMax nz zMin st inner Hdone Hinner ltac:(lia) Hzhi Hzlo)
      as (st1 & -> & Hd1 & Hc1 & Hl1).
    destruct (IH (y + spacing) st1 fuel) as (st' & Hrun & Hd & Hc & Hl);
      try assumption; try lia; try lra.
    + destruct n as [| n]; [left; reflexivity | right].
      destruct Hlo as [Hlo | Hlo]; [discriminate |].
      rewrite !S_INR in Hlo. rewrite S_INR. lra.
    + exists st'. split; [exact Hrun |]. split; [exact Hd |]. split; lia.
Qed.

Lemma loopX_count inner xMax yMin yMax zMin zMax ny nz n : forall x st fuel,
  done st = false -> (n <= fuel)%nat -> (ny <= inner)%nat -> (nz <= inner)%nat ->
  (particleCount st + Z.of_nat (n * (ny * nz)) < maxParticles)%Z ->
  zMax < zMin + INR nz * spacing ->
  (nz = 0%nat \/ zMin + (INR nz - 1) * spacing <= zMax) ->
  yMax < yMin + INR ny * spacing ->
  (ny = 0%nat \/ yMin + (INR ny - 1) * spacing <= yMax) ->
  xMax < x + INR n * spacing ->
  (n = 0%nat \/ x + (INR n - 1) * spacing <= xMax) ->
  exists st',
    loopX fuel inner maxParticles xMax yMin yMax zMin zMax x st = Some st'
    /\ done st' = false
    /\ particleCount st' = (particleCount st + Z.of_nat (n * (ny * nz)))%Z
    /\ length (positions st') = (length (positions st) + n * (ny * nz))%nat.
Proof.
  pose proof spacing_pos as Hsp.
  induction n as [| n IH];
    intros x st fuel Hdone Hfuel Hiy Hiz Hcap Hzhi Hzlo Hyhi Hylo Hhi Hlo.
  - exists st. simpl in Hhi.
    assert (Hrun : loopX fuel inner maxParticles xMax yMin yMax zMin zMax x st = Some st).
    { destruct fuel; cbn [loopX]; rewrite Hdone;
        destruct (Rle_dec x xMax); try lra; reflexivity. }
    split; [exact Hrun |]. split; [exact Hdone |]. split; simpl; lia.
  - destruct fuel as [| fuel]; [lia |].
    rewrite S_INR in Hhi.
    assert (Hn : 0 <= INR n) by apply pos_INR.
    assert (Hx : x <= xMax).
    { destruct Hlo as [Hlo | Hlo]; [discriminate |]. rewrite S_INR in Hlo. nra. }
    cbn [loopX]. rewrite Hdone.
    destruct (Rle_dec x xMax) as [_ | Hn']; [| contradiction].
    destruct (loopY_count inner x yMax zMin zMax nz ny yMin st inner Hdone Hiy Hiz
                ltac:(lia) Hzhi Hzlo Hyhi Hylo)
      as (st1 & -> & Hd1 & Hc1 & Hl1).
    destruct (IH (x + spacing) st1 fuel) as (st' & Hrun & Hd & Hc & Hl);
      try assumption; try lia; try lra.
    + destruct n as [| n]; [left; reflexivity | right].
      destruct Hlo as [Hlo | Hlo]; [discriminate |].
      rewrite !S_INR in Hlo. rewrite S_INR. lra.
    + exists st'. split; [exact Hrun |]. split; [exact Hd |]. split; lia.
Qed.

(** The loops come to an end: [spacing] is positive, so a loop variable
    passes its bound after finitely many steps. *)
Lemma steps_exist (lo hi : R) : exists n : nat, hi < lo + INR n * spacing.
Proof.
  pose proof spacing_pos as Hsp.
  destruct (archimed ((hi - lo) / spacing)) as [Hup _].
  set (u := up ((hi - lo) / spacing)) in *.
  exists (Z.to_nat u).
  assert (Hu : IZR u <= INR (Z.to_nat u)).
  { rewrite INR_IZR_INZ. apply IZR_le. lia. }
  assert (Hdiv : hi - lo = (hi - lo) / spacing * spacing) by (field; lra).
  assert (Hlt : (hi - lo) / spacing * spacing < IZR u * spacing)
    by (apply Rmult_lt_compat_r; lra).
  assert (Hle : IZR u * spacing <= INR (Z.to_nat u) * spacing)
    by (apply Rmult_le_compat_r; lra).
  lra.
Qed.

Lemma loopZ_ends x y zMax n : forall z st fuel,
  (n <= fuel)%nat -> zMax < z + INR n * spacing ->
  is_Some (loopZ fuel maxParticles x y zMax z st).
Proof.
  induction n as [| n IH]; intros z st fuel Hfuel Hhi.
  - simpl in Hhi.
    destruct fuel; cbn [loopZ]; destruct (done st); try (eexists; reflexivity);
      destruct (Rle_dec z zMax); try lra; eexists; reflexivity.
  - destruct fuel as [| fuel]; [lia |].
    rewrite S_INR in Hhi. cbn [loopZ].
    destruct (done st); [eexists; reflexivity |].
    destruct (Rle_dec z zMax); [| eexists; reflexivity].
    apply IH; [lia | lra].
Qed.

Lemma loopY_ends inner x yMax zMin zMax nz n : forall y st fuel,
  (n <= fuel)%nat -> (nz <= inner)%nat ->
  zMax < zMin + INR nz * spacing -> yMax < y + INR n * spacing ->
  is_Some (loopY fuel inner maxParticles x yMax zMin zMax y st).
Proof.
  induction n as [| n IH]; intros y st fuel Hfuel Hinner Hzhi Hhi.
  - simpl in Hhi.
    destruct fuel; cbn [loopY]; destruct (done st); try (eexists; reflexivity);
      destruct (Rle_dec y yMax); try lra; eexists; reflexivity.
  - destruct fuel as [| fuel]; [lia |].
    rewrite S_INR in Hhi. cbn [loopY].
    destruct (done st); [eexists; reflexivity |].
    destruct (Rle_dec y yMax); [| eexists; reflexivity].
    destruct (loopZ_ends x y zMax nz zMin st inner Hinner Hzhi) as [st1 ->].
    apply IH; [lia | exact Hinner | exact Hzhi | lra].
Qed.

Lemma loopX_ends inner xMax yMin yMax zMin zMax ny nz n : forall x st fuel,
  (n <= fuel)%nat -> (ny <= inner)%nat -> (nz <= inner)%nat ->
  zMax < zMin + INR nz * spacing -> yMax < yMin + INR ny * spacing ->
  xMax < x + INR n * spacing ->
  is_Some (loopX fuel inner maxParticles xMax yMin yMax zMin zMax x st).
Proof.
  induction n as [| n IH]; intros x st fuel Hfuel Hiy Hiz Hzhi Hyhi Hhi.
  - simpl in Hhi.
    destruct fuel; cbn [loopX]; destruct (done st); try (eexists; reflexivity);
      destruct (Rle_dec x xMax); try lra; eexists; reflexivity.
  - destruct fuel as [| fuel]; [lia |].
    rewrite S_INR in Hhi. cbn [loopX].
    destruct (done st); [eexists; reflexivity |].
    destruct (Rle_dec x xMax); [| eexists; reflexivity].
    destruct (loopY_ends inner x yMax zMin zMax nz ny yMin st inner Hiy Hiz Hzhi Hyhi)
      as [st1 ->].
    apply IH; [lia | exact Hiy | exact Hiz | exact Hzhi | exact Hyhi | lra].
Qed.

End DamBreakFacts.

(** With enough fuel the three loops return, for every system. *)
Lemma run_ends (s : Host.System) :
  exists fuel0, forall k, is_Some (DamBreak.run (fuel0 + k) s).
Proof.
  destruct (steps_exist (vx (DamBreak.fluidMin s)) (vx (DamBreak.fluidMax s))) as [nx Hx].
  destruct (steps_exist (vy (DamBreak.fluidMin s)) (vy (DamBreak.fluidMax s))) as [ny Hy].
  destruct (steps_exist (vz (DamBreak.fluidMin s)) (vz (DamBreak.fluidMax s))) as [nz Hz].
  exists (nx + ny + nz)%nat. intros k.
  unfold DamBreak.run. cbv zeta.
  apply (loopX_ends (Host.maxParticles_ s) _ _ _ _ _ _ ny nz nx); try lia; assumption.
Qed.

(** X22 (the loops of [SPHComputeSystem::reset], with the loop variables
    as exact reals): for every system the three nested loops come to an
    end, and every position they created lies in the fluid block on every
    axis, hence inside the box at least a particle radius away from its
    walls; the counter equals the number of positions, and there are at
    most max(1, maxParticles_) of them (the first position is pushed before
    the capacity is tested). *)
Theorem dam_break_inside (s : Host.System) :
  exists fuel0, forall k,
    exists st,
      DamBreak.run (fuel0 + k) s = Some st
      /\ (forall v (axis : vec3 -> R), v ∈ DamBreak.positions st ->
            axis = vx \/ axis = vy \/ axis = vz ->
            (axis (DamBreak.fluidMin s) <= axis v <= axis (DamBreak.fluidMax s))%R
            /\ (axis (Host.boxMin_ s) + DamBreak.margin <= axis v
                <= axis (Host.boxMax_ s) - DamBreak.margin)%R)
      /\ DamBreak.particleCount st = Z.of_nat (length (DamBreak.positions st))
      /\ (Z.of_nat (length (DamBreak.positions st)) <= Z.max 1 (Host.maxParticles_ s))%Z.
Proof.
  destruct (run_ends s) as [fuel0 Hends]. exists fuel0. intros k.
  destruct (Hends k) as [st Hrun]. exists st. split; [exact Hrun |].
  set (fuel := (fuel0 + k)%nat) in *. clearbody fuel. clear Hends.
  set (Q := fun v : vec3 =>
              forall axis : vec3 -> R, axis = vx \/ axis = vy \/ axis = vz ->
                (axis (DamBreak.fluidMin s) <= axis v <= axis (DamBreak.fluidMax s))%R
                /\ (axis (Host.boxMin_ s) + DamBreak.margin <= axis v
                    <= axis (Host.boxMax_ s) - DamBreak.margin)%R).
  unfold DamBreak.run in Hrun. cbv zeta in Hrun.
  pose proof (loopX_good (Host.maxParticles_ s) Q fuel _ _ _ _ _ fuel _ _ _ Hrun) as Hgood.
  cbv zeta in Hgood.
  destruct Hgood as (Hall & Hcount & Hle & _).
  - cbn [DamBreak.positions DamBreak.particleCount DamBreak.done length].
    split; [apply Forall_nil; exact I |]. split; [reflexivity |]. split; lia.
  - intros x y z Hx Hy Hz axis Haxis.
    assert (Hlo : (axis (Host.boxMin_ s) + DamBreak.margin <= axis (DamBreak.fluidMin s))%R).
    { unfold DamBreak.fluidMin, DamBreak.vmax, V.add, V.splat.
      destruct Haxis as [-> | [-> | ->]]; cbn [vx vy vz]; apply Rmax_r. }
    assert (Hhi : (axis (DamBreak.fluidMax s) <= axis (Host.boxMax_ s) - DamBreak.margin)%R).
    { unfold DamBreak.fluidMax, DamBreak.vmin, V.sub, V.splat.
      destruct Haxis as [-> | [-> | ->]]; cbn [vx vy vz]; apply Rmin_r. }
    destruct Haxis as [-> | [-> | ->]]; cbn [vx vy vz] in *; lra.
  - split.
    + intros v axis Hv Haxis. rewrite Forall_forall in Hall. apply (Hall v Hv axis Haxis).
    + split; [exact Hcount | lia].
Qed.

Section DamBreakReset.
Import Host.
Local Open Scope Z_scope.

(** [reset] with a block that fits: the count is the size of the block and
    the block fills the front of the current buffer. *)
Lemma reset_fits (block : list vec3) (s : System) :
  Z.of_nat (length block) <= maxParticles_ s ->
  maxParticles_ s < U32.modulus ->
  Z.of_nat (length (currentParticles s)) = maxParticles_ s ->
  numParticles_ (reset block s) = Z.of_nat (length block)
  /\ forall i v, block !! i = Some v ->
       currentParticles (reset block s) !! i = Some (newParticle v V.zero).
Proof.
  intros Hfit Hmax Hbuf.
  set (s0 := set_numParticles 0 s).
  set (zeros := map (fun _ : vec3 => V.zero) block).
  assert (Hlen : length block = length zeros) by (unfold zeros; rewrite length_map; reflexivity).
  destruct (upload_spec block zeros s0 Hlen) as [Hnum Hcur]; try assumption;
    try (cbn [numParticles_ set_numParticles s0]; lia).
  assert (Hreset : reset block s
                   = set_numParticles
                       (U32.add (numParticles_ s0) (U32.wrap32 (Z.of_nat (length block))))
                       (uploadCurrent (numParticles_ s0) (zip_with newParticle block zeros) s0)).
  { unfold reset. fold s0 zeros. unfold addParticles.
    rewrite Hlen, Nat.eqb_refl. cbn [negb]. rewrite <- Hlen.
    destruct (Z.gtb_spec (numParticles_ s0 + Z.of_nat (length block)) (maxParticles_ s0))
      as [Hc | _]; [| reflexivity].
    cbn [numParticles_ maxParticles_ set_numParticles s0] in Hc. lia. }
  rewrite Hreset. split.
  - rewrite Hnum. cbn [numParticles_ set_numParticles s0]. lia.
  - intros i v Hv. rewrite Hcur.
    cbn [numParticles_ set_numParticles s0]. change (Z.to_nat 0) with 0%nat.
    rewrite take_0. cbn [app].
    rewrite lookup_app_l
      by (rewrite length_zip_with_l_eq by exact Hlen; apply lookup_lt_Some in Hv; exact Hv).
    rewrite lookup_zip_with, Hv. cbn [mbind option_bind].
    unfold zeros. rewrite list_lookup_fmap, Hv. reflexivity.
Qed.

End DamBreakReset.

(** X23 ([SPHComputeSystem::reset], with the loop variables as exact
    reals): when loop x admits exactly nx values, loop y ny and loop z nz
    (the last value lies within the block, the next one beyond it) and
    nx * ny * nz is below the capacity, the loops end without the [goto],
    having created nx * ny * nz positions; [reset] then sets the particle
    count to that number and stores the positions, at rest and with the
    rest density, at the front of the current buffer.  For the box of the
    manager these are 55 * 28 * 55 = 84700 particles. *)
Theorem dam_break_fills (s : Host.System) (nx ny nz fuel : nat) :
  let lo := DamBreak.fluidMin s in
  let hi := DamBreak.fluidMax s in
  (vx lo + (INR nx - 1) * DamBreak.spacing <= vx hi < vx lo + INR nx * DamBreak.spacing)%R ->
  (vy lo + (INR ny - 1) * DamBreak.spacing <= vy hi < vy lo + INR ny * DamBreak.spacing)%R ->
  (vz lo + (INR nz - 1) * DamBreak.spacing <= vz hi < vz lo + INR nz * DamBreak.spacing)%R ->
  (Z.of_nat (nx * (ny * nz)) < Host.maxParticles_ s)%Z ->
  (Host.maxParticles_ s < U32.modulus)%Z ->
  Z.of_nat (length (Host.currentParticles s)) = Host.maxParticles_ s ->
  (nx <= fuel)%nat -> (ny <= fuel)%nat -> (nz <= fuel)%nat ->
  exists st s',
    DamBreak.run fuel s = Some st
    /\ DamBreak.done st = false
    /\ length (DamBreak.positions st) = (nx * (ny * nz))%nat
    /\ DamBreak.reset fuel s = Some s'
    /\ Host.numParticles_ s' = Z.of_nat (nx * (ny * nz))
    /\ forall i v, DamBreak.positions st !! i = Some v ->
         Host.currentParticles s' !! i = Some (Particle v (99827 / 100) V.zero 0).
Proof.
  intros lo hi Hx Hy Hz Hcap Hmax Hbuf Hfx Hfy Hfz.
  destruct (loopX_count (Host.maxParticles_ s) fuel (vx hi) (vy lo) (vy hi) (vz lo) (vz hi)
              ny nz nx (vx lo) (DamBreak.MkState [] 0 false) fuel)
    as (st & Hrun & Hdone & Hcount & Hlen);
    try reflexivity; try assumption; try (right; lra); try lra.
  cbn [DamBreak.positions length] in Hlen.
  destruct (reset_fits (DamBreak.positions st) s) as [Hnum Hrec];
    [rewrite Hlen; lia | exact Hmax | exact Hbuf |].
  exists st, (Host.reset (DamBreak.positions st) s).
  assert (Hrun' : DamBreak.run fuel s = Some st) by exact Hrun.
  split; [exact Hrun' |]. split; [exact Hdone |]. split; [exact Hlen |].
  split; [unfold DamBreak.reset; rewrite Hrun'; reflexivity |].
  split; [rewrite Hnum, Hlen; reflexivity |].
  intros i v Hv. apply (Hrec i v Hv).
Qed.

Section DefaultBlock.
Local Open Scope R_scope.

(** The fluid block in the box of the manager. *)
Lemma default_block (s : Host.System) :
  Host.boxMin_ s = Vec3 (-5) (-5) (-5) -> Host.boxMax_ s = Vec3 5 5 5 ->
  DamBreak.fluidMin s = Vec3 (- (5 / 2)) (- (5 / 2)) (- (5 / 2))
  /\ DamBreak.fluidMax s = Vec3 (5 / 2) 0 (5 / 2).
Proof.
  intros Hmin Hmax.
  unfold DamBreak.fluidMin, DamBreak.fluidMax, HostGrid.gridSize, DamBreak.vmax,
    DamBreak.vmin, V.add, V.sub, V.scale, V.splat, DamBreak.margin,
    SPHConstants.PARTICLE_RADIUS.
  rewrite Hmin, Hmax. cbn [vx vy vz].
  split; f_equal;
    first [ rewrite Rmax_left by lra; lra | rewrite Rmin_left by lra; lra ].
Qed.

End DefaultBlock.

Lemma dam_break_fills_witness :
  let s := Host.initialize 100000 (Vec3 (-5) (-5) (-5)) (Vec3 5 5 5) Glsl.zeroParticle []
             (Host.constructed 1) in
  exists st s',
    DamBreak.run 55 s = Some st
    /\ DamBreak.done st = false
    /\ length (DamBreak.positions st) = (55 * (28 * 55))%nat
    /\ DamBreak.reset 55 s = Some s'
    /\ Host.numParticles_ s' = Z.of_nat (55 * (28 * 55))
    /\ forall i v, DamBreak.positions st !! i = Some v ->
         Host.currentParticles s' !! i = Some (Particle v (99827 / 100) V.zero 0).
Proof.
  destruct (initialize_default Glsl.zeroParticle [] 1) as (Hcap & Hmin & Hmax & _).
  destruct (default_block _ Hmin Hmax) as [Hlo Hhi].
  apply (dam_break_fills
           (Host.initialize 100000 (Vec3 (-5) (-5) (-5)) (Vec3 5 5 5) Glsl.zeroParticle []
              (Host.constructed 1)) 55 28 55 55).
  - rewrite Hlo, Hhi. cbn [vx]. rewrite INR_IZR_INZ.
    unfold DamBreak.spacing, SPHConstants.PARTICLE_RADIUS.
    change (Z.of_nat 55) with 55%Z. change (Z.of_nat 28) with 28%Z. lra.
  - rewrite Hlo, Hhi. cbn [vy]. rewrite INR_IZR_INZ.
    unfold DamBreak.spacing, SPHConstants.PARTICLE_RADIUS.
    change (Z.of_nat 55) with 55%Z. change (Z.of_nat 28) with 28%Z. lra.
  - rewrite Hlo, Hhi. cbn [vz]. rewrite INR_IZR_INZ.
    unfold DamBreak.spacing, SPHConstants.PARTICLE_RADIUS.
    change (Z.of_nat 55) with 55%Z. change (Z.of_nat 28) with 28%Z. lra.
  - rewrite Hcap. vm_compute. reflexivity.
  - rewrite Hcap. vm_compute. reflexivity.
  - vm_compute. reflexivity.
  - lia.
  - lia.
  - lia.
Defined.

(** ** The billboards *)

Section BillboardFacts.
Import Billboard.
Local Open Scope Z_scope.

Lemma indexAt_spec (k : Z) :
  0 <= k -> 4 * (k / 6) + 3 < U32.modulus ->
  indexAt k = 4 * (k / 6) + nth (Z.to_nat (k mod 6)) billboardIndices 0
  /\ 0 <= nth (Z.to_nat (k mod 6)) billboardIndices 0 <= 3.
Proof.
  intros Hk Hfit.
  assert (Hm : 0 <= k mod 6 < 6) by (apply Z.mod_pos_bound; lia).
  assert (Hd : 0 <= k / 6) by (apply Z.div_pos; lia).
  assert (Hc : 0 <= nth (Z.to_nat (k mod 6)) billboardIndices 0 <= 3).
  { assert (Hcases : k mod 6 = 0 \/ k mod 6 = 1 \/ k mod 6 = 2 \/ k mod 6 = 3
                     \/ k mod 6 = 4 \/ k mod 6 = 5) by lia.
    destruct Hcases as [-> | [-> | [-> | [-> | [-> | ->]]]]]; vm_compute; split; discriminate. }
  split; [| exact Hc].
  unfold indexAt, U32.add, U32.mul, U32.div, U32.wrap32,
    billboardIndexCount, billboardVertexCount.
  cbv zeta.
  rewrite (Z.mod_small (k / 6 * 4)) by lia.
  rewrite Z.mod_small by lia. lia.
Qed.

Lemma main_decodes (uParticleCount gid lid : Z) :
  0 <= gid < uParticleCount -> 0 <= lid <= 3 -> 4 * gid + lid < 2 ^ 31 ->
  main uParticleCount (toInt (4 * gid + lid)) = Corner gid lid.
Proof.
  intros Hg Hl Hfit.
  unfold toInt. destruct (Z.ltb_spec (4 * gid + lid) (2 ^ 31)) as [_ | Hge]; [| lia].
  unfold main. cbv zeta.
  rewrite Z.quot_div_nonneg, Z.rem_mod_nonneg by lia.
  assert (Hq : (4 * gid + lid) / 4 = gid).
  { symmetry. apply (Z.div_unique (4 * gid + lid) 4 gid lid); lia. }
  assert (Hr : (4 * gid + lid) mod 4 = lid).
  { symmetry. apply (Z.mod_unique (4 * gid + lid) 4 gid lid); lia. }
  rewrite Hq, Hr. unfold U32.wrap32, U32.modulus.
  rewrite !Z.mod_small by lia.
  destruct (Z.leb_spec uParticleCount gid) as [Hle | _]; [lia | reflexivity].
Qed.

End BillboardFacts.

(** X24 ([SPHComputeSystem::createBuffers] with the draw calls and [main]
    of the two billboard vertex shaders): let numParticles_ <= maxParticles_
    and 6 * maxParticles_ < 2^32, so that the index buffer has its
    6 * maxParticles_ elements.  When 6 * numParticles_ < 2^31 the draw call
    gives every particle in use one quad: it has 6 * numParticles_
    vertices, none of them is clipped by the bounds check of the shader,
    and element k is decoded as corner billboardIndices[k mod 6] of
    particle k / 6: the triangles (0, 1, 2) and (2, 1, 3) of particle 0,
    then those of particle 1, and so on.  When 6 * numParticles_ >= 2^31
    the count is negative as a GLsizei and nothing is drawn. *)
Theorem billboards_drawn (maxParticles numParticles : Z) :
  (0 <= numParticles <= maxParticles)%Z -> (6 * maxParticles < 2 ^ 32)%Z ->
  ((6 * numParticles < 2 ^ 31)%Z ->
   length (Billboard.draw maxParticles numParticles) = Z.to_nat (6 * numParticles)
   /\ forall k, (0 <= k < 6 * numParticles)%Z ->
        Billboard.draw maxParticles numParticles !! Z.to_nat k
        = Some (Billboard.Corner (k / 6)
                  (nth (Z.to_nat (k mod 6)) Billboard.billboardIndices 0%Z)))
  /\ ((2 ^ 31 <= 6 * numParticles)%Z -> Billboard.draw maxParticles numParticles = []).
Proof.
  intros Hn Hmax.
  assert (Hsix : forall n, (0 <= n <= maxParticles)%Z -> U32.mul 6 n = (6 * n)%Z).
  { intros n Hle. unfold U32.mul, U32.wrap32, U32.modulus. apply Z.mod_small. lia. }
  unfold Billboard.draw. cbv zeta. rewrite (Hsix numParticles) by lia.
  split.
  - intros Hsmall.
    assert (Hcount : Billboard.toInt (6 * numParticles) = (6 * numParticles)%Z).
    { unfold Billboard.toInt.
      destruct (Z.ltb_spec (6 * numParticles) (2 ^ 31)) as [_ | Hge]; [reflexivity | lia]. }
    rewrite Hcount.
    destruct (Z.ltb_spec (6 * numParticles) 0) as [Hneg | _]; [lia |].
    unfold Billboard.indices, Billboard.billboardIndexCount.
    rewrite (Hsix maxParticles) by lia.
    split.
    + rewrite length_map, length_take, length_map, length_seq. lia.
    + intros k Hk.
      assert (Hd : (0 <= k / 6 < numParticles)%Z).
      { split; [apply Z.div_pos; lia | apply Z.div_lt_upper_bound; lia]. }
      destruct (indexAt_spec k) as [Hindex Hcorner];
        [lia | unfold U32.modulus; lia |].
      rewrite list_lookup_fmap, lookup_take_lt by lia.
      rewrite list_lookup_fmap, lookup_seq_lt by lia.
      cbn [fmap option_fmap option_map Nat.add].
      rewrite Z2Nat.id by lia. rewrite Hindex.
      f_equal. apply main_decodes; [exact Hd | exact Hcorner | lia].
  - intros Hbig.
    assert (Hcount : Billboard.toInt (6 * numParticles)
                     = (6 * numParticles - U32.modulus)%Z).
    { unfold Billboard.toInt.
      destruct (Z.ltb_spec (6 * numParticles) (2 ^ 31)) as [Hlt | _]; [lia | reflexivity]. }
    rewrite Hcount.
    destruct (Z.ltb_spec (6 * numParticles - U32.modulus) 0) as [_ | Hge];
      [reflexivity | unfold U32.modulus in Hge; lia].
Qed.

Lemma billboards_drawn_witness :
  length (Billboard.draw 100352 84700) = Z.to_nat (6 * 84700)
  /\ forall k, (0 <= k < 6 * 84700)%Z ->
       Billboard.draw 100352 84700 !! Z.to_nat k
       = Some (Billboard.Corner (k / 6)
                 (nth (Z.to_nat (k mod 6)) Billboard.billboardIndices 0%Z)).
Proof.
  apply (proj1 (billboards_drawn 100352 84700 ltac:(lia) ltac:(lia))). lia.
Defined.
